(** * SCHostTransform: the symbolic expression engine

    A shallow embedding of the expression engine of
    [llvm/lib/Transforms/SCHostTransform/SCHostTransform.cpp]: the token
    classifier, the binary and n-ary tree builders, the host-side concrete and
    interval evaluators, the coefficient extractor, loop accounting and the
    access-density estimator, together with the properties they satisfy.

    Conventions.
    - [unsigned] is a [Z] kept in [0, 2^32), [unsigned long long] a [Z] in
      [0, 2^64); every conversion is written out with [u32] / [u64].
    - A pointer to an [ExprTreeNode] is an index into the store of all nodes
      allocated so far ([new ExprTreeNode()] appends a zero-initialised
      record); [nullptr] is [None].
    - A computation that can fail returns an [outcome]: it yields a value,
      runs into undefined behaviour (null dereference, [top()] of an empty
      stack, use of an uninitialised variable, over-wide shift), leaves by an
      uncaught [std::stoi] exception, or stops at a failed [assert]. *)

From Stdlib Require Import ZArith Ascii String Lia.
From stdpp Require Import base option list strings gmap sorting.

(** ** Outcomes *)

Inductive outcome (A : Type) : Type :=
  | Ret (a : A)
  | Undefined
  | Exception
  | Abort
  | OutOfFuel.
Arguments Ret {A} a.
Arguments Undefined {A}.
Arguments Exception {A}.
Arguments Abort {A}.
Arguments OutOfFuel {A}.

#[global] Instance outcome_ret : MRet outcome := @Ret.
#[global] Instance outcome_bind : MBind outcome := λ A B f m,
  match m with
  | Ret a => f a
  | Undefined => Undefined
  | Exception => Exception
  | Abort => Abort
  | OutOfFuel => OutOfFuel
  end.

(** Dereferencing: [nullptr] and dangling pointers are undefined behaviour. *)
Definition deref {A} (o : option A) : outcome A :=
  match o with Some a => Ret a | None => Undefined end.

(** ** Machine integers *)

Definition u32 (z : Z) : Z := (z mod 2 ^ 32)%Z.
Definition u64 (z : Z) : Z := (z mod 2 ^ 64)%Z.
Definition INT_MAX : Z := (2 ^ 31 - 1)%Z.
Definition INT_MIN : Z := (- 2 ^ 31)%Z.
(** The value of a 32-bit pattern read as a signed [int]. *)
Definition s32 (z : Z) : Z :=
  let r := u32 z in if (r <? 2 ^ 31)%Z then r else (r - 2 ^ 32)%Z.

(** ** Tokens: [isDigit], [std::stoi], [isNumber], [getExprTreeOp] *)

Definition isDigit (c : ascii) : bool :=
  (48 <=? nat_of_ascii c) && (nat_of_ascii c <=? 57).

Definition isspace (c : ascii) : bool :=
  let n := nat_of_ascii c in (n =? 32) || ((9 <=? n) && (n <=? 13)).

Definition digitValue (c : ascii) : Z := (Z.of_nat (nat_of_ascii c) - 48)%Z.

Fixpoint skip_space (cs : list ascii) : list ascii :=
  match cs with
  | c :: cs' => if isspace c then skip_space cs' else cs
  | [] => []
  end.

Fixpoint read_digits (acc : Z) (cs : list ascii) : Z :=
  match cs with
  | c :: cs' =>
      if isDigit c then read_digits (acc * 10 + digitValue c)%Z cs' else acc
  | [] => acc
  end.

(** [std::stoi(str)]: leading white space, an optional sign, then decimal
    digits; [std::invalid_argument] when there is no digit and
    [std::out_of_range] when the number does not fit an [int]. *)
Definition stoi (str : string) : outcome Z :=
  let cs := skip_space (list_ascii_of_string str) in
  let '(neg, ds) :=
    match cs with
    | "-"%char :: r => (true, r)
    | "+"%char :: r => (false, r)
    | _ => (false, cs)
    end in
  match ds with
  | d :: _ =>
      if isDigit d then
        let v := read_digits 0 ds in
        let v := if neg then (- v)%Z else v in
        if (INT_MIN <=? v)%Z && (v <=? INT_MAX)%Z then Ret v else Exception
      else Exception
  | [] => Exception
  end.

(** The loop of [isNumber]: [first] is [op[0]], [cs] the characters still to
    be visited.  When [op[0]] is ['-'] every iteration [continue]s. *)
Fixpoint isNumber_loop (first : ascii) (cs : list ascii) : bool :=
  match cs with
  | [] => true
  | c :: cs' =>
      if Ascii.eqb first "-" then isNumber_loop first cs'
      else if negb (isDigit c) then false
      else isNumber_loop first cs'
  end.

Definition isNumber (op : string) : bool :=
  match op with
  | EmptyString => true
  | String first _ => isNumber_loop first (list_ascii_of_string op)
  end.

Inductive ExprTreeOp : Set :=
  | ETO_PC | ETO_ADD | ETO_SUB | ETO_AND | ETO_OR | ETO_MUL | ETO_DIV
  | ETO_UDIV | ETO_SDIV | ETO_SREM | ETO_FMUL | ETO_FDIV | ETO_SHL | ETO_LSHR
  | ETO_DOUBLE | ETO_PHI | ETO_ICMP | ETO_FCMP | ETO_MEMOP | ETO_CONST
  | ETO_PHI_TERM | ETO_BDIMX | ETO_BDIMY | ETO_BIDX | ETO_BIDY | ETO_TIDX
  | ETO_TIDY | ETO_ARG | ETO_GEP | ETO_ZEXT | ETO_SEXT | ETO_FREEZE
  | ETO_TRUNC | ETO_FPTOSI | ETO_UITOFP | ETO_SITOFP | ETO_SELECT
  | ETO_ATOMICRMW | ETO_UNDEF | ETO_INCOMP | ETO_UNKNOWN | ETO_CALL
  | ETO_INTERM | ETO_LOAD | ETO_NONE.

(** The enumerator values, in declaration order. *)
Definition ExprTreeOp_code (o : ExprTreeOp) : nat :=
  match o with
  | ETO_PC => 0 | ETO_ADD => 1 | ETO_SUB => 2 | ETO_AND => 3 | ETO_OR => 4
  | ETO_MUL => 5 | ETO_DIV => 6 | ETO_UDIV => 7 | ETO_SDIV => 8
  | ETO_SREM => 9 | ETO_FMUL => 10 | ETO_FDIV => 11 | ETO_SHL => 12
  | ETO_LSHR => 13 | ETO_DOUBLE => 14 | ETO_PHI => 15 | ETO_ICMP => 16
  | ETO_FCMP => 17 | ETO_MEMOP => 18 | ETO_CONST => 19 | ETO_PHI_TERM => 20
  | ETO_BDIMX => 21 | ETO_BDIMY => 22 | ETO_BIDX => 23 | ETO_BIDY => 24
  | ETO_TIDX => 25 | ETO_TIDY => 26 | ETO_ARG => 27 | ETO_GEP => 28
  | ETO_ZEXT => 29 | ETO_SEXT => 30 | ETO_FREEZE => 31 | ETO_TRUNC => 32
  | ETO_FPTOSI => 33 | ETO_UITOFP => 34 | ETO_SITOFP => 35 | ETO_SELECT => 36
  | ETO_ATOMICRMW => 37 | ETO_UNDEF => 38 | ETO_INCOMP => 39
  | ETO_UNKNOWN => 40 | ETO_CALL => 41 | ETO_INTERM => 42 | ETO_LOAD => 43
  | ETO_NONE => 44
  end.

#[global] Instance ExprTreeOp_eq_dec : EqDecision ExprTreeOp.
Proof. solve_decision. Defined.

(** The chain of string comparisons of [getExprTreeOp], in source order: each
    entry is the operator returned when the token equals the text. *)
Definition opTable : list (string * ExprTreeOp) :=
  [ ("PC", ETO_PC); ("ADD", ETO_ADD); ("SUB", ETO_SUB); ("AND", ETO_AND);
    ("OR", ETO_OR); ("MUL", ETO_MUL); ("SHL", ETO_SHL); ("LSHR", ETO_LSHR);
    ("DIV", ETO_DIV); ("UDIV", ETO_UDIV); ("SDIV", ETO_SDIV);
    ("SREM", ETO_SREM); ("FDIV", ETO_FDIV); ("FMUL", ETO_FMUL);
    ("PHI", ETO_PHI); ("ICMP", ETO_ICMP); ("FCMP", ETO_FCMP);
    ("LOAD", ETO_MEMOP); ("STORE", ETO_MEMOP); ("TIDX", ETO_TIDX);
    ("TIDY", ETO_TIDY); ("BIDX", ETO_BIDX); ("BIDY", ETO_BIDY);
    ("BDIMX", ETO_BDIMX); ("BDIMY", ETO_BDIMY); ("GEP", ETO_GEP);
    ("ZEXT", ETO_ZEXT); ("SEXT", ETO_SEXT); ("FREEZE", ETO_FREEZE);
    ("double", ETO_DOUBLE); ("TRUNC", ETO_TRUNC); ("FPTOSI", ETO_FPTOSI);
    ("SITOFP", ETO_SITOFP); ("UITOFP", ETO_UITOFP); ("SELECT", ETO_SELECT);
    ("CALL", ETO_CALL); ("ATOMICRMW", ETO_ATOMICRMW); ("UNDEF", ETO_UNDEF);
    ("LOAD", ETO_LOAD); ("INCOMP", ETO_INCOMP); ("UNKNOWN", ETO_UNKNOWN) ]%string.

Fixpoint firstMatch (op : string) (tbl : list (string * ExprTreeOp))
  : option ExprTreeOp :=
  match tbl with
  | [] => None
  | (txt, o) :: tbl' => if String.eqb op txt then Some o else firstMatch op tbl'
  end.

(** [op.substr(pos)] for [pos <= op.size()]. *)
Definition substr_from (pos : nat) (op : string) : string :=
  substring pos (String.length op) op.

Definition getExprTreeOp (op : string) : outcome ExprTreeOp :=
  if isNumber op then Ret ETO_CONST
  else match firstMatch op opTable with
       | Some o => Ret o
       | None =>
           if String.eqb (substring 0 3 op) "ARG" then Ret ETO_ARG
           else if String.eqb (substring 0 3 op) "PHI" then Ret ETO_PHI
           else Abort (* assert(0) *)
       end.

Definition getExprTreeNodeArg (op : string) : outcome Z :=
  n ← stoi (substr_from 3 op); Ret (u32 n).
Definition getExprTreePhiArg (op : string) : outcome Z :=
  n ← stoi (substr_from 3 op); Ret (u32 n).

(** [setTerminalsAndOperations]. *)
Definition terminals : list ExprTreeOp :=
  [ ETO_TIDX; ETO_TIDY; ETO_BIDX; ETO_BIDY; ETO_BDIMX; ETO_BDIMY;
    ETO_PHI_TERM; ETO_ARG; ETO_CONST; ETO_INTERM; ETO_INCOMP ].
Definition operations : list ExprTreeOp :=
  [ ETO_ADD; ETO_AND; ETO_SUB; ETO_OR; ETO_MUL; ETO_UDIV; ETO_SDIV; ETO_SHL;
    ETO_PHI; ETO_ICMP ].

Definition isTerminalOp (o : ExprTreeOp) : bool := bool_decide (o ∈ terminals).
Definition isOperationOp (o : ExprTreeOp) : bool := bool_decide (o ∈ operations).

(** ** Binary expression trees *)

(** Pointers into a node store. *)
Abbreviation ptr := nat.

Record ExprTreeNode : Type := mkNode {
  op : ExprTreeOp;
  arg : Z;
  value : Z;
  original_str : string;
  parent : option ptr;
  child0 : option ptr;   (* children[0] *)
  child1 : option ptr;   (* children[1] *)
  isProb : bool
}.

(** [new ExprTreeNode()]: value-initialised, so every member is zero. *)
Definition new_ExprTreeNode : ExprTreeNode :=
  mkNode ETO_PC 0 0 "" None None None false.

Definition set_op (o : ExprTreeOp) (n : ExprTreeNode) : ExprTreeNode :=
  mkNode o (arg n) (value n) (original_str n) (parent n) (child0 n) (child1 n)
    (isProb n).
Definition set_arg (a : Z) (n : ExprTreeNode) : ExprTreeNode :=
  mkNode (op n) a (value n) (original_str n) (parent n) (child0 n) (child1 n)
    (isProb n).
Definition set_value (v : Z) (n : ExprTreeNode) : ExprTreeNode :=
  mkNode (op n) (arg n) v (original_str n) (parent n) (child0 n) (child1 n)
    (isProb n).
Definition set_original_str (s : string) (n : ExprTreeNode) : ExprTreeNode :=
  mkNode (op n) (arg n) (value n) s (parent n) (child0 n) (child1 n) (isProb n).
Definition set_parent (p : option ptr) (n : ExprTreeNode) : ExprTreeNode :=
  mkNode (op n) (arg n) (value n) (original_str n) p (child0 n) (child1 n)
    (isProb n).
Definition set_children (c0 c1 : option ptr) (n : ExprTreeNode) : ExprTreeNode :=
  mkNode (op n) (arg n) (value n) (original_str n) (parent n) c0 c1 (isProb n).

Definition isTerminal (n : ExprTreeNode) : bool := isTerminalOp (op n).
Definition isOperation (n : ExprTreeNode) : bool := isOperationOp (op n).
Definition isPhiNode (n : ExprTreeNode) : bool := bool_decide (op n = ETO_PHI).

(** *** [createExpressionTree] *)

(** First loop: one node per token, [op] from the classifier. *)
Fixpoint makeNodes (RPN : list string) : outcome (list ExprTreeNode) :=
  match RPN with
  | [] => Ret []
  | str :: rest =>
      o ← getExprTreeOp str;
      ns ← makeNodes rest;
      Ret (set_original_str str (set_op o new_ExprTreeNode) :: ns)
  end.

(** Second loop: the argument index of every [ETO_ARG] node. *)
Fixpoint setArgs (ns : list ExprTreeNode) : outcome (list ExprTreeNode) :=
  match ns with
  | [] => Ret []
  | n :: rest =>
      n' ← (if bool_decide (op n = ETO_ARG)
            then a ← getExprTreeNodeArg (original_str n); Ret (set_arg a n)
            else Ret n);
      rest' ← setArgs rest;
      Ret (n' :: rest')
  end.

Record BuildState : Type := mkBuild {
  store : list ExprTreeNode;
  stack : list ptr;          (* top of the stack first *)
  phi_term_seen : bool
}.

Inductive Step : Type :=
  | Continue (s : BuildState)
  | ReturnNull (h : list ExprTreeNode).

(** Pop two children and hang them under [node]. *)
Definition reduce (s : BuildState) (node : ptr) (seen : bool) : Step :=
  match stack s with
  | [] => ReturnNull (store s)
  | child1 :: stk1 =>
      match stk1 with
      | [] => ReturnNull (store s)
      | child2 :: stk2 =>
          let h1 := alter (set_parent (Some node)) child1 (store s) in
          let h2 := alter (set_parent (Some node)) child2 h1 in
          let h3 := alter (set_children (Some child1) (Some child2)) node h2 in
          Continue (mkBuild h3 (node :: stk2) seen)
      end
  end.

(** One iteration of the tree-making loop, for the node at [node]. *)
Definition treeStep (s : BuildState) (node : ptr) : outcome Step :=
  n ← deref (store s !! node);
  if isPhiNode n then
    if negb (phi_term_seen s) then
      Ret (Continue (mkBuild (alter (set_op ETO_PHI_TERM) node (store s))
                             (node :: stack s) true))
    else Ret (reduce s node false)
  else if isOperation n then Ret (reduce s node (phi_term_seen s))
  else Ret (Continue (mkBuild (store s) (node :: stack s) (phi_term_seen s))).

Fixpoint treeLoop (s : BuildState) (nodes : list ptr) : outcome Step :=
  match nodes with
  | [] => Ret (Continue s)
  | node :: rest =>
      r ← treeStep s node;
      match r with
      | Continue s' => treeLoop s' rest
      | ReturnNull h => Ret (ReturnNull h)
      end
  end.

(** [createExpressionTree RPN h]: builds the tree in the store [h] and returns
    the new store with the pointer to the root ([None] for [nullptr]). *)
Definition createExpressionTree (RPN : list string) (h : list ExprTreeNode)
  : outcome (list ExprTreeNode * option ptr) :=
  let RPN := reverse RPN in
  match RPN with
  | [] => Ret (h, None)
  | first :: _ =>
      if bool_decide (50 < length RPN) then
        Ret (h ++ [set_op ETO_PC new_ExprTreeNode], Some (length h))
      else if String.eqb first "INCOMP" then
        Ret (h ++ [set_op ETO_INCOMP new_ExprTreeNode], Some (length h))
      else
        ns ← makeNodes RPN;
        ns ← setArgs ns;
        let RPN_Nodes := seq (length h) (length ns) in
        r ← treeLoop (mkBuild (h ++ ns) [] false) RPN_Nodes;
        match r with
        | ReturnNull h' => Ret (h', None)
        | Continue s =>
            match stack s with
            | [] => Undefined
            | root :: _ => Ret (store s, Some root)
            end
        end
  end.


(** ** The host program as seen by the pass *)

(** An [llvm::Value*] of the host module: its address [vid] and what
    [dyn_cast] can tell about it. *)
Inductive Opcode : Set := Mul | SDiv | UDiv | Sub | Add | LShr | OtherOpcode.

Inductive ValueKind : Set :=
  | KConstantInt (sext : Z)          (* ConstantInt, with its getSExtValue() *)
  | KPHINode
  | KBinaryOperator (opc : Opcode)
  | KOtherInstruction
  | KOther.

Inductive IRType : Set := i1 | i32 | i64 | double_ty.

#[global] Instance IRType_eq_dec : EqDecision IRType.
Proof. solve_decision. Defined.

Record HostValue : Set := mkValue { vid : nat; vkind : ValueKind; vty : IRType }.

Inductive BlockSizeType : Set :=
  AXIS_TYPE_BDIMX | AXIS_TYPE_BDIMY | AXIS_TYPE_BDIMZ | AXIS_TYPE_NONE.
Inductive GridSizeType : Set :=
  AXIS_TYPE_GDIMX | AXIS_TYPE_GDIMY | AXIS_TYPE_GDIMZ | AXIS_TYPE_GNONE.

#[global] Instance BlockSizeType_eq_dec : EqDecision BlockSizeType.
Proof. solve_decision. Defined.
#[global] Instance GridSizeType_eq_dec : EqDecision GridSizeType.
Proof. solve_decision. Defined.

Definition BlockSizeType_code (a : BlockSizeType) : nat :=
  match a with
  | AXIS_TYPE_BDIMX => 0 | AXIS_TYPE_BDIMY => 1
  | AXIS_TYPE_BDIMZ => 2 | AXIS_TYPE_NONE => 3
  end.
Definition BlockSizeType_of_code (n : nat) : BlockSizeType :=
  match n with
  | 0 => AXIS_TYPE_BDIMX | 1 => AXIS_TYPE_BDIMY
  | 2 => AXIS_TYPE_BDIMZ | _ => AXIS_TYPE_NONE
  end.
#[global] Instance BlockSizeType_countable : Countable BlockSizeType :=
  inj_countable' BlockSizeType_code BlockSizeType_of_code
    ltac:(intros []; reflexivity).

Definition GridSizeType_code (a : GridSizeType) : nat :=
  match a with
  | AXIS_TYPE_GDIMX => 0 | AXIS_TYPE_GDIMY => 1
  | AXIS_TYPE_GDIMZ => 2 | AXIS_TYPE_GNONE => 3
  end.
Definition GridSizeType_of_code (n : nat) : GridSizeType :=
  match n with
  | 0 => AXIS_TYPE_GDIMX | 1 => AXIS_TYPE_GDIMY
  | 2 => AXIS_TYPE_GDIMZ | _ => AXIS_TYPE_GNONE
  end.
#[global] Instance GridSizeType_countable : Countable GridSizeType :=
  inj_countable' GridSizeType_code GridSizeType_of_code
    ltac:(intros []; reflexivity).

(** The global maps of the pass, restricted to one kernel invocation [CI] and
    its kernel.  [m[k]] on a [std::map] with an absent key yields the
    value-initialised element: [0] for a number, [nullptr] for a pointer. *)
Record Invocation : Type := mkInvocation {
  KernelInvocationToBlockSizeMap : gmap BlockSizeType Z;
  KernelInvocationToGridSizeMap : gmap GridSizeType Z;
  (* the grid-size Value, given by the operand sequence that
     getExpressionTree produces for it *)
  KernelInvocationToGridSizeValueMap : gmap GridSizeType (list HostValue);
  KernelInvocationToArgNumberToConstantMap : gmap Z HostValue;
  KernelInvocationToArgNumberToActualArgMap : gmap Z HostValue;
  FormalArgumentToActualArgumentMap : gmap nat (list HostValue);
  TerminalValues : gset nat;
  PointerOpToOriginalConstant : gmap nat Z;
  (* the node store, and the loop-bound trees rooted in it *)
  nodes : list ExprTreeNode;
  LoopIDToBoundsExprMapIn : gmap Z ptr;
  LoopIDToBoundsExprMapFin : gmap Z ptr
}.

Definition blockSize (CI : Invocation) (a : BlockSizeType) : Z :=
  default 0%Z (KernelInvocationToBlockSizeMap CI !! a).
Definition gridSize (CI : Invocation) (a : GridSizeType) : Z :=
  default 0%Z (KernelInvocationToGridSizeMap CI !! a).

(** ** Concrete evaluation on the host side *)

(** [FormalArgumentToActualArgumentMap[V][0]]: indexing the empty vector that
    [operator[]] creates for an absent key is undefined. *)
Definition firstActual (CI : Invocation) (V : HostValue) : outcome HostValue :=
  deref (head (default [] (FormalArgumentToActualArgumentMap CI !! vid V))).

Definition getActualHostValueForLiterals (CI : Invocation) (node : ExprTreeNode)
  : outcome Z :=
  match op node with
  | ETO_INTERM => Ret (u32 (value node))
  | ETO_CONST => n ← stoi (original_str node); Ret (u32 n)
  | ETO_BDIMX => Ret (blockSize CI AXIS_TYPE_BDIMX)
  | ETO_BDIMY => Ret (blockSize CI AXIS_TYPE_BDIMY)
  | ETO_BIDX | ETO_BIDY => Ret 1%Z
  | ETO_ARG =>
      match KernelInvocationToArgNumberToConstantMap CI !! arg node with
      | Some ConstArg =>
          match vkind ConstArg with
          | KConstantInt v => Ret (u32 v)
          | _ => Ret 0%Z
          end
      | None =>
          match KernelInvocationToArgNumberToActualArgMap CI !! arg node with
          | Some ArgInQ =>
              a ← firstActual CI ArgInQ;
              match vkind a with
              | KConstantInt v => Ret (u32 v)
              | _ => Ret 0%Z
              end
          | None => Ret 0%Z
          end
      end
  | _ => Ret 0%Z
  end.

(** [v1 << v2] on [unsigned long long]. *)
Definition shl64 (v1 v2 : Z) : outcome Z :=
  if (v2 <? 64)%Z then Ret (u64 (Z.shiftl v1 v2)) else Undefined.

(** The node returned by [operate], [operateMax] and [operateMin]. *)
Definition interm (res : Z) : ExprTreeNode :=
  set_value res (set_op ETO_INTERM new_ExprTreeNode).

Definition operate (CI : Invocation) (operation op1 op2 : ExprTreeNode)
  : outcome ExprTreeNode :=
  v1 ← getActualHostValueForLiterals CI op1;
  v2 ← getActualHostValueForLiterals CI op2;
  let res := 1%Z in
  res ← (if bool_decide (op operation = ETO_SHL) then shl64 v1 v2 else Ret res);
  let res := if bool_decide (op operation = ETO_MUL) then u64 (v1 * v2) else res in
  let res := if bool_decide (op operation = ETO_ADD) then u64 (v1 + v2) else res in
  let res := if bool_decide (op operation = ETO_OR) then u64 (v1 + v2) else res in
  Ret (interm res).

(** The stack loop shared, statement for statement, by [evaluateRPN],
    [evaluateRPNforMax] and [evaluateRPNforMin]; they differ in the function
    that resolves a literal and in the function that combines two operands.
    The stack holds the nodes pointed to; the assignment to the token's [value]
    member is made on the node pushed. *)
Section RPNLoop.
Context (literal : ExprTreeNode → outcome Z).
Context (combine : ExprTreeNode → ExprTreeNode → ExprTreeNode →
                   outcome ExprTreeNode).

Definition rpnStep (stk : list ExprTreeNode) (Token : ExprTreeNode)
  : outcome (list ExprTreeNode) :=
  if isOperation Token then
    match stk with
    | op1 :: op2 :: rest =>
        if isTerminal op1 && isTerminal op2 then
          result ← combine Token op1 op2;
          Ret (set_op ETO_INTERM result :: rest)
        else Undefined       (* result is used uninitialised *)
    | _ => Undefined         (* top() of an empty stack *)
    end
  else
    v ← literal Token;
    Ret (set_value v Token :: stk).

Fixpoint rpnLoop (stk : list ExprTreeNode) (RPN : list ExprTreeNode)
  : outcome (list ExprTreeNode) :=
  match RPN with
  | [] => Ret stk
  | Token :: rest => stk' ← rpnStep stk Token; rpnLoop stk' rest
  end.

Definition rpnValue (RPN : list ExprTreeNode) : outcome Z :=
  stk ← rpnLoop [] RPN;
  top ← deref (head stk);
  Ret (value top).
End RPNLoop.

Definition evaluateRPN (CI : Invocation) (RPN : list ExprTreeNode) : outcome Z :=
  rpnValue (getActualHostValueForLiterals CI) (operate CI) RPN.

(** The conversion of a tree to its node sequence: an explicit stack, every
    popped node appended to [RPN], the children of operations pushed. *)
Fixpoint toRPN (fuel : nat) (h : list ExprTreeNode) (Stack : list (option ptr))
    (RPN : list ExprTreeNode) : outcome (list ExprTreeNode) :=
  match Stack with
  | [] => Ret RPN
  | Current :: Stack' =>
      match fuel with
      | 0 => OutOfFuel
      | S fuel' =>
          n ← deref (Current ≫= (h !!.));
          if isOperation n then
            toRPN fuel' h (child1 n :: child0 n :: Stack') (RPN ++ [n])
          else toRPN fuel' h Stack' (RPN ++ [n])
      end
  end.

(** [evaluateExpressionTree CI root], on the trees stored in [nodes CI].  A
    tree has at most as many nodes as the store, which bounds the loop. *)
Definition evaluateExpressionTree (CI : Invocation) (root : option ptr)
  : outcome Z :=
  RPN ← toRPN (length (nodes CI)) (nodes CI) [root] [];
  evaluateRPN CI (reverse RPN).

(** ** Host-side evaluation of a grid-size expression at iteration 0 *)

Definition fits_int (z : Z) : bool := (INT_MIN <=? z)%Z && (z <=? INT_MAX)%Z.
Definition checked_int (z : Z) : outcome Z :=
  if fits_int z then Ret z else Undefined.   (* signed overflow *)

(** [operate(BinaryOperator*, int v1, int v2)]: [int] arithmetic, the result
    widened to [long long]; [res] stays uninitialised for any other opcode. *)
Definition operateBO (opc : Opcode) (v1 v2 : Z) : outcome Z :=
  match opc with
  | Mul => checked_int (v1 * v2)
  | SDiv | UDiv =>
      if (v1 =? 0)%Z then Undefined else checked_int (Z.quot v2 v1)
  | Sub => checked_int (v2 - v1)
  | Add => checked_int (v1 + v2)
  | LShr =>
      if (0 <=? v1)%Z && (v1 <? 32)%Z then Ret (Z.shiftr v2 v1) else Undefined
  | OtherOpcode => Undefined
  end.

Definition iter0Step (CI : Invocation) (st : list Z * bool) (Token : HostValue)
  : outcome (list Z * bool) :=
  let '(stk, phiseen) := st in
  if bool_decide (vid Token ∈ TerminalValues CI) then
    ActualArg ← firstActual CI Token;
    match vkind ActualArg with
    | KConstantInt v => Ret (v :: stk, phiseen)
    | _ =>
        match PointerOpToOriginalConstant CI !! vid ActualArg with
        | Some c => Ret (u32 c :: stk, phiseen)
        | None => Ret (stk, phiseen)
        end
    end
  else
    match vkind Token with
    | KConstantInt v => Ret (v :: stk, phiseen)
    | KPHINode =>
        if negb phiseen then Ret (0%Z :: stk, true)
        else
          match stk with
          | op1 :: op2 :: rest =>
              Ret ((if (op1 <? op2)%Z then op1 else op2) :: rest, phiseen)
          | _ => Undefined
          end
    | KBinaryOperator opc =>
        match stk with
        | op1 :: op2 :: rest =>
            result ← operateBO opc (s32 op1) (s32 op2);
            Ret (result :: rest, phiseen)
        | _ => Undefined
        end
    | KOtherInstruction | KOther => Ret (stk, phiseen)
    end.

Fixpoint iter0Loop (CI : Invocation) (st : list Z * bool) (RPN : list HostValue)
  : outcome (list Z * bool) :=
  match RPN with
  | [] => Ret st
  | Token :: rest => st' ← iter0Step CI st Token; iter0Loop CI st' rest
  end.

Definition evaluateRPNForIter0 (CI : Invocation) (RPN : list HostValue)
  : outcome Z :=
  st ← iter0Loop CI ([], false) (reverse RPN);
  deref (head st.1).

(** ** Interval evaluation on the host side *)

Definition getMaxValueForLiterals (CI : Invocation) (node : ExprTreeNode)
    (LoopArg loopid : Z) : outcome Z :=
  match op node with
  | ETO_ARG =>
      if bool_decide (arg node = LoopArg) then Ret 0%Z
      else getActualHostValueForLiterals CI node
  | ETO_PHI_TERM =>
      if bool_decide (loopid = 0%Z) then Ret 1%Z
      else
        v ← evaluateExpressionTree CI (LoopIDToBoundsExprMapFin CI !! loopid);
        Ret (u32 v)
  | ETO_TIDX => Ret (u32 (blockSize CI AXIS_TYPE_BDIMX - 1))
  | ETO_TIDY => Ret (u32 (blockSize CI AXIS_TYPE_BDIMY - 1))
  | ETO_BIDX =>
      match KernelInvocationToGridSizeValueMap CI !! AXIS_TYPE_GDIMX with
      | Some RRPN => griddimx ← evaluateRPNForIter0 CI RRPN; Ret (u32 griddimx)
      | None => Ret (u32 (gridSize CI AXIS_TYPE_GDIMX - 1))
      end
  | ETO_BIDY =>
      match KernelInvocationToGridSizeValueMap CI !! AXIS_TYPE_GDIMY with
      | Some RRPN => griddimy ← evaluateRPNForIter0 CI RRPN; Ret (u32 griddimy)
      | None => Ret (u32 (gridSize CI AXIS_TYPE_GDIMY - 1))
      end
  | _ => getActualHostValueForLiterals CI node
  end.

Definition getMinValueForLiterals (CI : Invocation) (node : ExprTreeNode)
    (LoopArg loopid : Z) : outcome Z :=
  match op node with
  | ETO_ARG =>
      if bool_decide (arg node = LoopArg) then Ret 0%Z
      else getActualHostValueForLiterals CI node
  | ETO_PHI_TERM =>
      if bool_decide (loopid = 0%Z) then Ret 1%Z
      else
        v ← evaluateExpressionTree CI (LoopIDToBoundsExprMapIn CI !! loopid);
        Ret (u32 v)
  | ETO_BIDX | ETO_BIDY | ETO_TIDX | ETO_TIDY => Ret 0%Z
  | _ => getActualHostValueForLiterals CI node
  end.

Definition operateMax (CI : Invocation) (LoopArg loopid : Z)
    (operation op1 op2 : ExprTreeNode) : outcome ExprTreeNode :=
  v1 ← getMaxValueForLiterals CI op1 LoopArg loopid;
  v2 ← getMaxValueForLiterals CI op2 LoopArg loopid;
  let res := 1%Z in
  res ← (if bool_decide (op operation = ETO_SHL) then shl64 v1 v2 else Ret res);
  let res := if bool_decide (op operation = ETO_MUL) then u64 (v1 * v2) else res in
  let res := if bool_decide (op operation = ETO_ADD) then u64 (v1 + v2) else res in
  let res := if bool_decide (op operation = ETO_OR) then u64 (v1 + v2) else res in
  let res := if bool_decide (op operation = ETO_PHI)
             then (if (v1 <? v2)%Z then v2 else v1) else res in
  Ret (interm res).

Definition operateMin (CI : Invocation) (LoopArg loopid : Z)
    (operation op1 op2 : ExprTreeNode) : outcome ExprTreeNode :=
  v1 ← getMinValueForLiterals CI op1 LoopArg loopid;
  v2 ← getMinValueForLiterals CI op2 LoopArg loopid;
  let res := 1%Z in
  res ← (if bool_decide (op operation = ETO_SHL) then shl64 v1 v2 else Ret res);
  let res := if bool_decide (op operation = ETO_MUL) then u64 (v1 * v2) else res in
  let res := if bool_decide (op operation = ETO_ADD) then u64 (v1 + v2) else res in
  let res := if bool_decide (op operation = ETO_OR) then u64 (v1 + v2) else res in
  let res := if bool_decide (op operation = ETO_PHI)
             then (if (v1 <? v2)%Z then v1 else v2) else res in
  Ret (interm res).

Definition evaluateRPNforMax (CI : Invocation) (RPN : list ExprTreeNode)
    (LoopArg loopid : Z) : outcome Z :=
  rpnValue (λ n, getMaxValueForLiterals CI n LoopArg loopid)
           (operateMax CI LoopArg loopid) RPN.

Definition evaluateRPNforMin (CI : Invocation) (RPN : list ExprTreeNode)
    (LoopArg loopid : Z) : outcome Z :=
  rpnValue (λ n, getMinValueForLiterals CI n LoopArg loopid)
           (operateMin CI LoopArg loopid) RPN.


(** ** Coefficient extraction *)

Fixpoint findNodeLoop (fuel : nat) (h : list ExprTreeNode)
    (Stack : list (option ptr)) (o : ExprTreeOp) (a : Z) : outcome (option ptr) :=
  match Stack with
  | [] => Ret None
  | Current :: Stack' =>
      match fuel with
      | 0 => OutOfFuel
      | S fuel' =>
          c ← deref Current;
          n ← deref (h !! c);
          if bool_decide (op n = o) &&
             (if bool_decide (o = ETO_ARG) then bool_decide (arg n = a) else true)
          then Ret (Some c)
          else if isOperation n then
            findNodeLoop fuel' h (child1 n :: child0 n :: Stack') o a
          else findNodeLoop fuel' h Stack' o a
      end
  end.

Definition findNodeInExpressionTree (h : list ExprTreeNode) (root : option ptr)
    (o : ExprTreeOp) (a : Z) : outcome (option ptr) :=
  findNodeLoop (length h) h [root] o a.

(** The child of [pn] that is not [current]. *)
Definition otherChild (pn : ExprTreeNode) (current : ptr) : option ptr :=
  if bool_decide (child0 pn = Some current) then child1 pn else child0 pn.

Definition isMulOrShl (n : ExprTreeNode) : bool :=
  bool_decide (op n = ETO_MUL) || bool_decide (op n = ETO_SHL).

Fixpoint multipliersLoop (fuel : nat) (h : list ExprTreeNode)
    (current : option ptr) (Multipliers : list (option ptr))
  : outcome (list (option ptr)) :=
  match current with
  | None => Ret Multipliers
  | Some c =>
      match fuel with
      | 0 => OutOfFuel
      | S fuel' =>
          n ← deref (h !! c);
          match parent n with
          | Some p =>
              pn ← deref (h !! p);
              multipliersLoop fuel' h (Some p)
                (if isMulOrShl pn then Multipliers ++ [otherChild pn c]
                 else Multipliers)
          | None => multipliersLoop fuel' h None Multipliers
          end
      end
  end.

(** The walk visits each node of the parent chain once, so it takes at most
    as many iterations as the store has nodes. *)
Definition findMultipliersByTraversingUpExprTree (h : list ExprTreeNode)
    (root given : option ptr) : outcome (list (option ptr)) :=
  g ← deref given;
  _ ← deref (h !! g);
  multipliersLoop (length h) h given [].

Fixpoint applyMultipliers (CI : Invocation) (mutlipliers : list (option ptr))
    (FinalMultiplier : Z) : outcome Z :=
  match mutlipliers with
  | [] => Ret FinalMultiplier
  | mutliplier :: rest =>
      m ← deref mutliplier;
      mn ← deref (nodes CI !! m);
      p ← deref (parent mn);
      pn ← deref (nodes CI !! p);
      F1 ← (if bool_decide (op pn = ETO_MUL)
            then v ← evaluateExpressionTree CI mutliplier;
                 Ret (u64 (FinalMultiplier * v))
            else Ret FinalMultiplier);
      F2 ← (if bool_decide (op pn = ETO_SHL)
            then v ← evaluateExpressionTree CI mutliplier; shl64 F1 v
            else Ret F1);
      applyMultipliers CI rest F2
  end.

Definition partialDifferenceOfExpressionTreeWRTGivenNode (CI : Invocation)
    (root : option ptr) (given : ExprTreeOp) (a : Z) : outcome Z :=
  node ← findNodeInExpressionTree (nodes CI) root given a;
  match node with
  | Some _ =>
      mutlipliers ← findMultipliersByTraversingUpExprTree (nodes CI) root node;
      FinalMultiplier ← applyMultipliers CI mutlipliers 1%Z;
      Ret (u32 FinalMultiplier)
  | None => Ret 0%Z
  end.

(** ** N-ary expression trees *)

Module Advanced.

Record ExprTreeNodeAdvanced : Type := mkNode {
  op : ExprTreeOp;
  arg : Z;
  value : Z;
  original_str : string;
  parent : option ptr;
  children : list ptr;
  isProb : bool
}.

Definition new_ExprTreeNodeAdvanced : ExprTreeNodeAdvanced :=
  mkNode ETO_PC 0 0 "" None [] false.

Definition set_arg (a : Z) (n : ExprTreeNodeAdvanced) : ExprTreeNodeAdvanced :=
  mkNode (op n) a (value n) (original_str n) (parent n) (children n) (isProb n).
Definition set_parent (p : option ptr) (n : ExprTreeNodeAdvanced)
  : ExprTreeNodeAdvanced :=
  mkNode (op n) (arg n) (value n) (original_str n) p (children n) (isProb n).
Definition push_child (c : ptr) (n : ExprTreeNodeAdvanced)
  : ExprTreeNodeAdvanced :=
  mkNode (op n) (arg n) (value n) (original_str n) (parent n)
    (children n ++ [c]) (isProb n).

Record BuildState : Type := mkBuild {
  store : list ExprTreeNodeAdvanced;
  root : option ptr;
  stack : list ptr;
  term_count : nat
}.

(** The body of the loop for a token ["("] followed by [str]; the result
    says whether the loop goes on ([true]) or was left by [break]. *)
Definition openNode (s : BuildState) (str : string)
  : outcome (BuildState * bool) :=
  o ← getExprTreeOp str;
  let node := length (store s) in
  let n := mkNode o 0 0 str None [] false in
  let tc := S (term_count s) in
  if bool_decide (100 < tc) then
    Ret (mkBuild (store s ++ [n]) (root s) (stack s) tc, false)
  else
    n ← (if bool_decide (o = ETO_ARG)
         then a ← getExprTreeNodeArg str; Ret (set_arg a n) else Ret n);
    n ← (if bool_decide (o = ETO_PHI)
         then a ← getExprTreePhiArg str; Ret (set_arg a n) else Ret n);
    match root s with
    | None =>
        Ret (mkBuild (store s ++ [n]) (Some node) (node :: stack s) tc, true)
    | Some r =>
        top ← deref (head (stack s));
        let h := alter (push_child node) top (store s) in
        Ret (mkBuild (h ++ [set_parent (Some top) n]) (Some r)
                     (node :: stack s) tc, true)
    end.

Fixpoint buildLoop (s : BuildState) (serializedTree : list string)
  : outcome BuildState :=
  match serializedTree with
  | [] => Ret s
  | str :: rest =>
      if String.eqb str "(" then
        match rest with
        | [] => Undefined        (* the iterator is stepped past the end *)
        | str' :: rest' =>
            '(s', go_on) ← openNode s str';
            if go_on : bool then buildLoop s' rest' else Ret s'
        end
      else if String.eqb str ")" then
        match stack s with
        | [] => Undefined
        | _ :: stk => buildLoop (mkBuild (store s) (root s) stk (term_count s)) rest
        end
      else buildLoop s rest
  end.

Definition createExpressionTreeAdvanced (serializedTree : list string)
    (h : list ExprTreeNodeAdvanced)
  : outcome (list ExprTreeNodeAdvanced * option ptr) :=
  s ← buildLoop (mkBuild h None [] 0) serializedTree;
  Ret (store s, root s).

(** The loop of [isIndirectAccess]; the test reads [root->op]. *)
Fixpoint indirectLoop (fuel : nat) (h : list ExprTreeNodeAdvanced)
    (root : ptr) (Stack : list ptr) (found_load : bool) : outcome bool :=
  match Stack with
  | [] => Ret false
  | Current :: Stack' =>
      match fuel with
      | 0 => OutOfFuel
      | S fuel' =>
          c ← deref (h !! Current);
          r ← deref (h !! root);
          let next := indirectLoop fuel' h root (reverse (children c) ++ Stack') in
          if bool_decide (op r = ETO_LOAD) then
            if found_load then Ret true else next true
          else next found_load
      end
  end.

Definition isIndirectAccess (h : list ExprTreeNodeAdvanced) (root : option ptr)
  : outcome bool :=
  match root with
  | None => Ret false
  | Some r => indirectLoop (length h) h r [r] false
  end.

End Advanced.

(** ** Emitted code

    The estimator does not compute numbers: it inserts instructions into the
    host program, whose values are only known when the host program runs.  An
    [IRValue] is the instruction (or constant) that an [IRBuilder] call
    returns; [denote] gives the number it evaluates to at run time. *)

Inductive IROp : Set := IAdd | ISub | IAnd | IOr | IMul | IShl | IUDiv | ISDiv.

Inductive IRValue : Type :=
  | VConst (ty : IRType) (bits : Z)        (* Builder.getInt32 / getInt64 / getTrue *)
  | VHost (v : HostValue) (ty : IRType)    (* a value of the host program *)
  | VIntCast (v : IRValue) (to : IRType) (isSigned : bool)
  | VBin (o : IROp) (a b : IRValue).

Fixpoint typeOf (v : IRValue) : IRType :=
  match v with
  | VConst ty _ => ty
  | VHost _ ty => ty
  | VIntCast _ to _ => to
  | VBin _ a _ => typeOf a
  end.

Definition isIntegerTy (t : IRType) : bool :=
  match t with double_ty => false | _ => true end.

Definition width (t : IRType) : option Z :=
  match t with
  | i1 => Some 1%Z | i32 => Some 32%Z | i64 => Some 64%Z | double_ty => None
  end.

(** The [w]-bit pattern [z] read as a two's complement number. *)
Definition signedOf (w z : Z) : Z :=
  let r := (z mod 2 ^ w)%Z in
  if (r <? 2 ^ (w - 1))%Z then r else (r - 2 ^ w)%Z.

(** The run-time value, as the unsigned reading of the bit pattern; [rho]
    gives the run-time value of the host values that are not constants.
    [None]: not an integer, poison, or undefined at run time. *)
Fixpoint denote (rho : nat → Z) (v : IRValue) : option Z :=
  match v with
  | VConst ty bits => w ← width ty; Some (bits mod 2 ^ w)%Z
  | VHost hv ty =>
      w ← width ty;
      Some ((match vkind hv with KConstantInt c => c | _ => rho (vid hv) end)
            mod 2 ^ w)%Z
  | VIntCast x to isSigned =>
      a ← denote rho x;
      wf ← width (typeOf x);
      wt ← width to;
      Some ((if isSigned then signedOf wf a else a) mod 2 ^ wt)%Z
  | VBin o a b =>
      x ← denote rho a;
      y ← denote rho b;
      w ← width (typeOf a);
      match o with
      | IAdd => Some ((x + y) mod 2 ^ w)%Z
      | ISub => Some ((x - y) mod 2 ^ w)%Z
      | IMul => Some ((x * y) mod 2 ^ w)%Z
      | IAnd => Some (Z.land x y)
      | IOr => Some (Z.lor x y)
      | IShl => if (y <? w)%Z then Some ((x * 2 ^ y) mod 2 ^ w)%Z else None
      | IUDiv => if (y =? 0)%Z then None else Some (x / y)%Z
      | ISDiv =>
          if (y =? 0)%Z then None
          else
            let q := Z.quot (signedOf w x) (signedOf w y) in
            if (q <? 2 ^ (w - 1))%Z then Some (q mod 2 ^ w)%Z else None
      end
  end.

(** [Builder.CreateAdd] and the like: both operands must have one type. *)
Definition createBin (o : IROp) (a b : IRValue) : outcome (option IRValue) :=
  if bool_decide (typeOf a = typeOf b) then Ret (Some (VBin o a b)) else Abort.

Definition insertConstantNode_unsigned (v : Z) : IRValue := VConst i32 (u32 v).
Definition insertConstantNode_int (v : Z) : IRValue := VConst i32 (u32 v).
Definition insertConstantNode_ull (v : Z) : IRValue := VConst i64 (u64 v).
(** [getTrue()] in both branches. *)
Definition insertConstantNode_bool (v : bool) : IRValue := VConst i1 1.
Definition insertConstantNode (Node : ExprTreeNode) : IRValue :=
  VConst i32 (u32 (value Node)).

Definition insertCodeToCastInt32ToInt64 (V : option IRValue) : outcome IRValue :=
  v ← deref V;
  if bool_decide (typeOf v = i32) then Ret (VIntCast v i64 true) else Abort.

Definition castIfInt32 (v : IRValue) : outcome IRValue :=
  if bool_decide (typeOf v = i32) then insertCodeToCastInt32ToInt64 (Some v)
  else Ret v.

Definition insertCodeToMultiplyInt64 (V1 V2 : option IRValue)
  : outcome (option IRValue) :=
  v1 ← deref V1;
  R1 ← castIfInt32 v1;
  v2 ← deref V2;
  R2 ← castIfInt32 v2;
  createBin IMul R1 R2.

Definition insertComputationNode (Src1 Src2 : option IRValue) (Op : ExprTreeOp)
  : outcome (option IRValue) :=
  match Src1, Src2 with
  | Some s1, Some s2 =>
      '(s1, s2) ←
        (if negb (bool_decide (typeOf s1 = typeOf s2)) &&
            isIntegerTy (typeOf s1) && isIntegerTy (typeOf s2)
         then a ← castIfInt32 s1; b ← castIfInt32 s2; Ret (a, b)
         else Ret (s1, s2));
      if bool_decide (typeOf s1 = typeOf s2) then
        match Op with
        | ETO_ADD => createBin IAdd s1 s2
        | ETO_SUB => createBin ISub s1 s2
        | ETO_AND => createBin IAnd s1 s2
        | ETO_OR => createBin IOr s1 s2
        | ETO_MUL => createBin IMul s1 s2
        | ETO_SHL => createBin IShl s2 s1
        | ETO_DIV => createBin IUDiv s1 s2
        | ETO_UDIV => createBin IUDiv s1 s2
        | ETO_SDIV => createBin ISDiv s1 s2
        | _ => Ret None
        end
      else Abort
  | _, _ => Abort
  end.

(** ** Loop accounting *)

(** The per-kernel catalogue read from the analysis files, and the
    per-invocation maps filled while the invocation is processed. *)
Record Catalogue : Type := mkCatalogue {
  LoopIDToLoopBoundsMap : gmap Z (list string);
  LoopIDToParentLoopIDMap : gmap Z Z;
  KernelNameToAccessIDToEnclosingLoopMap : gmap Z Z;
  KernelNameToAccessIDToAllocationArgMap : gmap Z Z;
  KernelNameToAccessIDToExpressionTreeMap : gmap Z ptr;
  KernelNameToAccessIDToAdvancedExpressionTreeMap : gmap Z ptr;
  advancedNodes : list Advanced.ExprTreeNodeAdvanced;
  KernelInvocationToArgNumberToAllocationMap : gmap Z HostValue
}.

Definition doOperationOnNodes (Op : ExprTreeOp) (Left Right : option ptr)
    (h : list ExprTreeNode) : list ExprTreeNode * option ptr :=
  (h ++ [set_children Left Right (set_op Op new_ExprTreeNode)], Some (length h)).

(** The distribution of the bound tokens over [SplitTokens[0..2]]. *)
Fixpoint splitTokens (LoopBoundsTokens : list string) (currentSplit : nat)
    (Split : list string * list string * list string)
  : list string * list string * list string :=
  match LoopBoundsTokens with
  | [] => Split
  | Token :: rest =>
      if String.eqb Token "IN" then splitTokens rest 0 Split
      else if String.eqb Token "FIN" then splitTokens rest 1 Split
      else if String.eqb Token "STEP" then splitTokens rest 2 Split
      else
        let '(s0, s1, s2) := Split in
        splitTokens rest currentSplit
          (match currentSplit with
           | 0 => (s0 ++ [Token], s1, s2)
           | 1 => (s0, s1 ++ [Token], s2)
           | _ => (s0, s1, s2 ++ [Token])
           end)
  end.

Definition partiallyEvaluatedLoopIters (cat : Catalogue) (loopID : Z)
    (h : list ExprTreeNode) : outcome (list ExprTreeNode * option ptr) :=
  if bool_decide (loopID = 0%Z) then Ret (h, None)
  else
    match LoopIDToLoopBoundsMap cat !! u32 loopID with
    | Some LoopBoundsTokens =>
        let '(s0, s1, s2) := splitTokens LoopBoundsTokens 0 ([], [], []) in
        '(h, In) ← createExpressionTree s0 h;
        '(h, Fin) ← createExpressionTree s1 h;
        '(h, Step) ← createExpressionTree s2 h;
        if bool_decide (In = None) || bool_decide (Fin = None) then Ret (h, None)
        else
          let '(h, FinMinusIn) := doOperationOnNodes ETO_SUB Fin In h in
          Ret (doOperationOnNodes ETO_DIV FinMinusIn Step h)
    | None => Ret (h, None)
    end.

(** [Unknowns]: the values already known for some nodes; a key may be bound
    to a null [Value*]. *)
Fixpoint identifyUnknownsFromExpressionTree (fuel : nat) (CI : Invocation)
    (h : list ExprTreeNode) (Unknowns : gmap ptr (option IRValue))
    (node : option ptr) : outcome (gmap ptr (option IRValue)) :=
  match node with
  | None => Ret Unknowns
  | Some p =>
      match fuel with
      | 0 => OutOfFuel
      | S fuel' =>
          n ← deref (h !! p);
          if isTerminal n then
            match op n with
            | ETO_ARG =>
                let unknown :=
                  KernelInvocationToArgNumberToActualArgMap CI !! arg n in
                Ret (<[p := (λ v, VHost v (vty v)) <$> unknown]> Unknowns)
            | ETO_BDIMX =>
                Ret (<[p := Some (insertConstantNode_unsigned
                                   (blockSize CI AXIS_TYPE_BDIMX))]> Unknowns)
            | ETO_BDIMY =>
                Ret (<[p := Some (insertConstantNode_unsigned
                                   (blockSize CI AXIS_TYPE_BDIMY))]> Unknowns)
            | _ => Ret Unknowns
            end
          else
            U ← identifyUnknownsFromExpressionTree fuel' CI h Unknowns (child0 n);
            identifyUnknownsFromExpressionTree fuel' CI h U (child1 n)
      end
  end.

(** The code for the iteration count.  The value parsed for a constant is
    also stored in the node; the store is not threaded through for it, since
    the [value] of a constant node is read nowhere else. *)
Fixpoint insertLoopItersEvaluationCode (fuel : nat) (h : list ExprTreeNode)
    (Unknowns : gmap ptr (option IRValue)) (node : option ptr)
  : outcome (option IRValue) :=
  match node with
  | None => Ret None
  | Some p =>
      match fuel with
      | 0 => OutOfFuel
      | S fuel' =>
          n ← deref (h !! p);
          if isTerminal n then
            match Unknowns !! p with
            | Some val => v ← deref val; Ret (Some v)
            | None =>
                match op n with
                | ETO_CONST =>
                    c ← stoi (original_str n);
                    Ret (Some (insertConstantNode (set_value (u64 c) n)))
                | ETO_BIDX | ETO_BIDY | ETO_TIDX | ETO_TIDY | ETO_INCOMP =>
                    Ret (Some (insertConstantNode_unsigned 0))
                | _ => Abort
                end
            end
          else
            Left ← insertLoopItersEvaluationCode fuel' h Unknowns (child0 n);
            Right ← insertLoopItersEvaluationCode fuel' h Unknowns (child1 n);
            insertComputationNode Left Right (op n)
      end
  end.

(** The loop that dumps every value of [Unknowns]: a null value is
    dereferenced. *)
Definition dumpUnknowns (Unknowns : gmap ptr (option IRValue)) : outcome unit :=
  if forallb (λ kv, bool_decide (is_Some kv.2)) (map_to_list Unknowns)
  then Ret tt else Undefined.

(** One iteration of the loop of [insertCodeToComputeKernelLoopIterationCount]
    over the loops of the kernel.  The recursions over the tree are bounded by
    the number of nodes of the store. *)
Definition loopIterationEntry (CI : Invocation) (cat : Catalogue) (LoopID : Z)
    (st : list ExprTreeNode * gmap Z (option IRValue) * gmap Z bool)
  : outcome (list ExprTreeNode * gmap Z (option IRValue) * gmap Z bool) :=
  let '(h, LoopIDToNumIterationsMap, LoopIDToIncompMap) := st in
  '(h, LoopIters) ← partiallyEvaluatedLoopIters cat (s32 LoopID) h;
  match LoopIters with
  | None => Ret (h, LoopIDToNumIterationsMap, <[LoopID := true]> LoopIDToIncompMap)
  | Some _ =>
      Unknowns ← identifyUnknownsFromExpressionTree (length h) CI h ∅ LoopIters;
      _ ← dumpUnknowns Unknowns;
      ItersValue ← insertLoopItersEvaluationCode (length h) h Unknowns LoopIters;
      v ← deref ItersValue;
      if bool_decide (typeOf v = i32) then
        Ret (h, <[LoopID := ItersValue]> LoopIDToNumIterationsMap,
             <[LoopID := false]> LoopIDToIncompMap)
      else Abort
  end.

Fixpoint loopIterationEntries (CI : Invocation) (cat : Catalogue)
    (LoopIDs : list Z)
    (st : list ExprTreeNode * gmap Z (option IRValue) * gmap Z bool)
  : outcome (list ExprTreeNode * gmap Z (option IRValue) * gmap Z bool) :=
  match LoopIDs with
  | [] => Ret st
  | LoopID :: rest =>
      st' ← loopIterationEntry CI cat LoopID st;
      loopIterationEntries CI cat rest st'
  end.

(** The iteration visits the keys of the bounds map in ascending order. *)
Definition insertCodeToComputeKernelLoopIterationCount (CI : Invocation)
    (cat : Catalogue)
    (st : list ExprTreeNode * gmap Z (option IRValue) * gmap Z bool)
  : outcome (list ExprTreeNode * gmap Z (option IRValue) * gmap Z bool) :=
  loopIterationEntries CI cat
    (merge_sort Z.le (elements (dom (LoopIDToLoopBoundsMap cat)))) st.

Definition parentOf (cat : Catalogue) (loopid : Z) : Z :=
  default 0%Z (LoopIDToParentLoopIDMap cat !! loopid).

Fixpoint nestedLoop (fuel : nat) (cat : Catalogue)
    (LoopIDToNumIterationsMap : gmap Z (option IRValue))
    (LoopIters : option IRValue) (parentLoopId : Z) : outcome (option IRValue) :=
  if bool_decide (parentLoopId = 0%Z) then Ret LoopIters
  else
    match fuel with
    | 0 => OutOfFuel
    | S fuel' =>
        let ParentLoopIters :=
          default None (LoopIDToNumIterationsMap !! parentLoopId) in
        LoopIters' ← insertCodeToMultiplyInt64 LoopIters ParentLoopIters;
        nestedLoop fuel' cat LoopIDToNumIterationsMap LoopIters'
          (parentOf cat parentLoopId)
    end.

(** A parent chain that ends visits every key of the parent map at most once,
    which bounds the loop. *)
Definition insertCodeComputeLoopIterationCountNested (cat : Catalogue)
    (loopid : Z) (LoopIDToNumIterationsMap : gmap Z (option IRValue))
  : outcome (option IRValue) :=
  v ← deref (default None (LoopIDToNumIterationsMap !! loopid));
  LoopIters ← castIfInt32 v;
  nestedLoop (size (LoopIDToParentLoopIDMap cat)) cat LoopIDToNumIterationsMap
    (Some LoopIters) (parentOf cat loopid).

(** ** The access-density estimator *)

Definition isPointerChase (h : list ExprTreeNode) (root : option ptr)
  : outcome bool :=
  r ← deref root;
  n ← deref (h !! r);
  Ret (bool_decide (op n = ETO_PC)).

(** What the first part of the loop body computes for one access: either the
    enclosing loop is incomputable, or the trip count [LoopIters] of the
    enclosing loop nest and the [ExecutionCount]. *)
Inductive Count : Type :=
  | Incomputable
  | Counted (LoopIters ExecutionCount : option IRValue).

Definition executionCount (cat : Catalogue) (loopid : Z)
    (NumThreadsInGrid : option IRValue)
    (LoopIDToNumIterationsMap : gmap Z (option IRValue))
    (LoopIDToIncompMap : gmap Z bool) : outcome Count :=
  if bool_decide (loopid = 0%Z) then
    Ret (Counted (Some (insertConstantNode_unsigned 1)) NumThreadsInGrid)
  else if default false (LoopIDToIncompMap !! loopid) then Ret Incomputable
  else
    LoopIters ←
      insertCodeComputeLoopIterationCountNested cat loopid LoopIDToNumIterationsMap;
    LoopItersTimesNumThreads ←
      insertComputationNode LoopIters NumThreadsInGrid ETO_MUL;
    Ret (Counted LoopIters LoopItersTimesNumThreads).

Section Estimator.

(** The estimator is stated over the code inserted for the three partial
    differences and over the value that [estimateWorkingSetSizeAdvanced]
    returns; the functions themselves are found further down
    ([insertCodeToComputePartDiff_bidx] and the like, and
    [WorkingSet.estimateWorkingSetSizeAdvanced]). *)
Context {PartDiffCode : Type}.
Context (insertCodeToComputePartDiff :
           Invocation → HostValue → option ptr → outcome PartDiffCode).
Context (estimateWorkingSetSizeAdvanced :
           Invocation → option ptr → option IRValue →
           gmap Z (option IRValue) → outcome IRValue).

(** The calls to the run-time library inserted for one access. *)
Inductive SinkCall : Type :=
  | add_aid_pchase_map (aid : Z) (Allocation : HostValue) (pChase : IRValue)
  | add_aid_ac_incomp_map (aid : Z) (incomp : IRValue)
  | addACToAllocation (aid : Z) (Allocation : HostValue)
      (ExecutionCount : IRValue)
  | part_diff (code : PartDiffCode)
  | add_wss_to_map (Allocation : HostValue) (wss : IRValue) (aid : IRValue)
  | add_aid_invocation_map (aid InvocationId : Z)
  | record_reuse (InvocationId aid : Z) (ExecutionCount : IRValue)
      (Allocation : HostValue).

Definition accessDensityFor (CI : Invocation) (cat : Catalogue)
    (FirstInvocation FirstInvocationNonIter : bool) (InvocationId : Z)
    (NumThreadsInGrid : option IRValue)
    (LoopIDToNumIterationsMap : gmap Z (option IRValue))
    (LoopIDToIncompMap : gmap Z bool) (AID loopid : Z)
  : outcome (list SinkCall) :=
  let Expr := KernelNameToAccessIDToExpressionTreeMap cat !! AID in
  let AdvExpr := KernelNameToAccessIDToAdvancedExpressionTreeMap cat !! AID in
  let AllocArg :=
    default 0%Z (KernelNameToAccessIDToAllocationArgMap cat !! AID) in
  Allocation ← deref (KernelInvocationToArgNumberToAllocationMap cat !! AllocArg);
  pc ← isPointerChase (nodes CI) Expr;
  if pc : bool then
    Ret [add_aid_pchase_map AID Allocation (insertConstantNode_bool true)]
  else
    c ← executionCount cat loopid NumThreadsInGrid LoopIDToNumIterationsMap
          LoopIDToIncompMap;
    match c with
    | Incomputable =>
        Ret [add_aid_ac_incomp_map AID (insertConstantNode_bool true)]
    | Counted LoopIters ExecutionCount =>
        ec ← deref ExecutionCount;
        pd ← insertCodeToComputePartDiff CI Allocation Expr;
        indirect ← Advanced.isIndirectAccess (advancedNodes cat) AdvExpr;
        if indirect : bool then
          Ret [addACToAllocation AID Allocation ec; part_diff pd]
        else
          wss_advanced ←
            estimateWorkingSetSizeAdvanced CI AdvExpr LoopIters
              LoopIDToNumIterationsMap;
          Ret ([addACToAllocation AID Allocation ec; part_diff pd;
                add_wss_to_map Allocation wss_advanced
                  (insertConstantNode_unsigned AID);
                add_aid_invocation_map AID InvocationId]
               ++ (if FirstInvocation
                   then [record_reuse InvocationId AID ec Allocation] else [])
               ++ (if FirstInvocationNonIter
                   then [record_reuse InvocationId AID ec Allocation] else []))
    end.

Fixpoint accessDensityLoop (CI : Invocation) (cat : Catalogue)
    (FirstInvocation FirstInvocationNonIter : bool) (InvocationId : Z)
    (NumThreadsInGrid : option IRValue)
    (LoopIDToNumIterationsMap : gmap Z (option IRValue))
    (LoopIDToIncompMap : gmap Z bool) (accesses : list (Z * Z))
  : outcome (list SinkCall) :=
  match accesses with
  | [] => Ret []
  | (AID, loopid) :: rest =>
      calls ← accessDensityFor CI cat FirstInvocation FirstInvocationNonIter
                InvocationId NumThreadsInGrid LoopIDToNumIterationsMap
                LoopIDToIncompMap AID loopid;
      more ← accessDensityLoop CI cat FirstInvocation FirstInvocationNonIter
                InvocationId NumThreadsInGrid LoopIDToNumIterationsMap
                LoopIDToIncompMap rest;
      Ret (calls ++ more)
  end.

(** The accesses are visited in ascending order of their id. *)
Definition insertCodeToComputeAccessDensity (CI : Invocation) (cat : Catalogue)
    (FirstInvocation FirstInvocationNonIter : bool) (InvocationId : Z)
    (NumThreadsInGrid : option IRValue)
    (LoopIDToNumIterationsMap : gmap Z (option IRValue))
    (LoopIDToIncompMap : gmap Z bool) : outcome (list SinkCall) :=
  accessDensityLoop CI cat FirstInvocation FirstInvocationNonIter InvocationId
    NumThreadsInGrid LoopIDToNumIterationsMap LoopIDToIncompMap
    ((λ AID, (AID, default 0%Z
                     (KernelNameToAccessIDToEnclosingLoopMap cat !! AID)))
       <$> merge_sort Z.le
             (elements (dom (KernelNameToAccessIDToEnclosingLoopMap cat)))).

End Estimator.

(** ** Fixtures used in the statements below *)

(** An invocation whose formal argument [0] is bound to the constant [v],
    evaluating trees of the store [h]. *)
Definition arg0_bound_to (v : Z) (h : list ExprTreeNode) : Invocation :=
  mkInvocation ∅ ∅ ∅ {[ 0%Z := mkValue 0 (KConstantInt v) i32 ]} ∅ ∅ ∅ ∅ h ∅ ∅.

(** An invocation whose grid dimension x is the host function argument
    [gridArg], itself called with the constant [v] at its only call site. *)
Definition gridArg : HostValue := mkValue 1 KOther i32.
Definition grid_x_from_argument (v : Z) : Invocation :=
  mkInvocation ∅ ∅ {[ AXIS_TYPE_GDIMX := [gridArg] ]} ∅ ∅
    {[ 1 := [mkValue 2 (KConstantInt v) i32] ]} {[ 1 ]} ∅ [] ∅ ∅.

(** A leaf node with the given operator. *)
Definition leaf (o : ExprTreeOp) : ExprTreeNode := set_op o new_ExprTreeNode.

(** The serialized n-ary tree of an address loaded through a loaded pointer:
    [LOAD (LOAD (ARG0))]. *)
Definition two_nested_loads : list string :=
  ["("; "LOAD"; "("; "LOAD"; "("; "ARG0"; ")"; ")"; ")"]%string.

(** A catalogue with the single access 1, outside any loop, on the allocation
    passed as argument 0; its binary tree is the node [0] of the invocation
    and its n-ary tree the node [0] of [adv]. *)
Definition allocation0 : HostValue := mkValue 5 KOther i64.
Definition one_access (adv : list Advanced.ExprTreeNodeAdvanced) : Catalogue :=
  mkCatalogue ∅ ∅ {[ 1%Z := 0%Z ]} {[ 1%Z := 0%Z ]} {[ 1%Z := 0 ]} {[ 1%Z := 0 ]}
    adv {[ 0%Z := allocation0 ]}.
Definition threads_in_grid : IRValue := VHost (mkValue 6 KOther i64) i64.

(** ** The construction protocol for [PHI], in the words of the specification

    A two-state protocol over the operators of the scanned tokens: the state
    says whether a phi-term has been seen and its merge is awaited.  A [PHI]
    met in the initial state becomes a phi-term without children and switches
    the state; a [PHI] met in the other state stays a [PHI] operator with two
    children and switches back.  Every other operator keeps the state and has
    two children exactly when it is an operation. *)
Definition phiStep (seen : bool) (o : ExprTreeOp) : (ExprTreeOp * nat) * bool :=
  if bool_decide (o = ETO_PHI) then
    if seen then ((ETO_PHI, 2), false) else ((ETO_PHI_TERM, 0), true)
  else ((o, if isOperationOp o then 2 else 0), seen).

Fixpoint phiProtocol (seen : bool) (ops : list ExprTreeOp)
  : list (ExprTreeOp * nat) :=
  match ops with
  | [] => []
  | o :: rest => (phiStep seen o).1 :: phiProtocol (phiStep seen o).2 rest
  end.

(** The operator of a node and the number of its children. *)
Definition arity (n : ExprTreeNode) : nat :=
  match child0 n with Some _ => 1 | None => 0 end +
  match child1 n with Some _ => 1 | None => 0 end.
Definition shape (n : ExprTreeNode) : ExprTreeOp * nat := (op n, arity n).

(** ** Parent chains, in the words of the specification *)

(** [p] is the parent of [c]. *)
Definition is_parent (h : list ExprTreeNode) (c p : ptr) : Prop :=
  ∃ cn, h !! c = Some cn ∧ parent cn = Some p.

(** Every parent pointer leads to a node allocated after the child: the
    parent links point strictly toward the root and form no cycle. *)
Definition parents_above (h : list ExprTreeNode) : Prop :=
  ∀ c p, is_parent h c p → c < p < length h.

(** [m] is the other child of a [MUL] or [SHL] ancestor of [given]: some node
    [c] on the path from [given] to the root has a parent [p] that is a [MUL]
    or a [SHL], and [m] is the child of [p] that is not [c]. *)
Definition is_multiplier_of (h : list ExprTreeNode) (given : ptr)
    (m : option ptr) : Prop :=
  ∃ c p pn, rtc (is_parent h) given c ∧ is_parent h c p ∧ h !! p = Some pn ∧
            isMulOrShl pn = true ∧ m = otherChild pn c.


(** ** Nested loops, in the words of the specification *)

(** [chain] is the parent chain of the loop [cur]: its parent, the parent of
    its parent, and so on up to a top-level loop (one whose parent is 0). *)
Fixpoint is_chain (cat : Catalogue) (cur : Z) (chain : list Z) : Prop :=
  match chain with
  | [] => parentOf cat cur = 0%Z
  | p :: rest => parentOf cat cur = p ∧ p ≠ 0%Z ∧ is_chain cat p rest
  end.

(** The promotion of a 32-bit operand to 64 bits. *)
Definition promoted (v : IRValue) : IRValue := VIntCast v i64 true.

(** The iteration count of a loop times those of its ancestors, every operand
    promoted before it is multiplied. *)
Definition nestedProduct (first : IRValue) (ancestors : list IRValue) : IRValue :=
  fold_left (λ acc v, VBin IMul acc (promoted v)) ancestors (promoted first).

Definition product (zs : list Z) : Z := fold_right Z.mul 1%Z zs.

(** Two nested loops: [inner] inside [outer], which is top-level. *)
Definition two_loops (inner outer : Z) : Catalogue :=
  mkCatalogue ∅ {[ inner := outer ]} ∅ ∅ ∅ ∅ [] ∅.

(** ** Loops with constant bounds *)

(** The node the builder makes for a number token. *)
Definition numNode (s : string) : ExprTreeNode :=
  set_original_str s (set_op ETO_CONST new_ExprTreeNode).

(** What [partiallyEvaluatedLoopIters] allocates at address [a] for the bound
    tokens [s0] (initial), [s1] (final) and [s2] (step): the three constants,
    [final - initial] and the quotient by the step. *)
Definition loopTree (a : nat) (s0 s1 s2 : string) : list ExprTreeNode :=
  [ numNode s0; numNode s1; numNode s2;
    set_children (Some (a + 1)) (Some a) (set_op ETO_SUB new_ExprTreeNode);
    set_children (Some (a + 3)) (Some (a + 2)) (set_op ETO_DIV new_ExprTreeNode) ].

Definition emptyInvocation : Invocation :=
  mkInvocation ∅ ∅ ∅ ∅ ∅ ∅ ∅ ∅ [] ∅ ∅.

(** A catalogue with the single loop 1, whose bound tokens are [toks]. *)
Definition one_loop (toks : list string) : Catalogue :=
  mkCatalogue {[ 1%Z := toks ]} ∅ ∅ ∅ ∅ ∅ [] ∅.

(** A store that holds, at [r], the tree of [(s1 - s0) / s2]. *)
Definition holds_loopTree (H : list ExprTreeNode) (r : ptr) (s0 s1 s2 : string)
  : Prop :=
  ∃ q c0 c1 c2,
    H !! r = Some (set_children (Some q) (Some c2) (set_op ETO_DIV new_ExprTreeNode)) ∧
    H !! q = Some (set_children (Some c1) (Some c0) (set_op ETO_SUB new_ExprTreeNode)) ∧
    H !! c0 = Some (numNode s0) ∧ H !! c1 = Some (numNode s1) ∧
    H !! c2 = Some (numNode s2).


(** ** The interval evaluator: operands read exactly *)

(** The block dimensions are [unsigned] in the source. *)
Definition unsigned_block_sizes (CI : Invocation) : Prop :=
  ∀ a, (0 ≤ blockSize CI a < 2 ^ 32)%Z.

(** The bounds assumed for the phi-term match: the final bound of the loop is
    not below its initial bound. *)
Definition matching_bounds (CI : Invocation) (loopid : Z) : Prop :=
  loopid ≠ 0%Z →
  ∀ hi, evaluateExpressionTree CI (LoopIDToBoundsExprMapFin CI !! loopid) = Ret hi →
  ∃ lo, evaluateExpressionTree CI (LoopIDToBoundsExprMapIn CI !! loopid) = Ret lo ∧
        (u32 lo ≤ u32 hi)%Z.

(** A popped operand is read through the [unsigned] result of
    [getMaxValueForLiterals]: an intermediate result is read exactly when it is
    below [2^32]. *)
Definition readExactly (n : ExprTreeNode) : bool :=
  if bool_decide (op n = ETO_INTERM) then bool_decide (0 ≤ value n < 2 ^ 32)%Z
  else true.

(** One reduction of the max-mode run loses no bits: both operands are read
    exactly and a shift stays within the 64 bits of [unsigned long long]. *)
Definition reducesExactly (CI : Invocation) (LoopArg loopid : Z)
    (Token op1 op2 : ExprTreeNode) : bool :=
  readExactly op1 && readExactly op2 &&
  (if bool_decide (op Token = ETO_SHL) then
     match getMaxValueForLiterals CI op1 LoopArg loopid,
           getMaxValueForLiterals CI op2 LoopArg loopid with
     | Ret v1, Ret v2 => bool_decide (v1 * 2 ^ v2 < 2 ^ 64)%Z
     | _, _ => true
     end
   else true).

(** The same along the whole max-mode run of [evaluateRPNforMax], from the
    stack [stk]. *)
Fixpoint maxRunExact (CI : Invocation) (LoopArg loopid : Z)
    (stk RPN : list ExprTreeNode) : bool :=
  match RPN with
  | [] => true
  | Token :: rest =>
      (if isOperation Token then
         match stk with
         | op1 :: op2 :: _ => reducesExactly CI LoopArg loopid Token op1 op2
         | _ => true
         end
       else true) &&
      match rpnStep (λ n, getMaxValueForLiterals CI n LoopArg loopid)
                    (operateMax CI LoopArg loopid) stk Token with
      | Ret stk' => maxRunExact CI LoopArg loopid stk' rest
      | _ => true
      end
  end.

(** The value that [operateMax] and [operateMin] compute from the values of
    the operands; [pick] is the choice made for a phi. *)
Definition reduction (pick : Z → Z → Z) (o : ExprTreeOp) (v1 v2 : Z) : outcome Z :=
  match o with
  | ETO_SHL => shl64 v1 v2
  | ETO_MUL => Ret (u64 (v1 * v2))
  | ETO_ADD | ETO_OR => Ret (u64 (v1 + v2))
  | ETO_PHI => Ret (pick v1 v2)
  | _ => Ret 1%Z
  end.

(** Two stack entries of the max-mode and of the min-mode run at the same
    position. *)
Definition above (a b : ExprTreeNode) : Prop :=
  op a = op b ∧ arg a = arg b ∧ original_str a = original_str b ∧
  (0 ≤ value b ≤ value a)%Z.

(** An invocation with block dimension x [v], evaluating trees of [h]. *)
Definition block_x (v : Z) (h : list ExprTreeNode) : Invocation :=
  mkInvocation {[ AXIS_TYPE_BDIMX := v ]} ∅ ∅ ∅ ∅ ∅ ∅ ∅ h ∅ ∅.

(** The node sequence that [evaluateExpressionTree] hands to the evaluator of
    the tree built from [toks]. *)
Definition postfixOf (toks : list string) : outcome (list ExprTreeNode) :=
  '(h, root) ← createExpressionTree toks [];
  RPN ← toRPN (length h) h [root] [];
  Ret (reverse RPN).

(** * Further parts of the pass *)

From stdpp Require Import pretty.

(** ** Decimal numerals *)

(** The value that [std::stoi] accumulates over the digits [ds], from [acc]. *)
Definition digitsValue (acc : Z) (ds : list ascii) : Z :=
  fold_left (λ a c, (a * 10 + digitValue c)%Z) ds acc.

(** ** Token lists that the builder can classify *)

(** [getExprTreeOp] knows the token, and a token classified as an argument
    carries a number that [std::stoi] accepts. *)
Definition classifiable (tok : string) : Prop :=
  ∃ o, getExprTreeOp tok = Ret o ∧
       (o = ETO_ARG → ∃ a, getExprTreeNodeArg tok = Ret a).

(** ** Expressions and the trees built from them *)

(** An expression, as the token stream writes it in postfix order: a single
    token, or an operator token after its two operands. *)
Inductive Expr : Type :=
  | Leaf (tok : string)
  | Bin (tok : string) (first second : Expr).

Fixpoint postfix (e : Expr) : list string :=
  match e with
  | Leaf tok => [tok]
  | Bin tok x y => postfix x ++ postfix y ++ [tok]
  end.

Fixpoint nodeCount (e : Expr) : nat :=
  match e with
  | Leaf _ => 1
  | Bin _ x y => nodeCount x + nodeCount y + 1
  end.

(** The operator and the argument number that the builder stores for a
    token. *)
Definition opOf (tok : string) : ExprTreeOp :=
  match getExprTreeOp tok with Ret o => o | _ => ETO_NONE end.
Definition argOf (tok : string) : Z :=
  if bool_decide (opOf tok = ETO_ARG) then
    match getExprTreeNodeArg tok with Ret a => a | _ => 0%Z end
  else 0%Z.

(** Every token can be classified; the token of [Bin] is an operation, the
    token of [Leaf] is not; no token is a phi. *)
Fixpoint wfExpr (e : Expr) : Prop :=
  match e with
  | Leaf tok =>
      classifiable tok ∧ isOperationOp (opOf tok) = false ∧ opOf tok ≠ ETO_PHI
  | Bin tok x y =>
      classifiable tok ∧ isOperationOp (opOf tok) = true ∧ opOf tok ≠ ETO_PHI ∧
      wfExpr x ∧ wfExpr y
  end.

Definition builtNode (tok : string) (par c0 c1 : option ptr) : ExprTreeNode :=
  mkNode (opOf tok) (argOf tok) 0 tok par c0 c1 false.

(** The nodes of the tree of [e], in the order of their allocation, when the
    first of them is allocated at [a] and the parent of the root is [par]:
    the root comes last, [children[0]] is the second operand and
    [children[1]] the first. *)
Fixpoint layout (a : nat) (par : option ptr) (e : Expr) : list ExprTreeNode :=
  match e with
  | Leaf tok => [builtNode tok par None None]
  | Bin tok x y =>
      let p := a + nodeCount x + nodeCount y in
      layout a (Some p) x ++ layout (a + nodeCount x) (Some p) y ++
      [builtNode tok par (Some (p - 1)) (Some (a + nodeCount x - 1))]
  end.

(** The recursive evaluation of an expression with the operations of the
    concrete evaluator: the second operand is evaluated before the first, and
    both must be terminals or intermediate results when they are combined. *)
Definition operandTerminal (e : Expr) : bool :=
  match e with
  | Leaf tok => isTerminalOp (opOf tok)
  | Bin _ _ _ => true
  end.

Definition operandNode (e : Expr) (v : Z) : ExprTreeNode :=
  match e with
  | Leaf tok => set_value v (builtNode tok None None None)
  | Bin _ _ _ => interm v
  end.

Fixpoint evalExpr (CI : Invocation) (e : Expr) : outcome Z :=
  match e with
  | Leaf tok => getActualHostValueForLiterals CI (builtNode tok None None None)
  | Bin tok x y =>
      vy ← evalExpr CI y;
      vx ← evalExpr CI x;
      if operandTerminal x && operandTerminal y then
        r ← operate CI (builtNode tok None None None)
              (operandNode x vx) (operandNode y vy);
        Ret (value r)
      else Undefined
  end.

(** The root of the tree is its last node; only this node holds [par]. *)
Definition rootNode (a : nat) (par : option ptr) (e : Expr) : ExprTreeNode :=
  match e with
  | Leaf tok => builtNode tok par None None
  | Bin tok x y =>
      builtNode tok par (Some (a + nodeCount x + nodeCount y - 1))
        (Some (a + nodeCount x - 1))
  end.


(** The nodes of the tree of [e] in the order in which the conversion loop of
    [evaluateExpressionTree] pops them: a node, then the subtree of its
    [children[1]], then the subtree of its [children[0]]. *)
Fixpoint preorder (a : nat) (par : option ptr) (e : Expr) : list ExprTreeNode :=
  match e with
  | Leaf tok => [builtNode tok par None None]
  | Bin tok x y =>
      let p := a + nodeCount x + nodeCount y in
      rootNode a par e :: preorder a (Some p) x
        ++ preorder (a + nodeCount x) (Some p) y
  end.

(** The store [H] holds the nodes [L] from the address [a] on. *)
Definition holdsAt (H : list ExprTreeNode) (a : nat) (L : list ExprTreeNode)
  : Prop :=
  ∀ i n, L !! i = Some n → H !! (a + i) = Some n.

(** What the evaluation loop leaves on its stack for [e] when its value is
    [v]: the token's own node with the value stored, or the node of an
    intermediate result. *)
Definition topNode (par : option ptr) (e : Expr) (v : Z) : ExprTreeNode :=
  match e with
  | Leaf tok => set_value v (builtNode tok par None None)
  | Bin _ _ _ => interm v
  end.

(** ** Loop accounting *)

(** What the maps say about the loop [L] once it has been accounted for. *)
Definition accounted (L : Z) (N N' : gmap Z (option IRValue)) (I' : gmap Z bool)
  : Prop :=
  (I' !! L = Some true ∧ N' !! L = N !! L) ∨
  (I' !! L = Some false ∧ ∃ v, N' !! L = Some (Some v) ∧ typeOf v = i32).


(** ** Searching a tree *)

(** The test of [findNodeInExpressionTree] on a node, and the same test on
    what the builder stores for a token. *)
Definition nodeMatches (o : ExprTreeOp) (a : Z) (n : ExprTreeNode) : bool :=
  bool_decide (op n = o) &&
  (if bool_decide (o = ETO_ARG) then bool_decide (arg n = a) else true).
Definition tokenMatches (o : ExprTreeOp) (a : Z) (tok : string) : bool :=
  nodeMatches o a (builtNode tok None None None).

(** ** The emitted code of the partial differences *)

Definition LLONG_MAX : Z := (2 ^ 63 - 1)%Z.
Definition LLONG_MIN : Z := (- 2 ^ 63)%Z.

(** [std::stoll(str)]: as [std::stoi], with the range of [long long]. *)
Definition stoll (str : string) : outcome Z :=
  let cs := skip_space (list_ascii_of_string str) in
  let '(neg, ds) :=
    match cs with
    | "-"%char :: r => (true, r)
    | "+"%char :: r => (false, r)
    | _ => (false, cs)
    end in
  match ds with
  | d :: _ =>
      if isDigit d then
        let v := read_digits 0 ds in
        let v := if neg then (- v)%Z else v in
        if (LLONG_MIN <=? v)%Z && (v <=? LLONG_MAX)%Z then Ret v else Exception
      else Exception
  | [] => Exception
  end.

(** [locateNodeWithParticularExprTreeOp]: a terminal is looked at and not
    descended into; below another node [children[0]] is searched before
    [children[1]].  The recursion is bounded by the number of nodes. *)
Fixpoint locateNodeWithParticularExprTreeOp (fuel : nat) (h : list ExprTreeNode)
    (Node : option ptr) (Op : ExprTreeOp) : outcome (option ptr) :=
  match Node with
  | None => Ret None
  | Some p =>
      match fuel with
      | 0 => OutOfFuel
      | S fuel' =>
          n ← deref (h !! p);
          if isTerminal n then
            Ret (if bool_decide (op n = Op) then Some p else None)
          else if bool_decide (op n = Op) then Ret (Some p)
          else
            Left ← locateNodeWithParticularExprTreeOp fuel' h (child0 n) Op;
            Right ← locateNodeWithParticularExprTreeOp fuel' h (child1 n) Op;
            Ret (match Left with Some _ => Left | None => Right end)
      end
  end.

Fixpoint collectNodesWithParticularExprTreeOp (fuel : nat)
    (h : list ExprTreeNode) (Node : option ptr) (Op : ExprTreeOp)
    (Collection : list ptr) : outcome (list ptr) :=
  match Node with
  | None => Ret Collection
  | Some p =>
      match fuel with
      | 0 => OutOfFuel
      | S fuel' =>
          n ← deref (h !! p);
          let Collection :=
            if bool_decide (op n = Op) then Collection ++ [p] else Collection in
          Collection ←
            collectNodesWithParticularExprTreeOp fuel' h (child0 n) Op Collection;
          collectNodesWithParticularExprTreeOp fuel' h (child1 n) Op Collection
      end
  end.

Definition isUDivOrSDiv (n : ExprTreeNode) : bool :=
  bool_decide (op n = ETO_UDIV) || bool_decide (op n = ETO_SDIV).

Fixpoint divisorsLoop (fuel : nat) (h : list ExprTreeNode)
    (current : option ptr) (Multipliers : list (option ptr))
  : outcome (list (option ptr)) :=
  match current with
  | None => Ret Multipliers
  | Some c =>
      match fuel with
      | 0 => OutOfFuel
      | S fuel' =>
          n ← deref (h !! c);
          match parent n with
          | Some p =>
              pn ← deref (h !! p);
              divisorsLoop fuel' h (Some p)
                (if isUDivOrSDiv pn then Multipliers ++ [otherChild pn c]
                 else Multipliers)
          | None => divisorsLoop fuel' h None Multipliers
          end
      end
  end.

Definition findDivisorsByTraversingUpExprTree (h : list ExprTreeNode)
    (root given : option ptr) : outcome (list (option ptr)) :=
  g ← deref given;
  _ ← deref (h !! g);
  divisorsLoop (length h) h given [].

(** [Builder.CreateShl(Builder.getInt32(1), V)]. *)
Definition insertCodeToShift1By (V : option IRValue) : outcome IRValue :=
  v ← deref V;
  if bool_decide (typeOf v = i32) then Ret (VBin IShl (VConst i32 1) v)
  else Abort.

(** [insertTreeEvaluationCode]; the parameter [LoopIters] is passed down and
    not used.  The children of a node that is neither a terminal nor a phi
    are dereferenced for the log before they are visited.  The value parsed
    for a constant is also stored in the node; the store is not threaded
    through for it, since none of the functions below reads the [value] of a
    tree node. *)
Fixpoint insertTreeEvaluationCode (fuel : nat) (h : list ExprTreeNode)
    (Unknowns : gmap ptr (option IRValue)) (node : option ptr)
  : outcome (option IRValue) :=
  match node with
  | None => Ret None
  | Some p =>
      match fuel with
      | 0 => OutOfFuel
      | S fuel' =>
          n ← deref (h !! p);
          if isTerminal n then
            match Unknowns !! p with
            | Some val => v ← deref val; Ret (Some v)
            | None =>
                if bool_decide (op n = ETO_CONST) then
                  c ← stoll (original_str n);
                  Ret (Some (insertConstantNode (set_value (u64 c) n)))
                else if bool_decide (op n = ETO_PHI_TERM) then
                  Ret (Some (insertConstantNode_unsigned 0))
                else Abort
            end
          else if bool_decide (op n = ETO_PHI) then
            Ret (Some (insertConstantNode_unsigned 1))
          else
            c0 ← deref (child0 n); _ ← deref (h !! c0);
            c1 ← deref (child1 n); _ ← deref (h !! c1);
            Left ← insertTreeEvaluationCode fuel' h Unknowns (child0 n);
            Right ← insertTreeEvaluationCode fuel' h Unknowns (child1 n);
            insertComputationNode Left Right (op n)
      end
  end.

(** The code for the multipliers found, a shift amount turned into [1 << v]. *)
Fixpoint multipliersInCode (fuel : nat) (h : list ExprTreeNode)
    (Unknowns : gmap ptr (option IRValue)) (Multipliers : list (option ptr))
  : outcome (list (option IRValue)) :=
  match Multipliers with
  | [] => Ret []
  | Multiplier :: rest =>
      m ← deref Multiplier;
      mn ← deref (h !! m);
      Result ← insertTreeEvaluationCode fuel h Unknowns Multiplier;
      p ← deref (parent mn);
      pn ← deref (h !! p);
      Result ← (if bool_decide (op pn = ETO_SHL)
                then r ← insertCodeToShift1By Result; Ret (Some r)
                else Ret Result);
      rest' ← multipliersInCode fuel h Unknowns rest;
      Ret (Result :: rest')
  end.

Fixpoint divisorsInCode (fuel : nat) (h : list ExprTreeNode)
    (Unknowns : gmap ptr (option IRValue)) (Divisions : list (option ptr))
  : outcome (list (option IRValue)) :=
  match Divisions with
  | [] => Ret []
  | Divisor :: rest =>
      d ← deref Divisor;
      _ ← deref (h !! d);
      Result ← insertTreeEvaluationCode fuel h Unknowns Divisor;
      rest' ← divisorsInCode fuel h Unknowns rest;
      Ret (Result :: rest')
  end.

(** The loops [Accumulator = insertComputationNode(Accumulator, V, Op)], each
    value dumped first. *)
Fixpoint accumulate (Op : ExprTreeOp) (Accumulator : option IRValue)
    (Values : list (option IRValue)) : outcome (option IRValue) :=
  match Values with
  | [] => Ret Accumulator
  | V :: rest =>
      _ ← deref V;
      Accumulator ← insertComputationNode Accumulator V Op;
      accumulate Op Accumulator rest
  end.

(** The calls to the run-time library that record a partial difference. *)
Inductive PartDiffCall : Type :=
  | add_pd_bidy_to_allocation (Allocation : HostValue) (S : IRValue)
  | add_pd_phi_to_allocation (Allocation : HostValue) (S : IRValue).

Definition unknownsOf (CI : Invocation) (Node : option ptr)
  : outcome (gmap ptr (option IRValue)) :=
  Unknowns ← identifyUnknownsFromExpressionTree (length (nodes CI)) CI (nodes CI)
                ∅ Node;
  _ ← dumpUnknowns Unknowns;
  Ret Unknowns.

(** The code for one node found: the product of its multipliers, then (for
    the block index x) the quotients by its divisors, cast to 64 bits. *)
Definition productInCode (CI : Invocation)
    (Unknowns : gmap ptr (option IRValue)) (Node given : option ptr)
    (withDivisors : bool) : outcome (option IRValue) :=
  let h := nodes CI in
  Multipliers ← findMultipliersByTraversingUpExprTree h Node given;
  MultiplierInCode ← multipliersInCode (length h) h Unknowns Multipliers;
  DivisionInCode ←
    (if withDivisors then
       Divisions ← findDivisorsByTraversingUpExprTree h Node given;
       divisorsInCode (length h) h Unknowns Divisions
     else Ret []);
  Accumulator ← accumulate ETO_MUL (Some (insertConstantNode_unsigned 1))
                  MultiplierInCode;
  accumulate ETO_DIV Accumulator DivisionInCode.

Fixpoint sumOverNodes (CI : Invocation) (Unknowns : gmap ptr (option IRValue))
    (Node : option ptr) (Collection : list ptr) (SumAccumulator : option IRValue)
  : outcome (option IRValue) :=
  match Collection with
  | [] => Ret SumAccumulator
  | BIDXNode :: rest =>
      Accumulator ← productInCode CI Unknowns Node (Some BIDXNode) true;
      Accumulator ← insertCodeToCastInt32ToInt64 Accumulator;
      SumAccumulator ←
        insertComputationNode SumAccumulator (Some Accumulator) ETO_ADD;
      sumOverNodes CI Unknowns Node rest SumAccumulator
  end.

Definition insertCodeToComputePartDiff_bidx (CI : Invocation)
    (Allocation : HostValue) (Node : option ptr) : outcome (option IRValue) :=
  let h := nodes CI in
  Unknowns ← unknownsOf CI Node;
  Collection ← collectNodesWithParticularExprTreeOp (length h) h Node ETO_BIDX [];
  SumAccumulator ←
    insertCodeToCastInt32ToInt64 (Some (insertConstantNode_unsigned 0));
  sumOverNodes CI Unknowns Node Collection (Some SumAccumulator).

Definition insertCodeToComputePartDiff_bidy (CI : Invocation)
    (Allocation : HostValue) (Node : option ptr)
  : outcome (IRValue * list PartDiffCall) :=
  let h := nodes CI in
  Unknowns ← unknownsOf CI Node;
  BIDYNode ← locateNodeWithParticularExprTreeOp (length h) h Node ETO_BIDY;
  match BIDYNode with
  | None => Ret (insertConstantNode_ull 0, [])
  | Some _ =>
      Accumulator ← productInCode CI Unknowns Node BIDYNode false;
      Accumulator ← insertCodeToCastInt32ToInt64 Accumulator;
      Ret (Accumulator, [add_pd_bidy_to_allocation Allocation Accumulator])
  end.

(** The walk from the phi-term up to the phi, which collects the other
    operands of the additions on the way. *)
Fixpoint addersLoop (fuel : nat) (h : list ExprTreeNode) (Current Phi : ptr)
    (Adders : list (option ptr)) : outcome (list (option ptr)) :=
  if bool_decide (Current = Phi) then Ret Adders
  else
    match fuel with
    | 0 => OutOfFuel
    | S fuel' =>
        cn ← deref (h !! Current);
        if bool_decide (parent cn = Some Phi) then Ret Adders
        else
          P ← deref (parent cn);
          pn ← deref (h !! P);
          if bool_decide (op pn = ETO_ADD) then
            let Adders :=
              if bool_decide (child0 pn = Some Current)
              then Adders ++ [child1 pn] else Adders in
            let Adders :=
              if bool_decide (child1 pn = Some Current)
              then Adders ++ [child0 pn] else Adders in
            addersLoop fuel' h P Phi Adders
          else Abort
    end.

Fixpoint addAdders (fuel : nat) (h : list ExprTreeNode)
    (Unknowns : gmap ptr (option IRValue)) (Adders : list (option ptr))
    (PhiAdd : option IRValue) : outcome (option IRValue) :=
  match Adders with
  | [] => Ret PhiAdd
  | Adder :: rest =>
      a ← deref Adder;
      _ ← deref (h !! a);
      Result ← insertTreeEvaluationCode fuel h Unknowns Adder;
      PhiAdd ← insertComputationNode PhiAdd Result ETO_ADD;
      addAdders fuel h Unknowns rest PhiAdd
  end.

Definition insertCodeToComputePartDiff_phi (CI : Invocation)
    (Allocation : HostValue) (Node : option ptr)
  : outcome (IRValue * list PartDiffCall) :=
  let h := nodes CI in
  Unknowns ← unknownsOf CI Node;
  Phi ← locateNodeWithParticularExprTreeOp (length h) h Node ETO_PHI;
  PhiTerm ← locateNodeWithParticularExprTreeOp (length h) h Node ETO_PHI_TERM;
  match Phi, PhiTerm with
  | Some phi, Some phiterm =>
      Accumulator ← productInCode CI Unknowns Node Phi false;
      Adders ← addersLoop (length h) h phiterm phi [];
      PhiAdd ← addAdders (length h) h Unknowns Adders
                  (Some (insertConstantNode_unsigned 0));
      _ ← deref PhiAdd;
      Accumulator ← insertCodeToCastInt32ToInt64 Accumulator;
      PhiAdd ← insertCodeToCastInt32ToInt64 PhiAdd;
      Accumulator ← insertComputationNode (Some Accumulator) (Some PhiAdd) ETO_MUL;
      Accumulator ← deref Accumulator;
      Ret (Accumulator, [add_pd_phi_to_allocation Allocation Accumulator])
  | _, _ => Ret (insertConstantNode_ull 0, [])
  end.

(** Every argument that occurs in the expression is bound to an actual
    argument of the invocation. *)
Definition argsBound (CI : Invocation) (e : Expr) : Prop :=
  ∀ tok, tok ∈ postfix e → opOf tok = ETO_ARG →
         is_Some (KernelInvocationToArgNumberToActualArgMap CI !! argOf tok).

Definition tokenHasOp (o : ExprTreeOp) (tok : string) : bool :=
  bool_decide (opOf tok = o).

(** *** The same searches on the expression *)

(** The values that [identifyUnknownsFromExpressionTree] adds for the tree of
    [e] allocated from the address [a] on: [children[0]], the second operand,
    is visited first. *)
Fixpoint exprUnknowns (CI : Invocation) (a : nat) (e : Expr)
    (Unknowns : gmap ptr (option IRValue)) : gmap ptr (option IRValue) :=
  match e with
  | Leaf tok =>
      match opOf tok with
      | ETO_ARG =>
          <[a := (λ v, VHost v (vty v)) <$>
                 (KernelInvocationToArgNumberToActualArgMap CI !! argOf tok)]>
            Unknowns
      | ETO_BDIMX =>
          <[a := Some (insertConstantNode_unsigned (blockSize CI AXIS_TYPE_BDIMX))]>
            Unknowns
      | ETO_BDIMY =>
          <[a := Some (insertConstantNode_unsigned (blockSize CI AXIS_TYPE_BDIMY))]>
            Unknowns
      | _ => Unknowns
      end
  | Bin _ x y =>
      exprUnknowns CI a x (exprUnknowns CI (a + nodeCount x) y Unknowns)
  end.

(** The address of the node that [locateNodeWithParticularExprTreeOp] finds. *)
Fixpoint locateExpr (Op : ExprTreeOp) (a : nat) (e : Expr) : option ptr :=
  match e with
  | Leaf tok => if bool_decide (opOf tok = Op) then Some a else None
  | Bin tok x y =>
      if bool_decide (opOf tok = Op) then Some (a + nodeCount x + nodeCount y)
      else
        match locateExpr Op (a + nodeCount x) y with
        | Some p => Some p
        | None => locateExpr Op a x
        end
  end.

(** The addresses that [collectNodesWithParticularExprTreeOp] appends. *)
Fixpoint collectExpr (Op : ExprTreeOp) (a : nat) (e : Expr) : list ptr :=
  match e with
  | Leaf tok => if bool_decide (opOf tok = Op) then [a] else []
  | Bin tok x y =>
      (if bool_decide (opOf tok = Op)
       then [a + nodeCount x + nodeCount y] else []) ++
      collectExpr Op (a + nodeCount x) y ++ collectExpr Op a x
  end.

(** The code that [insertTreeEvaluationCode] returns for the tree of [e]
    allocated from the address [a] on: the second operand is visited first; a
    leaf that is no terminal has no children to log. *)
Fixpoint exprCode (Unknowns : gmap ptr (option IRValue)) (a : nat) (e : Expr)
  : outcome (option IRValue) :=
  match e with
  | Leaf tok =>
      if isTerminalOp (opOf tok) then
        match Unknowns !! a with
        | Some val => v ← deref val; Ret (Some v)
        | None =>
            if bool_decide (opOf tok = ETO_CONST) then
              c ← stoll tok;
              Ret (Some (VConst i32 (u32 (u64 c))))
            else if bool_decide (opOf tok = ETO_PHI_TERM) then
              Ret (Some (insertConstantNode_unsigned 0))
            else Abort
        end
      else Undefined
  | Bin tok x y =>
      Left ← exprCode Unknowns (a + nodeCount x) y;
      Right ← exprCode Unknowns a x;
      insertComputationNode Left Right (opOf tok)
  end.

(** *** The path from a leaf to the root *)

(** One node on the path: its token, its other operand, and whether the path
    comes up from its first operand. *)
Record PathStep : Type := mkStep {
  stepTok : string;
  stepOther : Expr;
  stepFirst : bool
}.

(** The expression around [x], the outermost node of the path first. *)
Fixpoint plug (steps : list PathStep) (x : Expr) : Expr :=
  match steps with
  | [] => x
  | s :: rest =>
      if stepFirst s then Bin (stepTok s) (plug rest x) (stepOther s)
      else Bin (stepTok s) (stepOther s) (plug rest x)
  end.

(** Where the tree of [x] starts when [plug steps x] is allocated from [a]. *)
Fixpoint holeAddr (a : nat) (steps : list PathStep) (x : Expr) : nat :=
  match steps with
  | [] => a
  | s :: rest =>
      if stepFirst s then holeAddr a rest x
      else holeAddr (a + nodeCount (stepOther s)) rest x
  end.

Definition isMulOrShlOp (o : ExprTreeOp) : bool :=
  bool_decide (o = ETO_MUL) || bool_decide (o = ETO_SHL).

Definition isUDivOrSDivOp (o : ExprTreeOp) : bool :=
  bool_decide (o = ETO_UDIV) || bool_decide (o = ETO_SDIV).

(** The other operands of the nodes on the path whose operator is selected
    by [sel], from the leaf upwards, each with the address where its tree
    starts. *)
Fixpoint pathOperands (sel : ExprTreeOp → bool) (a : nat)
    (steps : list PathStep) (x : Expr) : list (nat * PathStep) :=
  match steps with
  | [] => []
  | s :: rest =>
      let aIn := if stepFirst s then a else a + nodeCount (stepOther s) in
      let aOther := if stepFirst s then a + nodeCount (plug rest x) else a in
      pathOperands sel aIn rest x ++
      (if sel (opOf (stepTok s)) then [(aOther, s)] else [])
  end.

(** The other operands of the multiplications and shifts on the path, and
    those of the unsigned and signed divisions. *)
Definition factors : nat → list PathStep → Expr → list (nat * PathStep) :=
  pathOperands isMulOrShlOp.
Definition divisors : nat → list PathStep → Expr → list (nat * PathStep) :=
  pathOperands isUDivOrSDivOp.

(** The code for a factor: a shift amount [v] becomes [1 << v]. *)
Definition factorCode (Unknowns : gmap ptr (option IRValue))
    (f : nat * PathStep) : outcome (option IRValue) :=
  Result ← exprCode Unknowns f.1 (stepOther f.2);
  if bool_decide (opOf (stepTok f.2) = ETO_SHL)
  then r ← insertCodeToShift1By Result; Ret (Some r)
  else Ret Result.

Fixpoint factorCodes (Unknowns : gmap ptr (option IRValue))
    (fs : list (nat * PathStep)) : outcome (list (option IRValue)) :=
  match fs with
  | [] => Ret []
  | f :: rest =>
      c ← factorCode Unknowns f;
      cs ← factorCodes Unknowns rest;
      Ret (c :: cs)
  end.

(** The multiplier recorded for a factor is the root of its tree. *)
Definition factorRoot (f : nat * PathStep) : option ptr :=
  Some (f.1 + nodeCount (stepOther f.2) - 1).

(** The store [H] holds the tree of the factor below a node that carries the
    operator of its step. *)
Definition factorHeld (H : list ExprTreeNode) (f : nat * PathStep) : Prop :=
  wfExpr (stepOther f.2) ∧
  ∃ p pn, holdsAt H f.1 (layout f.1 (Some p) (stepOther f.2)) ∧
          H !! p = Some pn ∧ op pn = opOf (stepTok f.2).

(** The code for a divisor, and for a list of them. *)
Definition divisorCode (Unknowns : gmap ptr (option IRValue))
    (f : nat * PathStep) : outcome (option IRValue) :=
  exprCode Unknowns f.1 (stepOther f.2).

Fixpoint divisorCodes (Unknowns : gmap ptr (option IRValue))
    (fs : list (nat * PathStep)) : outcome (list (option IRValue)) :=
  match fs with
  | [] => Ret []
  | f :: rest =>
      c ← divisorCode Unknowns f;
      cs ← divisorCodes Unknowns rest;
      Ret (c :: cs)
  end.

(** ** Loops whose bounds are expressions *)

(** The code that [insertLoopItersEvaluationCode] returns for the tree of [e]
    allocated from the address [a] on.  A leaf that is no terminal has two
    null children, which [insertComputationNode] refuses. *)
Fixpoint exprItersCode (Unknowns : gmap ptr (option IRValue)) (a : nat)
    (e : Expr) : outcome (option IRValue) :=
  match e with
  | Leaf tok =>
      if isTerminalOp (opOf tok) then
        match Unknowns !! a with
        | Some val => v ← deref val; Ret (Some v)
        | None =>
            match opOf tok with
            | ETO_CONST =>
                c ← stoi tok;
                Ret (Some (VConst i32 (u32 (u64 c))))
            | ETO_BIDX | ETO_BIDY | ETO_TIDX | ETO_TIDY | ETO_INCOMP =>
                Ret (Some (insertConstantNode_unsigned 0))
            | _ => Abort
            end
        end
      else Abort
  | Bin tok x y =>
      Left ← exprItersCode Unknowns (a + nodeCount x) y;
      Right ← exprItersCode Unknowns a x;
      insertComputationNode Left Right (opOf tok)
  end.

(** What [partiallyEvaluatedLoopIters] allocates from the address [a] on for
    the initial bound [ein], the final bound [efin] and the step [estep]: the
    three trees, then the node of [final - initial] and the node of the
    quotient by the step, which is the root. *)
Definition boundsTree (a : nat) (ein efin estep : Expr) : list ExprTreeNode :=
  let a1 := a + nodeCount ein in
  let a2 := a1 + nodeCount efin in
  let a3 := a2 + nodeCount estep in
  layout a None ein ++ layout a1 None efin ++ layout a2 None estep ++
  [ set_children (Some (a2 - 1)) (Some (a1 - 1)) (set_op ETO_SUB new_ExprTreeNode);
    set_children (Some a3) (Some (a3 - 1)) (set_op ETO_DIV new_ExprTreeNode) ].

(** The unknowns identified in this tree: those of the final bound, of the
    initial bound and of the step, in this order. *)
Definition boundsUnknowns (CI : Invocation) (a : nat) (ein efin estep : Expr)
  : gmap ptr (option IRValue) :=
  exprUnknowns CI (a + nodeCount ein + nodeCount efin) estep
    (exprUnknowns CI a ein (exprUnknowns CI (a + nodeCount ein) efin ∅)).

(** The bound [e], allocated from [a] on, is an expression that the builder
    accepts, and its code is [c]. *)
Definition boundBuilt (Unknowns : gmap ptr (option IRValue)) (a : nat)
    (e : Expr) (c : IRValue) : Prop :=
  wfExpr e ∧ nodeCount e ≤ 50 ∧ head (postfix e) ≠ Some "INCOMP"%string ∧
  exprItersCode Unknowns a e = Ret (Some c).


(** ** The working-set size of an access

    [estimateWorkingSetSizeAdvanced] and the functions it calls, on the n-ary
    tree of the access.  The recursions over the tree are bounded by the
    number of nodes of the store. *)

Module WorkingSet.

Definition isTerminal (n : Advanced.ExprTreeNodeAdvanced) : bool :=
  isTerminalOp (Advanced.op n).
Definition isOperation (n : Advanced.ExprTreeNodeAdvanced) : bool :=
  isOperationOp (Advanced.op n).

(** [Builder.getInt32(Node->value)]. *)
Definition insertConstantNode (Node : Advanced.ExprTreeNodeAdvanced) : IRValue :=
  VConst i32 (u32 (Advanced.value Node)).

(** The loop of [detectParticularNode]: the children of the node popped are
    pushed in their order, so that the last one is on top. *)
Fixpoint detectLoop (fuel : nat) (h : list Advanced.ExprTreeNodeAdvanced)
    (op : ExprTreeOp) (Stack : list ptr) : outcome bool :=
  match Stack with
  | [] => Ret false
  | Current :: Stack' =>
      match fuel with
      | 0 => OutOfFuel
      | S fuel' =>
          c ← deref (h !! Current);
          if bool_decide (Advanced.op c = op) then Ret true
          else detectLoop fuel' h op (reverse (Advanced.children c) ++ Stack')
      end
  end.

Definition detectParticularNode (h : list Advanced.ExprTreeNodeAdvanced)
    (root : option ptr) (op : ExprTreeOp) : outcome bool :=
  match root with
  | None => Ret false
  | Some r => detectLoop (length h) h op [r]
  end.

Definition isTrivialExpression (h : list Advanced.ExprTreeNodeAdvanced)
    (Node : option ptr) : outcome bool :=
  found ← detectParticularNode h Node ETO_GEP;
  Ret (negb found).

(** A loop over [node->children] that updates [Unknowns]. *)
Fixpoint overChildren
    (visit : gmap ptr (option IRValue) → option ptr →
             outcome (gmap ptr (option IRValue)))
    (children : list ptr) (Unknowns : gmap ptr (option IRValue))
  : outcome (gmap ptr (option IRValue)) :=
  match children with
  | [] => Ret Unknowns
  | child :: rest =>
      U ← visit Unknowns (Some child);
      overChildren visit rest U
  end.

(** The actual argument bound to an [ARG] node is dumped before it is
    recorded: a null one is dereferenced. *)
Fixpoint identifyUnknownsFromExpressionTreeAdvanced (fuel : nat)
    (CI : Invocation) (h : list Advanced.ExprTreeNodeAdvanced)
    (Unknowns : gmap ptr (option IRValue)) (node : option ptr)
  : outcome (gmap ptr (option IRValue)) :=
  match node with
  | None => Ret Unknowns
  | Some p =>
      match fuel with
      | 0 => OutOfFuel
      | S fuel' =>
          n ← deref (h !! p);
          if isTerminal n then
            match Advanced.op n with
            | ETO_ARG =>
                unknown ← deref (KernelInvocationToArgNumberToActualArgMap CI
                                   !! Advanced.arg n);
                Ret (<[p := Some (VHost unknown (vty unknown))]> Unknowns)
            | ETO_BDIMX =>
                Ret (<[p := Some (insertConstantNode_unsigned
                                   (blockSize CI AXIS_TYPE_BDIMX))]> Unknowns)
            | ETO_BDIMY =>
                Ret (<[p := Some (insertConstantNode_unsigned
                                   (blockSize CI AXIS_TYPE_BDIMY))]> Unknowns)
            | _ => Ret Unknowns
            end
          else
            overChildren
              (identifyUnknownsFromExpressionTreeAdvanced fuel' CI h)
              (Advanced.children n) Unknowns
      end
  end.

(** The largest value of a thread index is the block dimension less one; a
    block index is taken to be the constant 4. *)
Fixpoint identifyMaxForUnknowsAdvanced (fuel : nat) (CI : Invocation)
    (h : list Advanced.ExprTreeNodeAdvanced)
    (Unknowns : gmap ptr (option IRValue)) (node : option ptr)
  : outcome (gmap ptr (option IRValue)) :=
  match node with
  | None => Ret Unknowns
  | Some p =>
      match fuel with
      | 0 => OutOfFuel
      | S fuel' =>
          n ← deref (h !! p);
          if isTerminal n then
            match Advanced.op n with
            | ETO_TIDX =>
                Ret (<[p := Some (insertConstantNode_unsigned
                                   (blockSize CI AXIS_TYPE_BDIMX - 1))]> Unknowns)
            | ETO_TIDY =>
                Ret (<[p := Some (insertConstantNode_unsigned
                                   (blockSize CI AXIS_TYPE_BDIMY - 1))]> Unknowns)
            | ETO_BIDX | ETO_BIDY =>
                Ret (<[p := Some (insertConstantNode_unsigned 4)]> Unknowns)
            | _ => Ret Unknowns
            end
          else
            overChildren (identifyMaxForUnknowsAdvanced fuel' CI h)
              (Advanced.children n) Unknowns
      end
  end.

(** The smallest value of a thread index is 0. *)
Fixpoint identifyMinForUnknowsAdvanced (fuel : nat) (CI : Invocation)
    (h : list Advanced.ExprTreeNodeAdvanced)
    (Unknowns : gmap ptr (option IRValue)) (node : option ptr)
  : outcome (gmap ptr (option IRValue)) :=
  match node with
  | None => Ret Unknowns
  | Some p =>
      match fuel with
      | 0 => OutOfFuel
      | S fuel' =>
          n ← deref (h !! p);
          if isTerminal n then
            match Advanced.op n with
            | ETO_TIDX | ETO_TIDY =>
                Ret (<[p := Some (insertConstantNode_unsigned 0)]> Unknowns)
            | ETO_BIDX | ETO_BIDY =>
                Ret (<[p := Some (insertConstantNode_int 4)]> Unknowns)
            | _ => Ret Unknowns
            end
          else
            overChildren (identifyMinForUnknowsAdvanced fuel' CI h)
              (Advanced.children n) Unknowns
      end
  end.

(** [insertComputationNodeAdvanced]: as [insertComputationNode], but a shift
    is [CreateShl(Src1, Src2)]. *)
Definition insertComputationNodeAdvanced (Src1 Src2 : option IRValue)
    (Op : ExprTreeOp) : outcome (option IRValue) :=
  match Src1, Src2 with
  | Some s1, Some s2 =>
      '(s1, s2) ←
        (if negb (bool_decide (typeOf s1 = typeOf s2)) &&
            isIntegerTy (typeOf s1) && isIntegerTy (typeOf s2)
         then a ← castIfInt32 s1; b ← castIfInt32 s2; Ret (a, b)
         else Ret (s1, s2));
      if bool_decide (typeOf s1 = typeOf s2) then
        match Op with
        | ETO_ADD => createBin IAdd s1 s2
        | ETO_SUB => createBin ISub s1 s2
        | ETO_AND => createBin IAnd s1 s2
        | ETO_OR => createBin IOr s1 s2
        | ETO_MUL => createBin IMul s1 s2
        | ETO_SHL => createBin IShl s1 s2
        | ETO_DIV => createBin IUDiv s1 s2
        | ETO_UDIV => createBin IUDiv s1 s2
        | ETO_SDIV => createBin ISDiv s1 s2
        | _ => Ret None
        end
      else Abort
  | _, _ => Abort
  end.

(** The log of the children of a node: every child is dereferenced. *)
Definition logChildren (h : list Advanced.ExprTreeNodeAdvanced)
    (children : list ptr) : outcome unit :=
  if forallb (λ child, bool_decide (is_Some (h !! child))) children
  then Ret tt else Undefined.

Section Evaluation.

(** The code for a [PHI] node, [insertTreeEvaluationCodeForPhi] with
    [rootphi = true], is not looked into: it takes the unknowns, the node, the
    flag [minimize] and the iteration counts of the loops. *)
Context (insertTreeEvaluationCodeForPhi :
           gmap ptr (option IRValue) → option ptr → bool →
           gmap Z (option IRValue) → outcome (option IRValue)).

(** [insertTreeEvaluationCodeAdvanced]: one function for the largest and for
    the smallest value; [Unknowns] holds the largest or the smallest value of
    every unknown.  A node that is neither a terminal, nor a [PHI], nor an
    operation stands for its first child.  The value parsed for a constant is
    also stored in the node; the store is not threaded through for it, since
    none of the functions here reads the [value] of a node of the store. *)
Fixpoint insertTreeEvaluationCodeAdvanced (fuel : nat)
    (h : list Advanced.ExprTreeNodeAdvanced)
    (Unknowns : gmap ptr (option IRValue)) (node : option ptr)
    (minimize : bool) (LoopIDToNumIterationsMap : gmap Z (option IRValue))
  : outcome (option IRValue) :=
  match node with
  | None => Ret None
  | Some p =>
      match fuel with
      | 0 => OutOfFuel
      | S fuel' =>
          n ← deref (h !! p);
          if isTerminal n then
            match Unknowns !! p with
            | Some val => v ← deref val; Ret (Some v)
            | None =>
                if bool_decide (Advanced.op n = ETO_CONST) then
                  c ← stoll (Advanced.original_str n);
                  Ret (Some (insertConstantNode
                               (Advanced.mkNode (Advanced.op n) (Advanced.arg n)
                                  (u64 c) (Advanced.original_str n)
                                  (Advanced.parent n) (Advanced.children n)
                                  (Advanced.isProb n))))
                else if bool_decide (Advanced.op n = ETO_PHI_TERM) then
                  Ret (Some (insertConstantNode_unsigned 0))
                else Abort
            end
          else if bool_decide (Advanced.op n = ETO_PHI) then
            insertTreeEvaluationCodeForPhi Unknowns node minimize
              LoopIDToNumIterationsMap
          else
            _ ← logChildren h (Advanced.children n);
            if isOperation n then
              child0 ← deref (Advanced.children n !! 0);
              Left ← insertTreeEvaluationCodeAdvanced fuel' h Unknowns
                       (Some child0) minimize LoopIDToNumIterationsMap;
              child1 ← deref (Advanced.children n !! 1);
              Right ← insertTreeEvaluationCodeAdvanced fuel' h Unknowns
                        (Some child1) minimize LoopIDToNumIterationsMap;
              insertComputationNodeAdvanced Left Right (Advanced.op n)
            else
              child0 ← deref (Advanced.children n !! 0);
              insertTreeEvaluationCodeAdvanced fuel' h Unknowns
                (Some child0) minimize LoopIDToNumIterationsMap
      end
  end.

(** [LoopArg] and [LoopIters] are passed and not used. *)
Definition insertCodeToEstimateMaxValueAdvanced (CI : Invocation)
    (h : list Advanced.ExprTreeNodeAdvanced) (Node : option ptr)
    (Unknowns : gmap ptr (option IRValue)) (LoopArg : Z)
    (LoopIters : option IRValue)
    (LoopIDToNumIterationsMap : gmap Z (option IRValue))
  : outcome (option IRValue) :=
  U ← identifyMaxForUnknowsAdvanced (length h) CI h Unknowns Node;
  insertTreeEvaluationCodeAdvanced (length h) h U Node false
    LoopIDToNumIterationsMap.

Definition insertCodeToEstimateMinValueAdvanced (CI : Invocation)
    (h : list Advanced.ExprTreeNodeAdvanced) (Node : option ptr)
    (Unknowns : gmap ptr (option IRValue)) (LoopArg : Z)
    (LoopIDToNumIterationsMap : gmap Z (option IRValue))
  : outcome (option IRValue) :=
  U ← identifyMinForUnknowsAdvanced (length h) CI h Unknowns Node;
  insertTreeEvaluationCodeAdvanced (length h) h U Node true
    LoopIDToNumIterationsMap.

(** What [estimateWorkingSetSizeAdvanced] returns: the constant 1 for a
    trivial expression, and otherwise the call of the run-time function
    [estimate_working_set2], whose first argument is the difference of the
    largest and the smallest value.  The calls inserted to print the two
    values, the constant 42042 and the result at run time are not recorded. *)
Inductive WorkingSetSize : Type :=
  | trivial_expression (one : IRValue)
  | estimate_working_set2 (wss : IRValue) (BDIMX BDIMY : option IRValue).

(** Get the largest value the expression can take, get the smallest one, get
    the difference. *)
Definition estimateWorkingSetSizeAdvanced (CI : Invocation)
    (h : list Advanced.ExprTreeNodeAdvanced) (Node : option ptr)
    (LoopIters BDIMX BDIMY : option IRValue)
    (LoopIDToNumIterationsMap : gmap Z (option IRValue))
  : outcome WorkingSetSize :=
  trivial ← isTrivialExpression h Node;
  if trivial : bool then Ret (trivial_expression (insertConstantNode_ull 1))
  else
    Unknowns ← identifyUnknownsFromExpressionTreeAdvanced (length h) CI h ∅ Node;
    _ ← dumpUnknowns Unknowns;
    maxValue ← insertCodeToEstimateMaxValueAdvanced CI h Node Unknowns 0
                 LoopIters LoopIDToNumIterationsMap;
    maxValue ← insertCodeToCastInt32ToInt64 maxValue;
    minValue ← insertCodeToEstimateMinValueAdvanced CI h Node Unknowns 0
                 LoopIDToNumIterationsMap;
    minValue ← insertCodeToCastInt32ToInt64 minValue;
    wss ← insertComputationNode (Some maxValue) (Some minValue) ETO_SUB;
    wss ← deref wss;
    wss ← castIfInt32 wss;
    Ret (estimate_working_set2 wss BDIMX BDIMY).

End Evaluation.

End WorkingSet.

(** The serialized n-ary tree of the address [100 - threadIdx.x]. *)
Definition hundred_less_tidx : list string :=
  ["("; "GEP"; "("; "SUB"; "("; "100"; ")"; "("; "TIDX"; ")"; ")"; ")"]%string.

(** An invocation with [v] threads along x in a block. *)
Definition threads_x (v : Z) : Invocation :=
  mkInvocation {[ AXIS_TYPE_BDIMX := v ]} ∅ ∅ ∅ ∅ ∅ ∅ ∅ [] ∅ ∅.

(** ** Nested loops and accesses in them *)

(** A catalogue with two loops, loop 2 with the bound tokens [inner] nested in
    the top-level loop 1 with the bound tokens [outer]. *)
Definition nested_loops (inner outer : list string) : Catalogue :=
  mkCatalogue {[ 1%Z := outer; 2%Z := inner ]} {[ 2%Z := 1%Z ]} ∅ ∅ ∅ ∅ [] ∅.

(** The same two loops, with the access 1 in loop 2, on the allocation passed
    as argument 0; its binary tree is the node [0] of the invocation. *)
Definition access_in_nested_loops (inner outer : list string) : Catalogue :=
  mkCatalogue {[ 1%Z := outer; 2%Z := inner ]} {[ 2%Z := 1%Z ]}
    {[ 1%Z := 2%Z ]} {[ 1%Z := 0%Z ]} {[ 1%Z := 0 ]} {[ 1%Z := 0 ]} []
    {[ 0%Z := allocation0 ]}.

(** An invocation that passes the 32-bit host value [bound] as argument 1 of
    the kernel. *)
Definition bound : HostValue := mkValue 7 KOther i32.
Definition bound_passed : Invocation :=
  mkInvocation ∅ ∅ ∅ ∅ {[ 1%Z := bound ]} ∅ ∅ ∅ [] ∅ ∅.

(** A run of the host program in which [bound] is [n] and every other host
    value is [t]. *)
Definition at_run_time (n t : Z) (id : nat) : Z :=
  if (id =? vid bound)%nat then n else t.
(** * Properties *)

(** ** Token classification *)

Lemma isNumber_loop_minus cs : isNumber_loop "-" cs = true.
Proof. induction cs as [|c cs IH]; simpl; [reflexivity | exact IH]. Qed.

(** C10: every token whose first character is ['-'] is classified as a
    numeric constant ([ETO_CONST]), whatever the remaining characters are: the
    digit check is skipped for every character of such a token. *)
Theorem C10_leading_minus_is_const (rest : string) :
  (∀ cs, isNumber_loop "-" cs = true) ∧
  isNumber (String "-" rest) = true ∧
  getExprTreeOp (String "-" rest) = Ret ETO_CONST.
Proof.
  split; [exact isNumber_loop_minus|].
  assert (H : isNumber (String "-" rest) = true)
    by (unfold isNumber; apply isNumber_loop_minus).
  split; [exact H|]. unfold getExprTreeOp. by rewrite H.
Qed.

Example getExprTreeOp_minus_abc : getExprTreeOp "-abc" = Ret ETO_CONST.
Proof. reflexivity. Qed.

(** The [ETO_LOAD] entry of the comparison chain stands behind the
    [ETO_MEMOP] entry for the same text, so no token is classified as
    [ETO_LOAD]. *)
Lemma firstMatch_not_LOAD s : firstMatch s opTable ≠ Some ETO_LOAD.
Proof.
  unfold opTable. cbn [firstMatch].
  repeat match goal with
         | |- context [String.eqb s ?t] =>
             destruct (String.eqb s t) eqn:?; [discriminate|]
         end.
  congruence.
Qed.

Lemma getExprTreeOp_not_LOAD s : getExprTreeOp s ≠ Ret ETO_LOAD.
Proof.
  unfold getExprTreeOp. destruct (isNumber s); [discriminate|].
  destruct (firstMatch s opTable) as [o|] eqn:E.
  - intros [= ->]. by eapply firstMatch_not_LOAD.
  - repeat case_match; discriminate.
Qed.

(** ** The binary tree builder: edge cases *)

Lemma reverse_nonempty_head {A} (l : list A) x :
  last l = Some x → ∃ l', reverse l = x :: l'.
Proof.
  intros H. destruct (reverse l) as [|y l'] eqn:E.
  - apply (f_equal reverse) in E. rewrite reverse_involutive in E.
    subst l. discriminate H.
  - exists l'. f_equal.
    rewrite <- (reverse_involutive l), E, reverse_cons, last_snoc in H.
    congruence.
Qed.

(** C7, as the code has it: no tree for the empty token list; the
    pointer-chase sentinel for more than 50 tokens; the incomplete sentinel
    for a list of at most 50 tokens whose LAST element is the incomplete
    marker (the builder reverses the list before it looks at the first
    element). *)
Theorem C7_sentinels (RPN : list string) (h : list ExprTreeNode) :
  (RPN = [] → createExpressionTree RPN h = Ret (h, None)) ∧
  (50 < length RPN →
     createExpressionTree RPN h = Ret (h ++ [leaf ETO_PC], Some (length h))) ∧
  (length RPN ≤ 50 → last RPN = Some "INCOMP"%string →
     createExpressionTree RPN h = Ret (h ++ [leaf ETO_INCOMP], Some (length h))).
Proof.
  split; [|split].
  - intros ->. reflexivity.
  - intros Hlen. unfold createExpressionTree.
    destruct (reverse RPN) as [|first l'] eqn:E.
    + apply (f_equal length) in E. rewrite length_reverse in E. simpl in E. lia.
    + rewrite <- E, length_reverse. by rewrite bool_decide_true.
  - intros Hlen Hlast. unfold createExpressionTree.
    destruct (reverse_nonempty_head _ _ Hlast) as [l' E]. rewrite E.
    rewrite <- E, length_reverse. rewrite bool_decide_false by lia.
    reflexivity.
Qed.

Lemma C7_sentinels_witness :
  createExpressionTree [] [] = Ret ([], None) ∧
  createExpressionTree (replicate 51 "ADD"%string) []
    = Ret ([leaf ETO_PC], Some 0) ∧
  createExpressionTree ["ADD"; "ARG0"; "INCOMP"]%string []
    = Ret ([leaf ETO_INCOMP], Some 0).
Proof.
  split; [|split].
  - apply (proj1 (C7_sentinels [] [])). reflexivity.
  - apply (proj1 (proj2 (C7_sentinels (replicate 51 "ADD"%string) []))).
    vm_compute. lia.
  - apply (proj2 (proj2 (C7_sentinels ["ADD"; "ARG0"; "INCOMP"]%string []))).
    + vm_compute. lia.
    + reflexivity.
Defined.

(** C7 fails as stated: a token list that begins with the incomplete marker
    but does not end with it is scanned as an ordinary expression; here the
    scan starts with [ADD] on an empty stack and the builder returns
    [nullptr]. *)
Lemma C7_counterexample :
  head ["INCOMP"; "ARG0"; "ADD"]%string = Some "INCOMP"%string ∧
  ∃ h', createExpressionTree ["INCOMP"; "ARG0"; "ADD"]%string [] = Ret (h', None).
Proof. split; [reflexivity|]. eexists. vm_compute. reflexivity. Qed.

(** ** The scenario [4 ARG0 MUL] *)

(** C1, as the code has it: the builder reverses its argument, so the postfix
    order [4 ARG0 MUL] is scanned when the list is given as
    [MUL ARG0 4].  The root is then the [MUL] node, its first operand
    ([children[1]], the first token pushed) is the constant [4] and its second
    operand ([children[0]]) is [ARG0]; with argument 0 bound to 10 the
    concrete evaluation returns 40. *)
Theorem C1_mul_4_arg0 :
  ∃ h root mul c4 a0,
    createExpressionTree ["MUL"; "ARG0"; "4"]%string [] = Ret (h, Some root) ∧
    h !! root = Some mul ∧ op mul = ETO_MUL ∧ parent mul = None ∧
    child1 mul ≫= (h !!.) = Some c4 ∧
    op c4 = ETO_CONST ∧ original_str c4 = "4"%string ∧
    child0 c4 = None ∧ child1 c4 = None ∧ parent c4 = Some root ∧
    child0 mul ≫= (h !!.) = Some a0 ∧
    op a0 = ETO_ARG ∧ arg a0 = 0%Z ∧
    child0 a0 = None ∧ child1 a0 = None ∧ parent a0 = Some root ∧
    evaluateExpressionTree (arg0_bound_to 10 h) (Some root) = Ret 40%Z.
Proof.
  do 5 eexists. split; [vm_compute; reflexivity|].
  repeat split; vm_compute; reflexivity.
Qed.

(** C1 fails as stated: given the list [4 ARG0 MUL] itself, the builder scans
    [MUL] first, finds the stack empty and returns [nullptr]. *)
Lemma C1_counterexample :
  ∃ h', createExpressionTree ["4"; "ARG0"; "MUL"]%string [] = Ret (h', None).
Proof. eexists. vm_compute. reflexivity. Qed.

(** ** Literal resolution in the interval evaluator *)

(** What [getMinValueForLiterals] returns for the axis terminals and the
    phi-term. *)
Lemma getMinValueForLiterals_axes CI node LoopArg loopid :
  (op node ∈ [ETO_TIDX; ETO_TIDY; ETO_BIDX; ETO_BIDY] →
     getMinValueForLiterals CI node LoopArg loopid = Ret 0%Z) ∧
  (op node = ETO_PHI_TERM → loopid = 0%Z →
     getMinValueForLiterals CI node LoopArg loopid = Ret 1%Z) ∧
  (op node = ETO_PHI_TERM → loopid ≠ 0%Z →
     getMinValueForLiterals CI node LoopArg loopid =
       (v ← evaluateExpressionTree CI (LoopIDToBoundsExprMapIn CI !! loopid);
        Ret (u32 v))).
Proof.
  unfold getMinValueForLiterals. repeat split.
  - intros H. repeat (apply elem_of_cons in H as [->|H]; [reflexivity|]).
    by apply elem_of_nil in H.
  - intros -> ->. reflexivity.
  - intros -> H. by rewrite bool_decide_false.
Qed.

(** What [getMaxValueForLiterals] returns for the thread-index terminals and
    for a block-index terminal whose grid dimension is a known constant. *)
Lemma getMaxValueForLiterals_axes CI node LoopArg loopid :
  (op node = ETO_TIDX →
     getMaxValueForLiterals CI node LoopArg loopid =
       Ret (u32 (blockSize CI AXIS_TYPE_BDIMX - 1))) ∧
  (op node = ETO_TIDY →
     getMaxValueForLiterals CI node LoopArg loopid =
       Ret (u32 (blockSize CI AXIS_TYPE_BDIMY - 1))) ∧
  (op node = ETO_BIDX →
     KernelInvocationToGridSizeValueMap CI !! AXIS_TYPE_GDIMX = None →
     getMaxValueForLiterals CI node LoopArg loopid =
       Ret (u32 (gridSize CI AXIS_TYPE_GDIMX - 1))) ∧
  (op node = ETO_BIDY →
     KernelInvocationToGridSizeValueMap CI !! AXIS_TYPE_GDIMY = None →
     getMaxValueForLiterals CI node LoopArg loopid =
       Ret (u32 (gridSize CI AXIS_TYPE_GDIMY - 1))).
Proof.
  unfold getMaxValueForLiterals. repeat split.
  - by intros ->.
  - by intros ->.
  - intros -> ->. reflexivity.
  - intros -> ->. reflexivity.
Qed.

(** C2 at the failing input: the grid dimension x is known only as an
    expression, which evaluates to 8 at iteration 0.  The maximum of the
    block index x should be 8 - 1 = 7, as in the branch for a constant grid
    dimension; the code returns the grid dimension itself, 8. *)
Theorem C2_block_index_max_from_expression :
  evaluateRPNForIter0 (grid_x_from_argument 8) [gridArg] = Ret 8%Z ∧
  getMaxValueForLiterals (grid_x_from_argument 8) (leaf ETO_BIDX) 0 0 = Ret 8%Z ∧
  getMaxValueForLiterals (grid_x_from_argument 8) (leaf ETO_BIDX) 0 0
    ≠ Ret (8 - 1)%Z.
Proof. repeat split; vm_compute; congruence. Qed.

(** ** Indirect accesses *)

Lemma indirectLoop_never_true fuel h root Stack r found :
  h !! root = Some r → Advanced.op r ≠ ETO_LOAD →
  Advanced.indirectLoop fuel h root Stack found ≠ Ret true.
Proof.
  intros Hr Hop. revert Stack found.
  induction fuel as [|fuel IH]; intros [|Current Stack] found; simpl; try discriminate.
  destruct (h !! Current) as [c|]; simpl; [|discriminate].
  rewrite Hr. simpl. rewrite bool_decide_false by done. apply IH.
Qed.

Lemma openNode_ops P s str s' b :
  (∀ str o, getExprTreeOp str = Ret o → P o) →
  Forall (λ n, P (Advanced.op n)) (Advanced.store s) →
  Advanced.openNode s str = Ret (s', b) →
  Forall (λ n, P (Advanced.op n)) (Advanced.store s').
Proof.
  intros HP Hs. unfold Advanced.openNode.
  destruct (getExprTreeOp str) as [o| | | |] eqn:Eo; simpl; try discriminate.
  pose proof (HP _ _ Eo) as Ho.
  case_bool_decide.
  { intros [= <- <-]. simpl. apply Forall_app. split; [done|]. by constructor. }
  set (n0 := Advanced.mkNode o 0 0 str None [] false).
  assert (Harg : ∀ (c : bool) (n : Advanced.ExprTreeNodeAdvanced) m,
             (if c then a ← getExprTreeNodeArg str; Ret (Advanced.set_arg a n)
              else Ret n) = Ret m → Advanced.op m = Advanced.op n).
  { intros c n m. destruct c; [|by intros [= <-]].
    destruct (getExprTreeNodeArg str); simpl; try discriminate.
    by intros [= <-]. }
  destruct (if bool_decide (o = ETO_ARG) then _ else _) as [n1| | | |] eqn:E1;
    simpl; try discriminate.
  apply Harg in E1.
  destruct (if bool_decide (o = ETO_PHI) then _ else _) as [n2| | | |] eqn:E2;
    simpl; try discriminate.
  apply Harg in E2.
  assert (Hn2 : P (Advanced.op n2)) by (rewrite E2, E1; exact Ho).
  destruct (Advanced.root s) as [r|].
  - destruct (head (Advanced.stack s)) as [top|]; simpl; [|discriminate].
    intros [= <- <-]. simpl. apply Forall_app. split.
    + apply Forall_alter; [done|]. intros x _ Hx. exact Hx.
    + by constructor.
  - intros [= <- <-]. simpl. apply Forall_app. split; [done|]. by constructor.
Qed.

Lemma buildLoop_ops P n : ∀ toks s s',
  length toks ≤ n →
  (∀ str o, getExprTreeOp str = Ret o → P o) →
  Forall (λ n, P (Advanced.op n)) (Advanced.store s) →
  Advanced.buildLoop s toks = Ret s' →
  Forall (λ n, P (Advanced.op n)) (Advanced.store s').
Proof.
  induction n as [|n IH]; intros toks s s' Hlen HP Hs.
  { destruct toks; [|simpl in Hlen; lia]. by intros [= <-]. }
  destruct toks as [|str rest]; [by intros [= <-]|].
  simpl in Hlen. cbn [Advanced.buildLoop].
  destruct (String.eqb str "(").
  - destruct rest as [|str' rest']; [discriminate|].
    destruct (Advanced.openNode s str') as [[s1 b]| | | |] eqn:E; simpl;
      try discriminate.
    pose proof (openNode_ops P _ _ _ _ HP Hs E) as Hs1.
    destruct b.
    + apply IH; [simpl in Hlen; lia|done|done].
    + by intros [= <-].
  - destruct (String.eqb str ")").
    + destruct (Advanced.stack s); [discriminate|].
      apply IH; [lia|done|done].
    + apply IH; [lia|done|done].
Qed.

Lemma openNode_root s str s' b r :
  Advanced.openNode s str = Ret (s', b) →
  Advanced.root s' = Some r →
  (Advanced.root s = Some r ∨
   (Advanced.root s = None ∧ r = length (Advanced.store s))) ∧
  length (Advanced.store s) < length (Advanced.store s').
Proof.
  unfold Advanced.openNode.
  destruct (getExprTreeOp str) as [o| | | |]; simpl; try discriminate.
  case_bool_decide.
  { intros [= <- <-]. simpl. rewrite length_app. simpl. intros ->.
    split; [by left|lia]. }
  destruct (if bool_decide (o = ETO_ARG) then _ else _) as [n1| | | |];
    simpl; try discriminate.
  destruct (if bool_decide (o = ETO_PHI) then _ else _) as [n2| | | |];
    simpl; try discriminate.
  destruct (Advanced.root s) as [r0|].
  - destruct (head (Advanced.stack s)) as [top|]; simpl; [|discriminate].
    intros [= <- <-]. simpl. rewrite length_app, length_alter. simpl.
    intros [= ->]. split; [by left|lia].
  - intros [= <- <-]. simpl. rewrite length_app. simpl.
    intros [= <-]. split; [by right|lia].
Qed.

Lemma buildLoop_root n : ∀ toks s s' r,
  length toks ≤ n →
  (∀ r0, Advanced.root s = Some r0 → r0 < length (Advanced.store s)) →
  Advanced.buildLoop s toks = Ret s' →
  Advanced.root s' = Some r → r < length (Advanced.store s').
Proof.
  induction n as [|n IH]; intros toks s s' r Hlen Hs.
  { destruct toks; [|simpl in Hlen; lia]. intros [= <-]. apply Hs. }
  destruct toks as [|str rest]; [intros [= <-]; apply Hs|].
  simpl in Hlen. cbn [Advanced.buildLoop].
  destruct (String.eqb str "(").
  - destruct rest as [|str' rest']; [discriminate|].
    destruct (Advanced.openNode s str') as [[s1 b]| | | |] eqn:E; simpl;
      try discriminate.
    assert (Hs1 : ∀ r0, Advanced.root s1 = Some r0 →
                        r0 < length (Advanced.store s1)).
    { intros r0 Hr0. destruct (openNode_root _ _ _ _ _ E Hr0) as [[H|[_ ->]] Hl].
      - specialize (Hs _ H). lia.
      - lia. }
    destruct b.
    + apply IH; [simpl in Hlen; lia|done].
    + intros [= <-]. apply Hs1.
  - destruct (String.eqb str ")").
    + destruct (Advanced.stack s); [discriminate|].
      apply IH; [lia|done].
    + apply IH; [lia|done].
Qed.

(** No serialized tree, whatever its tokens, is classified as indirect: no
    node built from a token carries [ETO_LOAD], and the test of
    [isIndirectAccess] looks at the operator of the root only. *)
Lemma isIndirectAccess_never_true serializedTree h root :
  Advanced.createExpressionTreeAdvanced serializedTree [] = Ret (h, root) →
  Advanced.isIndirectAccess h root ≠ Ret true.
Proof.
  unfold Advanced.createExpressionTreeAdvanced.
  destruct (Advanced.buildLoop _ _) as [s| | | |] eqn:E; simpl; try discriminate.
  intros [= <- <-].
  destruct (Advanced.root s) as [r|] eqn:Er; simpl; [|discriminate].
  assert (Hlt : r < length (Advanced.store s)).
  { eapply buildLoop_root; [apply le_n| |exact E|exact Er]. intros r0 [=]. }
  assert (Hops : Forall (λ n, Advanced.op n ≠ ETO_LOAD) (Advanced.store s)).
  { eapply (buildLoop_ops (λ o, o ≠ ETO_LOAD)); [apply le_n| | |exact E].
    - intros str o H ->. by apply (getExprTreeOp_not_LOAD str).
    - apply Forall_nil_2. }
  destruct (lookup_lt_is_Some_2 _ _ Hlt) as [rn Hrn].
  eapply indirectLoop_never_true; [exact Hrn|].
  eapply (Forall_lookup_1 _ _ _ _ Hops Hrn).
Qed.

(** C6 at the failing input: the serialized tree [LOAD (LOAD (ARG0))] has two
    nested [LOAD] tokens.  Both are classified as [ETO_MEMOP], the access is
    not reported as indirect, and the estimator goes on to compute and record
    a working-set size for it. *)
Theorem C6_two_nested_loads_not_indirect :
  ∃ h,
    Advanced.createExpressionTreeAdvanced two_nested_loads [] = Ret (h, Some 0) ∧
    Advanced.op <$> h = [ETO_MEMOP; ETO_MEMOP; ETO_ARG] ∧
    Advanced.isIndirectAccess h (Some 0) = Ret false ∧
    ∀ (PartDiffCode : Type) (pd : PartDiffCode) (wss : IRValue),
      accessDensityFor (λ _ _ _, Ret pd) (λ _ _ _ _, Ret wss)
        (arg0_bound_to 10 [leaf ETO_ARG]) (one_access h) false false 1
        (Some threads_in_grid) ∅ ∅ 1 0
      = Ret [addACToAllocation 1 allocation0 threads_in_grid;
             part_diff pd;
             add_wss_to_map allocation0 wss (insertConstantNode_unsigned 1);
             add_aid_invocation_map 1 1].
Proof.
  eexists. split; [vm_compute; reflexivity|].
  split; [vm_compute; reflexivity|].
  split; [vm_compute; reflexivity|].
  intros. vm_compute. reflexivity.
Qed.

(** ** The binary tree builder: the phi protocol and the arity of nodes *)

Lemma makeNodes_spec toks ns :
  makeNodes toks = Ret ns →
  Forall2 (λ str n, getExprTreeOp str = Ret (op n) ∧ shape n = (op n, 0)) toks ns.
Proof.
  revert ns. induction toks as [|str toks IH]; intros ns; simpl.
  - intros [= <-]. constructor.
  - destruct (getExprTreeOp str) as [o| | | |] eqn:Eo; simpl; try discriminate.
    destruct (makeNodes toks) as [ns0| | | |]; simpl; try discriminate.
    intros [= <-]. constructor; [by split|]. by apply IH.
Qed.

Lemma setArgs_spec ns ns' :
  setArgs ns = Ret ns' → shape <$> ns' = shape <$> ns.
Proof.
  revert ns'. induction ns as [|n ns IH]; intros ns'; simpl.
  - by intros [= <-].
  - destruct (if bool_decide (op n = ETO_ARG) then _ else _) as [n1| | | |] eqn:E1;
      simpl; try discriminate.
    destruct (setArgs ns) as [ns1| | | |]; simpl; try discriminate.
    intros [= <-]. simpl. f_equal; [|by apply IH].
    case_bool_decide; [|by injection E1 as <-].
    destruct (getExprTreeNodeArg _); simpl in E1; try discriminate.
    by injection E1 as <-.
Qed.

Lemma shape_alter_parent q c (l : list ExprTreeNode) :
  shape <$> alter (set_parent q) c l = shape <$> l.
Proof.
  rewrite (list_fmap_alter shape (set_parent q) id) by (by apply Forall_true).
  by apply list_alter_id.
Qed.

Lemma shape_alter_at (f : ExprTreeNode → ExprTreeNode) p (l : list ExprTreeNode) n :
  l !! p = Some n →
  shape <$> alter f p l = <[p := shape (f n)]> (shape <$> l).
Proof.
  intros Hp. apply list_eq. intros i.
  rewrite list_lookup_fmap. destruct (decide (i = p)) as [->|Hne].
  - rewrite list_lookup_alter_eq, Hp. simpl.
    rewrite list_lookup_insert_eq; [done|].
    rewrite length_fmap. by eapply lookup_lt_Some.
  - rewrite list_lookup_alter_ne, list_lookup_insert_ne by done.
    by rewrite list_lookup_fmap.
Qed.

Lemma shape_lookup (l : list ExprTreeNode) p x :
  (shape <$> l) !! p = Some x → ∃ n, l !! p = Some n ∧ shape n = x.
Proof.
  rewrite list_lookup_fmap. destruct (l !! p) as [n|]; [|discriminate].
  intros [= <-]. by exists n.
Qed.

Lemma reduce_shape s p seen s' o :
  (shape <$> store s) !! p = Some (o, 0) →
  reduce s p seen = Continue s' →
  shape <$> store s' = <[p := (o, 2)]> (shape <$> store s) ∧
  phi_term_seen s' = seen.
Proof.
  intros Hp. unfold reduce.
  destruct (stack s) as [|c1 [|c2 rest]]; try discriminate.
  intros [= <-]. simpl. split; [|done].
  set (h2 := alter (set_parent (Some p)) c2 (alter (set_parent (Some p)) c1 (store s))).
  assert (Hh2 : shape <$> h2 = shape <$> store s)
    by (unfold h2; by rewrite !shape_alter_parent).
  rewrite <- Hh2 in Hp. destruct (shape_lookup _ _ _ Hp) as (n2 & Hn2 & Hs).
  rewrite (shape_alter_at _ _ _ _ Hn2), Hh2. f_equal.
  pose proof (f_equal fst Hs) as Ho. simpl in Ho.
  unfold shape, arity. simpl. by rewrite Ho.
Qed.

Lemma treeStep_shape s p s' o :
  (shape <$> store s) !! p = Some (o, 0) →
  treeStep s p = Ret (Continue s') →
  shape <$> store s' = <[p := (phiStep (phi_term_seen s) o).1]> (shape <$> store s) ∧
  phi_term_seen s' = (phiStep (phi_term_seen s) o).2.
Proof.
  intros Hp. destruct (shape_lookup _ _ _ Hp) as (n & Hn & Hs).
  pose proof (f_equal fst Hs) as Ho. pose proof (f_equal snd Hs) as Har.
  simpl in Ho, Har. clear Hs.
  unfold treeStep. rewrite Hn. simpl. unfold isPhiNode, isOperation, phiStep.
  rewrite Ho. case_bool_decide as Hphi.
  - rewrite Hphi in Hp. destruct (phi_term_seen s); simpl.
    + intros [= H]. exact (reduce_shape _ _ _ _ _ Hp H).
    + intros [= <-]. simpl. split; [|done].
      rewrite (shape_alter_at _ _ _ _ Hn). f_equal.
      unfold shape, arity in *. simpl. by rewrite Har.
  - destruct (isOperationOp o) eqn:Eop; simpl.
    + intros [= H]. exact (reduce_shape _ _ _ _ _ Hp H).
    + intros [= <-]. simpl. split; [|done].
      symmetry. by apply list_insert_id.
Qed.

Lemma treeLoop_shape ops : ∀ s a pre post s',
  shape <$> store s = pre ++ ((λ o, (o, 0)) <$> ops) ++ post →
  length pre = a →
  treeLoop s (seq a (length ops)) = Ret (Continue s') →
  shape <$> store s' = pre ++ phiProtocol (phi_term_seen s) ops ++ post.
Proof.
  induction ops as [|o ops IH]; intros s a pre post s' Hsh Hlen; simpl.
  - by intros [= <-].
  - destruct (treeStep s a) as [[s1|h1]| | | |] eqn:E; simpl; try discriminate.
    assert (Hp : (shape <$> store s) !! a = Some (o, 0)).
    { rewrite Hsh. simpl. by apply list_lookup_middle. }
    destruct (treeStep_shape _ _ _ _ Hp E) as [Hs1 Hseen].
    intros Hloop. rewrite <- Hseen.
    rewrite (cons_middle _ pre), app_assoc.
    apply (IH s1 (S a)); [|rewrite length_app; simpl; lia|exact Hloop].
    rewrite Hs1, Hsh. simpl. rewrite <- Hlen.
    rewrite insert_app_r_alt by lia. rewrite Nat.sub_diag. simpl.
    by rewrite <- app_assoc.
Qed.

Lemma phiProtocol_arity seen ops x :
  x ∈ phiProtocol seen ops →
  (isOperationOp x.1 = true → x.2 = 2) ∧ (isTerminalOp x.1 = true → x.2 = 0).
Proof.
  revert seen. induction ops as [|o ops IH]; intros seen; simpl.
  - by intros ?%elem_of_nil.
  - intros [->|H]%elem_of_cons; [|by eapply IH].
    unfold phiStep. case_bool_decide.
    + destruct seen; simpl; split; try done; by vm_compute.
    + simpl. destruct (isOperationOp o) eqn:E; split; try done.
      intros Ht. destruct o; vm_compute in E, Ht; congruence.
Qed.

Lemma arity_children n :
  (arity n = 2 → is_Some (child0 n) ∧ is_Some (child1 n)) ∧
  (arity n = 0 → child0 n = None ∧ child1 n = None).
Proof.
  unfold arity. destruct (child0 n), (child1 n); simpl; split; intros H;
    try lia; split; eauto.
Qed.

(** The builder on its main path, in terms of shapes. *)
Lemma createExpressionTree_shape RPN h h' root :
  createExpressionTree RPN h = Ret (h', Some root) →
  length RPN ≤ 50 → head (reverse RPN) ≠ Some "INCOMP"%string →
  ∃ ops, Forall2 (λ str o, getExprTreeOp str = Ret o) (reverse RPN) ops ∧
         shape <$> h' = (shape <$> h) ++ phiProtocol false ops.
Proof.
  unfold createExpressionTree. intros H Hlen Hfirst.
  assert (HlenR : length (reverse RPN) ≤ 50) by (rewrite length_reverse; lia).
  destruct (reverse RPN) as [|first l] eqn:Erev; [discriminate|].
  rewrite bool_decide_false in H by lia.
  destruct (String.eqb first "INCOMP") eqn:Einc.
  { apply String.eqb_eq in Einc. subst first. by destruct Hfirst. }
  destruct (makeNodes (first :: l)) as [ns| | | |] eqn:Emk; simpl in H;
    try discriminate.
  destruct (setArgs ns) as [ns'| | | |] eqn:Eargs; simpl in H; try discriminate.
  destruct (treeLoop _ _) as [[s|hn]| | | |] eqn:Eloop; simpl in H;
    try discriminate.
  destruct (stack s) as [|r stk]; [discriminate|]. injection H as <- <-.
  pose proof (makeNodes_spec _ _ Emk) as Hmk.
  pose proof (setArgs_spec _ _ Eargs) as Hargs.
  exists (op <$> ns). split.
  - apply Forall2_fmap_r. eapply Forall2_impl; [exact Hmk|]. by intros ?? [? _].
  - assert (Hinit : shape <$> ns' = (λ o, (o, 0)) <$> (op <$> ns)).
    { rewrite Hargs, <- list_fmap_compose. apply Forall_fmap_ext_1.
      eapply Forall2_Forall_r; [exact Hmk|]. apply Forall_true.
      intros n str [_ Hs]. exact Hs. }
    assert (Hl : length ns' = length (op <$> ns)).
    { rewrite <- (length_fmap shape ns'), Hinit. by rewrite length_fmap. }
    rewrite Hl in Eloop.
    pose proof (treeLoop_shape (op <$> ns) (mkBuild (h ++ ns') [] false)
                  (length h) (shape <$> h) [] s) as HL.
    simpl in HL. rewrite !app_nil_r in HL. apply HL; [|by rewrite length_fmap|done].
    by rewrite fmap_app, Hinit.
Qed.

(** C8: the first [PHI] scanned becomes a childless phi-term, the next one a
    merge operator with two children, after which the protocol starts again;
    and in every tree the builder returns, a node with an operation kind has
    exactly two children and a node with a terminal kind has none. *)
Theorem C8_phi_protocol_and_arity (RPN : list string)
    (h h' : list ExprTreeNode) (root : ptr) :
  createExpressionTree RPN h = Ret (h', Some root) →
  (∀ p n, length h ≤ p → h' !! p = Some n →
     (isOperation n = true → is_Some (child0 n) ∧ is_Some (child1 n)) ∧
     (isTerminal n = true → child0 n = None ∧ child1 n = None)) ∧
  (length RPN ≤ 50 → head (reverse RPN) ≠ Some "INCOMP"%string →
     ∃ ops, Forall2 (λ str o, getExprTreeOp str = Ret o) (reverse RPN) ops ∧
            shape <$> drop (length h) h' = phiProtocol false ops).
Proof.
  intros H. split.
  - intros p n Hp Hn.
    assert (Hsent : ∀ o, bool_decide (o ∈ operations) = false →
              h' = h ++ [leaf o] →
              (isOperation n = true → is_Some (child0 n) ∧ is_Some (child1 n)) ∧
              (isTerminal n = true → child0 n = None ∧ child1 n = None)).
    { intros o Ho ->. rewrite lookup_app_r in Hn by done.
      destruct (p - length h) as [|k]; simpl in Hn; [|by destruct k].
      injection Hn as <-. unfold isOperation, isOperationOp. simpl.
      rewrite Ho. by split. }
    destruct (decide (50 < length RPN)) as [Hbig|Hsmall].
    { pose proof (proj1 (proj2 (C7_sentinels RPN h)) Hbig) as E.
      rewrite E in H. injection H as <- _. by apply (Hsent ETO_PC). }
    destruct (decide (head (reverse RPN) = Some "INCOMP"%string)) as [Hinc|Hninc].
    { assert (Hlast : last RPN = Some "INCOMP"%string).
      { rewrite <- (reverse_involutive RPN).
        destruct (reverse RPN) as [|x l]; [discriminate|].
        rewrite reverse_cons, last_snoc. exact Hinc. }
      pose proof (proj2 (proj2 (C7_sentinels RPN h)) ltac:(lia) Hlast) as E.
      rewrite E in H. injection H as <- _. by apply (Hsent ETO_INCOMP). }
    destruct (createExpressionTree_shape _ _ _ _ H ltac:(lia) Hninc)
      as (ops & _ & Hsh).
    assert (Hx : shape n ∈ phiProtocol false ops).
    { apply (f_equal (λ l, l !! p)) in Hsh. simpl in Hsh.
      rewrite list_lookup_fmap, Hn in Hsh. simpl in Hsh.
      rewrite lookup_app_r in Hsh by (rewrite length_fmap; lia).
      eapply list_elem_of_lookup_2. symmetry. exact Hsh. }
    destruct (phiProtocol_arity _ _ _ Hx) as [Hop Hterm].
    destruct (arity_children n) as [H2 H0].
    split; intros Hk; [apply H2, Hop|apply H0, Hterm]; exact Hk.
  - intros Hlen Hninc.
    destruct (createExpressionTree_shape _ _ _ _ H Hlen Hninc) as (ops & Hops & Hsh).
    exists ops. split; [done|].
    rewrite fmap_drop, Hsh.
    rewrite drop_app_length'; [done|by rewrite length_fmap].
Qed.

Lemma C8_phi_protocol_and_arity_witness :
  ∃ h', createExpressionTree ["PHI"; "ADD"; "1"; "PHI"; "0"]%string [] = Ret (h', Some 4) ∧
        shape <$> h' = [(ETO_CONST, 0); (ETO_PHI_TERM, 0); (ETO_CONST, 0);
                        (ETO_ADD, 2); (ETO_PHI, 2)].
Proof.
  eexists. split; [vm_compute; reflexivity|].
  match goal with
  | |- shape <$> ?h' = _ =>
      destruct (C8_phi_protocol_and_arity
                  ["PHI"; "ADD"; "1"; "PHI"; "0"]%string [] h' 4) as [_ Hproto]
  end.
  - vm_compute. reflexivity.
  - destruct Hproto as (ops & Hops & Hsh).
    + vm_compute. lia.
    + vm_compute. congruence.
    + vm_compute. reflexivity.
Defined.

(** ** Coefficient extraction *)

Lemma isNumber_not_INCOMP s : isNumber s = true → String.eqb s "INCOMP" = false.
Proof.
  intros H. destruct (String.eqb_spec s "INCOMP") as [->|]; [|done].
  vm_compute in H. discriminate.
Qed.

Lemma getExprTreeOp_number s : isNumber s = true → getExprTreeOp s = Ret ETO_CONST.
Proof. intros H. unfold getExprTreeOp. by rewrite H. Qed.

Lemma stoi_range s k : stoi s = Ret k → (INT_MIN ≤ k ≤ INT_MAX)%Z.
Proof.
  unfold stoi.
  match goal with
  | |- context [let '(_, _) := ?X in _] => destruct X as [neg ds]
  end.
  destruct ds as [|d ds]; [discriminate|].
  destruct (isDigit d); [|discriminate].
  match goal with
  | |- context [if ?c then Ret _ else _] => destruct c eqn:E
  end; [|discriminate].
  intros [= <-]. apply andb_prop in E as [?%Z.leb_le ?%Z.leb_le]. done.
Qed.

(** Unfolds the builder on a token list in which the number token [s] is the
    only one not given literally. *)
Ltac build_with_number Hnum :=
  unfold createExpressionTree;
  match goal with
  | |- context [reverse ?l] =>
      let r := eval cbv [reverse rev_append] in (reverse l) in
      change (reverse l) with r
  end;
  cbn [length]; rewrite bool_decide_false by lia;
  first [ rewrite (isNumber_not_INCOMP _ Hnum)
        | match goal with
          | |- context [String.eqb ?a "INCOMP"] =>
              change (String.eqb a "INCOMP") with false
          end ];
  cbn [makeNodes]; rewrite !(getExprTreeOp_number _ Hnum);
  repeat match goal with
         | |- context [getExprTreeOp (String ?c ?r)] =>
             let v := eval vm_compute in (getExprTreeOp (String c r)) in
             change (getExprTreeOp (String c r)) with v
         end;
  vm_compute.

(** The concrete evaluation of a leaf is the value of its literal. *)
Lemma evaluateExpressionTree_leaf CI p n :
  nodes CI !! p = Some n → isOperation n = false →
  evaluateExpressionTree CI (Some p) = getActualHostValueForLiterals CI n.
Proof.
  intros Hp Hop. unfold evaluateExpressionTree.
  destruct (length (nodes CI)) as [|f] eqn:El.
  { apply lookup_lt_Some in Hp. lia. }
  simpl. rewrite Hp. simpl. rewrite Hop.
  replace (toRPN f (nodes CI) [] [n]) with (Ret (A:=list ExprTreeNode) [n])
    by (by destruct f).
  simpl. unfold evaluateRPN, rpnValue. simpl. unfold rpnStep. rewrite Hop.
  by destruct (getActualHostValueForLiterals CI n).
Qed.

Lemma getActualHostValueForLiterals_const CI n k :
  op n = ETO_CONST → stoi (original_str n) = Ret k →
  getActualHostValueForLiterals CI n = Ret (u32 k).
Proof. intros Ho Hk. unfold getActualHostValueForLiterals. by rewrite Ho, Hk. Qed.

(** One multiplier: a [MUL] parent multiplies the running product, a [SHL]
    parent shifts it. *)
Lemma applyMultipliers_cons CI m rest mn p pn F :
  nodes CI !! m = Some mn → parent mn = Some p → nodes CI !! p = Some pn →
  applyMultipliers CI (Some m :: rest) F =
    (F1 ← (if bool_decide (op pn = ETO_MUL)
           then v ← evaluateExpressionTree CI (Some m); Ret (u64 (F * v))
           else Ret F);
     F2 ← (if bool_decide (op pn = ETO_SHL)
           then v ← evaluateExpressionTree CI (Some m); shl64 F1 v
           else Ret F1);
     applyMultipliers CI rest F2).
Proof. intros Hm Hp Hpn. simpl. rewrite Hm. simpl. rewrite Hp. simpl. by rewrite Hpn. Qed.

Lemma u32_small z : (0 ≤ z < 2 ^ 32)%Z → u32 z = z.
Proof. intros H. unfold u32. by apply Z.mod_small. Qed.
Lemma u64_small z : (0 ≤ z < 2 ^ 64)%Z → u64 z = z.
Proof. intros H. unfold u64. by apply Z.mod_small. Qed.

(** The coefficient of [ARG0] in a product or a shift whose other operand is
    the number token [s], for a tree built from [toks]. *)
Ltac coefficient_of_built_tree Hnum Hk :=
  do 2 eexists; split;
  [ build_with_number Hnum; reflexivity
  | let CI := fresh "CI" in let Hnodes := fresh "Hnodes" in
    intros CI Hnodes;
    unfold partialDifferenceOfExpressionTreeWRTGivenNode;
    rewrite Hnodes;
    match goal with
    | |- context [findNodeInExpressionTree ?h ?r ?o ?a] =>
        let v := eval vm_compute in (findNodeInExpressionTree h r o a) in
        change (findNodeInExpressionTree h r o a) with v
    end;
    cbn [mbind outcome_bind];
    match goal with
    | |- context [findMultipliersByTraversingUpExprTree ?h ?r ?g] =>
        let v := eval vm_compute in (findMultipliersByTraversingUpExprTree h r g) in
        change (findMultipliersByTraversingUpExprTree h r g) with v
    end;
    cbn [mbind outcome_bind];
    match goal with
    | |- context [applyMultipliers CI (Some ?m :: _) _] =>
        erewrite (applyMultipliers_cons CI m);
        [ | rewrite Hnodes; reflexivity | reflexivity | rewrite Hnodes; reflexivity ];
        erewrite (evaluateExpressionTree_leaf CI m);
        [ | rewrite Hnodes; reflexivity | reflexivity ];
        erewrite getActualHostValueForLiterals_const;
        [ | reflexivity | exact Hk ]
    end;
    cbn [op];
    repeat first [ rewrite bool_decide_true by reflexivity
                 | rewrite bool_decide_false by done ];
    cbn [mbind outcome_bind] ].

Lemma u32_u64_u32 z : u32 (u64 (1 * u32 z)) = u32 z.
Proof.
  rewrite Z.mul_1_l. unfold u32, u64.
  pose proof (Z.mod_pos_bound z (2 ^ 32)) as H.
  rewrite (Z.mod_small (z mod 2 ^ 32) (2 ^ 64)) by lia.
  by rewrite Z.mod_mod by lia.
Qed.

Lemma coefficient_mul s k toks :
  isNumber s = true → stoi s = Ret k →
  toks = ["MUL"; "ARG0"; s]%string ∨ toks = ["MUL"; s; "ARG0"]%string →
  ∃ h root, createExpressionTree toks [] = Ret (h, Some root) ∧
    ∀ CI, nodes CI = h →
      partialDifferenceOfExpressionTreeWRTGivenNode CI (Some root) ETO_ARG 0
        = Ret (u32 k).
Proof.
  intros Hnum Hk Htoks.
  destruct Htoks as [-> | ->]; coefficient_of_built_tree Hnum Hk;
    cbn [applyMultipliers mbind outcome_bind]; by rewrite u32_u64_u32.
Qed.

(** The shift amount is the [unsigned] the constant is read as, so a negative
    constant is a shift by at least [2^31]. *)
Lemma shl64_one_const k :
  (INT_MIN ≤ k ≤ INT_MAX)%Z →
  shl64 1 (u32 k) =
    if (0 <=? k)%Z && (k <? 64)%Z then Ret (2 ^ k)%Z else Undefined.
Proof.
  unfold INT_MIN, INT_MAX. intros Hr. unfold shl64.
  destruct (Z.leb_spec 0 k) as [H0|H0]; simpl.
  - rewrite (u32_small k) by lia.
    destruct (Z.ltb_spec k 64) as [H64|H64]; [|done].
    rewrite Z.shiftl_1_l. rewrite u64_small; [done|].
    split; [apply Z.pow_nonneg; lia|apply Z.pow_lt_mono_r; lia].
  - assert (u32 k = k + 2 ^ 32)%Z as ->.
    { unfold u32. symmetry. apply (Z.mod_unique _ _ (-1)); lia. }
    by destruct (Z.ltb_spec (k + 2 ^ 32) 64); [lia|].
Qed.

Lemma coefficient_shl s k toks :
  isNumber s = true → stoi s = Ret k →
  toks = ["SHL"; "ARG0"; s]%string ∨ toks = ["SHL"; s; "ARG0"]%string →
  ∃ h root, createExpressionTree toks [] = Ret (h, Some root) ∧
    ∀ CI, nodes CI = h →
      partialDifferenceOfExpressionTreeWRTGivenNode CI (Some root) ETO_ARG 0
        = if (0 <=? k)%Z && (k <? 64)%Z then Ret (u32 (2 ^ k)) else Undefined.
Proof.
  intros Hnum Hk Htoks.
  pose proof (shl64_one_const k (stoi_range _ _ Hk)) as Hshl.
  destruct Htoks as [-> | ->]; coefficient_of_built_tree Hnum Hk;
    rewrite Hshl; by destruct (_ && _).
Qed.

Lemma is_parent_det h c p1 p2 : is_parent h c p1 → is_parent h c p2 → p1 = p2.
Proof. intros (n1 & H1 & P1) (n2 & H2 & P2). congruence. Qed.

Lemma multipliersLoop_spec h : parents_above h →
  ∀ fuel c acc, c < length h → length h - c ≤ fuel →
  ∃ ms, multipliersLoop fuel h (Some c) acc = Ret (acc ++ ms) ∧
        ∀ m, m ∈ ms ↔ is_multiplier_of h c m.
Proof.
  intros Hh. induction fuel as [|fuel IH]; intros c acc Hc Hfuel; [lia|].
  destruct (lookup_lt_is_Some_2 _ _ Hc) as [n Hn].
  cbn [multipliersLoop]. rewrite Hn. cbn [deref mbind outcome_bind].
  destruct (parent n) as [p|] eqn:Hp.
  - assert (Hcp : is_parent h c p) by (by exists n).
    destruct (Hh _ _ Hcp) as [Hlt Hpl].
    destruct (lookup_lt_is_Some_2 _ _ Hpl) as [pn Hpn].
    rewrite Hpn. cbn [deref mbind outcome_bind].
    set (x := if isMulOrShl pn then [otherChild pn c] else []).
    destruct (IH p (acc ++ x) Hpl ltac:(lia)) as (ms & Hms & Hspec).
    exists (x ++ ms). split.
    { rewrite app_assoc, <- Hms. unfold x. by destruct (isMulOrShl pn); [|rewrite app_nil_r]. }
    intros m. rewrite elem_of_app, Hspec. split.
    + intros [Hx|(c0 & p0 & pn0 & Hrtc & H0)].
      * unfold x in Hx. destruct (isMulOrShl pn) eqn:E; [|by apply elem_of_nil in Hx].
        apply list_elem_of_singleton in Hx. subst m.
        exists c, p, pn. by repeat split; [apply rtc_refl|..].
      * exists c0, p0, pn0. split; [|done]. by eapply rtc_l.
    + intros (c0 & p0 & pn0 & Hrtc & Hpar & Hpn0 & Hmul & ->).
      apply rtc_inv in Hrtc as [<-|(p1 & Hp1 & Hrtc)].
      * left. rewrite (is_parent_det _ _ _ _ Hpar Hcp) in Hpn0.
        assert (pn0 = pn) as -> by congruence.
        unfold x. rewrite Hmul. by apply list_elem_of_singleton.
      * right. rewrite (is_parent_det _ _ _ _ Hp1 Hcp) in Hrtc.
        by exists c0, p0, pn0.
  - exists []. split.
    { rewrite app_nil_r. by destruct fuel. }
    intros m. split; [by intros ?%elem_of_nil|].
    intros (c0 & p0 & pn0 & Hrtc & Hpar & _).
    apply rtc_inv in Hrtc as [<-|(p1 & (n1 & H1 & P1) & _)].
    + destruct Hpar as (n0 & H0 & P0). congruence.
    + congruence.
Qed.

(** The multipliers found from [given] are exactly the other children of its
    [MUL] and [SHL] ancestors. *)
Lemma findMultipliers_spec h root given :
  parents_above h → given < length h →
  ∃ ms, findMultipliersByTraversingUpExprTree h root (Some given) = Ret ms ∧
        ∀ m, m ∈ ms ↔ is_multiplier_of h given m.
Proof.
  intros Hh Hg. unfold findMultipliersByTraversingUpExprTree.
  destruct (lookup_lt_is_Some_2 _ _ Hg) as [n Hn].
  cbn [deref mbind outcome_bind]. rewrite Hn. cbn [deref mbind outcome_bind].
  destruct (multipliersLoop_spec h Hh (length h) given [] Hg ltac:(lia))
    as (ms & Hms & Hspec).
  exists ms. by split.
Qed.

(** *** The stores that the builder produces have acyclic parent links *)

Lemma makeNodes_parent toks ns :
  makeNodes toks = Ret ns → Forall (λ n, parent n = None) ns.
Proof.
  revert ns. induction toks as [|str toks IH]; intros ns; simpl.
  - intros [= <-]. constructor.
  - destruct (getExprTreeOp str) as [o| | | |]; simpl; try discriminate.
    destruct (makeNodes toks) as [ns0| | | |]; simpl; try discriminate.
    intros [= <-]. constructor; [done|]. by apply IH.
Qed.

Lemma setArgs_parent ns ns' :
  setArgs ns = Ret ns' → parent <$> ns' = parent <$> ns.
Proof.
  revert ns'. induction ns as [|n ns IH]; intros ns'; simpl.
  - by intros [= <-].
  - destruct (if bool_decide (op n = ETO_ARG) then _ else _) as [n1| | | |] eqn:E1;
      simpl; try discriminate.
    destruct (setArgs ns) as [ns1| | | |]; simpl; try discriminate.
    intros [= <-]. simpl. f_equal; [|by apply IH].
    case_bool_decide; [|by injection E1 as <-].
    destruct (getExprTreeNodeArg _); simpl in E1; try discriminate.
    by injection E1 as <-.
Qed.

Lemma parents_above_app h ns :
  parents_above h → Forall (λ n, parent n = None) ns → parents_above (h ++ ns).
Proof.
  intros Hh Hns c p (cn & Hc & Hp). rewrite length_app.
  destruct (decide (c < length h)) as [Hlt|Hge].
  - rewrite lookup_app_l in Hc by done.
    destruct (Hh c p) as [? ?]; [by exists cn|]. lia.
  - rewrite lookup_app_r in Hc by lia.
    apply list_elem_of_lookup_2 in Hc.
    rewrite Forall_forall in Hns. rewrite (Hns _ Hc) in Hp. discriminate.
Qed.

Lemma is_parent_alter_keep (f : ExprTreeNode → ExprTreeNode) h i c p :
  (∀ n, parent (f n) = parent n) →
  is_parent (alter f i h) c p → is_parent h c p.
Proof.
  intros Hf (cn & Hc & Hp). destruct (decide (i = c)) as [->|Hne].
  - rewrite list_lookup_alter_eq in Hc.
    destruct (h !! c) as [n|] eqn:E; [|discriminate]. injection Hc as <-.
    exists n. by rewrite <- Hf.
  - rewrite list_lookup_alter_ne in Hc by done. by exists cn.
Qed.

Lemma parents_above_alter_keep (f : ExprTreeNode → ExprTreeNode) h i :
  (∀ n, parent (f n) = parent n) →
  parents_above h → parents_above (alter f i h).
Proof.
  intros Hf Hh c p Hcp. rewrite length_alter.
  by apply Hh, (is_parent_alter_keep f h i).
Qed.

Lemma parents_above_link h c a :
  c < a < length h → parents_above h →
  parents_above (alter (set_parent (Some a)) c h).
Proof.
  intros Hca Hh x p (xn & Hx & Hp). rewrite length_alter.
  destruct (decide (c = x)) as [->|Hne].
  - rewrite list_lookup_alter_eq in Hx.
    destruct (h !! x) as [n|]; [|discriminate]. injection Hx as <-.
    simpl in Hp. injection Hp as <-. lia.
  - rewrite list_lookup_alter_ne in Hx by done. apply Hh. by exists xn.
Qed.

Lemma reduce_parents s a seen :
  a < length (store s) → parents_above (store s) → Forall (λ x, x < a) (stack s) →
  match reduce s a seen with
  | Continue s' =>
      parents_above (store s') ∧ Forall (λ x, x < S a) (stack s') ∧
      length (store s') = length (store s)
  | ReturnNull h' => h' = store s
  end.
Proof.
  intros Ha Hh Hstk. unfold reduce.
  destruct (stack s) as [|c1 [|c2 rest]]; [done|done|].
  apply Forall_cons in Hstk as [H1 [H2 Hrest]%Forall_cons]. cbn [store stack].
  split; [|split].
  - apply parents_above_alter_keep; [done|].
    apply parents_above_link; [by rewrite length_alter|].
    by apply parents_above_link.
  - constructor; [lia|]. eapply Forall_impl; [exact Hrest|]. simpl. lia.
  - by rewrite !length_alter.
Qed.

Lemma treeStep_parents s a r :
  treeStep s a = Ret r →
  a < length (store s) → parents_above (store s) → Forall (λ x, x < a) (stack s) →
  match r with
  | Continue s' =>
      parents_above (store s') ∧ Forall (λ x, x < S a) (stack s') ∧
      length (store s') = length (store s)
  | ReturnNull h' => h' = store s
  end.
Proof.
  intros H Ha Hh Hstk. unfold treeStep in H.
  destruct (store s !! a) as [n|]; simpl in H; [|discriminate].
  assert (Hpush : Forall (λ x, x < S a) (a :: stack s)).
  { constructor; [lia|]. eapply Forall_impl; [exact Hstk|]. simpl. lia. }
  destruct (isPhiNode n).
  - destruct (phi_term_seen s); simpl in H; injection H as <-.
    + by apply reduce_parents.
    + cbn [store stack]. split; [|split; [done|by rewrite length_alter]].
      by apply parents_above_alter_keep.
  - destruct (isOperation n); injection H as <-.
    + by apply reduce_parents.
    + cbn [store stack]. split; [exact Hh|split; [exact Hpush|reflexivity]].
Qed.

Lemma treeLoop_parents m : ∀ s a r,
  treeLoop s (seq a m) = Ret r →
  a + m ≤ length (store s) → parents_above (store s) →
  Forall (λ x, x < a) (stack s) →
  parents_above (match r with Continue s' => store s' | ReturnNull h' => h' end).
Proof.
  induction m as [|m IH]; intros s a r; simpl.
  - by intros [= <-].
  - destruct (treeStep s a) as [r1| | | |] eqn:E; simpl; try discriminate.
    intros H Hlen Hh Hstk.
    pose proof (treeStep_parents _ _ _ E ltac:(lia) Hh Hstk) as H1.
    destruct r1 as [s1|h1].
    + destruct H1 as (Hh1 & Hstk1 & Hl1).
      apply (IH s1 (S a)); [done|lia|done|done].
    + injection H as <-. by subst h1.
Qed.

Lemma createExpressionTree_parents_above RPN h h' r :
  parents_above h → createExpressionTree RPN h = Ret (h', r) →
  parents_above h'.
Proof.
  intros Hh. unfold createExpressionTree.
  destruct (reverse RPN) as [|first l]; [by intros [= <- _]|].
  case_bool_decide.
  { intros [= <- _]. apply parents_above_app; [done|]. by repeat constructor. }
  destruct (String.eqb first "INCOMP").
  { intros [= <- _]. apply parents_above_app; [done|]. by repeat constructor. }
  destruct (makeNodes (first :: l)) as [ns| | | |] eqn:Emk; simpl; try discriminate.
  destruct (setArgs ns) as [ns'| | | |] eqn:Eargs; simpl; try discriminate.
  destruct (treeLoop _ _) as [res| | | |] eqn:Eloop; simpl; try discriminate.
  assert (Hinit : parents_above (h ++ ns')).
  { apply parents_above_app; [done|].
    pose proof (makeNodes_parent _ _ Emk) as H1.
    pose proof (setArgs_parent _ _ Eargs) as H2.
    apply (Forall_fmap parent (λ x, x = None)). rewrite H2.
    by apply (Forall_fmap parent (λ x, x = None)). }
  pose proof (treeLoop_parents _ _ _ _ Eloop) as HL. cbn [store stack] in HL.
  specialize (HL ltac:(rewrite length_app; lia) Hinit ltac:(constructor)).
  destruct res as [s|hn].
  - destruct (stack s); [discriminate|]. by intros [= <- _].
  - by intros [= <- _].
Qed.

(** C5: for the tree of [mul(arg0, const k)] the coefficient of [arg0] is [k]
    reduced to an [unsigned] (so [k] itself when [k] is not negative); for the
    tree of [shl(arg0, const k)] it is [1 << k] reduced to an [unsigned] when
    [0 <= k < 64] (so [1 << k] itself when [k < 32], and [0] from [32] on) and
    the shift is undefined for every other [k]; in every tree the builder
    returns, the multipliers collected from a node are exactly the other
    children of its [MUL] and [SHL] ancestors; and a multiplier under a [SHL]
    shifts the running product to the left, while one under a [MUL]
    multiplies it. *)
Theorem C5_coefficient_extraction :
  (∀ s k toks,
     isNumber s = true → stoi s = Ret k →
     toks = ["MUL"; "ARG0"; s]%string ∨ toks = ["MUL"; s; "ARG0"]%string →
     ∃ h root, createExpressionTree toks [] = Ret (h, Some root) ∧
       ∀ CI, nodes CI = h →
         partialDifferenceOfExpressionTreeWRTGivenNode CI (Some root) ETO_ARG 0
           = Ret (k mod 2 ^ 32)%Z ∧
         ((0 ≤ k)%Z →
          partialDifferenceOfExpressionTreeWRTGivenNode CI (Some root) ETO_ARG 0
            = Ret k)) ∧
  (∀ s k toks,
     isNumber s = true → stoi s = Ret k →
     toks = ["SHL"; "ARG0"; s]%string ∨ toks = ["SHL"; s; "ARG0"]%string →
     ∃ h root, createExpressionTree toks [] = Ret (h, Some root) ∧
       ∀ CI, nodes CI = h →
         ((0 ≤ k < 32)%Z →
          partialDifferenceOfExpressionTreeWRTGivenNode CI (Some root) ETO_ARG 0
            = Ret (Z.shiftl 1 k)) ∧
         ((0 ≤ k < 64)%Z →
          partialDifferenceOfExpressionTreeWRTGivenNode CI (Some root) ETO_ARG 0
            = Ret (Z.shiftl 1 k mod 2 ^ 32)%Z) ∧
         ((k < 0 ∨ 64 ≤ k)%Z →
          partialDifferenceOfExpressionTreeWRTGivenNode CI (Some root) ETO_ARG 0
            = Undefined)) ∧
  (∀ RPN h root given,
     createExpressionTree RPN [] = Ret (h, root) → given < length h →
     ∃ ms, findMultipliersByTraversingUpExprTree h root (Some given) = Ret ms ∧
           ∀ m, m ∈ ms ↔ is_multiplier_of h given m) ∧
  (∀ CI m rest mn p pn F v,
     nodes CI !! m = Some mn → parent mn = Some p → nodes CI !! p = Some pn →
     evaluateExpressionTree CI (Some m) = Ret v →
     (op pn = ETO_SHL →
        applyMultipliers CI (Some m :: rest) F
          = if (v <? 64)%Z
            then applyMultipliers CI rest (u64 (Z.shiftl F v))
            else Undefined) ∧
     (op pn = ETO_MUL →
        applyMultipliers CI (Some m :: rest) F
          = applyMultipliers CI rest (u64 (F * v)))).
Proof.
  split; [|split; [|split]].
  - intros s k toks Hnum Hk Htoks.
    destruct (coefficient_mul s k toks Hnum Hk Htoks) as (h & root & Hb & Hpd).
    exists h, root. split; [exact Hb|]. intros CI HCI.
    rewrite (Hpd CI HCI). split; [done|]. intros H0.
    pose proof (stoi_range _ _ Hk) as Hr. unfold INT_MAX in Hr.
    by rewrite u32_small by lia.
  - intros s k toks Hnum Hk Htoks.
    destruct (coefficient_shl s k toks Hnum Hk Htoks) as (h & root & Hb & Hpd).
    exists h, root. split; [exact Hb|]. intros CI HCI.
    rewrite (Hpd CI HCI). rewrite Z.shiftl_1_l. split; [|split].
    + intros Hk32.
      destruct (Z.leb_spec 0 k); [|lia]. destruct (Z.ltb_spec k 64); [|lia].
      simpl. rewrite u32_small; [done|].
      split; [apply Z.pow_nonneg; lia|apply Z.pow_lt_mono_r; lia].
    + intros Hk64.
      destruct (Z.leb_spec 0 k); [|lia]. by destruct (Z.ltb_spec k 64); [|lia].
    + intros Hout.
      destruct (Z.leb_spec 0 k); [|done]. by destruct (Z.ltb_spec k 64); [lia|].
  - intros RPN h root given Hbuild Hg. apply findMultipliers_spec; [|done].
    eapply createExpressionTree_parents_above; [|exact Hbuild].
    intros c p (cn & Hc & _). by rewrite lookup_nil in Hc.
  - intros CI m rest mn p pn F v Hm Hp Hpn Hv.
    rewrite (applyMultipliers_cons _ _ _ _ _ _ _ Hm Hp Hpn), Hv.
    split.
    + intros Ho. rewrite Ho.
      rewrite (bool_decide_false (ETO_SHL = ETO_MUL)) by done.
      rewrite (bool_decide_true (ETO_SHL = ETO_SHL)) by done.
      cbn [mbind outcome_bind]. unfold shl64.
      by destruct (Z.ltb_spec v 64).
    + intros Ho. rewrite Ho.
      rewrite (bool_decide_true (ETO_MUL = ETO_MUL)) by done.
      by rewrite (bool_decide_false (ETO_MUL = ETO_SHL)) by done.
Qed.

Lemma C5_coefficient_extraction_witness :
  (∃ h root,
     createExpressionTree ["MUL"; "ARG0"; "12"]%string [] = Ret (h, Some root) ∧
     partialDifferenceOfExpressionTreeWRTGivenNode (arg0_bound_to 10 h)
       (Some root) ETO_ARG 0 = Ret 12%Z) ∧
  (∃ h root,
     createExpressionTree ["SHL"; "ARG0"; "3"]%string [] = Ret (h, Some root) ∧
     partialDifferenceOfExpressionTreeWRTGivenNode (arg0_bound_to 10 h)
       (Some root) ETO_ARG 0 = Ret 8%Z).
Proof.
  destruct C5_coefficient_extraction as (Hmul & Hshl & _ & _). split.
  - destruct (Hmul "12"%string 12%Z ["MUL"; "ARG0"; "12"]%string)
      as (h & root & Hb & Hpd);
      [reflexivity | reflexivity | by left |].
    exists h, root. split; [exact Hb|].
    destruct (Hpd (arg0_bound_to 10 h)) as [_ H]; [reflexivity|].
    apply H. lia.
  - destruct (Hshl "3"%string 3%Z ["SHL"; "ARG0"; "3"]%string)
      as (h & root & Hb & Hpd);
      [reflexivity | reflexivity | by left |].
    exists h, root. split; [exact Hb|].
    destruct (Hpd (arg0_bound_to 10 h)) as [H _]; [reflexivity|].
    apply H. lia.
Defined.

(** C5, where the claim fails: the coefficient is an [unsigned], the shift is
    one of an [unsigned long long] by an [unsigned], and the constant is read
    by [std::stoi].  For [mul(arg0, -3)] the extractor returns [4294967293],
    not [-3]; for [shl(arg0, 32)] it returns [0], not [1 << 32]; for
    [shl(arg0, 64)] the shift is undefined; for [mul(arg0, 3000000000)]
    [std::stoi] throws. *)
Lemma C5_counterexample :
  (∃ h root,
     createExpressionTree ["MUL"; "ARG0"; "-3"]%string [] = Ret (h, Some root) ∧
     partialDifferenceOfExpressionTreeWRTGivenNode (arg0_bound_to 10 h)
       (Some root) ETO_ARG 0 = Ret 4294967293%Z ∧
     stoi "-3" = Ret (-3)%Z ∧ 4294967293%Z ≠ (-3)%Z) ∧
  (∃ h root,
     createExpressionTree ["SHL"; "ARG0"; "32"]%string [] = Ret (h, Some root) ∧
     partialDifferenceOfExpressionTreeWRTGivenNode (arg0_bound_to 10 h)
       (Some root) ETO_ARG 0 = Ret 0%Z ∧
     stoi "32" = Ret 32%Z ∧ 0%Z ≠ Z.shiftl 1 32) ∧
  (∃ h root,
     createExpressionTree ["SHL"; "ARG0"; "64"]%string [] = Ret (h, Some root) ∧
     partialDifferenceOfExpressionTreeWRTGivenNode (arg0_bound_to 10 h)
       (Some root) ETO_ARG 0 = Undefined ∧
     stoi "64" = Ret 64%Z) ∧
  (∃ h root,
     createExpressionTree ["MUL"; "ARG0"; "3000000000"]%string []
       = Ret (h, Some root) ∧
     partialDifferenceOfExpressionTreeWRTGivenNode (arg0_bound_to 10 h)
       (Some root) ETO_ARG 0 = Exception ∧
     stoi "3000000000" = Exception).
Proof.
  split; [|split; [|split]]; do 2 eexists; (split; [vm_compute; reflexivity|]);
    repeat split; try (vm_compute; reflexivity); vm_compute; discriminate.
Qed.

Lemma insertCodeToMultiplyInt64_promote a v :
  typeOf a = i64 → typeOf v = i32 →
  insertCodeToMultiplyInt64 (Some a) (Some v) = Ret (Some (VBin IMul a (promoted v))).
Proof.
  intros Ha Hv.
  unfold insertCodeToMultiplyInt64, castIfInt32, insertCodeToCastInt32ToInt64, createBin.
  simpl. rewrite Ha, Hv. simpl. rewrite Ha. reflexivity.
Qed.

Lemma castIfInt32_i32 v : typeOf v = i32 → castIfInt32 v = Ret (promoted v).
Proof.
  intros Hv. unfold castIfInt32, insertCodeToCastInt32ToInt64. simpl.
  rewrite Hv. reflexivity.
Qed.

Lemma insertComputationNode_mul_i64 a b :
  typeOf a = i64 → typeOf b = i64 →
  insertComputationNode (Some a) (Some b) ETO_MUL = Ret (Some (VBin IMul a b)).
Proof.
  intros Ha Hb. unfold insertComputationNode, createBin.
  rewrite Ha, Hb. simpl. rewrite Ha, Hb. reflexivity.
Qed.

Lemma denote_mul_i64 rho a b x y :
  typeOf a = i64 → denote rho a = Some x → denote rho b = Some y →
  denote rho (VBin IMul a b) = Some (u64 (x * y)).
Proof. intros Ha Hx Hy. simpl. rewrite Hx, Hy, Ha. reflexivity. Qed.

(** ** Execution counts and nested loops *)

Lemma parentOf_in_dom cat a :
  parentOf cat a ≠ 0%Z → a ∈ dom (LoopIDToParentLoopIDMap cat).
Proof.
  unfold parentOf. intros H. apply elem_of_dom.
  destruct (LoopIDToParentLoopIDMap cat !! a); [by eexists|]. by destruct H.
Qed.

Lemma chain_keys cat : ∀ chain cur x,
  is_chain cat cur chain → x ∈ take (length chain) (cur :: chain) →
  x ∈ dom (LoopIDToParentLoopIDMap cat).
Proof.
  induction chain as [|p rest IH]; intros cur x; simpl.
  - by intros _ ?%elem_of_nil.
  - intros (Hp & Hne & Hrest) [->|Hx]%elem_of_cons.
    + apply parentOf_in_dom. by rewrite Hp.
    + by eapply IH.
Qed.

Lemma chain_length cat chain cur :
  is_chain cat cur chain → NoDup (cur :: chain) →
  length chain ≤ size (LoopIDToParentLoopIDMap cat).
Proof.
  intros Hc Hnd.
  set (keys := take (length chain) (cur :: chain)).
  assert (Hk : NoDup keys).
  { unfold keys. eapply sublist_NoDup; [exact Hnd|apply sublist_take]. }
  assert (Hlen : length keys = length chain).
  { unfold keys. rewrite length_take. simpl. lia. }
  rewrite <- Hlen, <- (size_list_to_set (C:=gset Z) keys Hk), <- size_dom.
  apply subseteq_size. intros x Hx%elem_of_list_to_set.
  by eapply chain_keys.
Qed.

Lemma nestedLoop_chain cat (N : gmap Z (option IRValue)) (f : Z → IRValue) :
  ∀ chain fuel cur acc,
  is_chain cat cur chain → length chain ≤ fuel →
  (∀ l, l ∈ chain → N !! l = Some (Some (f l)) ∧ typeOf (f l) = i32) →
  typeOf acc = i64 →
  nestedLoop fuel cat N (Some acc) (parentOf cat cur)
    = Ret (Some (fold_left (λ a v, VBin IMul a (promoted v)) (f <$> chain) acc)).
Proof.
  induction chain as [|p rest IH]; intros fuel cur acc; simpl.
  - intros -> _ _ _. by destruct fuel.
  - intros (Hp & Hne & Hrest) Hfuel Hvals Hacc.
    destruct fuel as [|fuel]; [lia|]. rewrite Hp. cbn [nestedLoop].
    rewrite bool_decide_false by done.
    destruct (Hvals p ltac:(by left)) as [HN Hty]. rewrite HN.
    change (default None (Some (Some (f p)))) with (Some (f p)).
    rewrite (insertCodeToMultiplyInt64_promote _ _ Hacc Hty).
    cbn [mbind outcome_bind].
    apply IH; [done|lia| |done].
    intros l Hl. apply Hvals. by right.
Qed.

Lemma signedOf_small w z : (0 < w)%Z → (0 ≤ z < 2 ^ (w - 1))%Z → signedOf w z = z.
Proof.
  intros Hw Hz. unfold signedOf.
  assert (2 ^ (w - 1) < 2 ^ w)%Z by (apply Z.pow_lt_mono_r; lia).
  rewrite Z.mod_small by lia. destruct (Z.ltb_spec z (2 ^ (w - 1))); [done|lia].
Qed.

Lemma denote_promoted rho v a :
  typeOf v = i32 → denote rho v = Some a →
  denote rho (promoted v) = Some (u64 (signedOf 32 a)).
Proof. intros Hty Ha. simpl. rewrite Ha, Hty. reflexivity. Qed.

Lemma denote_product rho (f : Z → IRValue) (d : Z → Z) : ∀ chain acc x,
  (∀ l, l ∈ chain → typeOf (f l) = i32 ∧ denote rho (f l) = Some (d l)) →
  typeOf acc = i64 → denote rho acc = Some (u64 x) →
  denote rho (fold_left (λ a v, VBin IMul a (promoted v)) (f <$> chain) acc)
    = Some (u64 (x * product (signedOf 32 ∘ d <$> chain))).
Proof.
  induction chain as [|p rest IH]; intros acc x Hvals Hty Hacc; simpl.
  - by rewrite Z.mul_1_r.
  - destruct (Hvals p ltac:(by left)) as [Hp Hd].
    rewrite Z.mul_assoc. apply IH.
    + intros l Hl. apply Hvals. by right.
    + simpl. exact Hty.
    + rewrite (denote_mul_i64 _ _ _ _ _ Hty Hacc (denote_promoted _ _ _ Hp Hd)).
      f_equal. unfold u64.
      by rewrite <- Z.mul_mod by lia.
Qed.

(** What the estimator emits for the execution count.  At top level it is
    the thread count of the grid.  Inside a loop whose ancestors all have a
    32-bit iteration count, it is the thread count times the nested count; the
    nested count multiplies the iteration counts along the parent chain, every
    32-bit count promoted to 64 bits before its multiplication.  The promotion
    extends the sign: at run time the count [d] of a loop enters the product
    as [signedOf 32 d].  For two nested loops whose counts [N] and [M] are
    below [2^31] the nested count is [N * M]. *)
Lemma executionCount_nested :
  (∀ cat T N I,
     executionCount cat 0 T N I
       = Ret (Counted (Some (insertConstantNode_unsigned 1)) T)) ∧
  (∀ cat loopid chain (f : Z → IRValue) T (N : gmap Z (option IRValue))
     (I : gmap Z bool),
     loopid ≠ 0%Z → default false (I !! loopid) = false →
     is_chain cat loopid chain → NoDup (loopid :: chain) →
     (∀ l, l ∈ loopid :: chain → N !! l = Some (Some (f l)) ∧ typeOf (f l) = i32) →
     typeOf T = i64 →
     let LoopIters := nestedProduct (f loopid) (f <$> chain) in
     executionCount cat loopid (Some T) N I
       = Ret (Counted (Some LoopIters) (Some (VBin IMul LoopIters T))) ∧
     ∀ rho (d : Z → Z) t,
       (∀ l, l ∈ loopid :: chain → denote rho (f l) = Some (d l)) →
       denote rho T = Some t →
       denote rho (VBin IMul LoopIters T)
         = Some (u64 (product (signedOf 32 ∘ d <$> loopid :: chain) * t))) ∧
  (∀ inner outer n m T rho t,
     inner ≠ 0%Z → outer ≠ 0%Z → inner ≠ outer →
     (0 ≤ n < 2 ^ 31)%Z → (0 ≤ m < 2 ^ 31)%Z →
     typeOf T = i64 → denote rho T = Some t →
     ∃ LoopIters ExecutionCount,
       executionCount (two_loops inner outer) inner (Some T)
         {[ outer := Some (VConst i32 n); inner := Some (VConst i32 m) ]} ∅
         = Ret (Counted (Some LoopIters) (Some ExecutionCount)) ∧
       denote rho LoopIters = Some (n * m)%Z ∧
       denote rho ExecutionCount = Some (u64 (n * m * t))).
Proof.
  assert (Hgen : ∀ cat loopid chain (f : Z → IRValue) T
            (N : gmap Z (option IRValue)) (I : gmap Z bool),
     loopid ≠ 0%Z → default false (I !! loopid) = false →
     is_chain cat loopid chain → NoDup (loopid :: chain) →
     (∀ l, l ∈ loopid :: chain → N !! l = Some (Some (f l)) ∧ typeOf (f l) = i32) →
     typeOf T = i64 →
     let LoopIters := nestedProduct (f loopid) (f <$> chain) in
     executionCount cat loopid (Some T) N I
       = Ret (Counted (Some LoopIters) (Some (VBin IMul LoopIters T))) ∧
     (∀ rho (d : Z → Z),
       (∀ l, l ∈ loopid :: chain → denote rho (f l) = Some (d l)) →
       denote rho LoopIters
         = Some (u64 (product (signedOf 32 ∘ d <$> loopid :: chain)))) ∧
     typeOf LoopIters = i64).
  { intros cat loopid chain f T N I Hne HI Hchain Hnd Hvals HT LoopIters.
    destruct (Hvals loopid ltac:(by left)) as [HN Hty].
    assert (HtyLI : typeOf LoopIters = i64).
    { unfold LoopIters, nestedProduct.
      assert (H : ∀ l acc, typeOf acc = i64 →
                typeOf (fold_left (λ a v, VBin IMul a (promoted v)) l acc) = i64).
      { induction l as [|v l IH]; intros acc Hacc; simpl; [done|by apply IH]. }
      by apply H. }
    split; [|split; [|done]].
    - unfold executionCount. rewrite bool_decide_false by done. rewrite HI.
      unfold insertCodeComputeLoopIterationCountNested. rewrite HN.
      change (default None (Some (Some (f loopid)))) with (Some (f loopid)).
      cbn [deref mbind outcome_bind].
      rewrite (castIfInt32_i32 _ Hty). cbn [mbind outcome_bind].
      rewrite (nestedLoop_chain cat N f chain _ loopid); [|done| | |done].
      + cbn [mbind outcome_bind].
        fold (nestedProduct (f loopid) (f <$> chain)). fold LoopIters.
        by rewrite (insertComputationNode_mul_i64 _ _ HtyLI HT).
      + by apply (chain_length cat chain loopid).
      + intros l Hl. apply Hvals. by right.
    - intros rho d Hd. unfold LoopIters, nestedProduct.
      cbn [fmap list_fmap product fold_right].
      rewrite (denote_product rho f d chain (promoted (f loopid))
                 (signedOf 32 (d loopid))).
      + reflexivity.
      + intros l Hl. split; [apply Hvals; by right|apply Hd; by right].
      + done.
      + apply denote_promoted; [done|]. apply Hd. by left. }
  split; [|split].
  - intros cat T N I. reflexivity.
  - intros cat loopid chain f T N I Hne HI Hchain Hnd Hvals HT LoopIters.
    destruct (Hgen cat loopid chain f T N I Hne HI Hchain Hnd Hvals HT)
      as (Hexec & Hden & HtyLI).
    subst LoopIters. split; [exact Hexec|].
    intros rho d t Hd Ht.
    rewrite (denote_mul_i64 _ _ _ _ _ HtyLI (Hden rho d Hd) Ht).
    f_equal. unfold u64. by rewrite Z.mul_mod_idemp_l by lia.
  - intros inner outer n m T rho t Hi Ho Hio Hn Hm HT Ht.
    set (N := ({[ outer := Some (VConst i32 n); inner := Some (VConst i32 m) ]}
                 : gmap Z (option IRValue))).
    set (f := λ l : Z, if bool_decide (l = inner) then VConst i32 m
                       else VConst i32 n).
    destruct (Hgen (two_loops inner outer) inner [outer] f T N ∅)
      as (Hexec & Hden & HtyLI).
    + done.
    + done.
    + simpl. unfold parentOf. simpl.
      rewrite lookup_singleton_eq. simpl. split; [done|split; [done|]].
      by rewrite lookup_singleton_ne.
    + apply NoDup_cons. split; [by intros Hl%list_elem_of_singleton|].
      apply NoDup_singleton.
    + intros l [->|Hl%list_elem_of_singleton]%elem_of_cons; [|subst l];
        unfold f, N.
      * rewrite bool_decide_true by done. split; [|done].
        rewrite lookup_insert_ne by done. by rewrite lookup_singleton_eq.
      * rewrite bool_decide_false by done. split; [|done].
        by rewrite lookup_insert_eq.
    + done.
    + eexists _, _. split; [exact Hexec|].
      assert (Hd : ∀ l, l ∈ [inner; outer] →
                denote rho (f l) = Some ((λ l, if bool_decide (l = inner) then m else n) l)).
      { intros l _. unfold f. case_bool_decide; simpl;
          f_equal; apply Z.mod_small; lia. }
      pose proof (Hden rho _ Hd) as HLI.
      assert (Hprod : u64 (product (signedOf 32 ∘ (λ l : Z, if bool_decide (l = inner) then m else n)
                              <$> [inner; outer])) = (n * m)%Z).
      { cbn [fmap list_fmap product fold_right compose].
        rewrite bool_decide_true by done. rewrite bool_decide_false by done.
        rewrite !signedOf_small by lia. rewrite Z.mul_1_r, (Z.mul_comm m n).
        apply u64_small. nia. }
      rewrite Hprod in HLI. split; [exact HLI|].
      by rewrite (denote_mul_i64 _ _ _ _ _ HtyLI HLI Ht).
Qed.

Lemma executionCount_nested_witness :
  ∃ LoopIters ExecutionCount,
    executionCount (two_loops 2 1) 2 (Some threads_in_grid)
      {[ 1%Z := Some (VConst i32 5); 2%Z := Some (VConst i32 7) ]} ∅
      = Ret (Counted (Some LoopIters) (Some ExecutionCount)) ∧
    denote (λ _, 1000%Z) LoopIters = Some 35%Z ∧
    denote (λ _, 1000%Z) ExecutionCount = Some 35000%Z.
Proof.
  destruct executionCount_nested as (_ & _ & H).
  destruct (H 2%Z 1%Z 5%Z 7%Z threads_in_grid (λ _, 1000%Z) 1000%Z)
    as (LI & EC & H1 & H2 & H3);
    [lia | lia | lia | lia | lia | reflexivity | reflexivity |].
  exists LI, EC. split; [exact H1|]. split; [exact H2|exact H3].
Defined.

(** C4, at two inputs where the code departs from it.  The iteration count of
    a loop is an unsigned 32-bit value (a difference divided by [udiv]), and
    the promotion to 64 bits before the multiplication extends its sign.

    A loop from 0 to the kernel argument 1, step 1, nested in a loop of 2
    iterations, in a run where the argument is 3000000000 and the grid has
    1024 threads: the iteration counts are 3000000000 and 2, the nested count
    emitted is 18446744071119617024 and not 6000000000, and the execution
    count is not 6000000000 * 1024.

    With constant bounds: a loop from -1 to 2147483647, step 1, nested in a
    loop of 2 iterations: the counts are 2147483648 and 2, the nested count
    emitted is 18446744069414584320 and not 4294967296. *)
Theorem C4_signed_promotion :
  (let cat := nested_loops ["IN"; "0"; "FIN"; "ARG1"; "STEP"; "1"]%string
                           ["IN"; "0"; "FIN"; "2"; "STEP"; "1"]%string in
   let rho := at_run_time 3000000000 1024 in
   ∃ h N I inner outer LoopIters ExecutionCount,
     insertCodeToComputeKernelLoopIterationCount bound_passed cat ([], ∅, ∅)
       = Ret (h, N, I) ∧
     N !! 2%Z = Some (Some inner) ∧ N !! 1%Z = Some (Some outer) ∧
     I !! 2%Z = Some false ∧ I !! 1%Z = Some false ∧
     denote rho inner = Some 3000000000%Z ∧ denote rho outer = Some 2%Z ∧
     denote rho threads_in_grid = Some 1024%Z ∧
     executionCount cat 2 (Some threads_in_grid) N I
       = Ret (Counted (Some LoopIters) (Some ExecutionCount)) ∧
     denote rho LoopIters = Some 18446744071119617024%Z ∧
     denote rho ExecutionCount = Some 18446741421616529408%Z ∧
     18446744071119617024%Z ≠ (3000000000 * 2)%Z ∧
     18446741421616529408%Z ≠ (3000000000 * 2 * 1024)%Z) ∧
  (let cat := nested_loops ["IN"; "-1"; "FIN"; "2147483647"; "STEP"; "1"]%string
                           ["IN"; "0"; "FIN"; "2"; "STEP"; "1"]%string in
   let rho := at_run_time 0 1024 in
   ∃ h N I inner outer LoopIters ExecutionCount,
     insertCodeToComputeKernelLoopIterationCount emptyInvocation cat ([], ∅, ∅)
       = Ret (h, N, I) ∧
     N !! 2%Z = Some (Some inner) ∧ N !! 1%Z = Some (Some outer) ∧
     I !! 2%Z = Some false ∧ I !! 1%Z = Some false ∧
     denote rho inner = Some 2147483648%Z ∧ denote rho outer = Some 2%Z ∧
     denote rho threads_in_grid = Some 1024%Z ∧
     executionCount cat 2 (Some threads_in_grid) N I
       = Ret (Counted (Some LoopIters) (Some ExecutionCount)) ∧
     denote rho LoopIters = Some 18446744069414584320%Z ∧
     denote rho ExecutionCount = Some 18446739675663040512%Z ∧
     18446744069414584320%Z ≠ (2147483648 * 2)%Z ∧
     18446739675663040512%Z ≠ (2147483648 * 2 * 1024)%Z).
Proof.
  split; cbv zeta; do 7 eexists;
    repeat (split; [vm_compute; reflexivity|]); split; vm_compute; discriminate.
Qed.

(** ** Loop accounting *)

Lemma u32_s32 z : (0 ≤ z < 2 ^ 32)%Z → u32 (s32 z) = z ∧ (s32 z = 0%Z → z = 0%Z).
Proof.
  intros Hz. unfold s32. rewrite (u32_small z) by done.
  destruct (Z.ltb_spec z (2 ^ 31)).
  - split; [by apply u32_small|done].
  - split; [|lia]. unfold u32.
    replace (z - 2 ^ 32)%Z with (z + (-1) * 2 ^ 32)%Z by lia.
    rewrite Z.mod_add by lia. by apply Z.mod_small.
Qed.

Lemma lookup_tail {A} (h T : list A) k : (h ++ T) !! (length h + k) = T !! k.
Proof. rewrite lookup_app_r by lia. f_equal. lia. Qed.

Lemma createExpressionTree_number s h :
  isNumber s = true →
  createExpressionTree [s] h = Ret (h ++ [numNode s], Some (length h)).
Proof.
  intros Hnum. unfold createExpressionTree.
  change (reverse [s]) with [s]. cbn [length].
  rewrite bool_decide_false by lia.
  rewrite (isNumber_not_INCOMP _ Hnum).
  cbn [makeNodes]. rewrite (getExprTreeOp_number _ Hnum).
  cbn [mbind outcome_bind mret outcome_ret setArgs set_op set_original_str op
       new_ExprTreeNode].
  rewrite (bool_decide_false (ETO_CONST = ETO_ARG)) by done.
  cbn [mbind outcome_bind length seq treeLoop treeStep store].
  unfold treeStep. cbn [store].
  replace (length h) with (length h + 0) at 1 by lia.
  rewrite lookup_tail. reflexivity.
Qed.

Lemma partiallyEvaluatedLoopIters_numbers cat L toks s0 s1 s2 h :
  (0 < L < 2 ^ 32)%Z →
  LoopIDToLoopBoundsMap cat !! L = Some toks →
  splitTokens toks 0 ([], [], []) = ([s0], [s1], [s2]) →
  isNumber s0 = true → isNumber s1 = true → isNumber s2 = true →
  partiallyEvaluatedLoopIters cat (s32 L) h
  = Ret (h ++ loopTree (length h) s0 s1 s2, Some (length h + 4)).
Proof.
  intros HL Htoks Hsplit H0 H1 H2.
  destruct (u32_s32 L) as [Hu Hz]; [lia|].
  unfold partiallyEvaluatedLoopIters.
  rewrite bool_decide_false by (intros E; apply Hz in E; lia).
  rewrite Hu, Htoks, Hsplit.
  rewrite (createExpressionTree_number _ h H0).
  cbn [mbind outcome_bind].
  rewrite (createExpressionTree_number _ _ H1).
  cbn [mbind outcome_bind].
  rewrite (createExpressionTree_number _ _ H2).
  cbn [mbind outcome_bind].
  rewrite !bool_decide_false by done. cbn [orb].
  unfold doOperationOnNodes, loopTree.
  rewrite <- !app_assoc. cbn [app].
  rewrite !length_app. cbn [length].
  repeat f_equal; lia.
Qed.

Lemma loopTree_holds h s0 s1 s2 :
  holds_loopTree (h ++ loopTree (length h) s0 s1 s2) (length h + 4) s0 s1 s2.
Proof.
  exists (length h + 3), (length h), (length h + 1), (length h + 2).
  assert (E : ∀ T : list ExprTreeNode, (h ++ T) !! length h = T !! 0).
  { intros T. rewrite <- (lookup_tail h T 0). f_equal. lia. }
  rewrite E, !lookup_tail. done.
Qed.

Lemma identifyUnknowns_inner CI H U p n f :
  H !! p = Some n → isTerminal n = false →
  identifyUnknownsFromExpressionTree (S f) CI H U (Some p)
  = (U' ← identifyUnknownsFromExpressionTree f CI H U (child0 n);
     identifyUnknownsFromExpressionTree f CI H U' (child1 n)).
Proof.
  intros Hp Ht. cbn [identifyUnknownsFromExpressionTree].
  rewrite Hp. cbn [deref mbind outcome_bind]. by rewrite Ht.
Qed.

Lemma insertLoopIters_inner H U p n f :
  H !! p = Some n → isTerminal n = false →
  insertLoopItersEvaluationCode (S f) H U (Some p)
  = (Left ← insertLoopItersEvaluationCode f H U (child0 n);
     Right ← insertLoopItersEvaluationCode f H U (child1 n);
     insertComputationNode Left Right (op n)).
Proof.
  intros Hp Ht. cbn [insertLoopItersEvaluationCode].
  rewrite Hp. cbn [deref mbind outcome_bind]. by rewrite Ht.
Qed.

Lemma identifyUnknowns_loopTree CI H r s0 s1 s2 fuel :
  holds_loopTree H r s0 s1 s2 →
  identifyUnknownsFromExpressionTree (3 + fuel) CI H ∅ (Some r) = Ret ∅.
Proof.
  intros (q & c0 & c1 & c2 & Er & Eq & E0 & E1 & E2).
  assert (Hleaf : ∀ f k s, H !! k = Some (numNode s) →
    identifyUnknownsFromExpressionTree (S f) CI H ∅ (Some k) = Ret ∅).
  { intros f k s Hk. cbn [identifyUnknownsFromExpressionTree]. by rewrite Hk. }
  change (3 + fuel) with (S (S (S fuel))).
  rewrite (identifyUnknowns_inner _ _ _ _ _ _ Er) by reflexivity.
  cbn [child0 child1 set_children].
  rewrite (identifyUnknowns_inner _ _ _ _ _ _ Eq) by reflexivity.
  cbn [child0 child1 set_children].
  rewrite (Hleaf _ _ _ E1). cbn [mbind outcome_bind].
  rewrite (Hleaf _ _ _ E0). cbn [mbind outcome_bind].
  apply (Hleaf _ _ _ E2).
Qed.

Lemma insertLoopIters_loopTree H r s0 s1 s2 i0 i1 i2 fuel :
  holds_loopTree H r s0 s1 s2 →
  stoi s0 = Ret i0 → stoi s1 = Ret i1 → stoi s2 = Ret i2 →
  insertLoopItersEvaluationCode (3 + fuel) H ∅ (Some r)
  = Ret (Some (VBin IUDiv
                 (VBin ISub (VConst i32 (u32 (u64 i1))) (VConst i32 (u32 (u64 i0))))
                 (VConst i32 (u32 (u64 i2))))).
Proof.
  intros (q & c0 & c1 & c2 & Er & Eq & E0 & E1 & E2) S0 S1 S2.
  assert (Hleaf : ∀ f k s i, H !! k = Some (numNode s) → stoi s = Ret i →
    insertLoopItersEvaluationCode (S f) H ∅ (Some k)
    = Ret (Some (VConst i32 (u32 (u64 i))))).
  { intros f k s i Hk Hs. cbn [insertLoopItersEvaluationCode]. rewrite Hk.
    cbn [deref mbind outcome_bind].
    change (isTerminal (numNode s)) with true. cbv iota.
    rewrite lookup_empty.
    cbn [op numNode set_original_str set_op new_ExprTreeNode original_str].
    rewrite Hs. reflexivity. }
  change (3 + fuel) with (S (S (S fuel))).
  rewrite (insertLoopIters_inner _ _ _ _ _ Er) by reflexivity.
  cbn [child0 child1 set_children].
  rewrite (insertLoopIters_inner _ _ _ _ _ Eq) by reflexivity.
  cbn [child0 child1 set_children].
  rewrite (Hleaf _ _ _ _ E1 S1). cbn [mbind outcome_bind].
  rewrite (Hleaf _ _ _ _ E0 S0). cbn [mbind outcome_bind].
  rewrite (Hleaf _ _ _ _ E2 S2). cbn [mbind outcome_bind].
  reflexivity.
Qed.

Lemma u32_u64 z : u32 (u64 z) = (z mod 2 ^ 32)%Z.
Proof.
  unfold u32, u64. apply Z.mod_mod_divide. exists (2 ^ 32)%Z. lia.
Qed.

Lemma denote_loopIters rho i0 i1 s :
  (INT_MIN ≤ i0)%Z → (i0 ≤ i1)%Z → (i1 ≤ INT_MAX)%Z → (0 < s ≤ INT_MAX)%Z →
  denote rho
    (VBin IUDiv
       (VBin ISub (VConst i32 (u32 (u64 i1))) (VConst i32 (u32 (u64 i0))))
       (VConst i32 (u32 (u64 s))))
  = Some ((i1 - i0) / s)%Z.
Proof.
  unfold INT_MIN, INT_MAX. intros H0 H01 H1 Hs.
  rewrite !u32_u64. cbn [denote width typeOf mbind option_bind].
  rewrite !Z.mod_mod by lia.
  rewrite <- Zminus_mod.
  rewrite (Z.mod_small (i1 - i0)) by lia.
  rewrite (Z.mod_small s) by lia.
  destruct (Z.eqb_spec s 0); [lia|]. reflexivity.
Qed.

Lemma loopIterationEntry_numbers CI cat L toks s0 s1 s2 i0 i1 s h N I :
  (0 < L < 2 ^ 32)%Z →
  LoopIDToLoopBoundsMap cat !! L = Some toks →
  splitTokens toks 0 ([], [], []) = ([s0], [s1], [s2]) →
  isNumber s0 = true → isNumber s1 = true → isNumber s2 = true →
  stoi s0 = Ret i0 → stoi s1 = Ret i1 → stoi s2 = Ret s →
  loopIterationEntry CI cat L (h, N, I)
  = Ret (h ++ loopTree (length h) s0 s1 s2,
         <[L := Some (VBin IUDiv
                        (VBin ISub (VConst i32 (u32 (u64 i1)))
                                   (VConst i32 (u32 (u64 i0))))
                        (VConst i32 (u32 (u64 s))))]> N,
         <[L := false]> I).
Proof.
  intros HL Htoks Hsplit H0 H1 H2 S0 S1 S2. unfold loopIterationEntry.
  rewrite (partiallyEvaluatedLoopIters_numbers _ _ _ _ _ _ h HL Htoks Hsplit H0 H1 H2).
  cbn [mbind outcome_bind].
  rewrite length_app. cbn [loopTree length].
  replace (length h + 5) with (3 + (length h + 2)) by lia.
  rewrite (identifyUnknowns_loopTree CI _ _ s0 s1 s2) by apply loopTree_holds.
  cbn [mbind outcome_bind]. change (dumpUnknowns ∅) with (Ret tt).
  cbn [mbind outcome_bind].
  rewrite (insertLoopIters_loopTree _ _ s0 s1 s2 i0 i1 s _ (loopTree_holds _ _ _ _) S0 S1 S2).
  reflexivity.
Qed.

Lemma loopIterationEntry_unbuilt CI cat L toks t0 t1 t2 h h1 h2 h3 In Fin Step N I :
  (0 < L < 2 ^ 32)%Z →
  LoopIDToLoopBoundsMap cat !! L = Some toks →
  splitTokens toks 0 ([], [], []) = (t0, t1, t2) →
  createExpressionTree t0 h = Ret (h1, In) →
  createExpressionTree t1 h1 = Ret (h2, Fin) →
  createExpressionTree t2 h2 = Ret (h3, Step) →
  In = None ∨ Fin = None →
  loopIterationEntry CI cat L (h, N, I) = Ret (h3, N, <[L := true]> I).
Proof.
  intros HL Htoks Hsplit B0 B1 B2 Hnull.
  destruct (u32_s32 L) as [Hu Hz]; [lia|].
  unfold loopIterationEntry, partiallyEvaluatedLoopIters.
  rewrite bool_decide_false by (intros E; apply Hz in E; lia).
  rewrite Hu, Htoks, Hsplit, B0. cbn [mbind outcome_bind].
  rewrite B1. cbn [mbind outcome_bind].
  rewrite B2. cbn [mbind outcome_bind].
  destruct Hnull as [-> | ->].
  - rewrite bool_decide_true by done. reflexivity.
  - rewrite (bool_decide_true (None = None)) by done.
    rewrite orb_true_r. reflexivity.
Qed.

(** ** The interval evaluator: max against min *)

Lemma getActualHostValueForLiterals_range CI n v :
  unsigned_block_sizes CI →
  getActualHostValueForLiterals CI n = Ret v → (0 ≤ v < 2 ^ 32)%Z.
Proof.
  intros Hsz. unfold getActualHostValueForLiterals.
  assert (Hu : ∀ z, (0 ≤ u32 z < 2 ^ 32)%Z) by (intros z; apply Z.mod_pos_bound; lia).
  destruct (op n); try (intros [= <-]; first [apply Hu | apply Hsz | lia]).
  - destruct (stoi (original_str n)); cbn [mbind outcome_bind]; try discriminate.
    intros [= <-]. apply Hu.
  - destruct (KernelInvocationToArgNumberToConstantMap CI !! arg n) as [c|].
    + destruct (vkind c); intros [= <-]; first [apply Hu | lia].
    + destruct (KernelInvocationToArgNumberToActualArgMap CI !! arg n) as [a|];
        [|intros [= <-]; lia].
      destruct (firstActual CI a) as [x| | | |]; cbn [mbind outcome_bind];
        try discriminate.
      destruct (vkind x); intros [= <-]; first [apply Hu | lia].
Qed.

Lemma getMaxValueForLiterals_range CI n LoopArg loopid v :
  unsigned_block_sizes CI →
  getMaxValueForLiterals CI n LoopArg loopid = Ret v → (0 ≤ v < 2 ^ 32)%Z.
Proof.
  intros Hsz. unfold getMaxValueForLiterals.
  assert (Hu : ∀ z, (0 ≤ u32 z < 2 ^ 32)%Z) by (intros z; apply Z.mod_pos_bound; lia).
  pose proof (getActualHostValueForLiterals_range CI n v Hsz) as Ha.
  destruct (op n); try exact Ha; try (intros [= <-]; apply Hu).
  - case_bool_decide; [intros [= <-]; lia|].
    destruct (evaluateExpressionTree CI _); cbn [mbind outcome_bind];
      try discriminate.
    intros [= <-]. apply Hu.
  - destruct (KernelInvocationToGridSizeValueMap CI !! AXIS_TYPE_GDIMX) as [r|];
      [|intros [= <-]; apply Hu].
    destruct (evaluateRPNForIter0 CI r); cbn [mbind outcome_bind]; try discriminate.
    intros [= <-]. apply Hu.
  - destruct (KernelInvocationToGridSizeValueMap CI !! AXIS_TYPE_GDIMY) as [r|];
      [|intros [= <-]; apply Hu].
    destruct (evaluateRPNForIter0 CI r); cbn [mbind outcome_bind]; try discriminate.
    intros [= <-]. apply Hu.
  - case_bool_decide; [intros [= <-]; lia|exact Ha].
Qed.

Lemma getMinValueForLiterals_range CI n LoopArg loopid v :
  unsigned_block_sizes CI →
  getMinValueForLiterals CI n LoopArg loopid = Ret v → (0 ≤ v < 2 ^ 32)%Z.
Proof.
  intros Hsz. unfold getMinValueForLiterals.
  assert (Hu : ∀ z, (0 ≤ u32 z < 2 ^ 32)%Z) by (intros z; apply Z.mod_pos_bound; lia).
  pose proof (getActualHostValueForLiterals_range CI n v Hsz) as Ha.
  destruct (op n); try exact Ha; try (intros [= <-]; lia).
  - case_bool_decide; [intros [= <-]; lia|].
    destruct (evaluateExpressionTree CI _); cbn [mbind outcome_bind];
      try discriminate.
    intros [= <-]. apply Hu.
  - case_bool_decide; [intros [= <-]; lia|exact Ha].
Qed.

(** A literal: the min-mode value exists and is not above the max-mode one. *)
Lemma literal_min_le_max CI n LoopArg loopid va :
  matching_bounds CI loopid →
  getMaxValueForLiterals CI n LoopArg loopid = Ret va →
  ∃ vb, getMinValueForLiterals CI n LoopArg loopid = Ret vb ∧
        ((op n = ETO_INTERM → vb = va) ∧
         (unsigned_block_sizes CI → vb ≤ va))%Z.
Proof.
  intros Hb Hmax.
  destruct (decide (op n ∈ [ETO_TIDX; ETO_TIDY; ETO_BIDX; ETO_BIDY])) as [Hax|Hax].
  - exists 0%Z. split.
    + unfold getMinValueForLiterals.
      repeat (apply elem_of_cons in Hax as [-> | Hax]; [reflexivity|]).
      by apply elem_of_nil in Hax.
    + split.
      * intros E. rewrite E in Hax.
        repeat (apply elem_of_cons in Hax as [? | Hax]; [discriminate|]).
        by apply elem_of_nil in Hax.
      * intros Hsz.
        by destruct (getMaxValueForLiterals_range _ _ _ _ _ Hsz Hmax).
  - destruct (decide (op n = ETO_PHI_TERM)) as [Hphi|Hphi].
    + unfold getMaxValueForLiterals in Hmax. unfold getMinValueForLiterals.
      rewrite Hphi in *. case_bool_decide as Hl.
      * injection Hmax as <-. exists 1%Z. split; [reflexivity|]. split; [done|lia].
      * destruct (evaluateExpressionTree CI (LoopIDToBoundsExprMapFin CI !! loopid))
          as [hi| | | |] eqn:Ehi; cbn [mbind outcome_bind] in Hmax; try discriminate.
        injection Hmax as <-.
        destruct (Hb Hl hi Ehi) as (lo & Elo & Hle).
        rewrite Elo. exists (u32 lo). split; [reflexivity|]. split; [done|done].
    + exists va. split; [|split; [done|lia]].
      rewrite <- Hmax. unfold getMinValueForLiterals, getMaxValueForLiterals.
      destruct (op n); try reflexivity; try done;
        exfalso; apply Hax; set_solver.
Qed.

(** The resolvers look at the operator, the argument number and the text of a
    node, and at the value of an intermediate result only. *)
Lemma getMinValueForLiterals_ext CI a b LoopArg loopid :
  op a = op b → arg a = arg b → original_str a = original_str b →
  (op a = ETO_INTERM → value a = value b) →
  getMinValueForLiterals CI a LoopArg loopid
  = getMinValueForLiterals CI b LoopArg loopid.
Proof.
  intros Hop Harg Hstr Hval.
  unfold getMinValueForLiterals, getActualHostValueForLiterals.
  rewrite <- Hop, <- Harg, <- Hstr.
  destruct (op a) eqn:E; try reflexivity. by rewrite Hval.
Qed.

Lemma readExactly_interm n :
  readExactly n = true → op n = ETO_INTERM → (0 ≤ value n < 2 ^ 32)%Z.
Proof.
  unfold readExactly. intros H E. rewrite bool_decide_true in H by done.
  by apply bool_decide_eq_true in H.
Qed.

(** An operand popped from the stack. *)
Lemma operand_min_le_max CI a b LoopArg loopid va :
  unsigned_block_sizes CI → matching_bounds CI loopid →
  above a b → readExactly a = true →
  getMaxValueForLiterals CI a LoopArg loopid = Ret va →
  ∃ vb, getMinValueForLiterals CI b LoopArg loopid = Ret vb ∧
        (0 ≤ vb ≤ va)%Z ∧ (va < 2 ^ 32)%Z.
Proof.
  intros Hsz Hb (Hop & Harg & Hstr & Hval) Hread Hmax.
  destruct (getMaxValueForLiterals_range _ _ _ _ _ Hsz Hmax) as [_ Hva].
  destruct (decide (op a = ETO_INTERM)) as [E|E].
  - pose proof (readExactly_interm _ Hread E) as Hr.
    unfold getMaxValueForLiterals, getActualHostValueForLiterals in Hmax.
    rewrite E in Hmax. injection Hmax as <-.
    exists (u32 (value b)). split.
    + unfold getMinValueForLiterals, getActualHostValueForLiterals.
      by rewrite <- Hop, E.
    + rewrite !u32_small by lia. lia.
  - destruct (literal_min_le_max _ _ _ _ _ Hb Hmax) as (vb & Hmin & _ & Hle).
    exists vb. split.
    + rewrite <- Hmin. symmetry. by apply getMinValueForLiterals_ext.
    + destruct (getMinValueForLiterals_range _ _ _ _ _ Hsz Hmin).
      specialize (Hle Hsz). lia.
Qed.

Lemma operateMax_reduction CI LoopArg loopid Token op1 op2 :
  operateMax CI LoopArg loopid Token op1 op2
  = (v1 ← getMaxValueForLiterals CI op1 LoopArg loopid;
     v2 ← getMaxValueForLiterals CI op2 LoopArg loopid;
     res ← reduction (λ v1 v2, if (v1 <? v2)%Z then v2 else v1) (op Token) v1 v2;
     Ret (interm res)).
Proof.
  unfold operateMax.
  destruct (getMaxValueForLiterals CI op1 LoopArg loopid) as [v1| | | |];
    [|reflexivity..].
  destruct (getMaxValueForLiterals CI op2 LoopArg loopid) as [v2| | | |];
    [|reflexivity..].
  cbn [mbind outcome_bind].
  destruct (op Token); reflexivity.
Qed.

Lemma operateMin_reduction CI LoopArg loopid Token op1 op2 :
  operateMin CI LoopArg loopid Token op1 op2
  = (v1 ← getMinValueForLiterals CI op1 LoopArg loopid;
     v2 ← getMinValueForLiterals CI op2 LoopArg loopid;
     res ← reduction (λ v1 v2, if (v1 <? v2)%Z then v1 else v2) (op Token) v1 v2;
     Ret (interm res)).
Proof.
  unfold operateMin.
  destruct (getMinValueForLiterals CI op1 LoopArg loopid) as [v1| | | |];
    [|reflexivity..].
  destruct (getMinValueForLiterals CI op2 LoopArg loopid) as [v2| | | |];
    [|reflexivity..].
  cbn [mbind outcome_bind].
  destruct (op Token); reflexivity.
Qed.

(** The reductions are monotone on operands below [2^32], a shift as long as
    the max-mode result stays below [2^64]. *)
Lemma reduction_monotone o v1a v2a v1b v2b ra :
  (0 ≤ v1b ≤ v1a)%Z → (v1a < 2 ^ 32)%Z → (0 ≤ v2b ≤ v2a)%Z → (v2a < 2 ^ 32)%Z →
  (o = ETO_SHL → v1a * 2 ^ v2a < 2 ^ 64)%Z →
  reduction (λ v1 v2, if (v1 <? v2)%Z then v2 else v1) o v1a v2a = Ret ra →
  ∃ rb, reduction (λ v1 v2, if (v1 <? v2)%Z then v1 else v2) o v1b v2b = Ret rb ∧
        (0 ≤ rb ≤ ra)%Z.
Proof.
  intros H1 H1' H2 H2' Hshl.
  assert (Hmul : (v1b * v2b ≤ v1a * v2a)%Z) by (apply Z.mul_le_mono_nonneg; lia).
  assert (Hmul' : (v1a * v2a < 2 ^ 64)%Z) by nia.
  destruct o; cbn [reduction];
    try (intros [= <-]; eexists; split; [reflexivity|]; lia).
  - (* ADD *)
    intros [= <-]. eexists. split; [reflexivity|].
    rewrite !u64_small by lia. lia.
  - (* OR *)
    intros [= <-]. eexists. split; [reflexivity|].
    rewrite !u64_small by lia. lia.
  - (* MUL *)
    intros [= <-]. eexists. split; [reflexivity|].
    rewrite !u64_small by nia. nia.
  - (* SHL *)
    unfold shl64. destruct (Z.ltb_spec v2a 64); [|discriminate].
    intros [= <-]. destruct (Z.ltb_spec v2b 64); [|lia].
    eexists. split; [reflexivity|].
    rewrite !Z.shiftl_mul_pow2 by lia.
    specialize (Hshl eq_refl).
    assert (2 ^ v2b ≤ 2 ^ v2a)%Z by (apply Z.pow_le_mono_r; lia).
    assert (0 < 2 ^ v2b)%Z by (apply Z.pow_pos_nonneg; lia).
    assert (v1b * 2 ^ v2b ≤ v1a * 2 ^ v2a)%Z by (apply Z.mul_le_mono_nonneg; lia).
    rewrite !u64_small by nia. nia.
  - (* PHI *)
    intros [= <-]. eexists. split; [reflexivity|].
    destruct (Z.ltb_spec v1a v2a), (Z.ltb_spec v1b v2b); lia.
Qed.

Lemma above_isTerminal a b : above a b → isTerminal b = isTerminal a.
Proof. intros (Hop & _). unfold isTerminal. by rewrite Hop. Qed.

(** One step of the two runs, on stacks related entry by entry. *)
Lemma rpnStep_lockstep CI LoopArg loopid stka stkb Token stka' :
  unsigned_block_sizes CI → matching_bounds CI loopid →
  Forall2 above stka stkb →
  (if isOperation Token then
     match stka with
     | op1 :: op2 :: _ => reducesExactly CI LoopArg loopid Token op1 op2
     | _ => true
     end
   else true) = true →
  rpnStep (λ n, getMaxValueForLiterals CI n LoopArg loopid)
          (operateMax CI LoopArg loopid) stka Token = Ret stka' →
  ∃ stkb',
    rpnStep (λ n, getMinValueForLiterals CI n LoopArg loopid)
            (operateMin CI LoopArg loopid) stkb Token = Ret stkb' ∧
    Forall2 above stka' stkb'.
Proof.
  intros Hsz Hb Hstk Hexact. unfold rpnStep.
  destruct (isOperation Token).
  - destruct Hstk as [|op1a op1b stka stkb H1 Hstk]; [discriminate|].
    destruct Hstk as [|op2a op2b resta restb H2 Hrest]; [discriminate|].
    rewrite (above_isTerminal _ _ H1), (above_isTerminal _ _ H2).
    destruct (isTerminal op1a && isTerminal op2a); [|discriminate].
    rewrite operateMax_reduction, operateMin_reduction.
    unfold reducesExactly in Hexact.
    apply andb_prop in Hexact as [Hread Hshl].
    apply andb_prop in Hread as [Hr1 Hr2].
    destruct (getMaxValueForLiterals CI op1a LoopArg loopid) as [v1a| | | |] eqn:E1;
      cbn [mbind outcome_bind]; try discriminate.
    destruct (getMaxValueForLiterals CI op2a LoopArg loopid) as [v2a| | | |] eqn:E2;
      cbn [mbind outcome_bind]; try discriminate.
    destruct (reduction _ (op Token) v1a v2a) as [ra| | | |] eqn:Er;
      cbn [mbind outcome_bind]; try discriminate.
    intros [= <-].
    destruct (operand_min_le_max _ _ _ _ _ _ Hsz Hb H1 Hr1 E1) as (v1b & -> & ? & ?).
    destruct (operand_min_le_max _ _ _ _ _ _ Hsz Hb H2 Hr2 E2) as (v2b & -> & ? & ?).
    cbn [mbind outcome_bind].
    destruct (reduction_monotone (op Token) v1a v2a v1b v2b ra) as (rb & -> & ?);
      [done..| |exact Er|].
    { intros ESHL. rewrite bool_decide_true in Hshl by done.
      by apply bool_decide_eq_true in Hshl. }
    cbn [mbind outcome_bind]. eexists. split; [reflexivity|].
    constructor; [|exact Hrest].
    unfold above. cbn. repeat split; try reflexivity; lia.
  - destruct (getMaxValueForLiterals CI Token LoopArg loopid) as [va| | | |] eqn:E;
      cbn [mbind outcome_bind]; try discriminate.
    intros [= <-].
    destruct (literal_min_le_max _ _ _ _ _ Hb E) as (vb & Hmin & _ & Hle).
    specialize (Hle Hsz).
    destruct (getMinValueForLiterals_range _ _ _ _ _ Hsz Hmin).
    rewrite Hmin. cbn [mbind outcome_bind]. eexists. split; [reflexivity|].
    constructor; [|exact Hstk].
    unfold above. cbn. repeat split; try reflexivity; lia.
Qed.

Lemma rpnLoop_lockstep CI LoopArg loopid RPN :
  unsigned_block_sizes CI → matching_bounds CI loopid →
  ∀ stka stkb stka',
    Forall2 above stka stkb →
    maxRunExact CI LoopArg loopid stka RPN = true →
    rpnLoop (λ n, getMaxValueForLiterals CI n LoopArg loopid)
            (operateMax CI LoopArg loopid) stka RPN = Ret stka' →
    ∃ stkb',
      rpnLoop (λ n, getMinValueForLiterals CI n LoopArg loopid)
              (operateMin CI LoopArg loopid) stkb RPN = Ret stkb' ∧
      Forall2 above stka' stkb'.
Proof.
  intros Hsz Hb. induction RPN as [|Token rest IH]; intros stka stkb stka' Hstk.
  - intros _ [= <-]. by exists stkb.
  - cbn [maxRunExact rpnLoop]. intros Hexact Hrun.
    apply andb_prop in Hexact as [Hstep Hrest].
    destruct (rpnStep _ _ stka Token) as [stka1| | | |] eqn:Ea;
      cbn [mbind outcome_bind] in Hrun; try discriminate.
    destruct (rpnStep_lockstep _ _ _ _ _ _ _ Hsz Hb Hstk Hstep Ea)
      as (stkb1 & -> & Hstk1).
    cbn [mbind outcome_bind]. by eapply IH.
Qed.

(** The condition under which the host-side max-mode result is not below the
    min-mode result.  For an invocation whose
    block dimensions are 32-bit unsigned values and whose loop bounds match
    (the final bound is not below the initial one), if the max-mode run
    returns a value and loses no bits on the way (every intermediate result
    that is popped as an operand is below [2^32], the width through which it
    is read, and the result of every shift is below [2^64]), then the min-mode
    run returns a value as well and this value is not above the max-mode one:
    the difference max - min is not negative. *)
Lemma evaluateRPNforMax_ge_min CI RPN LoopArg loopid vmax :
  unsigned_block_sizes CI → matching_bounds CI loopid →
  maxRunExact CI LoopArg loopid [] RPN = true →
  evaluateRPNforMax CI RPN LoopArg loopid = Ret vmax →
  ∃ vmin, evaluateRPNforMin CI RPN LoopArg loopid = Ret vmin ∧
          (vmin ≤ vmax)%Z ∧ (0 ≤ vmax - vmin)%Z.
Proof.
  intros Hsz Hb Hexact. unfold evaluateRPNforMax, evaluateRPNforMin, rpnValue.
  destruct (rpnLoop _ _ [] RPN) as [stka| | | |] eqn:Ea;
    cbn [mbind outcome_bind]; try discriminate.
  destruct (rpnLoop_lockstep _ _ _ _ Hsz Hb [] [] stka (Forall2_nil_2 _ _ above) Hexact Ea)
    as (stkb & -> & Hstk).
  cbn [mbind outcome_bind].
  destruct Hstk as [|a b stka stkb Hab _]; [discriminate|].
  cbn [head deref mbind outcome_bind]. intros [= <-].
  exists (value b). destruct Hab as (_ & _ & _ & ?).
  split; [reflexivity|]. lia.
Qed.

Lemma evaluateRPNforMax_ge_min_witness :
  ∃ RPN vmin,
    postfixOf ["ADD"; "8"; "MUL"; "4"; "TIDX"]%string = Ret RPN ∧
    evaluateRPNforMax (block_x 1024 []) RPN 99 0 = Ret 4100%Z ∧
    evaluateRPNforMin (block_x 1024 []) RPN 99 0 = Ret vmin ∧
    (vmin ≤ 4100)%Z ∧ (0 ≤ 4100 - vmin)%Z.
Proof.
  eexists. 
  assert (Hsz : unsigned_block_sizes (block_x 1024 [])).
  { intros []; (split; [vm_compute; discriminate|vm_compute; reflexivity]). }
  assert (Hb : matching_bounds (block_x 1024 []) 0) by (intros H; done).
  match goal with
  | |- ∃ vmin, ?P ∧ ?Q ∧ _ =>
      assert (HP : P) by (vm_compute; reflexivity);
      assert (HQ : Q) by (vm_compute; reflexivity)
  end.
  match type of HQ with
  | evaluateRPNforMax _ ?R _ _ = _ =>
      assert (Hex : maxRunExact (block_x 1024 []) 99 0 [] R = true)
        by (vm_compute; reflexivity)
  end.
  destruct (evaluateRPNforMax_ge_min _ _ 99%Z 0%Z _ Hsz Hb Hex HQ) as (vmin & Hmin & Hle).
  exists vmin. split; [exact HP|]. split; [exact HQ|]. split; [exact Hmin|exact Hle].
Defined.

(** C9, at two inputs where the code departs from it.

    On the host side, for [1 * (8388608 + 4194304 * TIDX)] with 1024 threads
    along x: in max mode the sum is 4299161600; it is read back through the
    [unsigned] result of [getMaxValueForLiterals] as 4194304 when the product
    by 1 is formed.  In min mode the result is 8388608: the max-mode result is
    below the min-mode result.

    In the code emitted for the working-set size of the access at
    [100 - TIDX], with 32 threads along x: the largest value of the thread
    index is put into the expression for the largest value of the expression,
    which gives 69, and the smallest one for the smallest, which gives 100.
    The difference handed to [estimate_working_set2] is [69 - 100] on 64 bits:
    a negative number, 18446744073709551585 when read as unsigned. *)
Theorem C9_working_set_size :
  (∃ RPN,
     postfixOf ["MUL"; "1"; "ADD"; "8388608"; "MUL"; "4194304"; "TIDX"]%string
       = Ret RPN ∧
     evaluateRPNforMax (block_x 1024 []) RPN 99 0 = Ret 4194304%Z ∧
     evaluateRPNforMin (block_x 1024 []) RPN 99 0 = Ret 8388608%Z ∧
     (4194304 < 8388608)%Z) ∧
  (∀ insertTreeEvaluationCodeForPhi LoopIters BDIMX BDIMY N rho,
   ∃ h Node maxValue minValue wss,
     Advanced.createExpressionTreeAdvanced hundred_less_tidx [] = Ret (h, Node) ∧
     WorkingSet.insertCodeToEstimateMaxValueAdvanced
       insertTreeEvaluationCodeForPhi (threads_x 32) h Node ∅ 0 LoopIters N
       = Ret (Some maxValue) ∧
     WorkingSet.insertCodeToEstimateMinValueAdvanced
       insertTreeEvaluationCodeForPhi (threads_x 32) h Node ∅ 0 N
       = Ret (Some minValue) ∧
     WorkingSet.estimateWorkingSetSizeAdvanced
       insertTreeEvaluationCodeForPhi (threads_x 32) h Node LoopIters BDIMX
       BDIMY N
       = Ret (WorkingSet.estimate_working_set2 wss BDIMX BDIMY) ∧
     wss = VBin ISub (promoted maxValue) (promoted minValue) ∧
     denote rho maxValue = Some 69%Z ∧ denote rho minValue = Some 100%Z ∧
     denote rho wss = Some 18446744073709551585%Z ∧
     signedOf 64 18446744073709551585 = (-31)%Z).
Proof.
  split.
  - eexists. split; [vm_compute; reflexivity|].
    split; [vm_compute; reflexivity|]. split; [vm_compute; reflexivity|]. lia.
  - intros phi LoopIters BDIMX BDIMY N rho. do 5 eexists.
    repeat (split; [vm_compute; reflexivity|]). vm_compute. reflexivity.
Qed.
(** * Further properties *)

(** ** Tokens *)

Lemma isNumber_spec (s : string) :
  isNumber s = true ↔
  (∃ rest, s = String "-" rest) ∨
  Forall (λ c, isDigit c = true) (list_ascii_of_string s).
Proof.
  assert (Hloop : ∀ first cs, first ≠ "-"%char →
            isNumber_loop first cs = true ↔ Forall (λ c, isDigit c = true) cs).
  { intros first cs Hf. induction cs as [|c cs IH]; cbn [isNumber_loop].
    - split; [constructor|done].
    - destruct (Ascii.eqb_spec first "-") as [->|_]; [done|].
      destruct (isDigit c) eqn:Ec; cbn [negb].
      + rewrite IH. split; [by constructor|by inversion 1].
      + split; [done|]. inversion 1; congruence. }
  destruct s as [|first rest]; cbn [isNumber].
  - split; [right; constructor|done].
  - destruct (decide (first = "-"%char)) as [->|Hf].
    + split; [intros _; left; by eexists|intros _; apply isNumber_loop_minus].
    + rewrite (Hloop first _ Hf). split; [by right|].
      intros [[rest' [= ? _]]|H]; [done|exact H].
Qed.

(** [isNumber] accepts exactly the empty token, the tokens made of digits only
    and the tokens whose first character is ['-']. *)
Theorem isNumber_characterisation (s : string) :
  isNumber s = true ↔
  (∃ rest, s = String "-" rest) ∨
  Forall (λ c, isDigit c = true) (list_ascii_of_string s).
Proof. apply isNumber_spec. Qed.

Lemma read_digits_app acc ds rest :
  Forall (λ c, isDigit c = true) ds →
  read_digits acc (ds ++ rest) = read_digits (digitsValue acc ds) rest.
Proof.
  intros H. revert acc. induction H as [|c ds Hc _ IH]; intros acc; [done|].
  cbn [app read_digits]. rewrite Hc. apply IH.
Qed.

Lemma pretty_N_char_digit x :
  (x < 10)%N →
  isDigit (pretty_N_char x) = true ∧ digitValue (pretty_N_char x) = Z.of_N x.
Proof.
  intros Hx.
  assert (x = 0 ∨ x = 1 ∨ x = 2 ∨ x = 3 ∨ x = 4 ∨ x = 5 ∨ x = 6 ∨ x = 7
          ∨ x = 8 ∨ x = 9)%N as H by lia.
  repeat destruct H as [->|H]; try subst x; by vm_compute.
Qed.

(** The characters that [pretty_N_go] puts before [s] are the decimal digits
    of [x], most significant first. *)
Lemma pretty_N_go_digits x :
  ∀ s, ∃ ds,
    list_ascii_of_string (pretty_N_go x s) = ds ++ list_ascii_of_string s ∧
    Forall (λ c, isDigit c = true) ds ∧
    ((0 < x)%N → ds ≠ []) ∧
    ∀ acc, digitsValue acc ds = (acc * 10 ^ Z.of_nat (length ds) + Z.of_N x)%Z.
Proof.
  induction (N.lt_wf_0 x) as [x _ IH]; intros s.
  destruct (decide (x = 0)%N) as [->|Hx].
  - exists []. rewrite pretty_N_go_0. repeat split; [constructor|lia|].
    intros acc. cbn. lia.
  - rewrite pretty_N_go_step by lia.
    destruct (IH (x `div` 10)%N ltac:(apply N.div_lt; lia)
                (String (pretty_N_char (x `mod` 10)) s))
      as (ds & Hds & Hdig & _ & Hval).
    destruct (pretty_N_char_digit (x `mod` 10)%N ltac:(apply N.mod_lt; lia))
      as [Hc Hv].
    exists (ds ++ [pretty_N_char (x `mod` 10)]). repeat split.
    + rewrite Hds. cbn [list_ascii_of_string]. by rewrite <- app_assoc.
    + apply Forall_app. split; [done|]. by constructor.
    + intros _. by destruct ds.
    + intros acc. unfold digitsValue in *. rewrite fold_left_app. cbn [fold_left].
      rewrite Hval, Hv, length_app. cbn [length].
      rewrite Nat2Z.inj_add, Z.pow_add_r by lia.
      pose proof (N.div_mod x 10 ltac:(lia)) as Hdm.
      apply (f_equal Z.of_N) in Hdm. rewrite N2Z.inj_add, N2Z.inj_mul in Hdm.
      change (Z.of_N 10) with 10%Z in Hdm. change (10 ^ Z.of_nat 1)%Z with 10%Z.
      lia.
Qed.

(** The decimal numeral of a positive number: digits only, at least one, and
    [std::stoi] reads the number back from them. *)
Lemma pretty_positive_digits (p : positive) :
  ∃ d ds,
    list_ascii_of_string (pretty (Z.pos p)) = d :: ds ∧
    Forall (λ c, isDigit c = true) (d :: ds) ∧
    read_digits 0 (d :: ds) = Z.pos p.
Proof.
  change (pretty (Z.pos p)) with (pretty (N.pos p)).
  unfold pretty, pretty_N. rewrite decide_False by done.
  destruct (pretty_N_go_digits (N.pos p) "") as (ds & Hds & Hdig & Hne & Hval).
  cbn [list_ascii_of_string] in Hds. rewrite app_nil_r in Hds.
  destruct ds as [|d ds]; [by destruct Hne|].
  exists d, ds. split; [exact Hds|]. split; [exact Hdig|].
  rewrite <- (app_nil_r (d :: ds)), (read_digits_app _ _ _ Hdig).
  cbn [read_digits]. rewrite Hval. cbn. lia.
Qed.

Lemma isDigit_not_space c : isDigit c = true → isspace c = false.
Proof.
  unfold isDigit, isspace. intros H. apply andb_prop in H as [H1 H2].
  apply Nat.leb_le in H1, H2.
  apply orb_false_intro; [apply Nat.eqb_neq; lia|].
  apply andb_false_intro2. apply Nat.leb_gt. lia.
Qed.

Lemma isDigit_not_sign c :
  isDigit c = true → c ≠ "-"%char ∧ c ≠ "+"%char.
Proof. intros H. split; intros ->; by vm_compute in H. Qed.

(** [std::stoi] on a string of digits, with or without a sign in front. *)
Lemma stoi_digits (neg : bool) d ds :
  Forall (λ c, isDigit c = true) (d :: ds) →
  stoi (string_of_list_ascii ((if neg then ["-"%char] else []) ++ d :: ds))
  = (let v := read_digits 0 (d :: ds) in
     let v := if neg then (- v)%Z else v in
     if (INT_MIN <=? v)%Z && (v <=? INT_MAX)%Z then Ret v else Exception).
Proof.
  intros Hdig. pose proof (Forall_inv Hdig) as Hd.
  destruct (isDigit_not_sign _ Hd) as [Hm Hp].
  unfold stoi. rewrite list_ascii_of_string_of_list_ascii.
  destruct neg; cbn [app skip_space].
  - change (isspace "-") with false. cbv iota. by rewrite Hd.
  - rewrite (isDigit_not_space _ Hd).
    destruct d as [[] [] [] [] [] [] [] []]; try done; by rewrite ?Hd.
Qed.

Lemma substring_all s n : String.length s ≤ n → substring 0 n s = s.
Proof.
  revert n. induction s as [|c s IH]; intros n Hn.
  - by destruct n.
  - destruct n as [|n]; cbn in Hn; [lia|]. cbn. f_equal. apply IH. lia.
Qed.

Lemma pretty_constant (z : Z) :
  getExprTreeOp (pretty z) = Ret ETO_CONST ∧
  stoi (pretty z)
  = (if (INT_MIN <=? z)%Z && (z <=? INT_MAX)%Z then Ret z else Exception).
Proof.
  destruct z as [|p|p].
  - split; reflexivity.
  - destruct (pretty_positive_digits p) as (d & ds & Hs & Hdig & Hval).
    split.
    + apply getExprTreeOp_number, isNumber_spec. right.
      by rewrite Hs.
    + rewrite <- (string_of_list_ascii_of_string (pretty (Z.pos p))), Hs.
      pose proof (stoi_digits false d ds Hdig) as H. cbn [app] in H.
      rewrite H. cbv zeta. by rewrite Hval.
  - destruct (pretty_positive_digits p) as (d & ds & Hs & Hdig & Hval).
    change (pretty (Z.neg p)) with (String "-" (pretty (Z.pos p))).
    split.
    + apply getExprTreeOp_number, isNumber_spec. left. by eexists.
    + rewrite <- (string_of_list_ascii_of_string (String "-" (pretty (Z.pos p)))).
      cbn [list_ascii_of_string]. rewrite Hs.
      pose proof (stoi_digits true d ds Hdig) as H. cbn [app] in H.
      rewrite H. cbv zeta. by rewrite Hval.
Qed.

(** Decimal numerals round-trip through the token layer: the numeral of any
    integer is classified as a constant, and [std::stoi] reads the integer
    back when it fits an [int] and throws otherwise. *)
Theorem decimal_constant_round_trip (z : Z) :
  getExprTreeOp (pretty z) = Ret ETO_CONST ∧
  stoi (pretty z)
  = (if (INT_MIN <=? z)%Z && (z <=? INT_MAX)%Z then Ret z else Exception).
Proof. apply pretty_constant. Qed.

Lemma getExprTreeOp_ARG s : getExprTreeOp ("ARG" +:+ s) = Ret ETO_ARG.
Proof. destruct s; reflexivity. Qed.

(** The token [ARG<n>], with [n] written in decimal: it is classified as an
    argument, its number is read back, and the builder makes the single node
    that carries it.  A number above [INT_MAX] makes [std::stoi] throw. *)
Theorem arg_token_round_trip (n : Z) (h : list ExprTreeNode) :
  (0 ≤ n)%Z →
  getExprTreeOp ("ARG" +:+ pretty n) = Ret ETO_ARG ∧
  ((n ≤ INT_MAX)%Z →
     getExprTreeNodeArg ("ARG" +:+ pretty n) = Ret n ∧
     createExpressionTree ["ARG" +:+ pretty n] h
     = Ret (h ++ [set_arg n (set_original_str ("ARG" +:+ pretty n)
                               (set_op ETO_ARG new_ExprTreeNode))],
            Some (length h))) ∧
  ((INT_MAX < n)%Z →
     createExpressionTree ["ARG" +:+ pretty n] h = Exception).
Proof.
  intros Hn. split; [apply getExprTreeOp_ARG|].
  assert (Hsub : substr_from 3 ("ARG" +:+ pretty n) = pretty n).
  { unfold substr_from. generalize (pretty n). intros s.
    change ("ARG" +:+ s) with (String "A" (String "R" (String "G" s))).
    cbn [String.length substring]. apply substring_all. lia. }
  destruct (pretty_constant n) as [_ Hstoi].
  assert (Hmin : (INT_MIN <=? n)%Z = true) by (apply Z.leb_le; unfold INT_MIN; lia).
  rewrite Hmin in Hstoi. cbn [andb] in Hstoi.
  assert (Hbuild : createExpressionTree ["ARG" +:+ pretty n] h
            = (a ← getExprTreeNodeArg ("ARG" +:+ pretty n);
               Ret (h ++ [set_arg a (set_original_str ("ARG" +:+ pretty n)
                                       (set_op ETO_ARG new_ExprTreeNode))],
                    Some (length h)))).
  { unfold createExpressionTree.
    change (reverse ["ARG" +:+ pretty n]) with ["ARG" +:+ pretty n].
    cbn [length]. rewrite bool_decide_false by lia.
    change (String.eqb ("ARG" +:+ pretty n) "INCOMP") with false. cbv iota.
    cbn [makeNodes]. rewrite getExprTreeOp_ARG.
    cbn [mbind outcome_bind mret outcome_ret setArgs set_op set_original_str op
         original_str new_ExprTreeNode].
    rewrite (bool_decide_true (ETO_ARG = ETO_ARG)) by done.
    destruct (getExprTreeNodeArg ("ARG" +:+ pretty n)) as [a| | | |];
      cbn [mbind outcome_bind]; try reflexivity.
    cbn [length seq treeLoop]. unfold treeStep. cbn [store].
    replace (length h) with (length h + 0) at 1 by lia.
    rewrite lookup_tail. reflexivity. }
  rewrite Hbuild. clear Hbuild.
  unfold getExprTreeNodeArg. rewrite Hsub, Hstoi.
  split.
  - intros Hmax. rewrite (proj2 (Z.leb_le n INT_MAX) Hmax).
    cbn [mbind outcome_bind].
    rewrite u32_small by (unfold INT_MAX in Hmax; lia). done.
  - intros Hmax. rewrite (proj2 (Z.leb_gt n INT_MAX) Hmax). reflexivity.
Qed.

Lemma arg_token_round_trip_witness :
  getExprTreeOp ("ARG" +:+ pretty 12%Z) = Ret ETO_ARG ∧
  ((12 ≤ INT_MAX)%Z →
     getExprTreeNodeArg ("ARG" +:+ pretty 12%Z) = Ret 12%Z ∧
     createExpressionTree ["ARG" +:+ pretty 12%Z] []
     = Ret ([] ++ [set_arg 12 (set_original_str ("ARG" +:+ pretty 12%Z)
                                 (set_op ETO_ARG new_ExprTreeNode))],
            Some (length ([] : list ExprTreeNode)))) ∧
  ((INT_MAX < 12)%Z →
     createExpressionTree ["ARG" +:+ pretty 12%Z] [] = Exception).
Proof. apply (arg_token_round_trip 12 []). lia. Defined.

(** ** The binary tree builder: totality and frame *)

Lemma makeNodes_outcome toks :
  (∃ ns, makeNodes toks = Ret ns ∧
         Forall2 (λ s n, original_str n = s ∧ getExprTreeOp s = Ret (op n)) toks ns) ∨
  (makeNodes toks = Abort ∧ ∃ s, s ∈ toks ∧ getExprTreeOp s = Abort).
Proof.
  induction toks as [|str toks IH]; cbn [makeNodes].
  - left. eexists. split; [reflexivity|constructor].
  - unfold getExprTreeOp at 1.
    assert (Hcls : (∃ o, getExprTreeOp str = Ret o) ∨ getExprTreeOp str = Abort).
    { unfold getExprTreeOp. repeat case_match; eauto. }
    fold (getExprTreeOp str).
    destruct Hcls as [[o Ho]|Ho]; rewrite Ho; cbn [mbind outcome_bind].
    + destruct IH as [(ns & -> & Hns)|[-> (s & Hs & Hab)]]; cbn [mbind outcome_bind].
      * left. eexists. split; [reflexivity|]. constructor; [|exact Hns].
        by split.
      * right. split; [reflexivity|]. exists s. split; [by right|done].
    + right. split; [reflexivity|]. exists str. split; [by left|done].
Qed.

Lemma getExprTreeNodeArg_outcome s :
  (∃ a, getExprTreeNodeArg s = Ret a) ∨ getExprTreeNodeArg s = Exception.
Proof.
  unfold getExprTreeNodeArg, stoi.
  repeat case_match; cbn [mbind outcome_bind]; eauto.
Qed.

Lemma setArgs_outcome ns :
  (∃ ns', setArgs ns = Ret ns' ∧ length ns' = length ns) ∨
  (setArgs ns = Exception ∧
   ∃ n, n ∈ ns ∧ op n = ETO_ARG ∧ getExprTreeNodeArg (original_str n) = Exception).
Proof.
  induction ns as [|n ns IH]; cbn [setArgs].
  - left. by eexists.
  - case_bool_decide as Harg.
    + destruct (getExprTreeNodeArg_outcome (original_str n)) as [[a Ha]|Ha];
        rewrite Ha; cbn [mbind outcome_bind].
      * destruct IH as [(ns' & -> & Hlen)|[-> (m & Hm & ?)]]; cbn [mbind outcome_bind].
        -- left. eexists. split; [reflexivity|]. cbn. by rewrite Hlen.
        -- right. split; [reflexivity|]. exists m. split; [by right|done].
      * right. split; [reflexivity|]. exists n. split; [by left|done].
    + cbn [mbind outcome_bind].
      destruct IH as [(ns' & -> & Hlen)|[-> (m & Hm & ?)]]; cbn [mbind outcome_bind].
      * left. eexists. split; [reflexivity|]. cbn. by rewrite Hlen.
      * right. split; [reflexivity|]. exists m. split; [by right|done].
Qed.

(** The state of the linking loop while it links the nodes from [a] on: the
    nodes below [a] are those of [h], and the stack holds linked nodes. *)
Lemma reduce_frame (h : list ExprTreeNode) a s p seen :
  take a (store s) = h → Forall (λ q, a ≤ q < length (store s)) (stack s) →
  a ≤ p < length (store s) →
  match reduce s p seen with
  | Continue s' =>
      take a (store s') = h ∧ length (store s') = length (store s) ∧
      Forall (λ q, a ≤ q < length (store s')) (stack s') ∧ stack s' ≠ []
  | ReturnNull h' => take a h' = h ∧ length h' = length (store s)
  end.
Proof.
  intros Hh Hstk Hp. unfold reduce.
  destruct (stack s) as [|c1 [|c2 rest]]; [done..|].
  inversion Hstk as [|? ? Hc1 Hstk1]; subst.
  inversion Hstk1 as [|? ? Hc2 Hrest]; subst.
  cbn [store stack]. rewrite !length_alter.
  split; [|split; [done|split; [|done]]].
  - by rewrite !take_alter_ge by lia.
  - constructor; [done|exact Hrest].
Qed.

Lemma treeStep_frame (h : list ExprTreeNode) a s p :
  take a (store s) = h → Forall (λ q, a ≤ q < length (store s)) (stack s) →
  a ≤ p < length (store s) →
  ∃ r, treeStep s p = Ret r ∧
    match r with
    | Continue s' =>
        take a (store s') = h ∧ length (store s') = length (store s) ∧
        Forall (λ q, a ≤ q < length (store s')) (stack s') ∧ stack s' ≠ []
    | ReturnNull h' => take a h' = h ∧ length h' = length (store s)
    end.
Proof.
  intros Hh Hstk Hp. unfold treeStep.
  destruct (lookup_lt_is_Some_2 (store s) p ltac:(lia)) as [n Hn].
  rewrite Hn. cbn [deref mbind outcome_bind].
  destruct (isPhiNode n).
  - destruct (phi_term_seen s); cbn [negb].
    + eexists. split; [reflexivity|]. by apply reduce_frame.
    + eexists. split; [reflexivity|]. cbn [store stack]. rewrite length_alter.
      split; [by rewrite take_alter_ge by lia|]. split; [done|].
      split; [by constructor|done].
  - destruct (isOperation n).
    + eexists. split; [reflexivity|]. by apply reduce_frame.
    + eexists. split; [reflexivity|]. cbn [store stack].
      split; [done|]. split; [done|]. split; [by constructor|done].
Qed.

Lemma treeLoop_frame (h : list ExprTreeNode) a nodes : ∀ s,
  take a (store s) = h → Forall (λ q, a ≤ q < length (store s)) (stack s) →
  Forall (λ p, a ≤ p < length (store s)) nodes →
  ∃ r, treeLoop s nodes = Ret r ∧
    match r with
    | Continue s' =>
        take a (store s') = h ∧ length (store s') = length (store s) ∧
        Forall (λ q, a ≤ q < length (store s')) (stack s') ∧
        (nodes ≠ [] ∨ stack s ≠ [] → stack s' ≠ [])
    | ReturnNull h' => take a h' = h ∧ length h' = length (store s)
    end.
Proof.
  induction nodes as [|p nodes IH]; intros s Hh Hstk Hnodes; cbn [treeLoop].
  - eexists. split; [reflexivity|]. repeat split; try done. by intros [|].
  - inversion Hnodes as [|? ? Hp Hrest]; subst.
    destruct (treeStep_frame _ a s p eq_refl Hstk Hp) as (r & -> & Hr).
    cbn [mbind outcome_bind]. destruct r as [s1|h1].
    + destruct Hr as (Hh1 & Hlen1 & Hstk1 & Hne1).
      destruct (IH s1 Hh1 Hstk1) as (r & -> & Hr).
      { rewrite Hlen1. exact Hrest. }
      eexists. split; [reflexivity|]. destruct r as [s2|h2].
      * destruct Hr as (? & Hlen2 & ? & Hne2). rewrite <- Hlen1.
        repeat split; try done. intros _. apply Hne2. by right.
      * destruct Hr as [? Hlen2]. by rewrite <- Hlen1.
    + eexists. split; [reflexivity|]. exact Hr.
Qed.

(** The builder never runs into undefined behaviour: it returns, or stops at
    the [assert] of the classifier, or leaves by the exception of [std::stoi];
    on a list of tokens that can all be classified it returns. *)
Theorem createExpressionTree_total (RPN : list string) (h : list ExprTreeNode) :
  createExpressionTree RPN h ≠ Undefined ∧
  createExpressionTree RPN h ≠ OutOfFuel ∧
  (Forall classifiable RPN → ∃ h' root, createExpressionTree RPN h = Ret (h', root)).
Proof.
  assert (Hcases :
    (∃ h' root, createExpressionTree RPN h = Ret (h', root)) ∨
    (createExpressionTree RPN h = Abort ∧ ∃ s, s ∈ RPN ∧ getExprTreeOp s = Abort) ∨
    (createExpressionTree RPN h = Exception ∧
     ∃ s, s ∈ RPN ∧ getExprTreeOp s = Ret ETO_ARG ∧
          getExprTreeNodeArg s = Exception)).
  { unfold createExpressionTree.
    destruct (reverse RPN) as [|first rest] eqn:Erev; [left; eauto|].
    case_bool_decide; [left; eauto|].
    destruct (String.eqb first "INCOMP"); [left; eauto|].
    rewrite <- Erev.
    destruct (makeNodes_outcome (reverse RPN)) as [(ns & -> & Hns)|[-> (s & Hs & Hab)]];
      cbn [mbind outcome_bind].
    2:{ right; left. split; [done|]. exists s. by rewrite elem_of_reverse in Hs. }
    destruct (setArgs_outcome ns) as [(ns' & -> & Hlen)|[-> (n & Hn & Hop & Hex)]];
      cbn [mbind outcome_bind].
    2:{ right; right. split; [done|].
        apply list_elem_of_lookup in Hn as [i Hi].
        destruct (Forall2_lookup_r _ _ _ _ _ Hns Hi) as (s & Hs & Hstr & Hcls).
        exists s. rewrite Hstr in Hex. rewrite Hop in Hcls.
        split; [|done]. apply list_elem_of_lookup_2 in Hs.
        by rewrite elem_of_reverse in Hs. }
    left.
    destruct (treeLoop_frame h (length h) (seq (length h) (length ns'))
                (mkBuild (h ++ ns') [] false)) as (r & -> & Hr).
    { cbn [store]. by rewrite take_app_length. }
    { constructor. }
    { cbn [store]. rewrite length_app. apply Forall_forall. intros p Hp.
      apply elem_of_seq in Hp. lia. }
    cbn [mbind outcome_bind]. destruct r as [s'|h']; [|eauto].
    destruct Hr as (_ & _ & _ & Hne).
    destruct (stack s') as [|root stk]; [|eauto].
    exfalso. apply Hne; [|done]. left.
    assert (length ns' ≠ 0); [|by destruct (length ns')].
    rewrite Hlen, <- (Forall2_length _ _ _ Hns), Erev. done. }
  split; [|split].
  - destruct Hcases as [(? & ? & ->)|[[-> _]|[-> _]]]; discriminate.
  - destruct Hcases as [(? & ? & ->)|[[-> _]|[-> _]]]; discriminate.
  - intros Hcl. destruct Hcases as [?|[[_ (s & Hs & Hab)]|[_ (s & Hs & Ho & Hex)]]];
      [done|..]; exfalso.
    + rewrite Forall_forall in Hcl. destruct (Hcl s Hs) as (o & Ho & _). congruence.
    + rewrite Forall_forall in Hcl. destruct (Hcl s Hs) as (o & Ho' & Ha).
      rewrite Ho in Ho'. injection Ho' as <-.
      destruct (Ha eq_refl) as [a Ha']. congruence.
Qed.

Lemma createExpressionTree_total_witness :
  ∃ h' root,
    createExpressionTree ["ADD"; "ARG1"; "ADD"; "7"]%string [] = Ret (h', root).
Proof.
  apply (createExpressionTree_total ["ADD"; "ARG1"; "ADD"; "7"]%string []).
  repeat constructor; eexists; (split; [reflexivity|]);
    first [discriminate | intros _; eexists; reflexivity].
Defined.

(** The builder writes to the nodes it allocates only: in the store it
    returns the nodes allocated before are unchanged, and the root it returns
    is one of the new nodes. *)
Theorem createExpressionTree_frame (RPN : list string) (h h' : list ExprTreeNode)
    (root : option ptr) :
  createExpressionTree RPN h = Ret (h', root) →
  take (length h) h' = h ∧ length h ≤ length h' ≤ length h + length RPN ∧
  ∀ p, root = Some p → length h ≤ p < length h'.
Proof.
  unfold createExpressionTree.
  destruct (reverse RPN) as [|first rest] eqn:Erev.
  { intros [= <- <-]. rewrite firstn_all. split; [done|]. split; [lia|done]. }
  assert (HlenR : 0 < length RPN).
  { rewrite <- length_reverse, Erev. cbn. lia. }
  assert (Hsentinel : ∀ n : ExprTreeNode,
    take (length h) (h ++ [n]) = h ∧
    length h ≤ length (h ++ [n]) ≤ length h + length RPN ∧
    ∀ p, Some (length h) = Some p → length h ≤ p < length (h ++ [n])).
  { intros n. rewrite take_app_length, length_app. cbn [length].
    split; [done|]. split; [lia|]. intros p [= <-]. lia. }
  case_bool_decide; [intros [= <- <-]; apply Hsentinel|].
  destruct (String.eqb first "INCOMP"); [intros [= <- <-]; apply Hsentinel|].
  rewrite <- Erev.
  destruct (makeNodes_outcome (reverse RPN)) as [(ns & -> & Hns)|[-> _]];
    cbn [mbind outcome_bind]; [|discriminate].
  destruct (setArgs_outcome ns) as [(ns' & -> & Hlen)|[-> _]];
    cbn [mbind outcome_bind]; [|discriminate].
  destruct (treeLoop_frame h (length h) (seq (length h) (length ns'))
              (mkBuild (h ++ ns') [] false)) as (r & -> & Hr).
  { cbn [store]. by rewrite take_app_length. }
  { constructor. }
  { cbn [store]. rewrite length_app. apply Forall_forall. intros p Hp.
    apply elem_of_seq in Hp. lia. }
  cbn [mbind outcome_bind].
  assert (Hsize : length (h ++ ns') = length h + length RPN).
  { rewrite length_app, Hlen, <- (Forall2_length _ _ _ Hns), length_reverse. done. }
  cbn [store] in Hr. destruct r as [s'|h1].
  - destruct Hr as (Hh & Hl & Hstk & _).
    destruct (stack s') as [|r stk]; [discriminate|].
    intros [= <- <-]. split; [done|]. split; [lia|].
    intros p [= <-]. inversion Hstk; subst. lia.
  - destruct Hr as [Hh Hl]. intros [= <- <-]. split; [done|]. split; [lia|done].
Qed.

Lemma createExpressionTree_frame_witness :
  take 1 [leaf ETO_TIDX; numNode "7"] = [leaf ETO_TIDX] ∧
  1 ≤ length [leaf ETO_TIDX; numNode "7"] ≤ 1 + 1 ∧
  ∀ p, Some 1 = Some p → 1 ≤ p < length [leaf ETO_TIDX; numNode "7"].
Proof.
  apply (createExpressionTree_frame ["7"%string] [leaf ETO_TIDX]).
  reflexivity.
Defined.

(** ** The tree built from an expression *)

Lemma length_postfix e : length (postfix e) = nodeCount e.
Proof. induction e; cbn; rewrite ?length_app; cbn; lia. Qed.

Lemma nodeCount_pos e : 0 < nodeCount e.
Proof. destruct e; cbn; lia. Qed.

Lemma length_layout e : ∀ a par, length (layout a par e) = nodeCount e.
Proof.
  induction e as [|tok x IHx y IHy]; intros a par; cbn; [done|].
  rewrite !length_app, IHx, IHy. cbn. lia.
Qed.

Lemma layout_snoc a e :
  ∃ front, (∀ q, layout a q e = front ++ [rootNode a q e]) ∧
           length front = nodeCount e - 1.
Proof.
  destruct e as [tok|tok x y]; cbn [layout rootNode].
  - exists []. split; [done|]. done.
  - eexists (layout a _ x ++ layout (a + nodeCount x) _ y). split.
    + intros q. by rewrite <- app_assoc.
    + rewrite length_app, !length_layout. cbn. lia.
Qed.

Lemma layout_root a par e :
  layout a par e !! (nodeCount e - 1) = Some (rootNode a par e).
Proof.
  destruct (layout_snoc a e) as (front & Hl & Hlen).
  rewrite (Hl par), <- Hlen. by apply list_lookup_middle.
Qed.

Lemma layout_set_parent a par q e :
  alter (set_parent q) (nodeCount e - 1) (layout a par e) = layout a q e.
Proof.
  destruct (layout_snoc a e) as (front & Hl & Hlen).
  rewrite (Hl par), (Hl q), <- Hlen.
  rewrite alter_app_r_alt by lia. rewrite Nat.sub_diag. cbn. f_equal.
  by destruct e.
Qed.

Lemma wfExpr_classifiable e : wfExpr e → Forall classifiable (postfix e).
Proof.
  induction e as [tok|tok x IHx y IHy]; cbn [wfExpr postfix].
  - intros (H & _). by constructor.
  - intros (H & _ & _ & Hx & Hy).
    rewrite !Forall_app. split; [by apply IHx|]. split; [by apply IHy|].
    by constructor.
Qed.

Lemma classifiable_opOf tok : classifiable tok → getExprTreeOp tok = Ret (opOf tok).
Proof. intros (o & Ho & _). unfold opOf. by rewrite Ho. Qed.

Lemma classifiable_argOf tok :
  classifiable tok → opOf tok = ETO_ARG → getExprTreeNodeArg tok = Ret (argOf tok).
Proof.
  intros Hc Harg. pose proof (classifiable_opOf _ Hc) as Hop.
  destruct Hc as (o & Ho & Ha). rewrite Ho in Hop. injection Hop as ->.
  destruct (Ha Harg) as [a Hga]. unfold argOf.
  by rewrite bool_decide_true, Hga.
Qed.

(** The first two loops of the builder: one unlinked node per token. *)
Lemma makeNodes_classifiable toks :
  Forall classifiable toks →
  makeNodes toks
  = Ret ((λ tok, set_original_str tok (set_op (opOf tok) new_ExprTreeNode)) <$> toks) ∧
  setArgs ((λ tok, set_original_str tok (set_op (opOf tok) new_ExprTreeNode)) <$> toks)
  = Ret ((λ tok, builtNode tok None None None) <$> toks).
Proof.
  intros H. split.
  - induction H as [|tok toks Hc _ IH]; cbn [makeNodes fmap list_fmap]; [done|].
    rewrite (classifiable_opOf _ Hc), IH. reflexivity.
  - induction H as [|tok toks Hc _ IH]; cbn [setArgs fmap list_fmap]; [done|].
    cbn [fmap list_fmap] in IH. rewrite IH. clear IH.
    cbn [op original_str set_original_str set_op new_ExprTreeNode].
    case_bool_decide as Harg.
    + rewrite (classifiable_argOf _ Hc Harg). reflexivity.
    + cbn [mbind outcome_bind]. unfold builtNode, argOf.
      by rewrite bool_decide_false.
Qed.

Lemma treeLoop_app l1 : ∀ s l2,
  treeLoop s (l1 ++ l2)
  = (r ← treeLoop s l1;
     match r with
     | Continue s' => treeLoop s' l2
     | ReturnNull h => Ret (ReturnNull h)
     end).
Proof.
  induction l1 as [|p l1 IH]; intros s l2; cbn [app treeLoop mbind outcome_bind].
  - reflexivity.
  - destruct (treeStep s p) as [[s1|h1]| | | |]; cbn [mbind outcome_bind];
      try reflexivity. apply IH.
Qed.

Lemma link_three {A} (f g : A → A) (pre lx ly post : list A) (n : A) :
  0 < length lx → 0 < length ly →
  alter g (length pre + length lx + length ly)
    (alter f (length pre + length lx - 1)
       (alter f (length pre + length lx + length ly - 1)
          (pre ++ lx ++ ly ++ n :: post)))
  = pre ++ alter f (length lx - 1) lx ++ alter f (length ly - 1) ly ++ g n :: post.
Proof.
  intros Hx Hy.
  rewrite (alter_app_r_alt f pre) by lia.
  rewrite (alter_app_r_alt f lx) by lia.
  rewrite (alter_app_l f ly) by lia.
  replace (length pre + length lx + length ly - 1 - length pre - length lx)
    with (length ly - 1) by lia.
  rewrite (alter_app_r_alt f pre) by lia.
  rewrite (alter_app_l f lx) by lia.
  replace (length pre + length lx - 1 - length pre) with (length lx - 1) by lia.
  rewrite (alter_app_r_alt g pre) by lia.
  rewrite (alter_app_r_alt g) by (rewrite length_alter; lia).
  rewrite (alter_app_r_alt g) by (rewrite !length_alter; lia).
  rewrite !length_alter.
  replace (length pre + length lx + length ly - length pre - length lx - length ly)
    with 0 by lia.
  reflexivity.
Qed.

(** The linking loop over the tokens of an expression [e] whose unlinked nodes
    start at [a]: the nodes are linked into the tree of [e] and the root is
    pushed. *)
Lemma treeLoop_expr e : ∀ pre post stk,
  wfExpr e →
  treeLoop (mkBuild (pre ++ ((λ tok, builtNode tok None None None) <$> postfix e)
                         ++ post) stk false)
           (seq (length pre) (nodeCount e))
  = Ret (Continue (mkBuild (pre ++ layout (length pre) None e ++ post)
                           (length pre + nodeCount e - 1 :: stk) false)).
Proof.
  induction e as [tok|tok x IHx y IHy]; intros pre post stk Hwf.
  - destruct Hwf as (_ & Hop & Hphi).
    cbn [postfix nodeCount seq treeLoop fmap list_fmap layout app].
    unfold treeStep. cbn [store].
    rewrite list_lookup_middle by done. cbn [deref mbind outcome_bind].
    unfold isPhiNode, isOperation. cbn [op builtNode].
    rewrite (bool_decide_false _ Hphi), Hop.
    cbn [mbind outcome_bind stack phi_term_seen].
    by replace (length pre + 1 - 1) with (length pre) by lia.
  - destruct Hwf as (_ & Hop & Hphi & Hx & Hy).
    pose proof (nodeCount_pos x) as Hxpos. pose proof (nodeCount_pos y) as Hypos.
    cbn [postfix nodeCount layout].
    rewrite !fmap_app. cbn [fmap list_fmap].
    replace (nodeCount x + nodeCount y + 1)
      with (nodeCount x + (nodeCount y + 1)) by lia.
    rewrite seq_app, treeLoop_app.
    rewrite <- (app_assoc _ _ post).
    rewrite (IHx pre _ stk Hx). cbn [mbind outcome_bind].
    rewrite seq_app, treeLoop_app.
    set (lx := layout (length pre) None x).
    assert (Hlx : length lx = nodeCount x) by apply length_layout.
    rewrite (app_assoc pre lx).
    replace (length pre + nodeCount x) with (length (pre ++ lx))
      by (rewrite length_app; lia).
    rewrite <- (app_assoc _ _ post).
    rewrite (IHy (pre ++ lx) _ _ Hy). cbn [mbind outcome_bind].
    set (ly := layout (length (pre ++ lx)) None y).
    assert (Hly : length ly = nodeCount y) by apply length_layout.
    cbn [seq treeLoop app]. unfold treeStep. cbn [store].
    rewrite (app_assoc (pre ++ lx) ly).
    replace (length (pre ++ lx) + nodeCount y) with (length ((pre ++ lx) ++ ly))
      by (rewrite !length_app; lia).
    rewrite list_lookup_middle by done. cbn [deref mbind outcome_bind].
    unfold isPhiNode, isOperation. cbn [op builtNode].
    rewrite (bool_decide_false _ Hphi), Hop.
    cbn [mbind outcome_bind]. unfold reduce. cbn [stack store phi_term_seen].
    do 2 f_equal.
    rewrite <- !app_assoc. rewrite !length_app, !Nat.add_assoc.
    rewrite link_three by lia.
    f_equal; [|f_equal; lia].
    rewrite Hlx, Hly. unfold lx, ly. rewrite !layout_set_parent.
    rewrite length_app, Hlx. reflexivity.
Qed.

Lemma build_expr (e : Expr) (h : list ExprTreeNode) :
  wfExpr e → nodeCount e ≤ 50 → head (postfix e) ≠ Some "INCOMP"%string →
  createExpressionTree (reverse (postfix e)) h
  = Ret (h ++ layout (length h) None e, Some (length h + nodeCount e - 1)).
Proof.
  intros Hwf Hsize Hincomp. unfold createExpressionTree.
  rewrite reverse_involutive.
  pose proof (length_postfix e) as Hlen. pose proof (nodeCount_pos e) as Hpos.
  destruct (postfix e) as [|first rest] eqn:Epost; [cbn in Hlen; lia|].
  rewrite bool_decide_false by lia.
  destruct (String.eqb_spec first "INCOMP") as [->|_]; [done|].
  rewrite <- Epost.
  destruct (makeNodes_classifiable _ (wfExpr_classifiable _ Hwf)) as [H1 H2].
  rewrite H1. cbn [mbind outcome_bind]. rewrite H2. cbn [mbind outcome_bind].
  rewrite length_fmap, length_postfix.
  rewrite <- (app_nil_r (_ <$> postfix e)).
  rewrite (treeLoop_expr e h [] [] Hwf). cbn [mbind outcome_bind stack store].
  by rewrite app_nil_r.
Qed.

(** The builder on the postfix form of an expression: it allocates one node
    per token, in postfix order, links every operator to the roots of its two
    operands ([children[0]] the second operand, [children[1]] the first) and
    both to the operator, and returns the last node as the root. *)
Theorem createExpressionTree_expr (e : Expr) (h : list ExprTreeNode) :
  wfExpr e → nodeCount e ≤ 50 → head (postfix e) ≠ Some "INCOMP"%string →
  createExpressionTree (reverse (postfix e)) h
  = Ret (h ++ layout (length h) None e, Some (length h + nodeCount e - 1)).
Proof. apply build_expr. Qed.

Lemma createExpressionTree_expr_witness :
  createExpressionTree
    (reverse (postfix (Bin "ADD" (Bin "MUL" (Leaf "TIDX") (Leaf "4")) (Leaf "ARG1"))))
    []
  = Ret ([] ++ layout (length ([] : list ExprTreeNode)) None
                 (Bin "ADD" (Bin "MUL" (Leaf "TIDX") (Leaf "4")) (Leaf "ARG1")),
         Some (length ([] : list ExprTreeNode) + 5 - 1)).
Proof.
  apply (createExpressionTree_expr
           (Bin "ADD" (Bin "MUL" (Leaf "TIDX") (Leaf "4")) (Leaf "ARG1")) []).
  - cbn [wfExpr].
    repeat split; try discriminate; try reflexivity;
      (eexists; split; [reflexivity|];
       first [discriminate | intros _; eexists; reflexivity]).
  - cbn. lia.
  - discriminate.
Defined.

(** ** Concrete evaluation of a built tree *)

Lemma holdsAt_app_l H a L1 L2 : holdsAt H a (L1 ++ L2) → holdsAt H a L1.
Proof. intros Hh i n Hi. apply Hh. by apply lookup_app_l_Some. Qed.

Lemma holdsAt_app_r H a L1 L2 :
  holdsAt H a (L1 ++ L2) → holdsAt H (a + length L1) L2.
Proof.
  intros Hh i n Hi. rewrite <- Nat.add_assoc. apply Hh.
  rewrite lookup_app_r by lia. by replace (length L1 + i - length L1) with i by lia.
Qed.

Lemma holdsAt_root H a par e :
  holdsAt H a (layout a par e) →
  H !! (a + nodeCount e - 1) = Some (rootNode a par e).
Proof.
  intros Hh. pose proof (nodeCount_pos e).
  replace (a + nodeCount e - 1) with (a + (nodeCount e - 1)) by lia.
  apply Hh, layout_root.
Qed.

(** The conversion loop pops the nodes of the tree of [e] in preorder. *)
Lemma toRPN_expr e : ∀ a par H Stack RPN fuel,
  wfExpr e → holdsAt H a (layout a par e) →
  toRPN (nodeCount e + fuel) H (Some (a + nodeCount e - 1) :: Stack) RPN
  = toRPN fuel H Stack (RPN ++ preorder a par e).
Proof.
  induction e as [tok|tok x IHx y IHy]; intros a par H Stack RPN fuel Hwf Hh.
  - destruct Hwf as (_ & Hop & _).
    pose proof (holdsAt_root _ _ _ _ Hh) as Hroot.
    cbn [nodeCount Nat.add toRPN mbind option_bind] in *.
    rewrite Hroot. cbn [deref mbind outcome_bind].
    unfold isOperation. cbn [rootNode op builtNode]. by rewrite Hop.
  - destruct Hwf as (_ & Hop & _ & Hx & Hy).
    pose proof (holdsAt_root _ _ _ _ Hh) as Hroot.
    pose proof (nodeCount_pos x) as Hxpos. pose proof (nodeCount_pos y) as Hypos.
    cbn [layout] in Hh.
    pose proof (holdsAt_app_l _ _ _ _ Hh) as Hhx.
    pose proof (holdsAt_app_l _ _ _ _ (holdsAt_app_r _ _ _ _ Hh)) as Hhy.
    rewrite length_layout in Hhy.
    cbn [nodeCount] in *.
    replace (nodeCount x + nodeCount y + 1 + fuel)
      with (S (nodeCount x + (nodeCount y + fuel))) by lia.
    cbn [toRPN mbind option_bind]. rewrite Hroot. cbn [deref mbind outcome_bind].
    unfold isOperation. cbn [rootNode op builtNode child0 child1]. rewrite Hop.
    rewrite (IHx a _ H _ _ _ Hx Hhx).
    replace (a + nodeCount x + nodeCount y - 1)
      with (a + nodeCount x + nodeCount y - 1 + 0) by lia.
    replace (a + nodeCount x + nodeCount y - 1 + 0)
      with ((a + nodeCount x) + nodeCount y - 1) by lia.
    rewrite (IHy (a + nodeCount x) _ H _ _ _ Hy Hhy).
    cbn [preorder rootNode]. by rewrite <- !app_assoc.
Qed.

Lemma getActualHostValueForLiterals_ext CI a b :
  op a = op b → arg a = arg b → value a = value b →
  original_str a = original_str b →
  getActualHostValueForLiterals CI a = getActualHostValueForLiterals CI b.
Proof.
  intros Hop Harg Hval Hstr. unfold getActualHostValueForLiterals.
  by rewrite Hop, Harg, Hval, Hstr.
Qed.

Lemma operate_ext CI o o' a a' b b' :
  op o = op o' →
  getActualHostValueForLiterals CI a = getActualHostValueForLiterals CI a' →
  getActualHostValueForLiterals CI b = getActualHostValueForLiterals CI b' →
  operate CI o a b = operate CI o' a' b'.
Proof. intros Ho Ha Hb. unfold operate. by rewrite Ho, Ha, Hb. Qed.

Lemma operate_interm CI o a b r :
  operate CI o a b = Ret r → set_op ETO_INTERM r = interm (value r).
Proof.
  unfold operate.
  destruct (getActualHostValueForLiterals CI a); cbn [mbind outcome_bind];
    try discriminate.
  destruct (getActualHostValueForLiterals CI b); cbn [mbind outcome_bind];
    try discriminate.
  destruct (if bool_decide (op o = ETO_SHL) then _ else _);
    cbn [mbind outcome_bind]; try discriminate.
  by intros [= <-].
Qed.

Lemma topNode_operand CI par e v :
  getActualHostValueForLiterals CI (topNode par e v)
  = getActualHostValueForLiterals CI (operandNode e v) ∧
  isTerminal (topNode par e v) = operandTerminal e.
Proof. by destruct e. Qed.

Lemma rpnLoop_app {literal combine} l1 : ∀ stk l2,
  rpnLoop literal combine stk (l1 ++ l2)
  = (stk' ← rpnLoop literal combine stk l1; rpnLoop literal combine stk' l2).
Proof.
  induction l1 as [|t l1 IH]; intros stk l2; cbn [app rpnLoop mbind outcome_bind].
  - reflexivity.
  - destruct (rpnStep literal combine stk t); cbn [mbind outcome_bind];
      try reflexivity. apply IH.
Qed.

(** The evaluation loop over the reversed preorder of the tree of [e]: the
    value of [e], pushed. *)
Lemma rpnLoop_expr CI e : ∀ a par stk,
  wfExpr e →
  rpnLoop (getActualHostValueForLiterals CI) (operate CI) stk
    (reverse (preorder a par e))
  = (v ← evalExpr CI e; Ret (topNode par e v :: stk)).
Proof.
  induction e as [tok|tok x IHx y IHy]; intros a par stk Hwf.
  - destruct Hwf as (_ & Hop & _).
    cbn [preorder evalExpr]. change (reverse [?n]) with [n].
    cbn [rpnLoop]. unfold rpnStep, isOperation. cbn [op builtNode]. rewrite Hop.
    rewrite (getActualHostValueForLiterals_ext CI
               (builtNode tok par None None) (builtNode tok None None None))
      by reflexivity.
    destruct (getActualHostValueForLiterals CI _); reflexivity.
  - destruct Hwf as (_ & Hop & _ & Hx & Hy).
    cbn [preorder evalExpr]. rewrite reverse_cons, reverse_app.
    rewrite <- app_assoc, rpnLoop_app.
    rewrite (IHy _ _ stk Hy).
    destruct (evalExpr CI y) as [vy| | | |]; cbn [mbind outcome_bind];
      try reflexivity.
    rewrite rpnLoop_app, (IHx _ _ _ Hx).
    destruct (evalExpr CI x) as [vx| | | |]; cbn [mbind outcome_bind];
      try reflexivity.
    cbn [rpnLoop]. unfold rpnStep, isOperation. cbn [rootNode op builtNode].
    rewrite Hop.
    destruct (topNode_operand CI (Some (a + nodeCount x + nodeCount y)) x vx)
      as [Hax Htx].
    destruct (topNode_operand CI (Some (a + nodeCount x + nodeCount y)) y vy)
      as [Hay Hty].
    rewrite Htx, Hty.
    destruct (operandTerminal x && operandTerminal y); [|reflexivity].
    rewrite (operate_ext CI (builtNode tok par _ _) (builtNode tok None None None)
               _ (operandNode x vx) _ (operandNode y vy) eq_refl Hax Hay).
    destruct (operate CI _ _ _) as [r| | | |] eqn:Er; cbn [mbind outcome_bind];
      try reflexivity.
    by rewrite (operate_interm _ _ _ _ _ Er).
Qed.

(** Building the tree of an expression and evaluating it is the recursive
    evaluation of the expression: the builder, the conversion of the tree to
    a node sequence and the stack evaluation fit together. *)
Theorem evaluateExpressionTree_expr (CI : Invocation) (e : Expr)
    (h : list ExprTreeNode) (root : option ptr) :
  wfExpr e → nodeCount e ≤ 50 → head (postfix e) ≠ Some "INCOMP"%string →
  createExpressionTree (reverse (postfix e)) [] = Ret (h, root) →
  nodes CI = h →
  evaluateExpressionTree CI root = evalExpr CI e.
Proof.
  intros Hwf Hsize Hincomp Hbuild Hnodes.
  rewrite (build_expr e [] Hwf Hsize Hincomp) in Hbuild.
  injection Hbuild as <- <-. cbn [app length Nat.add] in *.
  unfold evaluateExpressionTree. rewrite Hnodes, length_layout.
  replace (nodeCount e) with (nodeCount e + 0) at 1 by lia.
  replace (nodeCount e - 1) with (0 + nodeCount e - 1) by lia.
  rewrite (toRPN_expr e 0 None _ [] [] 0 Hwf).
  2:{ intros i n Hi. exact Hi. }
  cbn [toRPN app mbind outcome_bind]. unfold evaluateRPN, rpnValue.
  rewrite (rpnLoop_expr CI e 0 None [] Hwf).
  destruct (evalExpr CI e) as [v| | | |]; cbn [mbind outcome_bind];
    try reflexivity.
  by destruct e.
Qed.

Lemma evaluateExpressionTree_expr_witness :
  ∃ h root,
    createExpressionTree
      (reverse (postfix (Bin "SHL" (Leaf "ARG0") (Leaf "3")))) [] = Ret (h, root) ∧
    evaluateExpressionTree (arg0_bound_to 5 h) root = Ret 40%Z.
Proof.
  assert (Hb : createExpressionTree
                 (reverse (postfix (Bin "SHL" (Leaf "ARG0") (Leaf "3")))) []
               = Ret (layout 0 None (Bin "SHL" (Leaf "ARG0") (Leaf "3")), Some 2))
    by reflexivity.
  eexists _, _. split; [exact Hb|].
  rewrite (evaluateExpressionTree_expr
             (arg0_bound_to 5 (layout 0 None (Bin "SHL" (Leaf "ARG0") (Leaf "3"))))
             (Bin "SHL" (Leaf "ARG0") (Leaf "3"))
             (layout 0 None (Bin "SHL" (Leaf "ARG0") (Leaf "3"))) (Some 2)).
  - reflexivity.
  - cbn [wfExpr].
    repeat split; try discriminate; try reflexivity;
      (eexists; split; [reflexivity|];
       first [discriminate | intros _; eexists; reflexivity]).
  - cbn. lia.
  - discriminate.
  - exact Hb.
  - reflexivity.
Defined.

(** ** Loop accounting over all the loops of a kernel *)

Lemma loopIterationEntry_outcome CI cat L h N I h' N' I' :
  loopIterationEntry CI cat L (h, N, I) = Ret (h', N', I') →
  (N' = N ∧ I' = <[L := true]> I) ∨
  (∃ v, typeOf v = i32 ∧ N' = <[L := Some v]> N ∧ I' = <[L := false]> I).
Proof.
  unfold loopIterationEntry.
  destruct (partiallyEvaluatedLoopIters cat (s32 L) h) as [[h1 [r|]]| | | |];
    cbn [mbind outcome_bind]; try discriminate.
  - destruct (identifyUnknownsFromExpressionTree _ _ _ _ _) as [U| | | |];
      cbn [mbind outcome_bind]; try discriminate.
    destruct (dumpUnknowns U) as [[]| | | |];
      cbn [mbind outcome_bind]; try discriminate.
    destruct (insertLoopItersEvaluationCode _ _ _ _) as [[v|]| | | |];
      cbn [deref mbind outcome_bind]; try discriminate.
    case_bool_decide as Hty; [|discriminate].
    intros [= <- <- <-]. right. by exists v.
  - intros [= <- <- <-]. by left.
Qed.

Lemma loopIterationEntry_zero CI cat h N I :
  loopIterationEntry CI cat 0 (h, N, I) = Ret (h, N, <[0%Z := true]> I).
Proof. reflexivity. Qed.

Lemma loopIterationEntries_spec CI cat Ls : ∀ h N I h' N' I',
  NoDup Ls →
  loopIterationEntries CI cat Ls (h, N, I) = Ret (h', N', I') →
  (∀ L, L ∈ Ls → accounted L N N' I') ∧
  (∀ L, L ∉ Ls → N' !! L = N !! L ∧ I' !! L = I !! L) ∧
  (0%Z ∈ Ls → I' !! 0%Z = Some true).
Proof.
  induction Ls as [|L0 Ls IH]; intros h N I h' N' I' Hnd;
    cbn [loopIterationEntries].
  - intros [= <- <- <-].
    split; [intros L HL; by apply elem_of_nil in HL|].
    split; [done|]. intros HL. by apply elem_of_nil in HL.
  - apply NoDup_cons in Hnd as [Hnotin Hnd].
    destruct (loopIterationEntry CI cat L0 (h, N, I)) as [[[h1 N1] I1]| | | |] eqn:E;
      cbn [mbind outcome_bind]; try discriminate.
    intros Hrest. destruct (IH _ _ _ _ _ _ Hnd Hrest) as (Hin & Hout & Hzero).
    assert (Hz : 0%Z ∈ L0 :: Ls → I' !! 0%Z = Some true).
    { intros HL. apply elem_of_cons in HL as [<-|HL]; [|by apply Hzero].
      rewrite loopIterationEntry_zero in E. injection E as <- <- <-.
      destruct (Hout 0%Z Hnotin) as [_ ->]. by rewrite lookup_insert_eq. }
    apply loopIterationEntry_outcome in E.
    split; [|split; [|exact Hz]].
    + intros L HL. apply elem_of_cons in HL as [->|HL].
      * destruct (Hout L0 Hnotin) as [HN HI]. unfold accounted.
        rewrite HN, HI.
        destruct E as [[-> ->]|(v & Hty & -> & ->)]; rewrite !lookup_insert_eq.
        -- by left.
        -- right. split; [done|]. by exists v.
      * destruct (decide (L = L0)) as [->|Hne]; [done|].
        destruct (Hin L HL) as [[HI HN]|[HI HN]]; [left|right]; (split; [done|]).
        -- rewrite HN.
           destruct E as [[-> ->]|(v & Hty & -> & ->)];
             [done|by rewrite lookup_insert_ne].
        -- done.
    + intros L HL. apply not_elem_of_cons in HL as [Hne HL].
      destruct (Hout L HL) as [-> ->].
      destruct E as [[-> ->]|(v & Hty & -> & ->)];
        by rewrite ?lookup_insert_ne.
Qed.

(** After the pass over the loops of a kernel every loop of the catalogue is
    accounted for: it is flagged incomputable and has no new iteration count,
    or it is flagged computable and has a 32-bit iteration count.  The entries
    of other loops are left as they were, and a loop with id 0 is always
    flagged incomputable. *)
Theorem insertCodeToComputeKernelLoopIterationCount_accounts
    CI cat h N I h' N' I' :
  insertCodeToComputeKernelLoopIterationCount CI cat (h, N, I) = Ret (h', N', I') →
  (∀ L, is_Some (LoopIDToLoopBoundsMap cat !! L) → accounted L N N' I') ∧
  (∀ L, LoopIDToLoopBoundsMap cat !! L = None →
        N' !! L = N !! L ∧ I' !! L = I !! L) ∧
  (is_Some (LoopIDToLoopBoundsMap cat !! 0%Z) → I' !! 0%Z = Some true).
Proof.
  unfold insertCodeToComputeKernelLoopIterationCount. intros Hrun.
  set (Ls := merge_sort Z.le (elements (dom (LoopIDToLoopBoundsMap cat)))) in *.
  assert (Hperm : Ls ≡ₚ elements (dom (LoopIDToLoopBoundsMap cat)))
    by apply merge_sort_Permutation.
  assert (Hmem : ∀ L, L ∈ Ls ↔ is_Some (LoopIDToLoopBoundsMap cat !! L)).
  { intros L. by rewrite Hperm, elem_of_elements, elem_of_dom. }
  assert (Hnd : NoDup Ls) by (rewrite Hperm; apply NoDup_elements).
  destruct (loopIterationEntries_spec _ _ _ _ _ _ _ _ _ Hnd Hrun)
    as (Hin & Hout & Hzero).
  split; [|split].
  - intros L HL. by apply Hin, Hmem.
  - intros L HL. apply Hout. rewrite Hmem, HL. by intros [? ?].
  - intros HL. by apply Hzero, Hmem.
Qed.

Lemma insertCodeToComputeKernelLoopIterationCount_accounts_witness :
  accounted 1
    ∅ {[ 1%Z := Some (VBin IUDiv (VBin ISub (VConst i32 100) (VConst i32 0))
                         (VConst i32 3)) ]}
    {[ 1%Z := false ]}.
Proof.
  refine (proj1 (insertCodeToComputeKernelLoopIterationCount_accounts
            emptyInvocation (one_loop ["IN"; "0"; "FIN"; "100"; "STEP"; "3"]%string)
            [] ∅ ∅ (loopTree 0 "0" "100" "3") _ _ _) 1%Z _).
  - vm_compute. reflexivity.
  - by eexists.
Defined.

(** ** Nested loops: ancestors without a count, and cycles *)

Lemma castIfInt32_returns v : ∃ w, castIfInt32 v = Ret w ∧
  (typeOf v = i32 → typeOf w = i64) ∧ (typeOf v ≠ i32 → w = v).
Proof.
  unfold castIfInt32, insertCodeToCastInt32ToInt64. cbn [deref mbind outcome_bind].
  case_bool_decide as Hty.
  - rewrite ?bool_decide_true by done. eexists. split; [reflexivity|]. by split.
  - eexists. split; [reflexivity|]. by split.
Qed.

(** An access in a computable loop whose enclosing loop has no iteration
    count (as after that loop was flagged incomputable): the multiplication by
    the count of the enclosing loop dereferences a null [Value*]. *)
Theorem executionCount_ancestor_without_count cat loopid p v T
    (N : gmap Z (option IRValue)) (I : gmap Z bool) :
  loopid ≠ 0%Z → default false (I !! loopid) = false →
  N !! loopid = Some (Some v) →
  parentOf cat loopid = p → p ≠ 0%Z → default None (N !! p) = None →
  executionCount cat loopid T N I = Undefined.
Proof.
  intros Hl HI HN Hp Hp0 HNp. unfold executionCount.
  rewrite bool_decide_false by done. rewrite HI.
  unfold insertCodeComputeLoopIterationCountNested. rewrite HN.
  change (default None (Some (Some v))) with (Some v).
  cbn [deref mbind outcome_bind].
  destruct (castIfInt32_returns v) as (w & -> & _). cbn [mbind outcome_bind].
  assert (Hsize : size (LoopIDToParentLoopIDMap cat) ≠ 0).
  { unfold parentOf in Hp.
    destruct (LoopIDToParentLoopIDMap cat !! loopid) as [q|] eqn:Eq;
      [|cbn in Hp; congruence].
    intros Hs. apply map_size_empty_iff in Hs. rewrite Hs in Eq.
    by rewrite lookup_empty in Eq. }
  destruct (size (LoopIDToParentLoopIDMap cat)) as [|fuel]; [done|].
  cbn [nestedLoop]. rewrite Hp. rewrite bool_decide_false by done.
  rewrite HNp. unfold insertCodeToMultiplyInt64. cbn [deref mbind outcome_bind].
  destruct (castIfInt32_returns w) as (w' & -> & _). reflexivity.
Qed.

Lemma executionCount_ancestor_without_count_witness :
  executionCount (two_loops 2 1) 2 (Some threads_in_grid)
    {[ 2%Z := Some (VConst i32 7) ]} {[ 1%Z := true; 2%Z := false ]} = Undefined.
Proof.
  apply (executionCount_ancestor_without_count (two_loops 2 1) 2 1 (VConst i32 7));
    [done | reflexivity | reflexivity | reflexivity | done | reflexivity].
Defined.

Lemma insertCodeToMultiplyInt64_int a v :
  typeOf a = i64 → typeOf v = i32 ∨ typeOf v = i64 →
  ∃ r, insertCodeToMultiplyInt64 (Some a) (Some v) = Ret (Some r) ∧ typeOf r = i64.
Proof.
  intros Ha [Hv|Hv].
  - rewrite (insertCodeToMultiplyInt64_promote _ _ Ha Hv). by eexists.
  - unfold insertCodeToMultiplyInt64, castIfInt32, createBin.
    cbn [deref mbind outcome_bind]. rewrite Ha, Hv.
    rewrite !(bool_decide_false (i64 = i32)) by done.
    cbn [mbind outcome_bind]. rewrite Ha, Hv, bool_decide_true by done.
    by eexists.
Qed.

(** A parent chain that never reaches a top-level loop: the walk up the chain
    does not end, whatever the number of iterations allowed. *)
Theorem nestedLoop_cycle cat (N : gmap Z (option IRValue)) :
  ∀ fuel l acc,
    (∀ k, Nat.iter k (parentOf cat) l ≠ 0%Z) →
    (∀ k, ∃ v, N !! Nat.iter k (parentOf cat) l = Some (Some v) ∧
               (typeOf v = i32 ∨ typeOf v = i64)) →
    typeOf acc = i64 →
    nestedLoop fuel cat N (Some acc) l = OutOfFuel.
Proof.
  induction fuel as [|fuel IH]; intros l acc Hnz HN Hacc; cbn [nestedLoop].
  - by rewrite bool_decide_false by apply (Hnz 0).
  - rewrite bool_decide_false by apply (Hnz 0).
    destruct (HN 0) as (v & Hv & Hty).
    change (Nat.iter 0 (parentOf cat) l) with l in Hv. rewrite Hv.
    change (default None (Some (Some v))) with (Some v).
    destruct (insertCodeToMultiplyInt64_int _ _ Hacc Hty) as (r & -> & Hr).
    cbn [mbind outcome_bind]. apply IH; [| |exact Hr].
    + intros k. rewrite <- Nat.iter_succ_r. apply Hnz.
    + intros k. rewrite <- Nat.iter_succ_r. apply HN.
Qed.

Lemma nestedLoop_cycle_witness :
  nestedLoop 7 (mkCatalogue ∅ {[ 1%Z := 1%Z ]} ∅ ∅ ∅ ∅ [] ∅)
    {[ 1%Z := Some (VConst i32 5) ]} (Some (VConst i64 1)) 1 = OutOfFuel.
Proof.
  assert (Hiter : ∀ k, Nat.iter k
            (parentOf (mkCatalogue ∅ {[ 1%Z := 1%Z ]} ∅ ∅ ∅ ∅ [] ∅)) 1%Z = 1%Z).
  { induction k as [|k IHk]; [reflexivity|]. rewrite Nat.iter_succ, IHk.
    reflexivity. }
  apply nestedLoop_cycle.
  - intros k. by rewrite Hiter.
  - intros k. rewrite Hiter. eexists. split; [reflexivity|by left].
  - reflexivity.
Defined.

(** ** Accesses with long expressions *)

Section LongExpressions.
Context {PartDiffCode : Type}.
Context (insertCodeToComputePartDiff :
           Invocation → HostValue → option ptr → outcome PartDiffCode).
Context (estimateWorkingSetSizeAdvanced :
           Invocation → option ptr → option IRValue →
           gmap Z (option IRValue) → outcome IRValue).

(** An access whose expression has more than 50 tokens: the builder returns
    the pointer-chase sentinel for it, and the estimator emits the call that
    marks the access as a pointer chase and nothing else, whatever the loop
    of the access and the state of the loop maps. *)
Theorem long_expression_is_pointer_chase (RPN : list string)
    (h h' : list ExprTreeNode) (root : option ptr) CI cat fi fni inv T N I
    AID loopid Allocation :
  50 < length RPN →
  createExpressionTree RPN h = Ret (h', root) →
  nodes CI = h' →
  KernelNameToAccessIDToExpressionTreeMap cat !! AID = root →
  KernelInvocationToArgNumberToAllocationMap cat
    !! default 0%Z (KernelNameToAccessIDToAllocationArgMap cat !! AID)
    = Some Allocation →
  isPointerChase h' root = Ret true ∧
  accessDensityFor insertCodeToComputePartDiff estimateWorkingSetSizeAdvanced
    CI cat fi fni inv T N I AID loopid
  = Ret [add_aid_pchase_map AID Allocation (insertConstantNode_bool true)].
Proof.
  intros Hlen Hbuild Hnodes Hexpr Halloc.
  assert (Hpc : isPointerChase h' root = Ret true).
  { unfold createExpressionTree in Hbuild.
    destruct (reverse RPN) as [|first rest] eqn:Erev.
    { apply (f_equal length) in Erev. rewrite length_reverse in Erev.
      cbn in Erev. lia. }
    rewrite <- Erev, length_reverse, bool_decide_true in Hbuild by done.
    injection Hbuild as <- <-. unfold isPointerChase.
    cbn [deref mbind outcome_bind].
    replace (length h) with (length h + 0) by lia.
    by rewrite lookup_tail. }
  split; [exact Hpc|].
  unfold accessDensityFor. rewrite Halloc, Hexpr, Hnodes, Hpc. reflexivity.
Qed.

End LongExpressions.

Lemma long_expression_is_pointer_chase_witness :
  isPointerChase [set_op ETO_PC new_ExprTreeNode] (Some 0) = Ret true ∧
  accessDensityFor (λ _ _ _, Ret tt) (λ _ _ _ _, Ret threads_in_grid)
    (arg0_bound_to 10 [set_op ETO_PC new_ExprTreeNode]) (one_access [])
    false false 1 (Some threads_in_grid) ∅ ∅ 1 0
  = Ret [add_aid_pchase_map 1 allocation0 (insertConstantNode_bool true)].
Proof.
  apply (long_expression_is_pointer_chase (λ _ _ _, Ret tt)
           (λ _ _ _ _, Ret threads_in_grid) (replicate 51 "ARG0"%string) []
           [set_op ETO_PC new_ExprTreeNode] (Some 0)
           (arg0_bound_to 10 [set_op ETO_PC new_ExprTreeNode]) (one_access [])
           false false 1%Z (Some threads_in_grid) ∅ ∅ 1%Z 0%Z allocation0);
    [vm_compute; lia | reflexivity | reflexivity | reflexivity | reflexivity].
Defined.

(** ** Searching the tree of an expression *)

Lemma nodeMatches_rootNode o arg a par e tok :
  (match e with Leaf t => t | Bin t _ _ => t end) = tok →
  nodeMatches o arg (rootNode a par e) = tokenMatches o arg tok.
Proof. intros <-. by destruct e. Qed.

Lemma findNodeLoop_expr o arg e : ∀ a par H Stack fuel,
  wfExpr e → holdsAt H a (layout a par e) →
  if existsb (tokenMatches o arg) (postfix e) then
    ∃ p n, findNodeLoop (nodeCount e + fuel) H
             (Some (a + nodeCount e - 1) :: Stack) o arg = Ret (Some p) ∧
           H !! p = Some n ∧ nodeMatches o arg n = true
  else
    findNodeLoop (nodeCount e + fuel) H (Some (a + nodeCount e - 1) :: Stack) o arg
    = findNodeLoop fuel H Stack o arg.
Proof.
  induction e as [tok|tok x IHx y IHy]; intros a par H Stack fuel Hwf Hh.
  - destruct Hwf as (_ & Hop & _).
    pose proof (holdsAt_root _ _ _ _ Hh) as Hroot.
    cbn [postfix existsb nodeCount] in *. change (1 + fuel) with (S fuel).
    cbn [findNodeLoop deref mbind outcome_bind].
    rewrite orb_false_r, Hroot. cbn [deref mbind outcome_bind].
    fold (nodeMatches o arg (rootNode a par (Leaf tok))).
    rewrite (nodeMatches_rootNode o arg a par (Leaf tok) tok eq_refl).
    destruct (tokenMatches o arg tok) eqn:Em.
    + eexists _, _. split; [reflexivity|]. split; [exact Hroot|].
      by rewrite (nodeMatches_rootNode o arg a par (Leaf tok) tok eq_refl).
    + unfold isOperation. cbn [rootNode op builtNode]. by rewrite Hop.
  - destruct Hwf as (_ & Hop & _ & Hx & Hy).
    pose proof (holdsAt_root _ _ _ _ Hh) as Hroot.
    pose proof (nodeCount_pos x) as Hxpos. pose proof (nodeCount_pos y) as Hypos.
    cbn [layout] in Hh.
    pose proof (holdsAt_app_l _ _ _ _ Hh) as Hhx.
    pose proof (holdsAt_app_l _ _ _ _ (holdsAt_app_r _ _ _ _ Hh)) as Hhy.
    rewrite length_layout in Hhy.
    cbn [postfix nodeCount] in *. rewrite !existsb_app. cbn [existsb].
    rewrite orb_false_r.
    replace (nodeCount x + nodeCount y + 1 + fuel)
      with (S (nodeCount x + (nodeCount y + fuel))) by lia.
    cbn [findNodeLoop deref mbind outcome_bind].
    rewrite Hroot. cbn [deref mbind outcome_bind].
    fold (nodeMatches o arg (rootNode a par (Bin tok x y))).
    rewrite (nodeMatches_rootNode o arg a par (Bin tok x y) tok eq_refl).
    destruct (tokenMatches o arg tok) eqn:Em.
    { rewrite !orb_true_r. eexists _, _. split; [reflexivity|].
      split; [exact Hroot|].
      by rewrite (nodeMatches_rootNode o arg a par (Bin tok x y) tok eq_refl). }
    rewrite !orb_false_r.
    unfold isOperation. cbn [rootNode op builtNode child0 child1]. rewrite Hop.
    specialize (IHx a (Some (a + nodeCount x + nodeCount y)) H
                  (Some (a + nodeCount x + nodeCount y - 1) :: Stack)
                  (nodeCount y + fuel) Hx Hhx).
    specialize (IHy (a + nodeCount x) (Some (a + nodeCount x + nodeCount y)) H
                  Stack fuel Hy Hhy).
    destruct (existsb (tokenMatches o arg) (postfix x)); [exact IHx|].
    rewrite IHx. cbn [orb].
    destruct (existsb (tokenMatches o arg) (postfix y)); exact IHy.
Qed.

(** The search for an operator (and, for an argument, its number) in the tree
    built from an expression: it returns a node that passes the test when a
    token of the expression does, and no node otherwise; in the second case
    the coefficient computed for the operator is 0. *)
Theorem findNodeInExpressionTree_expr (CI : Invocation) (e : Expr)
    (h : list ExprTreeNode) (root : option ptr) (o : ExprTreeOp) (arg : Z) :
  wfExpr e → nodeCount e ≤ 50 → head (postfix e) ≠ Some "INCOMP"%string →
  createExpressionTree (reverse (postfix e)) [] = Ret (h, root) →
  if existsb (tokenMatches o arg) (postfix e) then
    ∃ p n, findNodeInExpressionTree h root o arg = Ret (Some p) ∧
           h !! p = Some n ∧ nodeMatches o arg n = true
  else
    findNodeInExpressionTree h root o arg = Ret None ∧
    (nodes CI = h →
     partialDifferenceOfExpressionTreeWRTGivenNode CI root o arg = Ret 0%Z).
Proof.
  intros Hwf Hsize Hincomp Hbuild.
  rewrite (build_expr e [] Hwf Hsize Hincomp) in Hbuild.
  injection Hbuild as <- <-. cbn [app length Nat.add].
  unfold partialDifferenceOfExpressionTreeWRTGivenNode, findNodeInExpressionTree.
  rewrite length_layout.
  pose proof (findNodeLoop_expr o arg e 0 None (layout 0 None e) [] 0 Hwf) as Hloop.
  cbn [Nat.add] in Hloop. rewrite Nat.add_0_r in Hloop.
  specialize (Hloop ltac:(by intros i n Hi)).
  destruct (existsb (tokenMatches o arg) (postfix e)); [exact Hloop|].
  split; [exact Hloop|]. intros ->. rewrite length_layout, Hloop. reflexivity.
Qed.

Lemma findNodeInExpressionTree_expr_witness :
  ∃ p n,
    findNodeInExpressionTree
      (layout 0 None (Bin "ADD" (Bin "MUL" (Leaf "TIDX") (Leaf "4")) (Leaf "ARG1")))
      (Some 4) ETO_ARG 1 = Ret (Some p) ∧
    layout 0 None (Bin "ADD" (Bin "MUL" (Leaf "TIDX") (Leaf "4")) (Leaf "ARG1"))
      !! p = Some n ∧
    nodeMatches ETO_ARG 1 n = true.
Proof.
  apply (findNodeInExpressionTree_expr emptyInvocation
           (Bin "ADD" (Bin "MUL" (Leaf "TIDX") (Leaf "4")) (Leaf "ARG1"))
           _ _ ETO_ARG 1%Z).
  - cbn [wfExpr].
    repeat split; try discriminate; try reflexivity;
      (eexists; split; [reflexivity|];
       first [discriminate | intros _; eexists; reflexivity]).
  - cbn. lia.
  - discriminate.
  - reflexivity.
Defined.
(** ** The searches of the code generator on the tree of an expression *)

Lemma operation_not_terminal o : isOperationOp o = true → isTerminalOp o = false.
Proof. by destruct o. Qed.

Lemma identifyUnknowns_null fuel CI H U :
  identifyUnknownsFromExpressionTree fuel CI H U None = Ret U.
Proof. by destruct fuel. Qed.

Lemma locate_null fuel H Op :
  locateNodeWithParticularExprTreeOp fuel H None Op = Ret None.
Proof. by destruct fuel. Qed.

Lemma collect_null fuel H Op C :
  collectNodesWithParticularExprTreeOp fuel H None Op C = Ret C.
Proof. by destruct fuel. Qed.

Ltac expr_bin_setup Hwf Hh Hop Hx Hy Hroot Hhx Hhy :=
  destruct Hwf as (_ & Hop & _ & Hx & Hy);
  pose proof (holdsAt_root _ _ _ _ Hh) as Hroot;
  cbn [layout] in Hh;
  pose proof (holdsAt_app_l _ _ _ _ Hh) as Hhx;
  pose proof (holdsAt_app_l _ _ _ _ (holdsAt_app_r _ _ _ _ Hh)) as Hhy;
  rewrite length_layout in Hhy.

Lemma identifyUnknowns_expr CI e : ∀ a par H U fuel,
  wfExpr e → holdsAt H a (layout a par e) →
  identifyUnknownsFromExpressionTree (nodeCount e + fuel) CI H U
    (Some (a + nodeCount e - 1))
  = Ret (exprUnknowns CI a e U).
Proof.
  induction e as [tok|tok x IHx y IHy]; intros a par H U fuel Hwf Hh.
  - pose proof (holdsAt_root _ _ _ _ Hh) as Hroot.
    cbn [nodeCount] in *. replace (a + 1 - 1) with a in * by lia.
    change (1 + fuel) with (S fuel).
    cbn [identifyUnknownsFromExpressionTree]. rewrite Hroot.
    cbn [deref mbind outcome_bind exprUnknowns].
    unfold isTerminal. cbn [rootNode op arg child0 child1 builtNode].
    destruct (opOf tok); try reflexivity;
      by (change (isTerminalOp _) with false; cbn iota;
          rewrite identifyUnknowns_null; cbn [mbind outcome_bind];
          rewrite identifyUnknowns_null).
  - expr_bin_setup Hwf Hh Hop Hx Hy Hroot Hhx Hhy.
    pose proof (nodeCount_pos x) as Hxpos. pose proof (nodeCount_pos y) as Hypos.
    cbn [nodeCount] in *.
    replace (nodeCount x + nodeCount y + 1 + fuel)
      with (S (nodeCount y + (nodeCount x + fuel))) by lia.
    cbn [identifyUnknownsFromExpressionTree]. rewrite Hroot.
    cbn [deref mbind outcome_bind exprUnknowns].
    unfold isTerminal. cbn [rootNode op child0 child1 builtNode].
    rewrite (operation_not_terminal _ Hop).
    replace (a + nodeCount x + nodeCount y - 1)
      with ((a + nodeCount x) + nodeCount y - 1) by lia.
    rewrite (IHy (a + nodeCount x) _ H U _ Hy Hhy). cbn [mbind outcome_bind].
    replace (nodeCount y + (nodeCount x + fuel))
      with (nodeCount x + (nodeCount y + fuel)) by lia.
    apply (IHx a _ H _ _ Hx Hhx).
Qed.

Lemma locate_expr Op e : ∀ a par H fuel,
  wfExpr e → holdsAt H a (layout a par e) →
  locateNodeWithParticularExprTreeOp (nodeCount e + fuel) H
    (Some (a + nodeCount e - 1)) Op
  = Ret (locateExpr Op a e).
Proof.
  induction e as [tok|tok x IHx y IHy]; intros a par H fuel Hwf Hh.
  - pose proof (holdsAt_root _ _ _ _ Hh) as Hroot.
    cbn [nodeCount] in *. replace (a + 1 - 1) with a in * by lia.
    change (1 + fuel) with (S fuel).
    cbn [locateNodeWithParticularExprTreeOp]. rewrite Hroot.
    cbn [deref mbind outcome_bind locateExpr].
    cbn [rootNode op child0 child1 builtNode].
    destruct (isTerminal _); [reflexivity|].
    case_bool_decide; [reflexivity|].
    by rewrite locate_null.
  - expr_bin_setup Hwf Hh Hop Hx Hy Hroot Hhx Hhy.
    pose proof (nodeCount_pos x) as Hxpos. pose proof (nodeCount_pos y) as Hypos.
    cbn [nodeCount] in *.
    replace (nodeCount x + nodeCount y + 1 + fuel)
      with (S (nodeCount y + (nodeCount x + fuel))) by lia.
    cbn [locateNodeWithParticularExprTreeOp]. rewrite Hroot.
    cbn [deref mbind outcome_bind locateExpr].
    unfold isTerminal. cbn [rootNode op child0 child1 builtNode].
    rewrite (operation_not_terminal _ Hop).
    replace (a + (nodeCount x + nodeCount y + 1) - 1)
      with (a + nodeCount x + nodeCount y) by lia.
    case_bool_decide; [reflexivity|].
    replace (a + nodeCount x + nodeCount y - 1)
      with ((a + nodeCount x) + nodeCount y - 1) by lia.
    rewrite (IHy (a + nodeCount x) _ H _ Hy Hhy). cbn [mbind outcome_bind].
    replace (nodeCount y + (nodeCount x + fuel))
      with (nodeCount x + (nodeCount y + fuel)) by lia.
    rewrite (IHx a _ H _ Hx Hhx). cbn [mbind outcome_bind].
    by destruct (locateExpr Op (a + nodeCount x) y).
Qed.

Lemma collect_expr Op e : ∀ a par H C fuel,
  wfExpr e → holdsAt H a (layout a par e) →
  collectNodesWithParticularExprTreeOp (nodeCount e + fuel) H
    (Some (a + nodeCount e - 1)) Op C
  = Ret (C ++ collectExpr Op a e).
Proof.
  induction e as [tok|tok x IHx y IHy]; intros a par H C fuel Hwf Hh.
  - pose proof (holdsAt_root _ _ _ _ Hh) as Hroot.
    cbn [nodeCount] in *. replace (a + 1 - 1) with a in * by lia.
    change (1 + fuel) with (S fuel).
    cbn [collectNodesWithParticularExprTreeOp]. rewrite Hroot.
    cbn [deref mbind outcome_bind collectExpr].
    cbn [rootNode op child0 child1 builtNode].
    rewrite collect_null. cbn [mbind outcome_bind]. rewrite collect_null.
    case_bool_decide; [reflexivity|by rewrite app_nil_r].
  - expr_bin_setup Hwf Hh Hop Hx Hy Hroot Hhx Hhy.
    pose proof (nodeCount_pos x) as Hxpos. pose proof (nodeCount_pos y) as Hypos.
    cbn [nodeCount] in *.
    replace (nodeCount x + nodeCount y + 1 + fuel)
      with (S (nodeCount y + (nodeCount x + fuel))) by lia.
    cbn [collectNodesWithParticularExprTreeOp]. rewrite Hroot.
    cbn [deref mbind outcome_bind collectExpr].
    cbn [rootNode op child0 child1 builtNode].
    replace (a + (nodeCount x + nodeCount y + 1) - 1)
      with (a + nodeCount x + nodeCount y) by lia.
    replace (a + nodeCount x + nodeCount y - 1)
      with ((a + nodeCount x) + nodeCount y - 1) by lia.
    rewrite (IHy (a + nodeCount x) _ H _ _ Hy Hhy). cbn [mbind outcome_bind].
    replace (nodeCount y + (nodeCount x + fuel))
      with (nodeCount x + (nodeCount y + fuel)) by lia.
    rewrite (IHx a _ H _ _ Hx Hhx).
    case_bool_decide; by rewrite <- ?app_assoc.
Qed.

(** What the searches find when no token has the operator. *)
Lemma locateExpr_None Op e a :
  existsb (tokenHasOp Op) (postfix e) = false → locateExpr Op a e = None.
Proof.
  revert a. induction e as [tok|tok x IHx y IHy]; intros a; cbn [postfix locateExpr].
  - cbn [existsb]. rewrite orb_false_r. unfold tokenHasOp. by intros ->.
  - rewrite !existsb_app. cbn [existsb]. rewrite orb_false_r.
    intros [Hx [Hy Ht]%orb_false_elim]%orb_false_elim.
    unfold tokenHasOp in Ht. rewrite Ht, IHy, IHx; done.
Qed.

Lemma collectExpr_nil Op e a :
  existsb (tokenHasOp Op) (postfix e) = false → collectExpr Op a e = [].
Proof.
  revert a. induction e as [tok|tok x IHx y IHy]; intros a; cbn [postfix collectExpr].
  - cbn [existsb]. rewrite orb_false_r. unfold tokenHasOp. by intros ->.
  - rewrite !existsb_app. cbn [existsb]. rewrite orb_false_r.
    intros [Hx [Hy Ht]%orb_false_elim]%orb_false_elim.
    unfold tokenHasOp in Ht. rewrite Ht, IHy, IHx; done.
Qed.

Lemma wf_no_phi e : wfExpr e → existsb (tokenHasOp ETO_PHI) (postfix e) = false.
Proof.
  induction e as [tok|tok x IHx y IHy]; cbn [wfExpr postfix].
  - intros (_ & _ & Hphi). cbn [existsb]. unfold tokenHasOp.
    by rewrite bool_decide_false.
  - intros (_ & _ & Hphi & Hx & Hy). rewrite !existsb_app, IHx, IHy by done.
    cbn [existsb orb]. unfold tokenHasOp. by rewrite bool_decide_false.
Qed.

(** *** The values of the unknowns *)

Lemma dumpUnknowns_Some U :
  map_Forall (λ _ v, is_Some v) U → dumpUnknowns U = Ret tt.
Proof.
  intros HU. unfold dumpUnknowns.
  rewrite (proj2 (forallb_forall _ _)); [done|].
  intros [k v] Hin%list_elem_of_In%elem_of_map_to_list. cbn.
  apply bool_decide_eq_true. by apply (HU k).
Qed.

Lemma dumpUnknowns_null U k :
  U !! k = Some None → dumpUnknowns U = Undefined.
Proof.
  intros Hk. unfold dumpUnknowns.
  destruct (forallb _ _) eqn:E; [|done].
  rewrite forallb_forall in E.
  assert (Hin : In (k, @None IRValue) (map_to_list U))
    by (by apply list_elem_of_In, elem_of_map_to_list).
  specialize (E _ Hin). cbn in E. discriminate.
Qed.

Lemma exprUnknowns_outside CI e : ∀ a U k,
  (k < a ∨ a + nodeCount e ≤ k) → exprUnknowns CI a e U !! k = U !! k.
Proof.
  induction e as [tok|tok x IHx y IHy]; intros a U k Hk; cbn [exprUnknowns nodeCount] in *.
  - destruct (opOf tok); try done; by rewrite lookup_insert_ne by lia.
  - rewrite IHx, IHy by lia. done.
Qed.

Lemma exprUnknowns_bound CI e : ∀ a U,
  wfExpr e → argsBound CI e → map_Forall (λ _ v, is_Some v) U →
  map_Forall (λ _ v, is_Some v) (exprUnknowns CI a e U).
Proof.
  induction e as [tok|tok x IHx y IHy]; intros a U Hwf Hb HU; cbn [exprUnknowns].
  - destruct (opOf tok) eqn:E; try done; apply map_Forall_insert_2; try done.
    destruct (Hb tok) as [v Hv]; [by apply list_elem_of_singleton|done|].
    by rewrite Hv.
  - destruct Hwf as (_ & _ & _ & Hx & Hy).
    apply IHx; [done| |apply IHy; [done| |done]].
    + intros t Ht. apply Hb. cbn [postfix]. rewrite !elem_of_app. tauto.
    + intros t Ht. apply Hb. cbn [postfix]. rewrite !elem_of_app. tauto.
Qed.

Lemma exprUnknowns_unbound CI e : ∀ a U tok,
  wfExpr e → tok ∈ postfix e → opOf tok = ETO_ARG →
  KernelInvocationToArgNumberToActualArgMap CI !! argOf tok = None →
  ∃ k, a ≤ k ∧ exprUnknowns CI a e U !! k = Some None.
Proof.
  induction e as [t|t x IHx y IHy]; intros a U tok Hwf Hin Hop Hnone;
    cbn [exprUnknowns postfix] in *.
  - apply list_elem_of_singleton in Hin as ->. rewrite Hop.
    exists a. by rewrite lookup_insert_eq, Hnone.
  - destruct Hwf as (_ & Ht & _ & Hx & Hy).
    rewrite !elem_of_app in Hin. destruct Hin as [Hin|[Hin|Hin]].
    + by apply (IHx a _ tok).
    + destruct (IHy (a + nodeCount x) U tok Hy Hin Hop Hnone) as (k & Hge & Hk).
      exists k. split; [lia|]. rewrite exprUnknowns_outside; [done|lia].
    + apply list_elem_of_singleton in Hin as ->.
      rewrite Hop in Ht. discriminate.
Qed.
(** *** Partial differences of an expression without the index *)

Lemma holdsAt_self L : holdsAt L 0 L.
Proof. by intros i n Hi. Qed.

Lemma unknownsOf_expr CI e :
  wfExpr e → nodes CI = layout 0 None e →
  unknownsOf CI (Some (nodeCount e - 1))
  = (_ ← dumpUnknowns (exprUnknowns CI 0 e ∅); Ret (exprUnknowns CI 0 e ∅)).
Proof.
  intros Hwf Hn. unfold unknownsOf. rewrite Hn, length_layout.
  pose proof (identifyUnknowns_expr CI e 0 None (layout 0 None e) ∅ 0 Hwf
                (holdsAt_self _)) as HU.
  cbn [Nat.add] in HU. rewrite Nat.add_0_r in HU. by rewrite HU.
Qed.

Lemma locate_built Op e :
  wfExpr e →
  locateNodeWithParticularExprTreeOp (nodeCount e) (layout 0 None e)
    (Some (nodeCount e - 1)) Op = Ret (locateExpr Op 0 e).
Proof.
  intros Hwf.
  pose proof (locate_expr Op e 0 None (layout 0 None e) 0 Hwf (holdsAt_self _)) as HL.
  cbn [Nat.add] in HL. by rewrite Nat.add_0_r in HL.
Qed.

Lemma collect_built Op e :
  wfExpr e →
  collectNodesWithParticularExprTreeOp (nodeCount e) (layout 0 None e)
    (Some (nodeCount e - 1)) Op [] = Ret (collectExpr Op 0 e).
Proof.
  intros Hwf.
  pose proof (collect_expr Op e 0 None (layout 0 None e) [] 0 Hwf (holdsAt_self _)) as HL.
  cbn [Nat.add] in HL. by rewrite Nat.add_0_r in HL.
Qed.

(** The code generated for the partial differences of an access expression
    in which every argument is bound.  With respect to the loop variable it is
    the 64-bit constant 0 and no call is emitted, since the tree of an
    expression has no phi.  With respect to the block index y it is the same
    when no token of the expression is the block index y.  With respect to the
    block index x, when no token is the block index x, it is the 32-bit
    constant 0 extended to 64 bits, whose value is 0. *)
Theorem partial_differences_without_index (CI : Invocation) (e : Expr)
    (h : list ExprTreeNode) (root : option ptr) (Allocation : HostValue) :
  wfExpr e → nodeCount e ≤ 50 → head (postfix e) ≠ Some "INCOMP"%string →
  createExpressionTree (reverse (postfix e)) [] = Ret (h, root) →
  nodes CI = h → argsBound CI e →
  insertCodeToComputePartDiff_phi CI Allocation root = Ret (VConst i64 0, []) ∧
  (existsb (tokenHasOp ETO_BIDY) (postfix e) = false →
   insertCodeToComputePartDiff_bidy CI Allocation root = Ret (VConst i64 0, [])) ∧
  (existsb (tokenHasOp ETO_BIDX) (postfix e) = false →
   insertCodeToComputePartDiff_bidx CI Allocation root
   = Ret (Some (VIntCast (VConst i32 0) i64 true)) ∧
   ∀ rho, denote rho (VIntCast (VConst i32 0) i64 true) = Some 0%Z).
Proof.
  intros Hwf Hsize Hincomp Hbuild Hnodes Hbound.
  rewrite (build_expr e [] Hwf Hsize Hincomp) in Hbuild.
  injection Hbuild as <- <-. cbn [app length Nat.add] in *.
  pose proof (unknownsOf_expr CI e Hwf Hnodes) as HU.
  rewrite (dumpUnknowns_Some (exprUnknowns CI 0 e ∅)) in HU
    by (apply exprUnknowns_bound; [done|done|apply map_Forall_empty]).
  cbn [mbind outcome_bind] in HU.
  split; [|split].
  - unfold insertCodeToComputePartDiff_phi. rewrite HU. cbn [mbind outcome_bind].
    rewrite Hnodes, length_layout, !locate_built by done.
    cbn [mbind outcome_bind].
    by rewrite (locateExpr_None ETO_PHI e 0 (wf_no_phi e Hwf)).
  - intros Hno. unfold insertCodeToComputePartDiff_bidy.
    rewrite HU. cbn [mbind outcome_bind].
    rewrite Hnodes, length_layout, locate_built by done.
    cbn [mbind outcome_bind]. by rewrite (locateExpr_None ETO_BIDY e 0 Hno).
  - intros Hno. split; [|done].
    unfold insertCodeToComputePartDiff_bidx. rewrite HU. cbn [mbind outcome_bind].
    rewrite Hnodes, length_layout, collect_built by done.
    cbn [mbind outcome_bind]. by rewrite (collectExpr_nil ETO_BIDX e 0 Hno).
Qed.

Lemma partial_differences_without_index_witness :
  let E := Bin "ADD" (Bin "MUL" (Leaf "TIDX") (Leaf "4")) (Leaf "ARG1") in
  let CI := mkInvocation ∅ ∅ ∅ ∅ {[ 1%Z := mkValue 7 KOther i32 ]} ∅ ∅ ∅
              (layout 0 None E) ∅ ∅ in
  insertCodeToComputePartDiff_phi CI allocation0 (Some 4) = Ret (VConst i64 0, []) ∧
  (existsb (tokenHasOp ETO_BIDY) (postfix E) = false →
   insertCodeToComputePartDiff_bidy CI allocation0 (Some 4)
   = Ret (VConst i64 0, [])) ∧
  (existsb (tokenHasOp ETO_BIDX) (postfix E) = false →
   insertCodeToComputePartDiff_bidx CI allocation0 (Some 4)
   = Ret (Some (VIntCast (VConst i32 0) i64 true)) ∧
   ∀ rho, denote rho (VIntCast (VConst i32 0) i64 true) = Some 0%Z).
Proof.
  intros E CI.
  apply (partial_differences_without_index CI E (layout 0 None E) (Some 4)
           allocation0).
  - cbn [wfExpr E].
    repeat split; try discriminate; try reflexivity;
      (eexists; split; [reflexivity|];
       first [discriminate | intros _; eexists; reflexivity]).
  - cbn. lia.
  - discriminate.
  - reflexivity.
  - reflexivity.
  - intros tok Hin Hop. cbn in Hin.
    repeat (apply elem_of_cons in Hin as [->|Hin]);
      try (by apply elem_of_nil in Hin); try discriminate Hop.
    by eexists.
Defined.

(** If the expression mentions an argument that the invocation does not bind
    to an actual argument, the null value recorded for it is dereferenced when
    the unknowns are logged: the three code generators for the partial
    differences have no defined behaviour. *)
Theorem partial_differences_unbound_argument (CI : Invocation) (e : Expr)
    (h : list ExprTreeNode) (root : option ptr) (Allocation : HostValue)
    (tok : string) :
  wfExpr e → nodeCount e ≤ 50 → head (postfix e) ≠ Some "INCOMP"%string →
  createExpressionTree (reverse (postfix e)) [] = Ret (h, root) →
  nodes CI = h →
  tok ∈ postfix e → opOf tok = ETO_ARG →
  KernelInvocationToArgNumberToActualArgMap CI !! argOf tok = None →
  insertCodeToComputePartDiff_bidx CI Allocation root = Undefined ∧
  insertCodeToComputePartDiff_bidy CI Allocation root = Undefined ∧
  insertCodeToComputePartDiff_phi CI Allocation root = Undefined.
Proof.
  intros Hwf Hsize Hincomp Hbuild Hnodes Hin Hop Hnone.
  rewrite (build_expr e [] Hwf Hsize Hincomp) in Hbuild.
  injection Hbuild as <- <-. cbn [app length Nat.add] in *.
  pose proof (unknownsOf_expr CI e Hwf Hnodes) as HU.
  destruct (exprUnknowns_unbound CI e 0 ∅ tok Hwf Hin Hop Hnone) as (k & _ & Hk).
  rewrite (dumpUnknowns_null _ k Hk) in HU. cbn [mbind outcome_bind] in HU.
  unfold insertCodeToComputePartDiff_bidx, insertCodeToComputePartDiff_bidy,
    insertCodeToComputePartDiff_phi.
  by rewrite HU.
Qed.

Lemma partial_differences_unbound_argument_witness :
  let E := Bin "ADD" (Bin "MUL" (Leaf "BIDY") (Leaf "4")) (Leaf "ARG1") in
  let CI := mkInvocation ∅ ∅ ∅ ∅ ∅ ∅ ∅ ∅ (layout 0 None E) ∅ ∅ in
  insertCodeToComputePartDiff_bidx CI allocation0 (Some 4) = Undefined ∧
  insertCodeToComputePartDiff_bidy CI allocation0 (Some 4) = Undefined ∧
  insertCodeToComputePartDiff_phi CI allocation0 (Some 4) = Undefined.
Proof.
  intros E CI.
  apply (partial_differences_unbound_argument CI E (layout 0 None E) (Some 4)
           allocation0 "ARG1").
  - cbn [wfExpr E].
    repeat split; try discriminate; try reflexivity;
      (eexists; split; [reflexivity|];
       first [discriminate | intros _; eexists; reflexivity]).
  - cbn. lia.
  - discriminate.
  - reflexivity.
  - reflexivity.
  - cbn. rewrite !elem_of_cons. tauto.
  - reflexivity.
  - reflexivity.
Defined.
(** ** The code of a subtree *)

Lemma insertTree_null fuel H U : insertTreeEvaluationCode fuel H U None = Ret None.
Proof. by destruct fuel. Qed.

Lemma insertTree_expr U e : ∀ a par H fuel,
  wfExpr e → holdsAt H a (layout a par e) →
  insertTreeEvaluationCode (nodeCount e + fuel) H U (Some (a + nodeCount e - 1))
  = exprCode U a e.
Proof.
  induction e as [tok|tok x IHx y IHy]; intros a par H fuel Hwf Hh.
  - destruct Hwf as (_ & Hop & Hphi).
    pose proof (holdsAt_root _ _ _ _ Hh) as Hroot.
    cbn [nodeCount] in *. replace (a + 1 - 1) with a in * by lia.
    change (1 + fuel) with (S fuel).
    cbn [insertTreeEvaluationCode]. rewrite Hroot.
    cbn [deref mbind outcome_bind exprCode].
    unfold isTerminal. cbn [rootNode op child0 child1 original_str builtNode].
    destruct (isTerminalOp (opOf tok)).
    + destruct (U !! a) as [val|]; [reflexivity|].
      case_bool_decide; [|reflexivity].
      destruct (stoll tok); try reflexivity.
    + by rewrite bool_decide_false.
  - assert (Hphi : opOf tok ≠ ETO_PHI) by (by destruct Hwf as (_ & _ & ? & _)).
    expr_bin_setup Hwf Hh Hop Hx Hy Hroot Hhx Hhy.
    pose proof (nodeCount_pos x) as Hxpos. pose proof (nodeCount_pos y) as Hypos.
    pose proof (holdsAt_root _ _ _ _ Hhx) as Hrx.
    pose proof (holdsAt_root _ _ _ _ Hhy) as Hry.
    cbn [nodeCount] in *.
    replace (nodeCount x + nodeCount y + 1 + fuel)
      with (S (nodeCount y + (nodeCount x + fuel))) by lia.
    cbn [insertTreeEvaluationCode]. rewrite Hroot.
    cbn [deref mbind outcome_bind exprCode].
    unfold isTerminal. cbn [rootNode op child0 child1 builtNode].
    rewrite (operation_not_terminal _ Hop).
    rewrite bool_decide_false by done. cbn [deref mbind outcome_bind].
    replace (a + nodeCount x + nodeCount y - 1)
      with ((a + nodeCount x) + nodeCount y - 1) by lia.
    rewrite Hry, Hrx. cbn [deref mbind outcome_bind].
    rewrite (IHy (a + nodeCount x) _ H _ Hy Hhy).
    replace (nodeCount y + (nodeCount x + fuel))
      with (nodeCount x + (nodeCount y + fuel)) by lia.
    by rewrite (IHx a _ H _ Hx Hhx).
Qed.
(** ** The walk from a leaf to the root *)

Lemma parent_rootNode a par e : parent (rootNode a par e) = par.
Proof. by destruct e. Qed.

Lemma op_rootNode a par tok x y : op (rootNode a par (Bin tok x y)) = opOf tok.
Proof. done. Qed.

Lemma nodeCount_plug steps x :
  length steps + nodeCount x ≤ nodeCount (plug steps x).
Proof.
  induction steps as [|s rest IH]; cbn [plug length]; [lia|].
  destruct (stepFirst s); cbn [nodeCount]; lia.
Qed.

Lemma wfExpr_plug steps x : wfExpr (plug steps x) → wfExpr x.
Proof.
  induction steps as [|s rest IH]; cbn [plug]; [done|].
  destruct (stepFirst s); cbn [wfExpr]; tauto.
Qed.

Lemma path_walk x : ∀ steps a par H acc fuel,
  wfExpr (plug steps x) → holdsAt H a (layout a par (plug steps x)) →
  multipliersLoop (length steps + fuel) H
    (Some (holeAddr a steps x + nodeCount x - 1)) acc
  = multipliersLoop fuel H (Some (a + nodeCount (plug steps x) - 1))
      (acc ++ map factorRoot (pathOperands isMulOrShlOp a steps x)).
Proof.
  induction steps as [|s rest IH]; intros a par H acc fuel Hwf Hh.
  - cbn [plug length holeAddr pathOperands map Nat.add]. by rewrite app_nil_r.
  - cbn [plug holeAddr pathOperands length] in *.
    replace (S (length rest) + fuel) with (length rest + S fuel) by lia.
    pose proof (nodeCount_pos (plug rest x)) as Hipos.
    pose proof (nodeCount_pos (stepOther s)) as Hopos.
    destruct (stepFirst s) eqn:Efirst.
    + expr_bin_setup Hwf Hh Hop Hin Hot Hroot Hhin Hhot.
      pose proof (holdsAt_root _ _ _ _ Hhin) as Hrin.
      rewrite (IH a _ H acc (S fuel) Hin Hhin).
      cbn [multipliersLoop]. rewrite Hrin. cbn [deref mbind outcome_bind].
      rewrite parent_rootNode.
      cbn [nodeCount] in *.
      replace (a + (nodeCount (plug rest x) + nodeCount (stepOther s) + 1) - 1)
        with (a + nodeCount (plug rest x) + nodeCount (stepOther s)) in * by lia.
      rewrite Hroot. cbn [deref mbind outcome_bind].
      unfold isMulOrShl, otherChild.
      cbn [rootNode op child0 child1 builtNode].
      fold (isMulOrShlOp (opOf (stepTok s))).
      rewrite bool_decide_false by (intros [=]; lia).
      rewrite map_app, app_assoc.
      destruct (isMulOrShlOp (opOf (stepTok s))); unfold factorRoot; cbn [map fst snd];
        [reflexivity|by rewrite app_nil_r].
    + expr_bin_setup Hwf Hh Hop Hot Hin Hroot Hhot Hhin.
      pose proof (holdsAt_root _ _ _ _ Hhin) as Hrin.
      rewrite (IH (a + nodeCount (stepOther s)) _ H acc (S fuel) Hin Hhin).
      cbn [multipliersLoop]. rewrite Hrin. cbn [deref mbind outcome_bind].
      rewrite parent_rootNode.
      cbn [nodeCount] in *.
      replace (a + (nodeCount (stepOther s) + nodeCount (plug rest x) + 1) - 1)
        with (a + nodeCount (stepOther s) + nodeCount (plug rest x)) in * by lia.
      rewrite Hroot. cbn [deref mbind outcome_bind].
      unfold isMulOrShl, otherChild.
      cbn [rootNode op child0 child1 builtNode].
      fold (isMulOrShlOp (opOf (stepTok s))).
      rewrite bool_decide_true by done.
      rewrite map_app, app_assoc.
      destruct (isMulOrShlOp (opOf (stepTok s))); unfold factorRoot; cbn [map fst snd];
        [reflexivity|by rewrite app_nil_r].
Qed.

Lemma hole_held x : ∀ steps a par H,
  holdsAt H a (layout a par (plug steps x)) →
  ∃ par', holdsAt H (holeAddr a steps x) (layout (holeAddr a steps x) par' x).
Proof.
  induction steps as [|s rest IH]; intros a par H Hh; cbn [plug holeAddr] in *.
  - by exists par.
  - destruct (stepFirst s); cbn [layout] in Hh.
    + apply (IH a _ H (holdsAt_app_l _ _ _ _ Hh)).
    + pose proof (holdsAt_app_l _ _ _ _ (holdsAt_app_r _ _ _ _ Hh)) as Hhy.
      rewrite length_layout in Hhy. apply (IH _ _ H Hhy).
Qed.

Lemma pathOperands_held sel x : ∀ steps a par H,
  wfExpr (plug steps x) → holdsAt H a (layout a par (plug steps x)) →
  Forall (factorHeld H) (pathOperands sel a steps x).
Proof.
  induction steps as [|s rest IH]; intros a par H Hwf Hh;
    cbn [plug pathOperands] in *; [constructor|].
  destruct (stepFirst s) eqn:Efirst.
  - expr_bin_setup Hwf Hh Hop Hin Hot Hroot Hhin Hhot.
    apply Forall_app. split; [exact (IH a _ H Hin Hhin)|].
    destruct (sel _); repeat constructor; cbn [fst snd]; [done|].
    eexists _, _. split; [exact Hhot|]. cbn [nodeCount] in Hroot.
    replace (a + (nodeCount (plug rest x) + nodeCount (stepOther s) + 1) - 1)
      with (a + nodeCount (plug rest x) + nodeCount (stepOther s)) in Hroot by lia.
    split; [exact Hroot|done].
  - expr_bin_setup Hwf Hh Hop Hot Hin Hroot Hhot Hhin.
    apply Forall_app. split; [exact (IH _ _ H Hin Hhin)|].
    destruct (sel _); repeat constructor; cbn [fst snd]; [done|].
    eexists _, _. split; [exact Hhot|]. cbn [nodeCount] in Hroot.
    replace (a + (nodeCount (stepOther s) + nodeCount (plug rest x) + 1) - 1)
      with (a + nodeCount (stepOther s) + nodeCount (plug rest x)) in Hroot by lia.
    split; [exact Hroot|done].
Qed.

Lemma holdsAt_length H a par e :
  holdsAt H a (layout a par e) → a + nodeCount e ≤ length H.
Proof.
  intros Hh. pose proof (holdsAt_root _ _ _ _ Hh) as Hroot.
  apply lookup_lt_Some in Hroot. pose proof (nodeCount_pos e). lia.
Qed.

Lemma multipliersInCode_factors U H : ∀ fs,
  Forall (factorHeld H) fs →
  multipliersInCode (length H) H U (map factorRoot fs) = factorCodes U fs.
Proof.
  induction fs as [|f fs IH]; intros Hfs; [reflexivity|].
  apply Forall_cons in Hfs as [(Hwf & p & pn & Hh & Hp & Hop) Hfs].
  pose proof (holdsAt_root _ _ _ _ Hh) as Hroot.
  pose proof (holdsAt_length _ _ _ _ Hh) as Hlen.
  cbn [map multipliersInCode factorCodes]. unfold factorCode.
  change (factorRoot f) with (Some (f.1 + nodeCount (stepOther f.2) - 1)).
  cbn [deref mbind outcome_bind]. rewrite Hroot. cbn [deref mbind outcome_bind].
  replace (length H)
    with (nodeCount (stepOther f.2) + (length H - nodeCount (stepOther f.2)))
    at 1 by lia.
  rewrite (insertTree_expr U _ _ _ H _ Hwf Hh).
  destruct (exprCode U f.1 (stepOther f.2)) as [Result| | | |];
    cbn [mbind outcome_bind]; try reflexivity.
  rewrite parent_rootNode. cbn [deref mbind outcome_bind].
  rewrite Hp. cbn [deref mbind outcome_bind]. rewrite Hop.
  rewrite (IH Hfs).
  case_bool_decide; [|reflexivity].
  destruct (insertCodeToShift1By Result); reflexivity.
Qed.

Lemma locateExpr_plug Op ax : ∀ steps a,
  wfExpr (plug steps (Leaf ax)) → opOf ax = Op → isOperationOp Op = false →
  Forall (λ s, existsb (tokenHasOp Op) (postfix (stepOther s)) = false) steps →
  locateExpr Op a (plug steps (Leaf ax)) = Some (holeAddr a steps (Leaf ax)).
Proof.
  induction steps as [|s rest IH]; intros a Hwf Hax HOp Hno;
    cbn [plug holeAddr locateExpr] in *.
  - by rewrite bool_decide_true.
  - apply Forall_cons in Hno as [Hs Hno].
    destruct (stepFirst s); cbn [locateExpr];
      destruct Hwf as (_ & Hop & _ & Hx & Hy);
      (rewrite bool_decide_false by (intros E; rewrite E in Hop; congruence)).
    + rewrite (locateExpr_None Op _ _ Hs). by apply IH.
    + by rewrite IH.
Qed.
(** ** The partial difference with respect to the block index y *)

Lemma multipliersLoop_null fuel H acc : multipliersLoop fuel H None acc = Ret acc.
Proof. by destruct fuel. Qed.

Lemma findMultipliers_path ax steps :
  wfExpr (plug steps (Leaf ax)) →
  findMultipliersByTraversingUpExprTree (layout 0 None (plug steps (Leaf ax)))
    (Some (nodeCount (plug steps (Leaf ax)) - 1))
    (Some (holeAddr 0 steps (Leaf ax)))
  = Ret (map factorRoot (factors 0 steps (Leaf ax))).
Proof.
  intros Hwf. set (e := plug steps (Leaf ax)). set (H := layout 0 None e).
  pose proof (holdsAt_self H) as Hh.
  destruct (hole_held (Leaf ax) steps 0 None H Hh) as [par' Hhole].
  pose proof (holdsAt_root _ _ _ _ Hhole) as Hleaf.
  pose proof (holdsAt_root _ _ _ _ Hh) as Hroot.
  cbn [nodeCount] in Hleaf.
  unfold findMultipliersByTraversingUpExprTree.
  cbn [deref mbind outcome_bind].
  replace (holeAddr 0 steps (Leaf ax))
    with (holeAddr 0 steps (Leaf ax) + 1 - 1) by lia.
  rewrite Hleaf. cbn [deref mbind outcome_bind].
  pose proof (nodeCount_plug steps (Leaf ax)) as Hcount. cbn [nodeCount] in Hcount.
  fold e in Hcount.
  replace (length H) with (length steps + S (nodeCount e - length steps - 1))
    by (unfold H; rewrite length_layout; lia).
  unfold factors. rewrite (path_walk (Leaf ax) steps 0 None H [] _ Hwf Hh).
  fold e. cbn [multipliersLoop app]. rewrite Hroot.
  cbn [deref mbind outcome_bind]. rewrite parent_rootNode.
  apply multipliersLoop_null.
Qed.

Lemma bidy_path CI steps ax Allocation :
  wfExpr (plug steps (Leaf ax)) →
  nodes CI = layout 0 None (plug steps (Leaf ax)) →
  argsBound CI (plug steps (Leaf ax)) → opOf ax = ETO_BIDY →
  Forall (λ s, existsb (tokenHasOp ETO_BIDY) (postfix (stepOther s)) = false)
    steps →
  insertCodeToComputePartDiff_bidy CI Allocation
    (Some (nodeCount (plug steps (Leaf ax)) - 1))
  = (cs ← factorCodes (exprUnknowns CI 0 (plug steps (Leaf ax)) ∅)
            (factors 0 steps (Leaf ax));
     acc ← accumulate ETO_MUL (Some (VConst i32 1)) cs;
     acc ← insertCodeToCastInt32ToInt64 acc;
     Ret (acc, [add_pd_bidy_to_allocation Allocation acc])).
Proof.
  intros Hwf Hnodes Hbound Hax Hno.
  pose proof (unknownsOf_expr CI _ Hwf Hnodes) as HU.
  rewrite (dumpUnknowns_Some (exprUnknowns CI 0 _ ∅)) in HU
    by (apply exprUnknowns_bound; [done|done|apply map_Forall_empty]).
  cbn [mbind outcome_bind] in HU.
  unfold insertCodeToComputePartDiff_bidy. rewrite HU. cbn [mbind outcome_bind].
  rewrite Hnodes, length_layout, locate_built by done.
  cbn [mbind outcome_bind].
  rewrite (locateExpr_plug ETO_BIDY ax steps 0 Hwf Hax eq_refl Hno).
  unfold productInCode. rewrite Hnodes.
  rewrite (findMultipliers_path ax steps Hwf). cbn [mbind outcome_bind].
  unfold factors.
  rewrite (multipliersInCode_factors _ _ _
             (pathOperands_held isMulOrShlOp (Leaf ax) steps 0 None _ Hwf
                (holdsAt_self _))).
  destruct (factorCodes _ _) as [cs| | | |]; cbn [mbind outcome_bind];
    try reflexivity.
  change (insertConstantNode_unsigned 1) with (VConst i32 1).
  destruct (accumulate ETO_MUL _ cs) as [acc| | | |];
    cbn [mbind outcome_bind accumulate]; try reflexivity.
Qed.

Lemma insertComputationNode_mul_i32 a b :
  typeOf a = i32 → typeOf b = i32 →
  insertComputationNode (Some a) (Some b) ETO_MUL = Ret (Some (VBin IMul a b)).
Proof.
  intros Ha Hb. unfold insertComputationNode, createBin.
  rewrite Ha, Hb. simpl. rewrite Ha, Hb. reflexivity.
Qed.

Lemma accumulate_mul rho : ∀ vs ds acc a,
  typeOf acc = i32 → denote rho acc = Some a → (0 ≤ a < 2 ^ 32)%Z →
  Forall2 (λ v d, ∃ c, v = Some c ∧ typeOf c = i32 ∧ denote rho c = Some d)
    vs ds →
  ∃ r, accumulate ETO_MUL (Some acc) vs = Ret (Some r) ∧ typeOf r = i32 ∧
       denote rho r = Some ((a * product ds) mod 2 ^ 32)%Z.
Proof.
  intros vs ds acc a Ht Hd Ha Hvs. revert acc a Ht Hd Ha.
  induction Hvs as [|v d vs ds (c & -> & Hc & Hdc) _ IH]; intros acc a Ht Hd Ha.
  - exists acc. split; [reflexivity|]. split; [done|].
    unfold product. cbn [fold_right]. by rewrite Z.mul_1_r, Z.mod_small.
  - cbn [accumulate deref mbind outcome_bind].
    rewrite insertComputationNode_mul_i32 by done. cbn [mbind outcome_bind].
    destruct (IH (VBin IMul acc c) ((a * d) mod 2 ^ 32)%Z) as (r & Hr & Htr & Hdr).
    + done.
    + cbn [denote]. rewrite Hd, Hdc, Ht. reflexivity.
    + apply Z.mod_pos_bound. lia.
    + exists r. split; [done|]. split; [done|].
      rewrite Hdr. f_equal. unfold product. cbn [fold_right].
      fold (product ds). rewrite Z.mul_mod_idemp_l by lia. f_equal. lia.
Qed.

Lemma factorCodes_values rho U : ∀ fs ds,
  Forall2 (λ f d, ∃ v, factorCode U f = Ret (Some v) ∧ typeOf v = i32 ∧
                       denote rho v = Some d) fs ds →
  ∃ vs, factorCodes U fs = Ret vs ∧
        Forall2 (λ v d, ∃ c, v = Some c ∧ typeOf c = i32 ∧ denote rho c = Some d)
          vs ds.
Proof.
  intros fs ds Hfs.
  induction Hfs as [|f d fs ds (v & Hv & Ht & Hd) _ (vs & Hvs & IH)].
  - exists []. split; [reflexivity|constructor].
  - exists (Some v :: vs). cbn [factorCodes]. rewrite Hv, Hvs. split; [reflexivity|].
    constructor; [by exists v|done].
Qed.

(** The code generated for the partial difference with respect to the block
    index y, for an expression in which the block index y occurs once.  The
    factors are the other operands of the multiplications and shifts on the
    path from that leaf to the root, from the leaf upwards; the other
    operators on the path contribute nothing.  When the code of every factor
    (for a shift, 1 shifted by the amount) is a 32-bit value, the result is
    their product computed in 32 bits and then sign-extended to 64 bits, and
    it is the value recorded for the allocation. *)
Theorem partial_difference_bidy_product (CI : Invocation) (steps : list PathStep)
    (ax : string) (h : list ExprTreeNode) (root : option ptr)
    (Allocation : HostValue) (rho : nat → Z) (ds : list Z) :
  wfExpr (plug steps (Leaf ax)) →
  nodeCount (plug steps (Leaf ax)) ≤ 50 →
  head (postfix (plug steps (Leaf ax))) ≠ Some "INCOMP"%string →
  createExpressionTree (reverse (postfix (plug steps (Leaf ax)))) [] = Ret (h, root) →
  nodes CI = h →
  argsBound CI (plug steps (Leaf ax)) →
  opOf ax = ETO_BIDY →
  Forall (λ s, existsb (tokenHasOp ETO_BIDY) (postfix (stepOther s)) = false)
    steps →
  Forall2 (λ f d, ∃ v,
             factorCode (exprUnknowns CI 0 (plug steps (Leaf ax)) ∅) f
             = Ret (Some v) ∧ typeOf v = i32 ∧ denote rho v = Some d)
    (factors 0 steps (Leaf ax)) ds →
  ∃ v, insertCodeToComputePartDiff_bidy CI Allocation root
       = Ret (v, [add_pd_bidy_to_allocation Allocation v]) ∧
       typeOf v = i64 ∧
       denote rho v = Some (signedOf 32 (product ds mod 2 ^ 32) mod 2 ^ 64)%Z.
Proof.
  intros Hwf Hsize Hincomp Hbuild Hnodes Hbound Hax Hno Hfs.
  rewrite (build_expr _ [] Hwf Hsize Hincomp) in Hbuild.
  injection Hbuild as <- <-. cbn [app length Nat.add] in *.
  rewrite (bidy_path CI steps ax Allocation Hwf Hnodes Hbound Hax Hno).
  destruct (factorCodes_values rho _ _ _ Hfs) as (vs & Hvs & Hvals).
  rewrite Hvs. cbn [mbind outcome_bind].
  destruct (accumulate_mul rho vs ds (VConst i32 1) 1%Z eq_refl eq_refl
              ltac:(lia) Hvals) as (r & Hr & Htr & Hdr).
  rewrite Hr. cbn [mbind outcome_bind].
  unfold insertCodeToCastInt32ToInt64. cbn [deref mbind outcome_bind].
  rewrite bool_decide_true by done.
  eexists. split; [reflexivity|]. split; [reflexivity|].
  cbn [denote]. rewrite Hdr, Htr. cbn [mbind option_bind width].
  by rewrite Z.mul_1_l.
Qed.

Lemma partial_difference_bidy_product_witness :
  let steps := [mkStep "MUL" (Leaf "ARG2") true; mkStep "ADD" (Leaf "TIDY") true;
                mkStep "MUL" (Leaf "BDIMY") true] in
  let E := plug steps (Leaf "BIDY") in
  let CI := mkInvocation {[ AXIS_TYPE_BDIMY := 16%Z ]} ∅ ∅ ∅
              {[ 2%Z := mkValue 7 KOther i32 ]} ∅ ∅ ∅ (layout 0 None E) ∅ ∅ in
  ∃ v, insertCodeToComputePartDiff_bidy CI allocation0 (Some 6)
       = Ret (v, [add_pd_bidy_to_allocation allocation0 v]) ∧
       typeOf v = i64 ∧
       denote (λ _, 100%Z) v
       = Some (signedOf 32 (product [16; 100] mod 2 ^ 32) mod 2 ^ 64)%Z.
Proof.
  intros steps E CI.
  apply (partial_difference_bidy_product CI steps "BIDY" (layout 0 None E)
           (Some 6) allocation0 (λ _, 100%Z) [16; 100]%Z).
  - cbn [wfExpr E plug steps stepFirst stepTok stepOther].
    repeat split; try discriminate; try reflexivity;
      (eexists; split; [reflexivity|];
       first [discriminate | intros _; eexists; reflexivity]).
  - cbn. lia.
  - discriminate.
  - reflexivity.
  - reflexivity.
  - intros tok Hin Hop. cbn in Hin.
    repeat (apply elem_of_cons in Hin as [->|Hin]);
      try (by apply elem_of_nil in Hin); try discriminate Hop.
    by eexists.
  - reflexivity.
  - repeat constructor.
  - repeat constructor; eexists; (split; [vm_compute; reflexivity|]);
      split; reflexivity.
Defined.

Lemma insertComputationNode_mul_int a b :
  (typeOf a = i32 ∨ typeOf a = i64) → (typeOf b = i32 ∨ typeOf b = i64) →
  ∃ r, insertComputationNode (Some a) (Some b) ETO_MUL = Ret (Some r) ∧
       typeOf r = (if bool_decide (typeOf a = i32) && bool_decide (typeOf b = i32)
                   then i32 else i64).
Proof.
  intros Ha Hb.
  unfold insertComputationNode, castIfInt32, insertCodeToCastInt32ToInt64, createBin.
  destruct Ha as [Ha|Ha], Hb as [Hb|Hb];
    do 4 (rewrite ?Ha, ?Hb; simpl);
    eexists; (split; [reflexivity|]); simpl; by rewrite ?Ha, ?Hb.
Qed.

Lemma accumulate_wide : ∀ vs acc,
  (typeOf acc = i32 ∨ typeOf acc = i64) →
  Forall (λ v, ∃ c, v = Some c ∧ (typeOf c = i32 ∨ typeOf c = i64)) vs →
  ∃ r, accumulate ETO_MUL (Some acc) vs = Ret (Some r) ∧
       (typeOf r = i32 ∨ typeOf r = i64) ∧
       (typeOf acc = i64 ∨ Exists (λ v, ∃ c, v = Some c ∧ typeOf c = i64) vs →
        typeOf r = i64).
Proof.
  induction vs as [|v vs IH]; intros acc Hacc Hvs.
  - exists acc. split; [reflexivity|]. split; [done|].
    intros [?|Hex]; [done|]. by apply Exists_nil in Hex.
  - apply Forall_cons in Hvs as [(c & -> & Hc) Hvs].
    cbn [accumulate deref mbind outcome_bind].
    destruct (insertComputationNode_mul_int acc c Hacc Hc) as (r1 & Hr1 & Ht1).
    rewrite Hr1. cbn [mbind outcome_bind].
    assert (Hr1ty : typeOf r1 = i32 ∨ typeOf r1 = i64).
    { rewrite Ht1. destruct (_ && _); auto. }
    destruct (IH r1 Hr1ty Hvs) as (r & Hr & Hty & Hwide).
    exists r. split; [done|]. split; [done|].
    intros Hw. apply Hwide.
    destruct Hw as [Hw|Hw].
    + left. rewrite Ht1, Hw. reflexivity.
    + apply Exists_cons in Hw as [(c' & [= <-] & Hc')|Hw]; [|by right].
      left. rewrite Ht1, Hc'. by rewrite andb_false_r.
Qed.

Lemma factorCodes_wide U : ∀ fs,
  Forall (λ f, ∃ v, factorCode U f = Ret (Some v) ∧
                    (typeOf v = i32 ∨ typeOf v = i64)) fs →
  ∃ vs, factorCodes U fs = Ret vs ∧
        Forall (λ v, ∃ c, v = Some c ∧ (typeOf c = i32 ∨ typeOf c = i64)) vs ∧
        (Exists (λ f, ∃ v, factorCode U f = Ret (Some v) ∧ typeOf v = i64) fs →
         Exists (λ v, ∃ c, v = Some c ∧ typeOf c = i64) vs).
Proof.
  induction fs as [|f fs IH]; intros Hfs.
  - exists []. split; [reflexivity|]. split; [constructor|].
    by intros ?%Exists_nil.
  - apply Forall_cons in Hfs as [(v & Hv & Ht) Hfs].
    destruct (IH Hfs) as (vs & Hvs & Hall & Hex).
    exists (Some v :: vs). cbn [factorCodes]. rewrite Hv, Hvs.
    split; [reflexivity|]. split; [constructor; [by exists v|done]|].
    intros [(v' & Hv' & Ht')|Hw]%Exists_cons.
    + apply Exists_cons. left. exists v. split; [done|congruence].
    + apply Exists_cons. right. by apply Hex.
Qed.

(** A 64-bit factor stops the code generator.  When the block index y occurs
    once in the expression, the code of every factor on its path is a 32-bit
    or a 64-bit value, and one of them is 64 bits wide (an argument bound to a
    64-bit actual argument, say), the product is 64 bits wide and the
    assertion of [insertCodeToCastInt32ToInt64] on it fails. *)
Theorem partial_difference_bidy_wide_factor (CI : Invocation)
    (steps : list PathStep) (ax : string) (h : list ExprTreeNode)
    (root : option ptr) (Allocation : HostValue) :
  wfExpr (plug steps (Leaf ax)) →
  nodeCount (plug steps (Leaf ax)) ≤ 50 →
  head (postfix (plug steps (Leaf ax))) ≠ Some "INCOMP"%string →
  createExpressionTree (reverse (postfix (plug steps (Leaf ax)))) [] = Ret (h, root) →
  nodes CI = h →
  argsBound CI (plug steps (Leaf ax)) →
  opOf ax = ETO_BIDY →
  Forall (λ s, existsb (tokenHasOp ETO_BIDY) (postfix (stepOther s)) = false)
    steps →
  Forall (λ f, ∃ v,
            factorCode (exprUnknowns CI 0 (plug steps (Leaf ax)) ∅) f
            = Ret (Some v) ∧ (typeOf v = i32 ∨ typeOf v = i64))
    (factors 0 steps (Leaf ax)) →
  Exists (λ f, ∃ v,
            factorCode (exprUnknowns CI 0 (plug steps (Leaf ax)) ∅) f
            = Ret (Some v) ∧ typeOf v = i64)
    (factors 0 steps (Leaf ax)) →
  insertCodeToComputePartDiff_bidy CI Allocation root = Abort.
Proof.
  intros Hwf Hsize Hincomp Hbuild Hnodes Hbound Hax Hno Hall Hex.
  rewrite (build_expr _ [] Hwf Hsize Hincomp) in Hbuild.
  injection Hbuild as <- <-. cbn [app length Nat.add] in *.
  rewrite (bidy_path CI steps ax Allocation Hwf Hnodes Hbound Hax Hno).
  destruct (factorCodes_wide _ _ Hall) as (vs & Hvs & Hvall & Hvex).
  rewrite Hvs. cbn [mbind outcome_bind].
  destruct (accumulate_wide vs (VConst i32 1) (or_introl eq_refl) Hvall)
    as (r & Hr & _ & Hwide).
  rewrite Hr. cbn [mbind outcome_bind].
  unfold insertCodeToCastInt32ToInt64. cbn [deref mbind outcome_bind].
  rewrite bool_decide_false; [reflexivity|].
  rewrite Hwide by (right; by apply Hvex). discriminate.
Qed.

Lemma partial_difference_bidy_wide_factor_witness :
  let steps := [mkStep "MUL" (Leaf "ARG2") true] in
  let E := plug steps (Leaf "BIDY") in
  let CI := mkInvocation ∅ ∅ ∅ ∅ {[ 2%Z := mkValue 7 KOther i64 ]} ∅ ∅ ∅
              (layout 0 None E) ∅ ∅ in
  insertCodeToComputePartDiff_bidy CI allocation0 (Some 2) = Abort.
Proof.
  intros steps E CI.
  apply (partial_difference_bidy_wide_factor CI steps "BIDY" (layout 0 None E)
           (Some 2) allocation0).
  - cbn [wfExpr E plug steps stepFirst stepTok stepOther].
    repeat split; try discriminate; try reflexivity;
      (eexists; split; [reflexivity|];
       first [discriminate | intros _; eexists; reflexivity]).
  - cbn. lia.
  - discriminate.
  - reflexivity.
  - reflexivity.
  - intros tok Hin Hop. cbn in Hin.
    repeat (apply elem_of_cons in Hin as [->|Hin]);
      try (by apply elem_of_nil in Hin); try discriminate Hop.
    by eexists.
  - reflexivity.
  - repeat constructor.
  - repeat constructor. eexists. split; [vm_compute; reflexivity|]. by right.
  - apply Exists_cons. left. eexists. split; [vm_compute; reflexivity|].
    reflexivity.
Defined.

(** ** Operators that the evaluator does not know *)

Lemma firstMatch_not_INTERM s : firstMatch s opTable ≠ Some ETO_INTERM.
Proof.
  unfold opTable. cbn [firstMatch].
  repeat match goal with
         | |- context [String.eqb s ?t] =>
             destruct (String.eqb s t) eqn:?; [discriminate|]
         end.
  congruence.
Qed.

Lemma opOf_not_INTERM s : opOf s ≠ ETO_INTERM.
Proof.
  unfold opOf, getExprTreeOp. destruct (isNumber s); [done|].
  destruct (firstMatch s opTable) as [o|] eqn:E.
  - intros ->. by eapply firstMatch_not_INTERM.
  - destruct (String.eqb _ _); [done|]. by destruct (String.eqb _ _).
Qed.

Lemma evaluate_built CI e :
  wfExpr e → nodes CI = layout 0 None e →
  evaluateExpressionTree CI (Some (nodeCount e - 1)) = evalExpr CI e.
Proof.
  intros Hwf Hnodes.
  unfold evaluateExpressionTree. rewrite Hnodes, length_layout.
  replace (nodeCount e) with (nodeCount e + 0) at 1 by lia.
  replace (nodeCount e - 1) with (0 + nodeCount e - 1) by lia.
  rewrite (toRPN_expr e 0 None _ [] [] 0 Hwf (holdsAt_self _)).
  cbn [toRPN app mbind outcome_bind]. unfold evaluateRPN, rpnValue.
  rewrite (rpnLoop_expr CI e 0 None [] Hwf).
  destruct (evalExpr CI e) as [v| | | |]; cbn [mbind outcome_bind];
    try reflexivity.
  by destruct e.
Qed.

Lemma operand_literal CI e v :
  evalExpr CI e = Ret v →
  ∃ w, getActualHostValueForLiterals CI (operandNode e v) = Ret w.
Proof.
  destruct e as [tok|tok x y]; intros He.
  - cbn [evalExpr operandNode] in *. exists v. rewrite <- He.
    unfold getActualHostValueForLiterals.
    cbn [op arg value original_str set_value builtNode].
    pose proof (opOf_not_INTERM tok). by destruct (opOf tok).
  - by eexists.
Qed.

(** The evaluator computes nothing for an operator other than a shift, a
    multiplication, an addition or an or: for a subtraction, an and, a
    division or a comparison whose two operands evaluate, the value is 1,
    whatever the operands are. *)
Theorem unknown_operator_evaluates_to_one (CI : Invocation) (tok : string)
    (x y : Expr) (h : list ExprTreeNode) (root : option ptr) (vx vy : Z) :
  wfExpr (Bin tok x y) → nodeCount (Bin tok x y) ≤ 50 →
  head (postfix (Bin tok x y)) ≠ Some "INCOMP"%string →
  createExpressionTree (reverse (postfix (Bin tok x y))) [] = Ret (h, root) →
  nodes CI = h →
  opOf tok ∉ [ETO_SHL; ETO_MUL; ETO_ADD; ETO_OR] →
  operandTerminal x = true → operandTerminal y = true →
  evalExpr CI x = Ret vx → evalExpr CI y = Ret vy →
  evaluateExpressionTree CI root = Ret 1%Z.
Proof.
  intros Hwf Hsize Hincomp Hbuild Hnodes Hop Htx Hty Hx Hy.
  rewrite (build_expr _ [] Hwf Hsize Hincomp) in Hbuild.
  injection Hbuild as <- <-. cbn [app length Nat.add] in *.
  change (nodeCount x + nodeCount y + 1) with (nodeCount (Bin tok x y)).
  rewrite (evaluate_built CI _ Hwf Hnodes).
  cbn [evalExpr]. rewrite Hy, Hx, Htx, Hty. cbn [mbind outcome_bind andb].
  destruct (operand_literal CI x vx Hx) as [wx Hwx].
  destruct (operand_literal CI y vy Hy) as [wy Hwy].
  assert (Hne : opOf tok ≠ ETO_SHL ∧ opOf tok ≠ ETO_MUL ∧ opOf tok ≠ ETO_ADD ∧
                opOf tok ≠ ETO_OR)
    by (split; [|split; [|split]]; intros E; apply Hop; rewrite E; repeat constructor).
  destruct Hne as (H1 & H2 & H3 & H4).
  unfold operate. rewrite Hwx, Hwy. cbn [mbind outcome_bind op builtNode].
  rewrite (bool_decide_false _ H1), (bool_decide_false _ H2),
    (bool_decide_false _ H3), (bool_decide_false _ H4).
  reflexivity.
Qed.

Lemma unknown_operator_evaluates_to_one_witness :
  evaluateExpressionTree
    (arg0_bound_to 100 (layout 0 None (Bin "SUB" (Leaf "ARG0") (Leaf "3"))))
    (Some 2) = Ret 1%Z.
Proof.
  apply (unknown_operator_evaluates_to_one
           (arg0_bound_to 100 (layout 0 None (Bin "SUB" (Leaf "ARG0") (Leaf "3"))))
           "SUB" (Leaf "ARG0") (Leaf "3")
           (layout 0 None (Bin "SUB" (Leaf "ARG0") (Leaf "3"))) (Some 2)
           100%Z 3%Z).
  - cbn [wfExpr].
    repeat split; try discriminate; try reflexivity;
      (eexists; split; [reflexivity|];
       first [discriminate | intros _; eexists; reflexivity]).
  - cbn. lia.
  - discriminate.
  - reflexivity.
  - reflexivity.
  - change (opOf "SUB") with ETO_SUB. rewrite !elem_of_cons, elem_of_nil.
    intros [?|[?|[?|[?|[]]]]]; discriminate.
  - reflexivity.
  - reflexivity.
  - reflexivity.
  - reflexivity.
Defined.

(** ** The partial difference with respect to the block index x *)

Lemma divisors_walk x : ∀ steps a par H acc fuel,
  wfExpr (plug steps x) → holdsAt H a (layout a par (plug steps x)) →
  divisorsLoop (length steps + fuel) H
    (Some (holeAddr a steps x + nodeCount x - 1)) acc
  = divisorsLoop fuel H (Some (a + nodeCount (plug steps x) - 1))
      (acc ++ map factorRoot (pathOperands isUDivOrSDivOp a steps x)).
Proof.
  induction steps as [|s rest IH]; intros a par H acc fuel Hwf Hh.
  - cbn [plug length holeAddr pathOperands map Nat.add]. by rewrite app_nil_r.
  - cbn [plug holeAddr pathOperands length] in *.
    replace (S (length rest) + fuel) with (length rest + S fuel) by lia.
    pose proof (nodeCount_pos (plug rest x)) as Hipos.
    pose proof (nodeCount_pos (stepOther s)) as Hopos.
    destruct (stepFirst s) eqn:Efirst.
    + expr_bin_setup Hwf Hh Hop Hin Hot Hroot Hhin Hhot.
      pose proof (holdsAt_root _ _ _ _ Hhin) as Hrin.
      rewrite (IH a _ H acc (S fuel) Hin Hhin).
      cbn [divisorsLoop]. rewrite Hrin. cbn [deref mbind outcome_bind].
      rewrite parent_rootNode.
      cbn [nodeCount] in *.
      replace (a + (nodeCount (plug rest x) + nodeCount (stepOther s) + 1) - 1)
        with (a + nodeCount (plug rest x) + nodeCount (stepOther s)) in * by lia.
      rewrite Hroot. cbn [deref mbind outcome_bind].
      unfold isUDivOrSDiv, otherChild.
      cbn [rootNode op child0 child1 builtNode].
      fold (isUDivOrSDivOp (opOf (stepTok s))).
      rewrite bool_decide_false by (intros [=]; lia).
      rewrite map_app, app_assoc.
      destruct (isUDivOrSDivOp (opOf (stepTok s))); unfold factorRoot;
        cbn [map fst snd]; [reflexivity|by rewrite app_nil_r].
    + expr_bin_setup Hwf Hh Hop Hot Hin Hroot Hhot Hhin.
      pose proof (holdsAt_root _ _ _ _ Hhin) as Hrin.
      rewrite (IH (a + nodeCount (stepOther s)) _ H acc (S fuel) Hin Hhin).
      cbn [divisorsLoop]. rewrite Hrin. cbn [deref mbind outcome_bind].
      rewrite parent_rootNode.
      cbn [nodeCount] in *.
      replace (a + (nodeCount (stepOther s) + nodeCount (plug rest x) + 1) - 1)
        with (a + nodeCount (stepOther s) + nodeCount (plug rest x)) in * by lia.
      rewrite Hroot. cbn [deref mbind outcome_bind].
      unfold isUDivOrSDiv, otherChild.
      cbn [rootNode op child0 child1 builtNode].
      fold (isUDivOrSDivOp (opOf (stepTok s))).
      rewrite bool_decide_true by done.
      rewrite map_app, app_assoc.
      destruct (isUDivOrSDivOp (opOf (stepTok s))); unfold factorRoot;
        cbn [map fst snd]; [reflexivity|by rewrite app_nil_r].
Qed.

Lemma divisorsLoop_null fuel H acc : divisorsLoop fuel H None acc = Ret acc.
Proof. by destruct fuel. Qed.

Lemma findDivisors_path ax steps :
  wfExpr (plug steps (Leaf ax)) →
  findDivisorsByTraversingUpExprTree (layout 0 None (plug steps (Leaf ax)))
    (Some (nodeCount (plug steps (Leaf ax)) - 1))
    (Some (holeAddr 0 steps (Leaf ax)))
  = Ret (map factorRoot (divisors 0 steps (Leaf ax))).
Proof.
  intros Hwf. set (e := plug steps (Leaf ax)). set (H := layout 0 None e).
  pose proof (holdsAt_self H) as Hh.
  destruct (hole_held (Leaf ax) steps 0 None H Hh) as [par' Hhole].
  pose proof (holdsAt_root _ _ _ _ Hhole) as Hleaf.
  pose proof (holdsAt_root _ _ _ _ Hh) as Hroot.
  cbn [nodeCount] in Hleaf.
  unfold findDivisorsByTraversingUpExprTree.
  cbn [deref mbind outcome_bind].
  replace (holeAddr 0 steps (Leaf ax))
    with (holeAddr 0 steps (Leaf ax) + 1 - 1) by lia.
  rewrite Hleaf. cbn [deref mbind outcome_bind].
  pose proof (nodeCount_plug steps (Leaf ax)) as Hcount. cbn [nodeCount] in Hcount.
  fold e in Hcount.
  replace (length H) with (length steps + S (nodeCount e - length steps - 1))
    by (unfold H; rewrite length_layout; lia).
  unfold divisors. rewrite (divisors_walk (Leaf ax) steps 0 None H [] _ Hwf Hh).
  fold e. cbn [divisorsLoop app]. rewrite Hroot.
  cbn [deref mbind outcome_bind]. rewrite parent_rootNode.
  apply divisorsLoop_null.
Qed.

Lemma divisorsInCode_divisors U H : ∀ fs,
  Forall (factorHeld H) fs →
  divisorsInCode (length H) H U (map factorRoot fs) = divisorCodes U fs.
Proof.
  induction fs as [|f fs IH]; intros Hfs; [reflexivity|].
  apply Forall_cons in Hfs as [(Hwf & p & pn & Hh & Hp & Hop) Hfs].
  pose proof (holdsAt_root _ _ _ _ Hh) as Hroot.
  pose proof (holdsAt_length _ _ _ _ Hh) as Hlen.
  cbn [map divisorsInCode divisorCodes]. unfold divisorCode.
  change (factorRoot f) with (Some (f.1 + nodeCount (stepOther f.2) - 1)).
  cbn [deref mbind outcome_bind]. rewrite Hroot. cbn [deref mbind outcome_bind].
  replace (length H)
    with (nodeCount (stepOther f.2) + (length H - nodeCount (stepOther f.2)))
    at 1 by lia.
  rewrite (insertTree_expr U _ _ _ H _ Hwf Hh).
  by rewrite (IH Hfs).
Qed.

Lemma collectExpr_plug Op ax : ∀ steps a,
  wfExpr (plug steps (Leaf ax)) → opOf ax = Op → isOperationOp Op = false →
  Forall (λ s, existsb (tokenHasOp Op) (postfix (stepOther s)) = false) steps →
  collectExpr Op a (plug steps (Leaf ax)) = [holeAddr a steps (Leaf ax)].
Proof.
  induction steps as [|s rest IH]; intros a Hwf Hax HOp Hno;
    cbn [plug holeAddr collectExpr] in *.
  - by rewrite bool_decide_true.
  - apply Forall_cons in Hno as [Hs Hno].
    destruct (stepFirst s); cbn [collectExpr];
      destruct Hwf as (_ & Hop & _ & Hx & Hy);
      (rewrite bool_decide_false by (intros E; rewrite E in Hop; congruence)).
    + rewrite (collectExpr_nil Op _ _ Hs). by rewrite IH.
    + rewrite (collectExpr_nil Op _ _ Hs), IH by done. by rewrite app_nil_r.
Qed.

Lemma bidx_path CI steps ax Allocation :
  wfExpr (plug steps (Leaf ax)) →
  nodes CI = layout 0 None (plug steps (Leaf ax)) →
  argsBound CI (plug steps (Leaf ax)) → opOf ax = ETO_BIDX →
  Forall (λ s, existsb (tokenHasOp ETO_BIDX) (postfix (stepOther s)) = false)
    steps →
  insertCodeToComputePartDiff_bidx CI Allocation
    (Some (nodeCount (plug steps (Leaf ax)) - 1))
  = (ms ← factorCodes (exprUnknowns CI 0 (plug steps (Leaf ax)) ∅)
            (factors 0 steps (Leaf ax));
     dvs ← divisorCodes (exprUnknowns CI 0 (plug steps (Leaf ax)) ∅)
             (divisors 0 steps (Leaf ax));
     acc ← accumulate ETO_MUL (Some (VConst i32 1)) ms;
     acc ← accumulate ETO_DIV acc dvs;
     acc ← insertCodeToCastInt32ToInt64 acc;
     insertComputationNode (Some (VIntCast (VConst i32 0) i64 true)) (Some acc)
       ETO_ADD).
Proof.
  intros Hwf Hnodes Hbound Hax Hno.
  pose proof (unknownsOf_expr CI _ Hwf Hnodes) as HU.
  rewrite (dumpUnknowns_Some (exprUnknowns CI 0 _ ∅)) in HU
    by (apply exprUnknowns_bound; [done|done|apply map_Forall_empty]).
  cbn [mbind outcome_bind] in HU.
  unfold insertCodeToComputePartDiff_bidx. rewrite HU. cbn [mbind outcome_bind].
  rewrite Hnodes, length_layout, collect_built by done.
  cbn [mbind outcome_bind].
  rewrite (collectExpr_plug ETO_BIDX ax steps 0 Hwf Hax eq_refl Hno).
  change (insertCodeToCastInt32ToInt64 (Some (insertConstantNode_unsigned 0)))
    with (Ret (VIntCast (VConst i32 0) i64 true)).
  cbn [mbind outcome_bind sumOverNodes].
  unfold productInCode. rewrite Hnodes.
  rewrite (findMultipliers_path ax steps Hwf). cbn [mbind outcome_bind].
  unfold factors, divisors.
  rewrite (multipliersInCode_factors _ _ _
             (pathOperands_held isMulOrShlOp (Leaf ax) steps 0 None _ Hwf
                (holdsAt_self _))).
  destruct (factorCodes _ _) as [ms| | | |]; cbn [mbind outcome_bind];
    try reflexivity.
  rewrite (findDivisors_path ax steps Hwf). cbn [mbind outcome_bind].
  unfold divisors.
  rewrite (divisorsInCode_divisors _ _ _
             (pathOperands_held isUDivOrSDivOp (Leaf ax) steps 0 None _ Hwf
                (holdsAt_self _))).
  destruct (divisorCodes _ _) as [dvs| | | |]; cbn [mbind outcome_bind];
    try reflexivity.
  change (insertConstantNode_unsigned 1) with (VConst i32 1).
  destruct (accumulate ETO_MUL _ ms) as [acc| | | |];
    cbn [mbind outcome_bind]; try reflexivity.
  destruct (accumulate ETO_DIV _ dvs) as [acc'| | | |];
    cbn [mbind outcome_bind]; try reflexivity.
  destruct (insertCodeToCastInt32ToInt64 acc') as [c| | | |];
    cbn [mbind outcome_bind]; try reflexivity.
  destruct (insertComputationNode _ _ ETO_ADD); reflexivity.
Qed.

Lemma insertComputationNode_div_i32 a b :
  typeOf a = i32 → typeOf b = i32 →
  insertComputationNode (Some a) (Some b) ETO_DIV = Ret (Some (VBin IUDiv a b)).
Proof.
  intros Ha Hb. unfold insertComputationNode, createBin.
  rewrite Ha, Hb. simpl. rewrite Ha, Hb. reflexivity.
Qed.

Lemma accumulate_div rho : ∀ vs ds acc a,
  typeOf acc = i32 → denote rho acc = Some a →
  Forall2 (λ v d, ∃ c, v = Some c ∧ typeOf c = i32 ∧ denote rho c = Some d ∧
                       d ≠ 0%Z) vs ds →
  ∃ r, accumulate ETO_DIV (Some acc) vs = Ret (Some r) ∧ typeOf r = i32 ∧
       denote rho r = Some (fold_left Z.div ds a).
Proof.
  intros vs ds acc a Ht Hd Hvs. revert acc a Ht Hd.
  induction Hvs as [|v d vs ds (c & -> & Hc & Hdc & Hnz) _ IH]; intros acc a Ht Hd.
  - by exists acc.
  - cbn [accumulate deref mbind outcome_bind].
    rewrite insertComputationNode_div_i32 by done. cbn [mbind outcome_bind].
    destruct (IH (VBin IUDiv acc c) (a / d)%Z) as (r & Hr & Htr & Hdr).
    + done.
    + cbn [denote]. rewrite Hd, Hdc, Ht. cbn [mbind option_bind width].
      by destruct (Z.eqb_spec d 0).
    + by exists r.
Qed.

Lemma divisorCodes_values rho U : ∀ fs ds,
  Forall2 (λ f d, ∃ v, divisorCode U f = Ret (Some v) ∧ typeOf v = i32 ∧
                       denote rho v = Some d ∧ d ≠ 0%Z) fs ds →
  ∃ vs, divisorCodes U fs = Ret vs ∧
        Forall2 (λ v d, ∃ c, v = Some c ∧ typeOf c = i32 ∧
                             denote rho c = Some d ∧ d ≠ 0%Z) vs ds.
Proof.
  intros fs ds Hfs.
  induction Hfs as [|f d fs ds (v & Hv & Ht & Hd) _ (vs & Hvs & IH)].
  - exists []. split; [reflexivity|constructor].
  - exists (Some v :: vs). cbn [divisorCodes]. rewrite Hv, Hvs. split; [reflexivity|].
    constructor; [by exists v|done].
Qed.

(** The code generated for the partial difference with respect to the block
    index x, for an expression in which the block index x occurs once.  The
    product of the factors on the path from that leaf to the root is computed
    in 32 bits and then divided, by unsigned 32-bit divisions, by the other
    operand of every unsigned or signed division on the path, from the leaf
    upwards, wherever the divisions stand among the multiplications; the
    quotient is sign-extended to 64 bits and added to 0. *)
Theorem partial_difference_bidx_quotient (CI : Invocation)
    (steps : list PathStep) (ax : string) (h : list ExprTreeNode)
    (root : option ptr) (Allocation : HostValue) (rho : nat → Z)
    (ms dvs : list Z) :
  wfExpr (plug steps (Leaf ax)) →
  nodeCount (plug steps (Leaf ax)) ≤ 50 →
  head (postfix (plug steps (Leaf ax))) ≠ Some "INCOMP"%string →
  createExpressionTree (reverse (postfix (plug steps (Leaf ax)))) [] = Ret (h, root) →
  nodes CI = h →
  argsBound CI (plug steps (Leaf ax)) →
  opOf ax = ETO_BIDX →
  Forall (λ s, existsb (tokenHasOp ETO_BIDX) (postfix (stepOther s)) = false)
    steps →
  Forall2 (λ f d, ∃ v,
             factorCode (exprUnknowns CI 0 (plug steps (Leaf ax)) ∅) f
             = Ret (Some v) ∧ typeOf v = i32 ∧ denote rho v = Some d)
    (factors 0 steps (Leaf ax)) ms →
  Forall2 (λ f d, ∃ v,
             divisorCode (exprUnknowns CI 0 (plug steps (Leaf ax)) ∅) f
             = Ret (Some v) ∧ typeOf v = i32 ∧ denote rho v = Some d ∧ d ≠ 0%Z)
    (divisors 0 steps (Leaf ax)) dvs →
  ∃ v, insertCodeToComputePartDiff_bidx CI Allocation root = Ret (Some v) ∧
       typeOf v = i64 ∧
       denote rho v
       = Some (signedOf 32 (fold_left Z.div dvs (product ms mod 2 ^ 32))
               mod 2 ^ 64)%Z.
Proof.
  intros Hwf Hsize Hincomp Hbuild Hnodes Hbound Hax Hno Hms Hdvs.
  rewrite (build_expr _ [] Hwf Hsize Hincomp) in Hbuild.
  injection Hbuild as <- <-. cbn [app length Nat.add] in *.
  rewrite (bidx_path CI steps ax Allocation Hwf Hnodes Hbound Hax Hno).
  destruct (factorCodes_values rho _ _ _ Hms) as (vs & Hvs & Hvals).
  rewrite Hvs. cbn [mbind outcome_bind].
  destruct (divisorCodes_values rho _ _ _ Hdvs) as (ws & Hws & Hwvals).
  rewrite Hws. cbn [mbind outcome_bind].
  destruct (accumulate_mul rho vs ms (VConst i32 1) 1%Z eq_refl eq_refl
              ltac:(lia) Hvals) as (r & Hr & Htr & Hdr).
  rewrite Hr. cbn [mbind outcome_bind]. rewrite Z.mul_1_l in Hdr.
  destruct (accumulate_div rho ws dvs r _ Htr Hdr Hwvals) as (q & Hq & Htq & Hdq).
  rewrite Hq. cbn [mbind outcome_bind].
  unfold insertCodeToCastInt32ToInt64. cbn [deref mbind outcome_bind].
  rewrite bool_decide_true by done. cbn [mbind outcome_bind].
  eexists. split; [reflexivity|]. split; [reflexivity|].
  cbn [denote typeOf]. rewrite Hdq, Htq. cbn [mbind option_bind width].
  f_equal. change (signedOf 32 (0 mod 2 ^ 32) mod 2 ^ 64)%Z with 0%Z.
  by rewrite Z.add_0_l, Z.mod_mod.
Qed.

Lemma partial_difference_bidx_quotient_witness :
  let steps := [mkStep "UDIV" (Leaf "4") true; mkStep "MUL" (Leaf "BDIMX") true] in
  let E := plug steps (Leaf "BIDX") in
  let CI := mkInvocation {[ AXIS_TYPE_BDIMX := 256%Z ]} ∅ ∅ ∅ ∅ ∅ ∅ ∅
              (layout 0 None E) ∅ ∅ in
  ∃ v, insertCodeToComputePartDiff_bidx CI allocation0 (Some 4) = Ret (Some v) ∧
       typeOf v = i64 ∧
       denote (λ _, 0%Z) v
       = Some (signedOf 32 (fold_left Z.div [4] (product [256] mod 2 ^ 32))
               mod 2 ^ 64)%Z.
Proof.
  intros steps E CI.
  apply (partial_difference_bidx_quotient CI steps "BIDX" (layout 0 None E)
           (Some 4) allocation0 (λ _, 0%Z) [256]%Z [4]%Z).
  - cbn [wfExpr E plug steps stepFirst stepTok stepOther].
    repeat split; try discriminate; try reflexivity;
      (eexists; split; [reflexivity|];
       first [discriminate | intros _; eexists; reflexivity]).
  - cbn. lia.
  - discriminate.
  - reflexivity.
  - reflexivity.
  - intros tok Hin Hop. cbn in Hin.
    repeat (apply elem_of_cons in Hin as [->|Hin]);
      try (by apply elem_of_nil in Hin); try discriminate Hop.
  - reflexivity.
  - repeat constructor.
  - repeat constructor; eexists; (split; [vm_compute; reflexivity|]);
      split; reflexivity.
  - repeat constructor; eexists; (split; [vm_compute; reflexivity|]);
      repeat split; discriminate.
Defined.

(** ** Loops whose bounds are expressions *)

Lemma insertLoopIters_null fuel H U :
  insertLoopItersEvaluationCode fuel H U None = Ret None.
Proof. by destruct fuel. Qed.

Lemma insertLoopIters_expr U e : ∀ a par H fuel,
  wfExpr e → holdsAt H a (layout a par e) →
  insertLoopItersEvaluationCode (nodeCount e + fuel) H U
    (Some (a + nodeCount e - 1))
  = exprItersCode U a e.
Proof.
  induction e as [tok|tok x IHx y IHy]; intros a par H fuel Hwf Hh.
  - pose proof (holdsAt_root _ _ _ _ Hh) as Hroot.
    cbn [nodeCount] in *. replace (a + 1 - 1) with a in * by lia.
    change (1 + fuel) with (S fuel).
    cbn [insertLoopItersEvaluationCode]. rewrite Hroot.
    cbn [deref mbind outcome_bind exprItersCode].
    unfold isTerminal. cbn [rootNode op child0 child1 original_str builtNode].
    destruct (isTerminalOp (opOf tok)).
    + destruct (U !! a) as [val|]; [reflexivity|].
      destruct (opOf tok); reflexivity.
    + by rewrite !insertLoopIters_null.
  - expr_bin_setup Hwf Hh Hop Hx Hy Hroot Hhx Hhy.
    pose proof (nodeCount_pos x) as Hxpos. pose proof (nodeCount_pos y) as Hypos.
    cbn [nodeCount] in *.
    replace (nodeCount x + nodeCount y + 1 + fuel)
      with (S (nodeCount y + (nodeCount x + fuel))) by lia.
    cbn [insertLoopItersEvaluationCode]. rewrite Hroot.
    cbn [deref mbind outcome_bind exprItersCode].
    unfold isTerminal. cbn [rootNode op child0 child1 builtNode].
    rewrite (operation_not_terminal _ Hop).
    replace (a + nodeCount x + nodeCount y - 1)
      with ((a + nodeCount x) + nodeCount y - 1) by lia.
    rewrite (IHy (a + nodeCount x) _ H _ Hy Hhy).
    replace (nodeCount y + (nodeCount x + fuel))
      with (nodeCount x + (nodeCount y + fuel)) by lia.
    by rewrite (IHx a _ H _ Hx Hhx).
Qed.

Lemma partiallyEvaluatedLoopIters_exprs cat L toks ein efin estep h :
  (0 < L < 2 ^ 32)%Z →
  LoopIDToLoopBoundsMap cat !! L = Some toks →
  splitTokens toks 0 ([], [], [])
  = (reverse (postfix ein), reverse (postfix efin), reverse (postfix estep)) →
  wfExpr ein → nodeCount ein ≤ 50 → head (postfix ein) ≠ Some "INCOMP"%string →
  wfExpr efin → nodeCount efin ≤ 50 → head (postfix efin) ≠ Some "INCOMP"%string →
  wfExpr estep → nodeCount estep ≤ 50 →
  head (postfix estep) ≠ Some "INCOMP"%string →
  partiallyEvaluatedLoopIters cat (s32 L) h
  = Ret (h ++ boundsTree (length h) ein efin estep,
         Some (length h + nodeCount ein + nodeCount efin + nodeCount estep + 1)).
Proof.
  intros HL Htoks Hsplit W1 S1 I1 W2 S2 I2 W3 S3 I3.
  destruct (u32_s32 L) as [Hu Hz]; [lia|].
  unfold partiallyEvaluatedLoopIters.
  rewrite bool_decide_false by (intros E; apply Hz in E; lia).
  rewrite Hu, Htoks, Hsplit.
  rewrite (build_expr ein h W1 S1 I1). cbn [mbind outcome_bind].
  rewrite (build_expr efin _ W2 S2 I2). cbn [mbind outcome_bind].
  rewrite (build_expr estep _ W3 S3 I3). cbn [mbind outcome_bind].
  rewrite !bool_decide_false by done. cbn [orb].
  unfold doOperationOnNodes, boundsTree.
  rewrite <- !app_assoc. cbn [app].
  rewrite !length_app, !length_layout. cbn [length].
  pose proof (nodeCount_pos ein). pose proof (nodeCount_pos efin).
  pose proof (nodeCount_pos estep).
  rewrite !Nat.add_assoc. reflexivity.
Qed.

Lemma holdsAt_middle (pre L post : list ExprTreeNode) a :
  a = length pre → holdsAt (pre ++ L ++ post) a L.
Proof.
  intros -> i n Hi. rewrite lookup_app_r by lia.
  replace (length pre + i - length pre) with i by lia.
  by apply lookup_app_l_Some.
Qed.

Lemma insertComputationNode_sub_i32 a b :
  typeOf a = i32 → typeOf b = i32 →
  insertComputationNode (Some a) (Some b) ETO_SUB = Ret (Some (VBin ISub a b)).
Proof.
  intros Ha Hb. unfold insertComputationNode, createBin.
  rewrite Ha, Hb. simpl. rewrite Ha, Hb. reflexivity.
Qed.

(** A tree whose code is emitted has no null value among its unknowns. *)
Lemma exprItersCode_values CI e : ∀ a Uf U0 r,
  exprItersCode Uf a e = Ret r →
  (∀ k, a ≤ k < a + nodeCount e → U0 !! k = None) →
  (∀ k, a ≤ k < a + nodeCount e → Uf !! k = exprUnknowns CI a e U0 !! k) →
  ∀ k, a ≤ k < a + nodeCount e → Uf !! k ≠ Some None.
Proof.
  induction e as [tok|tok x IHx y IHy]; intros a Uf U0 r Hc H0 Hagree k Hk;
    cbn [exprItersCode nodeCount] in *.
  - assert (k = a) as -> by lia. intros Hnull. rewrite Hnull in Hc.
    by destruct (isTerminalOp (opOf tok)).
  - destruct (exprItersCode Uf (a + nodeCount x) y) as [Left| | | |] eqn:Ey;
      cbn [mbind outcome_bind] in Hc; try discriminate.
    destruct (exprItersCode Uf a x) as [Right| | | |] eqn:Ex;
      cbn [mbind outcome_bind] in Hc; try discriminate.
    destruct (decide (k < a + nodeCount x)) as [Hx|Hx].
    + apply (IHx a Uf (exprUnknowns CI (a + nodeCount x) y U0) _ Ex); [| |lia].
      * intros j Hj. rewrite exprUnknowns_outside by lia. apply H0. lia.
      * intros j Hj. rewrite Hagree by lia. reflexivity.
    + destruct (decide (k < a + nodeCount x + nodeCount y)) as [Hy|Hy].
      * apply (IHy (a + nodeCount x) Uf U0 _ Ey); [| |lia].
        -- intros j Hj. apply H0. lia.
        -- intros j Hj. rewrite Hagree by lia. cbn [exprUnknowns].
           by rewrite exprUnknowns_outside by lia.
      * rewrite Hagree by lia. cbn [exprUnknowns].
        rewrite !exprUnknowns_outside by lia. rewrite H0 by lia. done.
Qed.

(** The unknowns of three bounds whose code is emitted are not null. *)
Lemma boundsUnknowns_values CI a ein efin estep rin rfin rstep :
  exprItersCode (boundsUnknowns CI a ein efin estep) a ein = Ret rin →
  exprItersCode (boundsUnknowns CI a ein efin estep) (a + nodeCount ein) efin
    = Ret rfin →
  exprItersCode (boundsUnknowns CI a ein efin estep)
    (a + nodeCount ein + nodeCount efin) estep = Ret rstep →
  map_Forall (λ _ v, is_Some v) (boundsUnknowns CI a ein efin estep).
Proof.
  intros C1 C2 C3 k v Hkv.
  destruct v as [v|]; [by eexists|]. exfalso.
  set (n1 := nodeCount ein) in *. set (n2 := nodeCount efin) in *.
  set (n3 := nodeCount estep) in *.
  destruct (decide (a ≤ k < a + n1)) as [H1|H1].
  { refine (exprItersCode_values CI ein a _ (exprUnknowns CI (a + n1) efin ∅)
              _ C1 _ _ k H1 Hkv).
    - intros j Hj. rewrite exprUnknowns_outside by (fold n2; lia). done.
    - intros j Hj. unfold boundsUnknowns. fold n1 n2.
      by rewrite exprUnknowns_outside by (fold n3; lia). }
  destruct (decide (a + n1 ≤ k < a + n1 + n2)) as [H2|H2].
  { refine (exprItersCode_values CI efin (a + n1) _ ∅ _ C2 _ _ k H2 Hkv).
    - intros j Hj. done.
    - intros j Hj. unfold boundsUnknowns. fold n1 n2.
      rewrite exprUnknowns_outside by (fold n3; lia).
      by rewrite exprUnknowns_outside by (fold n1; lia). }
  destruct (decide (a + n1 + n2 ≤ k < a + n1 + n2 + n3)) as [H3|H3].
  { refine (exprItersCode_values CI estep (a + n1 + n2) _
              (exprUnknowns CI a ein (exprUnknowns CI (a + n1) efin ∅))
              _ C3 _ _ k H3 Hkv).
    - intros j Hj. rewrite exprUnknowns_outside by (fold n1; lia).
      rewrite exprUnknowns_outside by (fold n2; lia). done.
    - intros j Hj. reflexivity. }
  unfold boundsUnknowns in Hkv. fold n1 n2 in Hkv.
  rewrite exprUnknowns_outside in Hkv by (fold n3; lia).
  rewrite exprUnknowns_outside in Hkv by (fold n1; lia).
  rewrite exprUnknowns_outside in Hkv by (fold n2; lia). done.
Qed.

Lemma loopIterationEntry_exprs CI cat L toks ein efin estep h N I
    cin cfin cstep :
  (0 < L < 2 ^ 32)%Z →
  LoopIDToLoopBoundsMap cat !! L = Some toks →
  splitTokens toks 0 ([], [], [])
  = (reverse (postfix ein), reverse (postfix efin), reverse (postfix estep)) →
  boundBuilt (boundsUnknowns CI (length h) ein efin estep) (length h) ein cin →
  boundBuilt (boundsUnknowns CI (length h) ein efin estep)
    (length h + nodeCount ein) efin cfin →
  boundBuilt (boundsUnknowns CI (length h) ein efin estep)
    (length h + nodeCount ein + nodeCount efin) estep cstep →
  loopIterationEntry CI cat L (h, N, I)
  = (FinMinusIn ← insertComputationNode (Some cfin) (Some cin) ETO_SUB;
     ItersValue ← insertComputationNode FinMinusIn (Some cstep) ETO_DIV;
     v ← deref ItersValue;
     if bool_decide (typeOf v = i32) then
       Ret (h ++ boundsTree (length h) ein efin estep,
            <[L := ItersValue]> N, <[L := false]> I)
     else Abort).
Proof.
  intros HL Htoks Hsplit (W1 & S1 & I1 & C1) (W2 & S2 & I2 & C2)
    (W3 & S3 & I3 & C3).
  unfold loopIterationEntry.
  rewrite (partiallyEvaluatedLoopIters_exprs cat L toks ein efin estep h
             HL Htoks Hsplit W1 S1 I1 W2 S2 I2 W3 S3 I3).
  cbn [mbind outcome_bind].
  set (a := length h) in *. set (n1 := nodeCount ein) in *.
  set (n2 := nodeCount efin) in *. set (n3 := nodeCount estep) in *.
  set (H := h ++ boundsTree a ein efin estep).
  pose proof (nodeCount_pos ein) as P1. pose proof (nodeCount_pos efin) as P2.
  pose proof (nodeCount_pos estep) as P3. fold n1 in P1. fold n2 in P2. fold n3 in P3.
  assert (Hlen : length H = S (S (a + n1 + n2 + n3))).
  { unfold H, boundsTree. rewrite !length_app, !length_layout. cbn [length].
    fold a n1 n2 n3. lia. }
  assert (Hin : holdsAt H a (layout a None ein)).
  { unfold H, boundsTree. by apply holdsAt_middle. }
  assert (Hfin : holdsAt H (a + n1) (layout (a + n1) None efin)).
  { unfold H, boundsTree. rewrite (app_assoc h). apply holdsAt_middle.
    rewrite length_app, length_layout. reflexivity. }
  assert (Hst : holdsAt H (a + n1 + n2) (layout (a + n1 + n2) None estep)).
  { unfold H, boundsTree. rewrite (app_assoc (layout a None ein)), (app_assoc h).
    apply holdsAt_middle. rewrite !length_app, !length_layout. fold a n1 n2. lia. }
  assert (Hsub : H !! (a + n1 + n2 + n3)
                 = Some (set_children (Some (a + n1 + n2 - 1)) (Some (a + n1 - 1))
                           (set_op ETO_SUB new_ExprTreeNode))).
  { unfold H, boundsTree. rewrite !app_assoc.
    rewrite lookup_app_r by (rewrite !length_app, !length_layout; fold a n1 n2 n3; lia).
    rewrite !length_app, !length_layout. fold a n1 n2 n3.
    by replace (a + n1 + n2 + n3 - (a + n1 + n2 + n3)) with 0 by lia. }
  assert (Hdiv : H !! (a + n1 + n2 + n3 + 1)
                 = Some (set_children (Some (a + n1 + n2 + n3))
                           (Some (a + n1 + n2 + n3 - 1))
                           (set_op ETO_DIV new_ExprTreeNode))).
  { unfold H, boundsTree. rewrite !app_assoc.
    rewrite lookup_app_r by (rewrite !length_app, !length_layout; fold a n1 n2 n3; lia).
    rewrite !length_app, !length_layout. fold a n1 n2 n3.
    by replace (a + n1 + n2 + n3 + 1 - (a + n1 + n2 + n3)) with 1 by lia. }
  rewrite Hlen.
  (* the unknowns *)
  rewrite (identifyUnknowns_inner _ _ _ _ _ _ Hdiv) by reflexivity.
  cbn [child0 child1 set_children].
  replace (S (a + n1 + n2 + n3)) with (S (n2 + (a + n1 + n3))) at 1 by lia.
  rewrite (identifyUnknowns_inner _ _ _ _ _ _ Hsub) by reflexivity.
  cbn [child0 child1 set_children].
  replace (a + n1 + n2 - 1) with ((a + n1) + n2 - 1) by lia.
  rewrite (identifyUnknowns_expr CI efin (a + n1) None H ∅ _ W2 Hfin).
  cbn [mbind outcome_bind].
  replace (n2 + (a + n1 + n3)) with (n1 + (a + n2 + n3)) by lia.
  rewrite (identifyUnknowns_expr CI ein a None H _ _ W1 Hin).
  cbn [mbind outcome_bind].
  replace (S (a + n1 + n2 + n3)) with (n3 + S (a + n1 + n2)) at 1 by lia.
  replace (a + n1 + n2 + n3 - 1) with ((a + n1 + n2) + n3 - 1) by lia.
  rewrite (identifyUnknowns_expr CI estep (a + n1 + n2) None H _ _ W3 Hst).
  cbn [mbind outcome_bind].
  change (exprUnknowns CI (a + n1 + n2) estep
            (exprUnknowns CI a ein (exprUnknowns CI (a + n1) efin ∅)))
    with (boundsUnknowns CI a ein efin estep).
  rewrite (dumpUnknowns_Some _ (boundsUnknowns_values _ _ _ _ _ _ _ _ C1 C2 C3)).
  cbn [mbind outcome_bind].
  (* the code *)
  replace ((a + n1 + n2) + n3 - 1) with (a + n1 + n2 + n3 - 1) in * by lia.
  rewrite (insertLoopIters_inner _ _ _ _ _ Hdiv) by reflexivity.
  cbn [child0 child1 set_children op set_op].
  replace (S (a + n1 + n2 + n3)) with (S (n2 + (a + n1 + n3))) at 1 by lia.
  rewrite (insertLoopIters_inner _ _ _ _ _ Hsub) by reflexivity.
  cbn [child0 child1 set_children op set_op].
  replace (a + n1 + n2 - 1) with ((a + n1) + n2 - 1) by lia.
  rewrite (insertLoopIters_expr _ efin (a + n1) None H _ W2 Hfin), C2.
  cbn [mbind outcome_bind].
  replace (n2 + (a + n1 + n3)) with (n1 + (a + n2 + n3)) by lia.
  rewrite (insertLoopIters_expr _ ein a None H _ W1 Hin), C1.
  cbn [mbind outcome_bind].
  replace (S (a + n1 + n2 + n3)) with (n3 + S (a + n1 + n2)) by lia.
  replace (a + n1 + n2 + n3 - 1) with ((a + n1 + n2) + n3 - 1) by lia.
  rewrite (insertLoopIters_expr _ estep (a + n1 + n2) None H _ W3 Hst), C3.
  destruct (insertComputationNode (Some cfin) (Some cin) ETO_SUB)
    as [FinMinusIn| | | |]; cbn [mbind outcome_bind]; try reflexivity.
Qed.

Lemma insertComputationNode_sub_div_int Op a b :
  Op = ETO_SUB ∨ Op = ETO_DIV →
  (typeOf a = i32 ∨ typeOf a = i64) → (typeOf b = i32 ∨ typeOf b = i64) →
  ∃ r, insertComputationNode (Some a) (Some b) Op = Ret (Some r) ∧
       typeOf r = (if bool_decide (typeOf a = i32) && bool_decide (typeOf b = i32)
                   then i32 else i64).
Proof.
  intros HOp Ha Hb.
  unfold insertComputationNode, castIfInt32, insertCodeToCastInt32ToInt64, createBin.
  destruct HOp as [-> | ->]; destruct Ha as [Ha|Ha], Hb as [Hb|Hb];
    do 4 (rewrite ?Ha, ?Hb; simpl);
    eexists; (split; [reflexivity|]); simpl; by rewrite ?Ha, ?Hb.
Qed.

(** A loop whose initial bound, final bound and step are expressions (of the
    arguments of the kernel, the block dimensions and constants): when the
    code of each of the three is a 32-bit value, the loop is recorded as
    computable and its iteration count is the code of
    [(final - initial) / step], a 32-bit subtraction followed by an unsigned
    division, which evaluates to the wrapped difference divided by the
    step. *)
Theorem loop_iterations_of_expressions (CI : Invocation) (cat : Catalogue)
    (L : Z) (toks : list string) (ein efin estep : Expr)
    (h : list ExprTreeNode) (N : gmap Z (option IRValue)) (I : gmap Z bool)
    (rho : nat → Z) (cin cfin cstep : IRValue) (din dfin dstep : Z) :
  (0 < L < 2 ^ 32)%Z →
  LoopIDToLoopBoundsMap cat !! L = Some toks →
  splitTokens toks 0 ([], [], [])
  = (reverse (postfix ein), reverse (postfix efin), reverse (postfix estep)) →
  boundBuilt (boundsUnknowns CI (length h) ein efin estep) (length h) ein cin →
  boundBuilt (boundsUnknowns CI (length h) ein efin estep)
    (length h + nodeCount ein) efin cfin →
  boundBuilt (boundsUnknowns CI (length h) ein efin estep)
    (length h + nodeCount ein + nodeCount efin) estep cstep →
  typeOf cin = i32 → typeOf cfin = i32 → typeOf cstep = i32 →
  denote rho cin = Some din → denote rho cfin = Some dfin →
  denote rho cstep = Some dstep → dstep ≠ 0%Z →
  ∃ h' ItersValue,
    loopIterationEntry CI cat L (h, N, I)
    = Ret (h', <[L := Some ItersValue]> N, <[L := false]> I) ∧
    typeOf ItersValue = i32 ∧
    denote rho ItersValue = Some (((dfin - din) mod 2 ^ 32) / dstep)%Z.
Proof.
  intros HL Htoks Hsplit B1 B2 B3 T1 T2 T3 D1 D2 D3 Hstep.
  rewrite (loopIterationEntry_exprs CI cat L toks ein efin estep h N I
             cin cfin cstep HL Htoks Hsplit B1 B2 B3).
  rewrite (insertComputationNode_sub_i32 _ _ T2 T1). cbn [mbind outcome_bind].
  rewrite (insertComputationNode_div_i32 (VBin ISub cfin cin) cstep T2 T3).
  cbn [mbind outcome_bind deref typeOf]. rewrite T2.
  eexists _, _. split; [reflexivity|]. split; [done|].
  cbn [denote typeOf]. rewrite D1, D2, D3, T2.
  cbn [mbind option_bind width]. by destruct (Z.eqb_spec dstep 0).
Qed.

Lemma loop_iterations_of_expressions_witness :
  let CI := mkInvocation ∅ ∅ ∅ ∅ {[ 1%Z := mkValue 7 KOther i32 ]} ∅ ∅ ∅ [] ∅ ∅ in
  ∃ h' ItersValue,
    loopIterationEntry CI
      (one_loop ["IN"; "0"; "FIN"; "ADD"; "ARG1"; "BDIMX"; "STEP"; "2"]%string)
      1 ([], ∅, ∅)
    = Ret (h', <[1%Z := Some ItersValue]> ∅, <[1%Z := false]> ∅) ∧
    typeOf ItersValue = i32 ∧
    denote (λ _, 1000%Z) ItersValue = Some (((1000 - 0) mod 2 ^ 32) / 2)%Z.
Proof.
  intros CI.
  apply (loop_iterations_of_expressions CI
           (one_loop ["IN"; "0"; "FIN"; "ADD"; "ARG1"; "BDIMX"; "STEP"; "2"]%string)
           1%Z ["IN"; "0"; "FIN"; "ADD"; "ARG1"; "BDIMX"; "STEP"; "2"]%string
           (Leaf "0") (Bin "ADD" (Leaf "BDIMX") (Leaf "ARG1")) (Leaf "2")
           [] ∅ ∅ (λ _, 1000%Z)
           (VConst i32 0)
           (VBin IAdd (VHost (mkValue 7 KOther i32) i32) (VConst i32 0))
           (VConst i32 2) 0%Z 1000%Z 2%Z).
  - lia.
  - reflexivity.
  - reflexivity.
  - repeat split; try discriminate; try (cbn; lia);
      try (eexists; split; [reflexivity|]; discriminate).
  - repeat split; try discriminate; try (cbn; lia);
      try (eexists; split; [reflexivity|];
           first [discriminate | intros _; eexists; reflexivity]).
  - repeat split; try discriminate; try (cbn; lia);
      try (eexists; split; [reflexivity|]; discriminate).
  - reflexivity.
  - reflexivity.
  - reflexivity.
  - reflexivity.
  - reflexivity.
  - reflexivity.
  - discriminate.
Defined.

(** A 64-bit loop bound stops the pass.  When the code of each bound is a
    32-bit or a 64-bit value and one of them is 64 bits wide (an argument
    bound to a 64-bit actual argument, say), the iteration count is 64 bits
    wide and the assertion of [insertCodeToPrintGenericInt32] on it fails. *)
Theorem loop_iterations_wide_bound (CI : Invocation) (cat : Catalogue)
    (L : Z) (toks : list string) (ein efin estep : Expr)
    (h : list ExprTreeNode) (N : gmap Z (option IRValue)) (I : gmap Z bool)
    (cin cfin cstep : IRValue) :
  (0 < L < 2 ^ 32)%Z →
  LoopIDToLoopBoundsMap cat !! L = Some toks →
  splitTokens toks 0 ([], [], [])
  = (reverse (postfix ein), reverse (postfix efin), reverse (postfix estep)) →
  boundBuilt (boundsUnknowns CI (length h) ein efin estep) (length h) ein cin →
  boundBuilt (boundsUnknowns CI (length h) ein efin estep)
    (length h + nodeCount ein) efin cfin →
  boundBuilt (boundsUnknowns CI (length h) ein efin estep)
    (length h + nodeCount ein + nodeCount efin) estep cstep →
  (typeOf cin = i32 ∨ typeOf cin = i64) →
  (typeOf cfin = i32 ∨ typeOf cfin = i64) →
  (typeOf cstep = i32 ∨ typeOf cstep = i64) →
  (typeOf cin = i64 ∨ typeOf cfin = i64 ∨ typeOf cstep = i64) →
  loopIterationEntry CI cat L (h, N, I) = Abort.
Proof.
  intros HL Htoks Hsplit B1 B2 B3 T1 T2 T3 Hwide.
  rewrite (loopIterationEntry_exprs CI cat L toks ein efin estep h N I
             cin cfin cstep HL Htoks Hsplit B1 B2 B3).
  destruct (insertComputationNode_sub_div_int ETO_SUB cfin cin (or_introl eq_refl)
              T2 T1) as (s & Hs & Hts).
  rewrite Hs. cbn [mbind outcome_bind].
  assert (Hsty : typeOf s = i32 ∨ typeOf s = i64).
  { rewrite Hts. destruct (_ && _); auto. }
  destruct (insertComputationNode_sub_div_int ETO_DIV s cstep (or_intror eq_refl)
              Hsty T3) as (v & Hv & Htv).
  rewrite Hv. cbn [mbind outcome_bind deref].
  rewrite bool_decide_false; [reflexivity|].
  rewrite Htv, Hts.
  destruct T1 as [T1|T1], T2 as [T2|T2], T3 as [T3|T3]; rewrite T1, T2, T3;
    simpl; try discriminate; destruct Hwide as [E|[E|E]]; congruence.
Qed.

Lemma loop_iterations_wide_bound_witness :
  let CI := mkInvocation ∅ ∅ ∅ ∅ {[ 1%Z := mkValue 7 KOther i64 ]} ∅ ∅ ∅ [] ∅ ∅ in
  loopIterationEntry CI
    (one_loop ["IN"; "0"; "FIN"; "ARG1"; "STEP"; "1"]%string) 1 ([], ∅, ∅)
  = Abort.
Proof.
  intros CI.
  apply (loop_iterations_wide_bound CI
           (one_loop ["IN"; "0"; "FIN"; "ARG1"; "STEP"; "1"]%string)
           1%Z ["IN"; "0"; "FIN"; "ARG1"; "STEP"; "1"]%string
           (Leaf "0") (Leaf "ARG1") (Leaf "1") [] ∅ ∅
           (VConst i32 0) (VHost (mkValue 7 KOther i64) i64) (VConst i32 1)).
  - lia.
  - reflexivity.
  - reflexivity.
  - repeat split; try discriminate; try (cbn; lia);
      try (eexists; split; [reflexivity|]; discriminate).
  - repeat split; try discriminate; try (cbn; lia);
      try (eexists; split; [reflexivity|];
           first [discriminate | intros _; eexists; reflexivity]).
  - repeat split; try discriminate; try (cbn; lia);
      try (eexists; split; [reflexivity|]; discriminate).
  - by left.
  - by right.
  - by left.
  - right. by left.
Defined.

(** * Loop accounting: constant bounds and incomputable loops *)

Lemma pretty_isNumber (z : Z) : isNumber (pretty z) = true.
Proof.
  destruct z as [|p|p].
  - reflexivity.
  - destruct (pretty_positive_digits p) as (d & ds & Hs & Hdig & _).
    apply isNumber_spec. right. by rewrite Hs.
  - change (pretty (Z.neg p)) with (String "-" (pretty (Z.pos p))).
    apply isNumber_spec. left. by eexists.
Qed.

Lemma isNumber_not_keyword s :
  isNumber s = true →
  String.eqb s "IN" = false ∧ String.eqb s "FIN" = false ∧
  String.eqb s "STEP" = false.
Proof.
  intros H. repeat split;
    match goal with
    | |- String.eqb s ?k = false =>
        destruct (String.eqb_spec s k) as [->|]; [vm_compute in H; discriminate|done]
    end.
Qed.

Lemma splitTokens_numbers s0 s1 s2 :
  isNumber s0 = true → isNumber s1 = true → isNumber s2 = true →
  splitTokens ["IN"; s0; "FIN"; s1; "STEP"; s2]%string 0 ([], [], [])
  = ([s0], [s1], [s2]).
Proof.
  intros H0 H1 H2.
  destruct (isNumber_not_keyword _ H0) as (A0 & B0 & C0).
  destruct (isNumber_not_keyword _ H1) as (A1 & B1 & C1).
  destruct (isNumber_not_keyword _ H2) as (A2 & B2 & C2).
  cbn [splitTokens]. change (String.eqb "IN" "IN") with true. cbv iota.
  rewrite A0, B0, C0.
  change (String.eqb "FIN" "IN") with false.
  change (String.eqb "FIN" "FIN") with true. cbv iota.
  rewrite A1, B1, C1.
  change (String.eqb "STEP" "IN") with false.
  change (String.eqb "STEP" "FIN") with false.
  change (String.eqb "STEP" "STEP") with true. cbv iota.
  rewrite A2, B2, C2. reflexivity.
Qed.

Lemma stoi_pretty z : (INT_MIN ≤ z ≤ INT_MAX)%Z → stoi (pretty z) = Ret z.
Proof.
  intros [Hlo Hhi]. destruct (pretty_constant z) as [_ ->].
  apply Z.leb_le in Hlo, Hhi. by rewrite Hlo, Hhi.
Qed.

(** The iteration count of a loop whose bound tokens are numbers. *)
Lemma loopIterationEntry_count CI cat L toks s0 s1 s2 i0 i1 s h N I :
  (0 < L < 2 ^ 32)%Z →
  LoopIDToLoopBoundsMap cat !! L = Some toks →
  splitTokens toks 0 ([], [], []) = ([s0], [s1], [s2]) →
  isNumber s0 = true → isNumber s1 = true → isNumber s2 = true →
  stoi s0 = Ret i0 → stoi s1 = Ret i1 → stoi s2 = Ret s →
  (i0 ≤ i1)%Z → (0 < s)%Z →
  ∃ h' ItersValue,
    loopIterationEntry CI cat L (h, N, I)
    = Ret (h', <[L := Some ItersValue]> N, <[L := false]> I) ∧
    typeOf ItersValue = i32 ∧
    ∀ rho, denote rho ItersValue = Some ((i1 - i0) / s)%Z.
Proof.
  intros HL Htoks Hsplit H0 H1 H2 S0 S1 S2 H01 Hs.
  do 2 eexists. split; [|split].
  - by eapply loopIterationEntry_numbers.
  - reflexivity.
  - intros rho. pose proof (stoi_range _ _ S0). pose proof (stoi_range _ _ S1).
    pose proof (stoi_range _ _ S2). apply denote_loopIters; lia.
Qed.

Section FlaggedLoop.
Context {PartDiffCode : Type}.
Context (insertCodeToComputePartDiff :
           Invocation → HostValue → option ptr → outcome PartDiffCode).
Context (estimateWorkingSetSizeAdvanced :
           Invocation → option ptr → option IRValue →
           gmap Z (option IRValue) → outcome IRValue).

(** What is emitted for an access whose enclosing loop is flagged. *)
Lemma accessDensityFor_flagged CI cat fi fni inv T N I AID loopid :
  loopid ≠ 0%Z → I !! loopid = Some true →
  accessDensityFor insertCodeToComputePartDiff estimateWorkingSetSizeAdvanced
    CI cat fi fni inv T N I AID loopid
  = (Allocation ←
       deref (KernelInvocationToArgNumberToAllocationMap cat
                !! default 0%Z (KernelNameToAccessIDToAllocationArgMap cat !! AID));
     pc ← isPointerChase (nodes CI)
            (KernelNameToAccessIDToExpressionTreeMap cat !! AID);
     Ret [if pc : bool
          then add_aid_pchase_map AID Allocation (insertConstantNode_bool true)
          else add_aid_ac_incomp_map AID (insertConstantNode_bool true)]).
Proof.
  intros Hl HI. unfold accessDensityFor.
  destruct (deref (KernelInvocationToArgNumberToAllocationMap cat !! _))
    as [Allocation| | | |]; cbn [mbind outcome_bind]; try reflexivity.
  destruct (isPointerChase _ _) as [[]| | | |]; cbn [mbind outcome_bind];
    try reflexivity.
  unfold executionCount. rewrite bool_decide_false by done. by rewrite HI.
Qed.

End FlaggedLoop.

(** C3, where the claim fails.
    - The difference of the bounds is taken on unsigned 32-bit values: with
      the bounds 10 and 0 and the step 3 it wraps around, and the quotient
      emitted is 1431655762, which is not [(0 - 10) / 3] under any integer
      division.
    - A constant is read by [std::stoi]: with the final bound 3000000000 it
      throws, and no count is produced.
    - A token that is no operator ends the pass on an assertion, where the
      claim has the loop flagged: in the final bound, and also in the step of
      a loop without initial bound, since the three trees are built before
      the first two are looked at.
    - The marker [INCOMP] as final bound gives a tree, whose code is the
      constant 0: the loop from 0 to [INCOMP] is recorded as computable, with
      0 iterations.
    - The loop with id 0 and constant bounds is flagged incomputable.
    - An access in a computable loop nested in a loop that is flagged: the
      flag of the outer loop is not looked at, the iteration count of the
      outer loop is a null pointer and it is dereferenced.
    - An access without recorded allocation in a loop that is flagged: the
      null allocation is dereferenced before the flag is looked at. *)
Lemma C3_counterexample :
  (∃ h' ItersValue,
     loopIterationEntry emptyInvocation
       (one_loop ["IN"; "10"; "FIN"; "0"; "STEP"; "3"]%string) 1 ([], ∅, ∅)
     = Ret (h', {[ 1%Z := Some ItersValue ]}, {[ 1%Z := false ]}) ∧
     denote (λ _, 0%Z) ItersValue = Some 1431655762%Z ∧
     1431655762%Z ≠ ((0 - 10) / 3)%Z ∧ 1431655762%Z ≠ ((0 - 10) ÷ 3)%Z) ∧
  loopIterationEntry emptyInvocation
    (one_loop ["IN"; "0"; "FIN"; "3000000000"; "STEP"; "1"]%string) 1 ([], ∅, ∅)
  = Exception ∧
  loopIterationEntry emptyInvocation
    (one_loop ["IN"; "0"; "FIN"; "FOO"; "STEP"; "1"]%string) 1 ([], ∅, ∅)
  = Abort ∧
  loopIterationEntry emptyInvocation
    (one_loop ["FIN"; "100"; "STEP"; "FOO"]%string) 1 ([], ∅, ∅)
  = Abort ∧
  (∃ h' ItersValue,
     loopIterationEntry emptyInvocation
       (one_loop ["IN"; "0"; "FIN"; "INCOMP"; "STEP"; "1"]%string) 1 ([], ∅, ∅)
     = Ret (h', {[ 1%Z := Some ItersValue ]}, {[ 1%Z := false ]}) ∧
     ∀ rho, denote rho ItersValue = Some 0%Z) ∧
  loopIterationEntry emptyInvocation
    (mkCatalogue {[ 0%Z := ["IN"; "0"; "FIN"; "100"; "STEP"; "3"]%string ]}
       ∅ ∅ ∅ ∅ ∅ [] ∅) 0 ([], ∅, ∅)
  = Ret ([], ∅, {[ 0%Z := true ]}) ∧
  (let CI := arg0_bound_to 10 [leaf ETO_ARG] in
   let cat := access_in_nested_loops
                ["IN"; "0"; "FIN"; "10"; "STEP"; "1"]%string
                ["FIN"; "10"; "STEP"; "1"]%string in
   ∃ h N I,
     insertCodeToComputeKernelLoopIterationCount CI cat (nodes CI, ∅, ∅)
     = Ret (h, N, I) ∧
     I !! 1%Z = Some true ∧ I !! 2%Z = Some false ∧
     ∀ (pdf : Invocation → HostValue → option ptr → outcome unit)
       (wssf : Invocation → option ptr → option IRValue →
               gmap Z (option IRValue) → outcome IRValue),
       insertCodeToComputeAccessDensity pdf wssf CI cat false false 1
         (Some threads_in_grid) N I = Undefined) ∧
  (∀ (pdf : Invocation → HostValue → option ptr → outcome unit)
     (wssf : Invocation → option ptr → option IRValue →
             gmap Z (option IRValue) → outcome IRValue),
     accessDensityFor pdf wssf (arg0_bound_to 10 [leaf ETO_ARG])
       (mkCatalogue ∅ ∅ {[ 1%Z := 1%Z ]} {[ 1%Z := 0%Z ]} {[ 1%Z := 0 ]} ∅ [] ∅)
       false false 1 (Some threads_in_grid) ∅ {[ 1%Z := true ]} 1 1
     = Undefined).
Proof.
  split.
  { do 2 eexists. split; [vm_compute; reflexivity|].
    split; [vm_compute; reflexivity|]. split; vm_compute; discriminate. }
  split; [vm_compute; reflexivity|].
  split; [vm_compute; reflexivity|].
  split; [vm_compute; reflexivity|].
  split.
  { do 2 eexists. split; [vm_compute; reflexivity|]. intros rho. reflexivity. }
  split; [vm_compute; reflexivity|].
  split.
  { cbv zeta. do 3 eexists. split; [vm_compute; reflexivity|].
    split; [vm_compute; reflexivity|]. split; [vm_compute; reflexivity|].
    intros pdf wssf. vm_compute. reflexivity. }
  intros pdf wssf. vm_compute. reflexivity.
Qed.

(** C3.  A loop with a non-zero id whose bound tokens are three numbers that
    [std::stoi] reads as [i0] (initial), [i1] (final) and [s] (step), with
    [i0 ≤ i1] and [0 < s]: the code emitted for the loop computes
    [(i1 - i0) / s] and the loop is recorded as computable; this holds in
    particular for the tokens [IN i0 FIN i1 STEP s] with the three numbers of
    the range of [int] written in decimal.  If the builder returns on the
    tokens of the initial bound, of the final bound and of the step, and
    returns no tree for the initial or for the final bound, the loop is
    flagged incomputable and no iteration count is recorded for it (the map of
    iteration counts is left as it was; for the id 0 the trees are not even
    built).  For an access whose enclosing loop is flagged incomputable, what
    is emitted after the look-up of its allocation and of its tree is one
    call, which flags the access as a pointer chase or reports it as
    incomputable: no execution count, no partial difference, no working-set
    size. *)
Theorem C3_loop_iterations :
  (∀ CI cat L toks s0 s1 s2 i0 i1 s h N I,
     (0 < L < 2 ^ 32)%Z →
     LoopIDToLoopBoundsMap cat !! L = Some toks →
     splitTokens toks 0 ([], [], []) = ([s0], [s1], [s2]) →
     isNumber s0 = true → isNumber s1 = true → isNumber s2 = true →
     stoi s0 = Ret i0 → stoi s1 = Ret i1 → stoi s2 = Ret s →
     (i0 ≤ i1)%Z → (0 < s)%Z →
     ∃ h' ItersValue,
       loopIterationEntry CI cat L (h, N, I)
       = Ret (h', <[L := Some ItersValue]> N, <[L := false]> I) ∧
       typeOf ItersValue = i32 ∧
       ∀ rho, denote rho ItersValue = Some ((i1 - i0) / s)%Z) ∧
  (∀ CI cat L i0 i1 s h N I,
     (0 < L < 2 ^ 32)%Z →
     LoopIDToLoopBoundsMap cat !! L
       = Some ["IN"; pretty i0; "FIN"; pretty i1; "STEP"; pretty s]%string →
     (INT_MIN ≤ i0)%Z → (i0 ≤ i1)%Z → (i1 ≤ INT_MAX)%Z →
     (0 < s)%Z → (s ≤ INT_MAX)%Z →
     ∃ h' ItersValue,
       loopIterationEntry CI cat L (h, N, I)
       = Ret (h', <[L := Some ItersValue]> N, <[L := false]> I) ∧
       typeOf ItersValue = i32 ∧
       ∀ rho, denote rho ItersValue = Some ((i1 - i0) / s)%Z) ∧
  (∀ CI cat L toks t0 t1 t2 h h1 h2 h3 In Fin Step N I,
     (0 ≤ L < 2 ^ 32)%Z →
     LoopIDToLoopBoundsMap cat !! L = Some toks →
     splitTokens toks 0 ([], [], []) = (t0, t1, t2) →
     createExpressionTree t0 h = Ret (h1, In) →
     createExpressionTree t1 h1 = Ret (h2, Fin) →
     createExpressionTree t2 h2 = Ret (h3, Step) →
     In = None ∨ Fin = None →
     loopIterationEntry CI cat L (h, N, I)
     = Ret (if bool_decide (L = 0%Z) then h else h3, N, <[L := true]> I)) ∧
  (∀ (PartDiffCode : Type)
     (pdf : Invocation → HostValue → option ptr → outcome PartDiffCode)
     (wssf : Invocation → option ptr → option IRValue →
             gmap Z (option IRValue) → outcome IRValue)
     CI cat fi fni inv T N I AID loopid,
     loopid ≠ 0%Z → I !! loopid = Some true →
     (∀ Allocation pc,
        KernelInvocationToArgNumberToAllocationMap cat
          !! default 0%Z (KernelNameToAccessIDToAllocationArgMap cat !! AID)
          = Some Allocation →
        isPointerChase (nodes CI)
          (KernelNameToAccessIDToExpressionTreeMap cat !! AID) = Ret pc →
        accessDensityFor pdf wssf CI cat fi fni inv T N I AID loopid
        = Ret [if pc : bool
               then add_aid_pchase_map AID Allocation (insertConstantNode_bool true)
               else add_aid_ac_incomp_map AID (insertConstantNode_bool true)]) ∧
     (∀ calls,
        accessDensityFor pdf wssf CI cat fi fni inv T N I AID loopid = Ret calls →
        (∃ Allocation,
           calls = [add_aid_pchase_map AID Allocation (insertConstantNode_bool true)]) ∨
        calls = [add_aid_ac_incomp_map AID (insertConstantNode_bool true)])).
Proof.
  split; [|split; [|split]].
  - intros. by eapply loopIterationEntry_count.
  - intros CI cat L i0 i1 s h N I HL Htoks Hlo H01 Hhi Hs Hshi.
    pose proof (pretty_isNumber i0) as N0. pose proof (pretty_isNumber i1) as N1.
    pose proof (pretty_isNumber s) as N2. unfold INT_MIN, INT_MAX in *.
    eapply (loopIterationEntry_count CI cat L _ (pretty i0) (pretty i1) (pretty s));
      [exact HL | exact Htoks | by apply splitTokens_numbers | done | done | done
      | apply stoi_pretty; unfold INT_MIN, INT_MAX; lia
      | apply stoi_pretty; unfold INT_MIN, INT_MAX; lia
      | apply stoi_pretty; unfold INT_MIN, INT_MAX; lia
      | done | done].
  - intros CI cat L toks t0 t1 t2 h h1 h2 h3 In Fin Step N I HL Htoks Hsplit
      B0 B1 B2 Hnull.
    case_bool_decide as HL0; [subst L; reflexivity|].
    eapply loopIterationEntry_unbuilt; [lia|done..].
  - intros PartDiffCode pdf wssf CI cat fi fni inv T N I AID loopid Hl HI.
    pose proof (accessDensityFor_flagged pdf wssf CI cat fi fni inv T N I AID
                  loopid Hl HI) as Heq.
    split.
    + intros Allocation pc Ha Hpc. rewrite Heq, Ha. cbn [deref mbind outcome_bind].
      by rewrite Hpc.
    + intros calls. rewrite Heq.
      destruct (deref _) as [Allocation| | | |]; cbn [mbind outcome_bind];
        try discriminate.
      destruct (isPointerChase _ _) as [[]| | | |]; cbn [mbind outcome_bind];
        try discriminate; intros [= <-]; [left; by eexists|by right].
Qed.

Lemma C3_loop_iterations_witness :
  (∃ h' ItersValue,
     loopIterationEntry emptyInvocation
       (one_loop ["IN"; "0"; "FIN"; "100"; "STEP"; "3"]%string) 1 ([], ∅, ∅)
     = Ret (h', <[1%Z := Some ItersValue]> ∅, <[1%Z := false]> ∅) ∧
     typeOf ItersValue = i32 ∧
     ∀ rho, denote rho ItersValue = Some ((100 - 0) / 3)%Z) ∧
  (∃ h' ItersValue,
     loopIterationEntry emptyInvocation
       (one_loop ["IN"; pretty (-5)%Z; "FIN"; pretty 7%Z; "STEP"; pretty 2%Z]%string)
       1 ([], ∅, ∅)
     = Ret (h', <[1%Z := Some ItersValue]> ∅, <[1%Z := false]> ∅) ∧
     typeOf ItersValue = i32 ∧
     ∀ rho, denote rho ItersValue = Some ((7 - -5) / 2)%Z) ∧
  loopIterationEntry emptyInvocation
    (one_loop ["FIN"; "100"; "STEP"; "3"]%string) 1 ([], ∅, ∅)
  = Ret ([numNode "100"; numNode "3"], ∅, <[1%Z := true]> ∅) ∧
  accessDensityFor (λ _ _ _, Ret tt) (λ _ _ _ _, Ret threads_in_grid)
    (arg0_bound_to 10 [leaf ETO_ARG]) (one_access []) false false 1
    (Some threads_in_grid) ∅ {[ 1%Z := true ]} 1 1
  = Ret [add_aid_ac_incomp_map 1 (insertConstantNode_bool true)].
Proof.
  destruct C3_loop_iterations as (H1 & H1' & H2 & H3).
  split; [|split; [|split]].
  - apply (H1 emptyInvocation
             (one_loop ["IN"; "0"; "FIN"; "100"; "STEP"; "3"]%string) 1%Z
             ["IN"; "0"; "FIN"; "100"; "STEP"; "3"]%string
             "0"%string "100"%string "3"%string 0%Z 100%Z 3%Z [] ∅ ∅);
      [lia | reflexivity | reflexivity | reflexivity | reflexivity | reflexivity
      | reflexivity | reflexivity | reflexivity | lia | lia].
  - apply (H1' emptyInvocation
             (one_loop ["IN"; pretty (-5)%Z; "FIN"; pretty 7%Z; "STEP";
                        pretty 2%Z]%string) 1%Z (-5)%Z 7%Z 2%Z [] ∅ ∅);
      [lia | reflexivity | vm_compute; discriminate | lia
      | vm_compute; discriminate | lia | vm_compute; discriminate].
  - apply (H2 emptyInvocation (one_loop ["FIN"; "100"; "STEP"; "3"]%string) 1%Z
             ["FIN"; "100"; "STEP"; "3"]%string [] ["100"%string] ["3"%string]
             [] [] [numNode "100"] [numNode "100"; numNode "3"]
             None (Some 0) (Some 1) ∅ ∅);
      [lia | reflexivity | reflexivity | reflexivity | reflexivity | reflexivity
      | by left].
  - destruct (H3 unit (λ _ _ _, Ret tt) (λ _ _ _ _, Ret threads_in_grid)
             (arg0_bound_to 10 [leaf ETO_ARG]) (one_access []) false false 1%Z
             (Some threads_in_grid) ∅ {[ 1%Z := true ]} 1%Z 1%Z) as [H _];
      [lia | reflexivity |].
    apply (H allocation0 false); reflexivity.
Defined.
